(** * Scenario-tree generator of MIND (planners/mind/scenario_tree.py)

    A shallow embedding of [ScenarioTreeGenerator]: the tree of scenario
    nodes, the branch decision, the prune-and-merge engine, the high-level
    command resolver and the extraction of the probability-weighted
    scenario trees.

    Conventions.
    - Tensors are lists: a [N, L, 2] tensor is a [list (list vec2)], a
      [N, L, 1] tensor a [list (list Q)].
    - Finite floating-point numbers are rationals ([Q]) and arithmetic on
      them is exact; the special values a division can produce (NaN and the
      infinities) are kept, see [fval].
    - Python exceptions are values of [exn]; a function that can raise
      returns a [result].  A [while] loop whose exit depends on the data
      takes a bound on its iterations and ends in [OutOfFuel], which is not
      a Python exception, when the bound is reached: the loop in Python
      would still be running.
    - Shapes agree, as the batching precondition of the network demands:
      where two tensors are combined element by element the model pairs
      their common prefix.
    - Time steps, lengths, depths and indices are natural numbers. *)

From Stdlib Require Import List String Ascii Bool Arith PeanoNat Lia.
From Stdlib Require Import ZArith QArith Qabs Qround Qpower.
From Stdlib Require Import DecimalString DecimalNat.
From Stdlib Require Import Permutation.
Import ListNotations.

Set Implicit Arguments.
Local Open Scope Q_scope.

(* ================================================================== *)
(** ** Exceptions *)

Inductive exn : Type :=
| AssertionError (msg : string)
| IndexError
| KeyError
| ValueError
| TypeError
| RuntimeError
| OutOfFuel.

Inductive result (A : Type) : Type :=
| Ok (a : A)
| Raise (e : exn).

Arguments Ok {A} a.
Arguments Raise {A} e.

Definition bind {A B : Type} (r : result A) (k : A -> result B) : result B :=
  match r with
  | Ok a => k a
  | Raise e => Raise e
  end.

Notation "x <- r ;; k" := (bind r (fun x => k))
  (at level 61, r at next level, right associativity).
Notation "' pat <- r ;; k" := (bind r (fun x => match x with pat => k end))
  (at level 61, pat pattern, r at next level, right associativity).

Definition is_ok {A : Type} (r : result A) : bool :=
  match r with Ok _ => true | Raise _ => false end.

(** A lookup that raises when the key or index is absent. *)
Definition or_raise {A : Type} (e : exn) (o : option A) : result A :=
  match o with Some a => Ok a | None => Raise e end.

(** [for x in l: acc = f(acc, x)], stopping at the first exception. *)
Fixpoint foldM {A S : Type} (f : S -> A -> result S) (l : list A) (s : S)
  : result S :=
  match l with
  | [] => Ok s
  | x :: l' => s' <- f s x ;; foldM f l' s'
  end.

Fixpoint mapM {A B : Type} (f : A -> result B) (l : list A) : result (list B) :=
  match l with
  | [] => Ok []
  | x :: l' => y <- f x ;; ys <- mapM f l' ;; Ok (y :: ys)
  end.

(* ================================================================== *)
(** ** Numbers *)

Definition Qltb (x y : Q) : bool := negb (Qle_bool y x).

(** The value of a floating-point expression: a finite number, an
    infinity, or NaN. *)
Inductive fval : Type :=
| Fin (q : Q)
| PInf
| NInf
| NaN.


(** IEEE division of two finite numbers: a zero divisor gives NaN for
    [0/0] and a signed infinity otherwise. *)
Definition fdiv (x y : Q) : fval :=
  if Qeq_bool y 0 then
    if Qeq_bool x 0 then NaN
    else if Qltb 0 x then PInf else NInf
  else Fin (x / y).

Definition fneg (x : fval) : fval :=
  match x with
  | Fin q => Fin (- q)
  | PInf => NInf
  | NInf => PInf
  | NaN => NaN
  end.

Definition fadd (x y : fval) : fval :=
  match x, y with
  | NaN, _ | _, NaN => NaN
  | Fin a, Fin b => Fin (a + b)
  | PInf, NInf | NInf, PInf => NaN
  | PInf, _ | _, PInf => PInf
  | NInf, _ | _, NInf => NInf
  end.

Definition fsub (x y : fval) : fval := fadd x (fneg y).

Definition fsign_mul (pos : bool) (q : Q) : fval :=
  if Qeq_bool q 0 then NaN
  else if Bool.eqb pos (Qltb 0 q) then PInf else NInf.

Definition fmul (x y : fval) : fval :=
  match x, y with
  | NaN, _ | _, NaN => NaN
  | Fin a, Fin b => Fin (a * b)
  | PInf, Fin b => fsign_mul true b
  | NInf, Fin b => fsign_mul false b
  | Fin a, PInf => fsign_mul true a
  | Fin a, NInf => fsign_mul false a
  | PInf, PInf | NInf, NInf => PInf
  | PInf, NInf | NInf, PInf => NInf
  end.

Definition fabs (x : fval) : fval :=
  match x with
  | Fin q => Fin (Qabs q)
  | PInf | NInf => PInf
  | NaN => NaN
  end.

(** [x > y]; every comparison with NaN is false. *)
Definition fgtb (x y : fval) : bool :=
  match x, y with
  | NaN, _ | _, NaN => false
  | Fin a, Fin b => Qltb b a
  | PInf, PInf => false
  | PInf, _ => true
  | _, PInf => false
  | NInf, _ => false
  | Fin _, NInf => true
  end.

Definition fsum (l : list fval) : fval := fold_left fadd l (Fin 0).

Definition Qsum (l : list Q) : Q := fold_left Qplus l 0.

Definition vec2 : Type := Q * Q.
Definition mat2 : Type := (Q * Q) * (Q * Q).

Definition vsub (a b : vec2) : vec2 := (fst a - fst b, snd a - snd b).
Definition vadd (a b : vec2) : vec2 := (fst a + fst b, snd a + snd b).

(** [v @ m] for a row vector [v]. *)
Definition vmatmul (v : vec2) (m : mat2) : vec2 :=
  (fst v * fst (fst m) + snd v * fst (snd m),
   fst v * snd (fst m) + snd v * snd (snd m)).

Definition transpose (m : mat2) : mat2 :=
  ((fst (fst m), fst (snd m)), (snd (fst m), snd (snd m))).

(** The numeric primitives of torch the generator calls: square root
    (inside [torch.norm]), sine, cosine, [atan2] and the constant pi. *)
Class Backend : Type := {
  b_sqrt : Q -> Q;
  b_sin : Q -> Q;
  b_cos : Q -> Q;
  b_atan2 : Q -> Q -> Q;
  b_pi : Q
}.

Section Numeric.
  Context {B : Backend}.

  (** [torch.norm(v)] of a 2-vector. *)
Definition norm (v : vec2) : Q := b_sqrt (fst v * fst v + snd v * snd v).

Definition fsin (x : fval) : fval :=
    match x with Fin q => Fin (b_sin q) | _ => NaN end.

Definition fcos (x : fval) : fval :=
    match x with Fin q => Fin (b_cos q) | _ => NaN end.

  (** [torch.atan2(y, x)]: NaN when an argument is NaN; an infinite
      argument gives the angle of the corresponding direction. *)
Definition fatan2 (y x : fval) : fval :=
    match y, x with
    | NaN, _ | _, NaN => NaN
    | Fin a, Fin b => Fin (b_atan2 a b)
    | PInf, PInf => Fin (b_atan2 1 1)
    | PInf, NInf => Fin (b_atan2 1 (-1))
    | NInf, PInf => Fin (b_atan2 (-1) 1)
    | NInf, NInf => Fin (b_atan2 (-1) (-1))
    | PInf, Fin _ => Fin (b_atan2 1 0)
    | NInf, Fin _ => Fin (b_atan2 (-1) 0)
    | Fin a, PInf => Fin 0
    | Fin a, NInf => if Qltb a 0 then Fin (- b_atan2 0 (-1)) else Fin (b_atan2 0 (-1))
    end.

  (** [torch.atan2(torch.sin(d), torch.cos(d))]: the angle wrapped into
      (-pi, pi]. *)
Definition wrap_angle (d : fval) : fval := fatan2 (fsin d) (fcos d).

End Numeric.

(* ================================================================== *)
(** ** The tree of nodes (planners/basic/tree.py) *)

Module Tree.

  (** Modelled from the spec: planners/basic/tree.py ([Node] and its
      fields) is not among the sources.  "Node = {key, parent_key
      (nullable), children_keys (ordered sequence), depth, payload}". *)
Record Node (A : Type) : Type := mkNode {
    key : string;
    parent_key : option string;
    children_keys : list string;
    depth : nat;
    data : A
  }.

  (** Modelled from the spec: planners/basic/tree.py ([Tree]) is not among
      the sources.  "A mapping from node key to Node"; the nodes are kept
      in insertion order, as a Python dict keeps them. *)
Definition t (A : Type) : Type := list (Node A).

  Section Ops.
    Context {A : Type}.

Definition empty : t A := [].

Definition has_key (k : string) (n : Node A) : bool := String.eqb (key n) k.

    (** Modelled from the spec: [Tree.get_node], "lookup". *)
Definition get_node (tr : t A) (k : string) : option (Node A) :=
      find (has_key k) tr.

Definition is_root (n : Node A) : bool :=
      match parent_key n with None => true | Some _ => false end.

    (** Modelled from the spec: [Tree.get_root], the node whose parent key
        is null. *)
Definition get_root (tr : t A) : option (Node A) := find is_root tr.

Definition is_leaf (n : Node A) : bool :=
      match children_keys n with [] => true | _ :: _ => false end.

    (** Modelled from the spec: [Tree.get_leaf_nodes], "leaf enumeration":
        the nodes without children. *)
Definition get_leaf_nodes (tr : t A) : list (Node A) := filter is_leaf tr.

Definition add_child (p c : string) (n : Node A) : Node A :=
      if has_key p n
      then mkNode (key n) (parent_key n) (children_keys n ++ [c]) (depth n) (data n)
      else n.

    (** Modelled from the spec: [Tree.add_node], "insertion".  The spec's
        invariants are its preconditions: "no key appears twice", "every
        non-root key's parent exists in the tree before insertion", "depth
        = parent.depth + 1", "append-only children list".  An insertion
        that would break one of them raises. *)
Definition add_node (tr : t A) (k : string) (pk : option string) (d : A)
      : result (t A) :=
      match get_node tr k with
      | Some _ => Raise ValueError
      | None =>
          match pk with
          | None => Ok (tr ++ [mkNode k None [] 0 d])
          | Some p =>
              match get_node tr p with
              | None => Raise ValueError
              | Some pn =>
                  Ok (map (add_child p k) tr ++ [mkNode k (Some p) [] (S (depth pn)) d])
              end
          end
      end.

    (** An in-place update of the payload of the node object with key
        [k]. *)
Definition modify_data (k : string) (f : A -> A) (n : Node A) : Node A :=
      if has_key k n
      then mkNode (key n) (parent_key n) (children_keys n) (depth n) (f (data n))
      else n.

Definition keys (tr : t A) : list string := map (@key A) tr.

  End Ops.

End Tree.

(* ================================================================== *)
(** ** Scenario payloads *)

(** Agent metadata carried through unchanged. *)
Record TrajMeta : Type := mkMeta {
  TRAJS_TYPE : list (list Q);
  TRAJS_TID : list string;
  TRAJS_CAT : list string
}.

(** The dict [cur_data] that [prune_merge] builds for a surviving mode:
    the payload [ScenarioData.data] of a scenario node. *)
Record PredData : Type := mkPred {
  SCEN_PROB : Q;
  CUR_T : nat;
  END_T : nat;
  PARENT_ID : string;
  SCEN_ID : string;
  TRAJS : TrajMeta;
  TRAJS_POS_HIST : list (list vec2);
  TRAJS_COV_HIST : list (list Q);
  TRAJS_ANG_HIST : list (list Q);
  TRAJS_VEL_HIST : list (list vec2);
  TGT_PTS : list vec2
}.

Definition set_END_T (t : nat) (d : PredData) : PredData :=
  mkPred (SCEN_PROB d) (CUR_T d) t (PARENT_ID d) (SCEN_ID d) (TRAJS d)
         (TRAJS_POS_HIST d) (TRAJS_COV_HIST d) (TRAJS_ANG_HIST d)
         (TRAJS_VEL_HIST d) (TGT_PTS d).

(** [x[:, :n]] and [x[:, -n:]] on a [N, L, ...] tensor. *)
Definition slice_to {A : Type} (n : nat) (x : list (list A)) : list (list A) :=
  map (firstn n) x.

(** [l[-n:]]: Python reads [l[-0:]] as the whole of [l]. *)
Definition lastn {A : Type} (n : nat) (l : list A) : list A :=
  match n with
  | O => l
  | _ => skipn (List.length l - n) l
  end.

Definition slice_last {A : Type} (n : nat) (x : list (list A)) : list (list A) :=
  map (lastn n) x.

(** [x[:, i]]: raises IndexError when [i] is out of range. *)
Definition column {A : Type} (i : nat) (x : list (list A)) : result (list A) :=
  mapM (fun row => or_raise IndexError (nth_error row i)) x.

(* ================================================================== *)
(** ** Collaborators outside the sources *)

Definition fvec2 : Type := fval * fval.

Definition fin2 (v : vec2) : fvec2 := (Fin (fst v), Fin (snd v)).

(** The helpers of planners/mind/utils.py that the generator calls and the
    types they exchange.  utils.py is not among the sources: the helpers
    are parameters of the development. *)
Class Utils : Type := {
  LaneGraph : Type;
  Rpe : Type;
  CovParam : Type;
  MapData : Type;
  AgentObs : Type;
  (** [get_origin_rotation(traj_pos, traj_ang, device)]: origin, rotation
      matrix and heading of the frame of a trajectory. *)
  get_origin_rotation : list vec2 -> list Q -> vec2 * mat2 * Q;
  get_new_lane_graph : LaneGraph -> vec2 -> mat2 -> LaneGraph;
  update_lane_graph_from_argo : MapData -> vec2 -> mat2 -> LaneGraph;
  lane_ctrs : LaneGraph -> list vec2;
  lane_vecs : LaneGraph -> list vec2;
  (** [get_rpe(ctrs, vecs)]: the relative-position encoding and its mask. *)
  get_rpe : list fvec2 -> list fvec2 -> Rpe;
  (** [get_angle(vel)]: the heading of a velocity or of a (cos, sin) pair. *)
  get_angle : vec2 -> Q;
  (** [get_max_covariance(params)]: the largest standard deviation. *)
  get_max_covariance : CovParam -> Q;
  get_distance_to_polyline : list vec2 -> vec2 -> Q;
  (** [get_agent_trajectories(agent_obs, device)]: positions, headings,
      velocities, types, validity flags, track ids and categories. *)
  get_agent_trajectories :
    AgentObs -> list (list vec2) * list (list Q) * list (list vec2) *
                list (list Q) * list (list Q) * list string * list string
}.

(** [self.config]. *)
Record Config : Type := mkConfig {
  max_depth : nat;
  tar_dist_thres : Q;
  tar_time_ahead : Q
}.

(* ================================================================== *)
(** ** High-level command resolver *)

(** [torch.argmin]: the index of the first minimal value; empty input
    raises. *)
Fixpoint argmin_from (i best : nat) (bv : Q) (l : list Q) : nat :=
  match l with
  | [] => best
  | x :: l' => if Qltb x bv then argmin_from (S i) i x l'
               else argmin_from (S i) best bv l'
  end.

Definition argmin (l : list Q) : result nat :=
  match l with
  | [] => Raise IndexError
  | x :: l' => Ok (argmin_from 1 0 x l')
  end.

(** [t[i]] for a Python integer [i]: a negative index counts from the
    end, an index out of range raises IndexError. *)
Definition index {A : Type} (l : list A) (i : Z) : result A :=
  let n := Z.of_nat (List.length l) in
  if (i <? - n)%Z then Raise IndexError
  else if (i <? 0)%Z then or_raise IndexError (nth_error l (Z.to_nat (i + n)))
  else or_raise IndexError (nth_error l (Z.to_nat i)).

(** [t[idcs]] for an index tensor [idcs]. *)
Definition index_select {A : Type} (l : list A) (idcs : list Z) : result (list A) :=
  mapM (index l) idcs.

(** [torch.arange(a, a + n)]. *)
Definition arange (a : Z) (n : nat) : list Z :=
  map (fun i => (a + Z.of_nat i)%Z) (seq 0 n).

(** Python's [max(a, b)] on numbers: the first of the largest. *)
Definition pymax (a b : Q) : Q := if Qltb a b then b else a.

Definition adjacent {A B : Type} (f : A -> A -> B) (l : list A) : list B :=
  map (fun p => f (fst p) (snd p)) (combine (removelast l) (tl l)).

Section HighLevelCommand.
  Context {B : Backend}.
  Variable cfg : Config.
  (** [self.target_lane] ([None] until [set_target_lane] is called) and
      [self.target_lane_info]. *)
  Variable target_lane : option (list vec2).
  Variable target_lane_info : list (list Q).

  (** The loop
      [while target_idx < len(lane) - 1 and travel_dist > 0]; [n] is the
      number of points that remain ahead, [len(lane) - 1 - target_idx]. *)
Fixpoint walk_ahead (lane : list vec2) (n : nat) (target_idx : nat)
           (travel_dist : Q) : nat :=
    match n with
    | O => target_idx
    | S n' =>
        if Qltb 0 travel_dist then
          let target_idx' := S target_idx in
          walk_ahead lane n' target_idx'
            (travel_dist - norm (vsub (nth target_idx' lane (0, 0))
                                      (nth target_idx lane (0, 0))))
        else target_idx
    end.

  (** The index of the centre of the window: the point reached after
      [travel_dist], one less at the last point, then clamped. *)
Definition window_centre (lane : list vec2) (closest_idx : nat) (travel_dist : Q) : Z :=
    let len := Z.of_nat (List.length lane) in
    let target_idx :=
      Z.of_nat (walk_ahead lane (List.length lane - 1 - closest_idx) closest_idx travel_dist) in
    let target_idx := if (target_idx =? len - 1)%Z then (target_idx - 1)%Z else target_idx in
    Z.max 5 (Z.min target_idx (len - 6)).

Definition vmean (l : list vec2) : vec2 :=
    let n := inject_Z (Z.of_nat (List.length l)) in
    (Qsum (map fst l) / n, Qsum (map snd l) / n).

Definition frow (p : fvec2) : list fval := [fst p; snd p].

(** The anchor of the window [ctrln] (in the local frame): its mean
      position and the unit vector from its first to its last point,
      [(ctrln[-1] - ctrln[0]) / torch.norm(ctrln[-1] - ctrln[0])]. *)
Definition anchor_of (ctrln : list vec2) : vec2 * fvec2 :=
    let anch_pos := vmean ctrln in
    let d := vsub (last ctrln (0, 0)) (hd (0, 0) ctrln) in
    let anch_vec : fvec2 := (fdiv (fst d) (norm d), fdiv (snd d) (norm d)) in
    (anch_pos, anch_vec).

  (** The goal feature: the window in the frame of its anchor, as the
      centres and vectors of its segments, followed by the attributes of
      the points. *)
Definition goal_nodes (ctrln : list vec2) (tgt_anch : vec2 * fvec2)
             (lane_info : list (list Q)) : list (list fval) :=
    let anch_pos := fst tgt_anch in
    let anch_vec := snd tgt_anch in
    let ctrln : list fvec2 :=
      map (fun p =>
             let c := vsub p anch_pos in
             (fadd (fmul (Fin (fst c)) (fst anch_vec))
                   (fmul (Fin (snd c)) (snd anch_vec)),
              fadd (fmul (Fin (fst c)) (fneg (snd anch_vec)))
                   (fmul (Fin (snd c)) (fst anch_vec))))
          ctrln in
    let half (x : fval) := fmul x (Fin (1 # 2)) in
    let ctrs := adjacent (fun a b => (half (fadd (fst a) (fst b)),
                                      half (fadd (snd a) (snd b)))) ctrln in
    let vecs := adjacent (fun a b => (fsub (fst b) (fst a),
                                      fsub (snd b) (snd a))) ctrln in
    map (fun r => frow (fst (fst r)) ++ frow (snd (fst r)) ++ map Fin (snd r))
        (combine (combine ctrs vecs) lane_info).

Definition get_high_level_command (orig : vec2) (rot : mat2) (cur_vel : Q)
    : result (list vec2 * list (list fval) * (vec2 * fvec2)) :=
    let min_vel := 0.5 in
    lane <- or_raise TypeError target_lane ;;
    let dists := map (fun p => norm (vsub p orig)) lane in
    closest_idx <- argmin dists ;;
    let travel_dist := pymax cur_vel min_vel * tar_time_ahead cfg in
    let target_idx := window_centre lane closest_idx travel_dist in
    let selected_idx := arange (target_idx - 5) 11 in
    target_lane_pts <- index_select lane selected_idx ;;
    lane_info <- index_select target_lane_info selected_idx ;;
    let lane_info := tl lane_info in
    let tgt_pts := target_lane_pts in
    if negb (List.length target_lane_pts =? 11)%nat
    then Raise (AssertionError "")
    else
      let ctrln := map (fun p => vmatmul (vsub p orig) rot) target_lane_pts in
      let tgt_anch := anchor_of ctrln in
      let tgt_nodes := goal_nodes ctrln tgt_anch lane_info in
      Ok (tgt_pts, tgt_nodes, tgt_anch).

End HighLevelCommand.

(* ================================================================== *)
(** ** Observation windows and scenario data *)

Module Obs.
  Section Records.
    Context {U : Utils}.

    (** The dict [trajs] of an observation window. *)
Record Trajs : Type := mkTrajs {
      TRAJS_POS_OBS : list (list vec2);
      TRAJS_ANG_OBS : list (list vec2);
      TRAJS_VEL_OBS : list (list vec2);
      TRAJS_TYPE : list (list Q);
      PAD_OBS : list (list Q);
      TRAJS_CTRS : list vec2;
      TRAJS_VECS : list vec2;
      TRAJS_TID : list string;
      TRAJS_CAT : list string
    }.

    (** One element of the batch handed to the network and to
        [prune_merge]: the dict [data] that [update_obser] returns and
        [prepare_root_data] completes. *)
Record t : Type := mk {
      ORIG : vec2;
      ROT : mat2;
      TRAJS : Trajs;
      LANE_GRAPH : LaneGraph;
      RPE : Rpe;
      TGT_PTS : list vec2;
      TGT_NODES : list (list fval);
      TGT_ANCH : vec2 * fvec2;
      TGT_RPE : Rpe;
      TRAJS_POS_HIST : list (list vec2);
      TRAJS_ANG_HIST : list (list Q);
      TRAJS_VEL_HIST : list (list vec2);
      TRAJS_COV_HIST : list (list Q);
      SCEN_PROB : Q;
      SCEN_ID : string;
      PARENT_ID : option string;
      CUR_T : nat;
      END_T : nat
    }.
  End Records.
End Obs.

Module ScenarioData.
  Section Records.
    Context {U : Utils}.

    (** [class ScenarioData]: [data] is [None] at the root; [obs_data] is
        [None] until the node is observed. *)
Record t : Type := mk {
      data : option PredData;
      obs_data : option Obs.t;
      branch_flag : bool;
      end_flag : bool;
      terminate_flag : bool
    }.

    (** [ScenarioData(data, obs_data, branch_flag=False, end_flag=False,
        terminate_flag=False)]. *)
Definition new (d : option PredData) (o : option Obs.t) : t :=
      mk d o false false false.
  End Records.
End ScenarioData.

Import ScenarioData.

Definition zip3 {A B C : Type} (a : list A) (b : list B) (c : list C)
  : list (A * B * C) := combine (combine a b) c.

Section Observation.
  Context {B : Backend} {U : Utils}.
  Variables obs_len pred_len : nat.
  Variable cfg : Config.
  Variable target_lane : option (list vec2).
  Variable target_lane_info : list (list Q).

Definition cov_change_rate : Q := 9.

  (** [torch.sum(cur / cmp > cov_change_rate) > 0] over the agents. *)
Definition cov_exceeds (cur cmp : list Q) : bool :=
    existsb (fun p => fgtb (fdiv (fst p) (snd p)) (Fin cov_change_rate))
            (combine cur cmp).

  (** The loop of [get_branch_time] over [ts = range(cur_t + 1, end_t)]:
      the first even [t] whose covariances exceed the comparison ones. *)
Fixpoint branch_scan (trajs_cov : list (list Q)) (compare_t : nat)
           (ts : list nat) : result (option nat) :=
    match ts with
    | [] => Ok None
    | t :: ts' =>
        if (t mod 2 =? 1)%nat then branch_scan trajs_cov compare_t ts'
        else
          cur <- column (obs_len + t) trajs_cov ;;
          cmp <- column compare_t trajs_cov ;;
          if cov_exceeds cur cmp then Ok (Some t)
          else branch_scan trajs_cov compare_t ts'
    end.

  (** [get_branch_time(pred_data)]: the branch time, and [pred_data] after
      the call (its END_T is overwritten when a branch step is found). *)
Definition get_branch_time (pred_data : PredData) : result (nat * PredData) :=
    let trajs_cov := TRAJS_COV_HIST pred_data in
    let cur_t := CUR_T pred_data in
    let end_t := END_T pred_data in
    let compare_t := (obs_len + cur_t)%nat in
    let compare_t := if (cur_t =? 0)%nat then (compare_t + 1)%nat else compare_t in
    r <- branch_scan trajs_cov compare_t (seq (cur_t + 1) (end_t - (cur_t + 1))) ;;
    match r with
    | Some t => Ok (t, set_END_T t pred_data)
    | None => Ok (end_t, pred_data)
    end.

  (** The first statements of [update_obser]: the four histories of
      [cur_data] are cut after [obs_len + duration] samples. *)
Definition truncate_hist (cur_data : PredData) : PredData :=
    let end_t := END_T cur_data in
    let cur_t := CUR_T cur_data in
    let duration := (end_t - cur_t)%nat in
    mkPred (SCEN_PROB cur_data) cur_t end_t (PARENT_ID cur_data)
           (SCEN_ID cur_data) (TRAJS cur_data)
           (slice_to (obs_len + duration) (TRAJS_POS_HIST cur_data))
           (slice_to (obs_len + duration) (TRAJS_COV_HIST cur_data))
           (slice_to (obs_len + duration) (TRAJS_ANG_HIST cur_data))
           (slice_to (obs_len + duration) (TRAJS_VEL_HIST cur_data))
           (TGT_PTS cur_data).

  (** [update_obser(cur_data)]: truncates the histories of [cur_data] to
      the branch point and builds the observation window that ends there.
      Returns the pair [(data, cur_data)]. *)
Definition update_obser (lane_graph : option LaneGraph) (cur_data : PredData)
    : result (Obs.t * PredData) :=
    let end_t := END_T cur_data in
    let cur_t := CUR_T cur_data in
    let cur_data := truncate_hist cur_data in
    (* data = copy.deepcopy(cur_data) *)
    let pos_hist := slice_last obs_len (TRAJS_POS_HIST cur_data) in
    let cov_hist := slice_last obs_len (TRAJS_COV_HIST cur_data) in
    let ang_hist := slice_last obs_len (TRAJS_ANG_HIST cur_data) in
    let vel_hist := slice_last obs_len (TRAJS_VEL_HIST cur_data) in
    let has_flags := map (map (fun _ => 1)) ang_hist in
    let meta := TRAJS cur_data in
    pos0 <- or_raise IndexError (nth_error pos_hist 0) ;;
    ang0 <- or_raise IndexError (nth_error ang_hist 0) ;;
    let '(orig_seq, rot_seq, theta_seq) := get_origin_rotation pos0 ang0 in
    let trajs_pos := map (map (fun p => vmatmul (vsub p orig_seq) rot_seq)) pos_hist in
    let trajs_ang := map (map (fun a => a - theta_seq)) ang_hist in
    let trajs_vel := map (map (fun v => vmatmul v rot_seq)) vel_hist in
    let normed :=
      map (fun x =>
             let '(traj_pos, traj_ang, traj_vel) := x in
             let '(orig_act, rot_act, theta_act) := get_origin_rotation traj_pos traj_ang in
             (map (fun p => vmatmul (vsub p orig_act) rot_act) traj_pos,
              map (fun a => a - theta_act) traj_ang,
              map (fun v => vmatmul v rot_act) traj_vel,
              orig_act,
              (b_cos theta_act, b_sin theta_act)))
          (zip3 trajs_pos trajs_ang trajs_vel) in
    let trajs_pos_obs := map (fun x => fst (fst (fst (fst x)))) normed in
    let trajs_ang_obs := map (fun x => snd (fst (fst (fst x)))) normed in
    let trajs_vel_obs := map (fun x => snd (fst (fst x))) normed in
    let trajs_ctrs := map (fun x => snd (fst x)) normed in
    let trajs_vecs := map (fun x => snd x) normed in
    let trajs :=
      Obs.mkTrajs trajs_pos_obs
                  (map (map (fun a => (b_cos a, b_sin a))) trajs_ang_obs)
                  trajs_vel_obs (TRAJS_TYPE meta)
                  (slice_to obs_len has_flags)
                  trajs_ctrs trajs_vecs (TRAJS_TID meta) (TRAJS_CAT meta) in
    lane_graph <- or_raise TypeError lane_graph ;;
    let lane_graph := get_new_lane_graph lane_graph orig_seq rot_seq in
    let scene_ctrs := trajs_ctrs ++ lane_ctrs lane_graph in
    let scene_vecs := trajs_vecs ++ lane_vecs lane_graph in
    let rpe := get_rpe (map fin2 scene_ctrs) (map fin2 scene_vecs) in
    vel0 <- or_raise IndexError (nth_error trajs_vel_obs 0) ;;
    vel0_last <- index vel0 (-1) ;;
    '(tgt_pts, tgt_nodes, tgt_anch) <-
      get_high_level_command cfg target_lane target_lane_info
                             orig_seq rot_seq (norm vel0_last) ;;
    ctr0 <- or_raise IndexError (nth_error trajs_ctrs 0) ;;
    vec0 <- or_raise IndexError (nth_error trajs_vecs 0) ;;
    let tgt_rpe := get_rpe [fin2 (fst tgt_anch); fin2 ctr0] [snd tgt_anch; fin2 vec0] in
    let data :=
      Obs.mk orig_seq rot_seq trajs lane_graph rpe tgt_pts tgt_nodes tgt_anch tgt_rpe
             pos_hist ang_hist vel_hist cov_hist
             (SCEN_PROB cur_data) (SCEN_ID cur_data) (Some (PARENT_ID cur_data))
             end_t pred_len in
    Ok (data, cur_data).

  (** The body of the loop of [decide_branch] for one leaf [l]. *)
Definition decide_leaf (lane_graph : option LaneGraph) (l : Tree.Node ScenarioData.t)
    : result ScenarioData.t :=
    let sd := Tree.data l in
    if branch_flag sd then
      Ok (ScenarioData.mk (data sd) (obs_data sd) false (end_flag sd) true)
    else if negb (end_flag sd) then
      if (max_depth cfg <=? Tree.depth l)%nat then
        Ok (ScenarioData.mk (data sd) (obs_data sd) (branch_flag sd) (end_flag sd) true)
      else
        pred_data <- or_raise TypeError (data sd) ;;
        '(t_b, pred_data) <- get_branch_time pred_data ;;
        if (t_b <? pred_len)%nat then
          '(obs, cur_data) <- update_obser lane_graph pred_data ;;
          Ok (ScenarioData.mk (Some cur_data) (Some obs) true (end_flag sd)
                              (terminate_flag sd))
        else
          Ok (ScenarioData.mk (Some pred_data) (obs_data sd) (branch_flag sd) true
                              (terminate_flag sd))
    else Ok sd.

Definition decide_node (lane_graph : option LaneGraph) (n : Tree.Node ScenarioData.t)
    : result (Tree.Node ScenarioData.t) :=
    if Tree.is_leaf n then
      sd <- decide_leaf lane_graph n ;;
      Ok (Tree.mkNode (Tree.key n) (Tree.parent_key n) (Tree.children_keys n)
                      (Tree.depth n) sd)
    else Ok n.

  (** [decide_branch()]: the leaves are node objects of the tree and are
      updated in place, in the order of [get_leaf_nodes]. *)
Definition decide_branch (lane_graph : option LaneGraph) (tree : Tree.t ScenarioData.t)
    : result (Tree.t ScenarioData.t) :=
    mapM (decide_node lane_graph) tree.

End Observation.

(* ================================================================== *)
(** ** Prune and merge *)

(** The network's output for one element of the batch:
    [res_cls[0, m]] is the probability of mode [m];
    [res_reg[a][m][t]] the predicted position of agent [a] with the
    parameters of its covariance; [res_vel[a][m][t]] its velocity
    ([res_aux[0]]). *)
Record NetOut {U : Utils} : Type := mkNetOut {
  res_cls : list (list Q);
  res_reg : list (list (list (vec2 * CovParam)));
  res_vel : list (list (list vec2))
}.

Arguments mkNetOut {U} res_cls res_reg res_vel.

(** A candidate [[cur_data, scene_prob, topos]]. *)
Record Candidate : Type := mkCand {
  cand_data : PredData;
  cand_prob : Q;
  cand_topos : list fval
}.

(** [torch.argsort(probs, descending=True)], by insertion. *)
Fixpoint insert_desc (probs : list Q) (i : nat) (sorted : list nat) : list nat :=
  match sorted with
  | [] => [i]
  | j :: sorted' =>
      if Qltb (nth j probs 0) (nth i probs 0) then i :: j :: sorted'
      else j :: insert_desc probs i sorted'
  end.

Definition argsort_desc (probs : list Q) : list nat :=
  fold_left (fun acc i => insert_desc probs i acc) (seq 0 (List.length probs)) [].

Definition str_of_nat (n : nat) : string := NilEmpty.string_of_uint (Nat.to_uint n).

(** ["{}_{}_{}".format(branch_depth, idx, scene_id)]. *)
Definition scen_id_of (branch_depth idx scene_id : nat) : string :=
  (str_of_nat branch_depth ++ "_" ++ str_of_nat idx ++ "_" ++ str_of_nat scene_id)%string.

Section PruneMerge.
  Context {B : Backend} {U : Utils}.
  Variables obs_len pred_len : nat.
  Variable cfg : Config.
  Variable target_lane : option (list vec2).

Definition seq_len : nat := obs_len + pred_len.
Definition ego_idx : nat := 0.

Definition rot_of_theta (theta : Q) : mat2 :=
    ((b_cos theta, - b_sin theta), (b_sin theta, b_cos theta)).

  (** The cumulative change of the bearing from the ego's positions
      [ego] to the positions [traj] of another agent. *)
Definition topo_change (ego traj : list vec2) : fval :=
    let vec := map (fun p => vsub (fst p) (snd p)) (combine traj ego) in
    let vec : list fvec2 :=
      map (fun v => (fdiv (fst v) (norm v), fdiv (snd v) (norm v))) vec in
    let ang := map (fun v => fatan2 (snd v) (fst v)) vec in
    let ang_diff := adjacent (fun a b => fsub b a) ang in
    let ang_diff := map wrap_angle ang_diff in
    fsum ang_diff.

  (** The body of [for scene_id in scene_idcs]: the candidate of mode
      [scene_id], or [None] when the mode is pruned. *)
Definition make_candidate (branch_depth idx : nat) (data : Obs.t) (out : NetOut)
             (scene_id : nat) : result (option Candidate) :=
    let orig := Obs.ORIG data in
    let rot := Obs.ROT data in
    let trajs_ctrs := Obs.TRAJS_CTRS (Obs.TRAJS data) in
    let trajs_vecs := Obs.TRAJS_VECS (Obs.TRAJS data) in
    let theta_global := b_atan2 (fst (snd rot)) (fst (fst rot)) in
    let trajs_cov_hist := Obs.TRAJS_COV_HIST data in
    row0 <- or_raise IndexError (nth_error (res_cls out) 0) ;;
    scene_prob <- or_raise IndexError (nth_error row0 scene_id) ;;
    let scen_id := scen_id_of branch_depth idx scene_id in
    reg <- column scene_id (res_reg out) ;;
    let trajs_pos_pred := map (map fst) reg in
    let trajs_cov_pred := map (map (fun x => get_max_covariance (snd x))) reg in
    trajs_vel_pred <- column scene_id (res_vel out) ;;
    let res_ang := map (map get_angle) trajs_vel_pred in
    let trajs_theta := map (fun v => b_atan2 (snd v) (fst v)) trajs_vecs in
    let trajs_rots := map rot_of_theta trajs_theta in
    let trajs_pos_pred :=
      map (fun x => let '(traj, r, c) := x in
                    map (fun p => vadd (vmatmul p (transpose r)) c) traj)
          (zip3 trajs_pos_pred trajs_rots trajs_ctrs) in
    let trajs_vel_pred :=
      map (fun x => map (fun v => vmatmul v (transpose (snd x))) (fst x))
          (combine trajs_vel_pred trajs_rots) in
    let trajs_pos_pred :=
      map (map (fun p => vadd (vmatmul p (transpose rot)) orig)) trajs_pos_pred in
    let trajs_vel_pred := map (map (fun v => vmatmul v (transpose rot))) trajs_vel_pred in
    let trajs_ang_pred :=
      map (fun x => map (fun a => a + snd x + theta_global) (fst x))
          (combine res_ang trajs_theta) in
    last_cov <- mapM (fun h => index h (-1)) trajs_cov_hist ;;
    let trajs_cov_pred :=
      map (fun x => map (fun c => c + snd x) (fst x)) (combine trajs_cov_pred last_cov) in
    let cat_hist {A : Type} (hist pred : list (list A)) :=
      map (fun x => firstn seq_len (fst x ++ snd x)) (combine hist pred) in
    let cur_traj_data :=
      mkMeta (Obs.TRAJS_TYPE (Obs.TRAJS data)) (Obs.TRAJS_TID (Obs.TRAJS data))
             (Obs.TRAJS_CAT (Obs.TRAJS data)) in
    let cur_data :=
      mkPred (scene_prob * Obs.SCEN_PROB data) (Obs.CUR_T data) (Obs.END_T data)
             (Obs.SCEN_ID data) scen_id cur_traj_data
             (cat_hist (Obs.TRAJS_POS_HIST data) trajs_pos_pred)
             (cat_hist trajs_cov_hist trajs_cov_pred)
             (cat_hist (Obs.TRAJS_ANG_HIST data) trajs_ang_pred)
             (cat_hist (Obs.TRAJS_VEL_HIST data) trajs_vel_pred)
             (Obs.TGT_PTS data) in
    if Qltb (SCEN_PROB cur_data) 0.001 then Ok None
    else
      off_lane <-
        match target_lane with
        | None => Ok false
        | Some lane =>
            ego_pos <- or_raise IndexError (nth_error (TRAJS_POS_HIST cur_data) ego_idx) ;;
            ego_mean <- index ego_pos (-1) ;;
            ego_covs <- or_raise IndexError (nth_error (TRAJS_COV_HIST cur_data) ego_idx) ;;
            ego_cov <- index ego_covs (-1) ;;
            let dis := get_distance_to_polyline lane ego_mean in
            Ok (Qltb (tar_dist_thres cfg) (dis - ego_cov))
        end ;;
      if (off_lane : bool) then Ok None
      else
        match trajs_pos_pred with
        | [] => Raise RuntimeError
        | ego :: others =>
            let topos := map (topo_change ego) others in
            Ok (Some (mkCand cur_data scene_prob topos))
        end.

Definition min_topo_change : Q := b_pi / 6.

  (** [torch.sum((torch.abs(topos_diff) - min_topo_change) > 0) > 0]:
      some agent's signature differs by more than the threshold. *)
Definition topo_differs (select_topos res_topos : list fval) : bool :=
    existsb (fun p =>
               let topos_diff := wrap_angle (fsub (fst p) (snd p)) in
               fgtb (fsub (fabs topos_diff) (Fin min_topo_change)) (Fin 0))
            (combine select_topos res_topos).

  (** The loop [while len(data_candidates) > 0]: the head is selected and
      the rest filtered against it.  [fuel] bounds the iterations; the
      list shrinks at every one, so its length is enough. *)
Fixpoint merge_loop (fuel : nat) (data_candidates : list Candidate)
    : list Candidate :=
    match fuel, data_candidates with
    | S fuel', sel :: rest =>
        sel :: merge_loop fuel'
                 (filter (fun c => topo_differs (cand_topos sel) (cand_topos c)) rest)
    | _, _ => []
    end.

Definition merge (data_candidates : list Candidate) : list Candidate :=
    merge_loop (List.length data_candidates) data_candidates.

Definition keep_some {A : Type} (l : list (option A)) : list A :=
    flat_map (fun o => match o with Some a => [a] | None => [] end) l.

  (** The body of [for idx in range(batch_size)]. *)
Definition prune_merge_one (branch_depth idx : nat) (data : Obs.t) (out : NetOut)
    : result (list PredData) :=
    row0 <- or_raise IndexError (nth_error (res_cls out) 0) ;;
    let scene_idcs := argsort_desc row0 in
    cands <- mapM (make_candidate branch_depth idx data out) scene_idcs ;;
    let data_candidates := keep_some cands in
    let selected_data := map cand_data (merge data_candidates) in
    Ok selected_data.

Fixpoint prune_merge_from (branch_depth idx : nat) (data : list Obs.t)
           (out : list NetOut) : result (list PredData) :=
    match data with
    | [] => Ok []
    | d :: data' =>
        o <- or_raise IndexError (nth_error out 0) ;;
        sel <- prune_merge_one branch_depth idx d o ;;
        rest <- prune_merge_from branch_depth (S idx) data' (tl out) ;;
        Ok (sel ++ rest)
    end.

  (** [prune_merge(data, out)] at the current [self.branch_depth]. *)
Definition prune_merge (branch_depth : nat) (data : list Obs.t) (out : list NetOut)
    : result (list PredData) :=
    prune_merge_from branch_depth 0 data out.

End PruneMerge.

(* ================================================================== *)
(** ** The generator *)

(** [lcl_smp]: the fields of the local sample that [process_data] reads. *)
Record LocalSample {U : Utils} : Type := mkSample {
  ego_vel : Q;
  map_data : MapData
}.

Arguments mkSample {U} ego_vel map_data.

(** The mutable fields of a [ScenarioTreeGenerator]. *)
Record Gen {U : Utils} : Type := mkGen {
  tree : Tree.t ScenarioData.t;
  lane_graph : option LaneGraph;
  branch_depth : nat
}.

Section Generator.
  Context {B : Backend} {U : Utils}.
  Variables obs_len pred_len : nat.
  Variable cfg : Config.
  Variable target_lane : option (list vec2).
  Variable target_lane_info : list (list Q).
  (** [self.network], pre-processing included.  The first argument is
      [self.branch_depth] at the call, so that the outputs may differ
      from one round to the next for the same batch. *)
  Variable network : nat -> list Obs.t -> list NetOut.

  (** [__init__] and [reset]. *)
Definition reset : Gen := mkGen Tree.empty None 0.

  (** [process_data(lcl_smp, agent_obs)]: the observation of the root
      before [prepare_root_data], and the lane graph kept in
      [self.lane_graph]. *)
Definition process_data (lcl_smp : LocalSample) (agent_obs : AgentObs)
    : result (Obs.t * LaneGraph) :=
    let '(trajs_pos, trajs_ang, trajs_vel, trajs_type, has_flags, trajs_tid, trajs_cat) :=
      get_agent_trajectories agent_obs in
    let cur_vel := ego_vel lcl_smp in
    pos0 <- or_raise IndexError (nth_error trajs_pos 0) ;;
    ang0 <- or_raise IndexError (nth_error trajs_ang 0) ;;
    let '(orig_seq, rot_seq, theta_seq) := get_origin_rotation pos0 ang0 in
    let lane_graph := update_lane_graph_from_argo (map_data lcl_smp) orig_seq rot_seq in
    let trajs_pos := map (map (fun p => vmatmul (vsub p orig_seq) rot_seq)) trajs_pos in
    let trajs_ang := map (map (fun a => a - theta_seq)) trajs_ang in
    let trajs_vel := map (map (fun v => vmatmul v rot_seq)) trajs_vel in
    let normed :=
      map (fun x =>
             let '(traj_pos, traj_ang, traj_vel) := x in
             let '(orig_act, rot_act, theta_act) := get_origin_rotation traj_pos traj_ang in
             (map (fun p => vmatmul (vsub p orig_act) rot_act) traj_pos,
              map (fun a => a - theta_act) traj_ang,
              map (fun v => vmatmul v rot_act) traj_vel,
              orig_act,
              (b_cos theta_act, b_sin theta_act)))
          (zip3 trajs_pos trajs_ang trajs_vel) in
    let trajs_pos := map (fun x => fst (fst (fst (fst x)))) normed in
    let trajs_ang := map (fun x => snd (fst (fst (fst x)))) normed in
    let trajs_vel := map (fun x => snd (fst (fst x))) normed in
    let trajs_ctrs := map (fun x => snd (fst x)) normed in
    let trajs_vecs := map (fun x => snd x) normed in
    let trajs :=
      Obs.mkTrajs trajs_pos (map (map (fun a => (b_cos a, b_sin a))) trajs_ang)
                  trajs_vel trajs_type has_flags trajs_ctrs trajs_vecs
                  trajs_tid trajs_cat in
    '(tgt_pts, tgt_nodes, tgt_anch) <-
      get_high_level_command cfg target_lane target_lane_info orig_seq rot_seq cur_vel ;;
    let scene_ctrs := trajs_ctrs ++ lane_ctrs lane_graph in
    let scene_vecs := trajs_vecs ++ lane_vecs lane_graph in
    let rpe := get_rpe (map fin2 scene_ctrs) (map fin2 scene_vecs) in
    ctr0 <- or_raise IndexError (nth_error trajs_ctrs 0) ;;
    vec0 <- or_raise IndexError (nth_error trajs_vecs 0) ;;
    let tgt_rpe := get_rpe [fin2 (fst tgt_anch); fin2 ctr0] [snd tgt_anch; fin2 vec0] in
    Ok (Obs.mk orig_seq rot_seq trajs lane_graph rpe tgt_pts tgt_nodes tgt_anch tgt_rpe
               [] [] [] [] 1 "root" None 0 pred_len,
        lane_graph).

  (** [prepare_root_data(data)] on the single element of the batch: the
      histories of the agents in the global frame. *)
Definition prepare_root_data (data : Obs.t) : Obs.t :=
    let orig := Obs.ORIG data in
    let rot := Obs.ROT data in
    let trajs := Obs.TRAJS data in
    let trajs_ctrs := Obs.TRAJS_CTRS trajs in
    let trajs_vecs := Obs.TRAJS_VECS trajs in
    let theta_global := b_atan2 (fst (snd rot)) (fst (fst rot)) in
    let trajs_pos_obs := Obs.TRAJS_POS_OBS trajs in
    let trajs_vel_obs := Obs.TRAJS_VEL_OBS trajs in
    let trajs_ang_obs := map (map get_angle) (Obs.TRAJS_ANG_OBS trajs) in
    let trajs_theta := map (fun v => b_atan2 (snd v) (fst v)) trajs_vecs in
    let trajs_rots := map (rot_of_theta (B := B)) trajs_theta in
    let trajs_cov_hist := map (map (fun _ => 1 # 100000)) trajs_pos_obs in
    let trajs_pos_hist :=
      map (fun x => let '(traj, r, c) := x in
                    map (fun p => vadd (vmatmul p (transpose r)) c) traj)
          (zip3 trajs_pos_obs trajs_rots trajs_ctrs) in
    let trajs_vel_hist :=
      map (fun x => map (fun v => vmatmul v (transpose (snd x))) (fst x))
          (combine trajs_vel_obs trajs_rots) in
    let trajs_pos_hist :=
      map (map (fun p => vadd (vmatmul p (transpose rot)) orig)) trajs_pos_hist in
    let trajs_vel_hist := map (map (fun v => vmatmul v (transpose rot))) trajs_vel_hist in
    let trajs_ang_hist :=
      map (fun x => map (fun a => a + snd x + theta_global) (fst x))
          (combine trajs_ang_obs trajs_theta) in
    Obs.mk orig rot trajs (Obs.LANE_GRAPH data) (Obs.RPE data) (Obs.TGT_PTS data)
           (Obs.TGT_NODES data) (Obs.TGT_ANCH data) (Obs.TGT_RPE data)
           trajs_pos_hist trajs_ang_hist trajs_vel_hist trajs_cov_hist
           1 "root" None 0 pred_len.

  (** [predict_scenes(data)]. *)
Definition predict_scenes (g : Gen) (data : list Obs.t) : list NetOut :=
    network (branch_depth g) data.

  (** [create_nodes(pred_bar)]. *)
Definition create_nodes (tr : Tree.t ScenarioData.t) (pred_bar : list PredData)
    : result (Tree.t ScenarioData.t) :=
    foldM (fun tr pred =>
             let parent_id := PARENT_ID pred in
             let node_id := SCEN_ID pred in
             Tree.add_node tr node_id (Some parent_id)
                           (ScenarioData.new (Some pred) None))
          pred_bar tr.

Definition is_branch_node (l : Tree.Node ScenarioData.t) : bool :=
    branch_flag (Tree.data l).

  (** [get_branch_set()]: the branch-ready leaves; [self.branch_depth] is
      incremented. *)
Definition get_branch_set (g : Gen) : list (Tree.Node ScenarioData.t) * Gen :=
    (filter is_branch_node (Tree.get_leaf_nodes (tree g)),
     mkGen (tree g) (lane_graph g) (branch_depth g + 1)).

  (** [get_end_set()]. *)
Definition get_end_set (tr : Tree.t ScenarioData.t) : list (Tree.Node ScenarioData.t) :=
    filter (fun n => end_flag (Tree.data n)) (Tree.get_leaf_nodes tr).

  (** Prediction, pruning and merging, node creation and branch decision
      for the batch [data]: the body of the loop of [branch_aime] up to
      [decide_branch], and the tail of [init_scenario_tree]. *)
Definition expand (g : Gen) (data : list Obs.t) : result Gen :=
    let pred_batch := predict_scenes g data in
    pred_bar <- prune_merge obs_len pred_len cfg target_lane (branch_depth g) data pred_batch ;;
    tr <- create_nodes (tree g) pred_bar ;;
    tr <- decide_branch obs_len pred_len cfg target_lane target_lane_info (lane_graph g) tr ;;
    Ok (mkGen tr (lane_graph g) (branch_depth g)).

  (** [init_scenario_tree(data)]. *)
Definition init_scenario_tree (g : Gen) (data : Obs.t) : result Gen :=
    let root_data := prepare_root_data data in
    tr <- Tree.add_node (tree g) "root" None
                        (ScenarioData.mk None (Some root_data) true false false) ;;
    expand (mkGen tr (lane_graph g) (branch_depth g)) [root_data].

  (** One iteration of [while branch_nodes], [get_branch_set] included. *)
Definition aime_round (g : Gen) (branch_nodes : list (Tree.Node ScenarioData.t))
    : result (list (Tree.Node ScenarioData.t) * Gen) :=
    data_batch <- mapM (fun node => or_raise TypeError (obs_data (Tree.data node)))
                       branch_nodes ;;
    g <- expand g data_batch ;;
    Ok (get_branch_set g).

  (** The loop [while branch_nodes], with at most [fuel] iterations. *)
Fixpoint aime_loop (fuel : nat) (g : Gen) (branch_nodes : list (Tree.Node ScenarioData.t))
    : result Gen :=
    match branch_nodes with
    | [] => Ok g
    | _ :: _ =>
        match fuel with
        | O => Raise OutOfFuel
        | S fuel' =>
            '(branch_nodes', g') <- aime_round g branch_nodes ;;
            aime_loop fuel' g' branch_nodes'
        end
    end.

End Generator.

(* ================================================================== *)
(** ** Extraction of the scenario trees *)

(** The list [data] of a node of the exported trees: the normalized
    probability, then, once attached, the segment of positions and
    covariances of the node with its goal points. *)
Record OutData : Type := mkOut {
  prob : fval;
  segment : option (list (list vec2) * list (list Q) * list vec2)
}.

Section Extraction.
  Context {U : Utils}.
  Variable obs_len : nat.

Definition STree : Type := Tree.t ScenarioData.t.
Definition SNode : Type := Tree.Node ScenarioData.t.
Definition DTree : Type := Tree.t OutData.
Definition DNode : Type := Tree.Node OutData.

Definition set_end_flag (sd : ScenarioData.t) : ScenarioData.t :=
    ScenarioData.mk (data sd) (obs_data sd) (branch_flag sd) true (terminate_flag sd).

Definition ended (n : SNode) : bool := end_flag (Tree.data n).

Definition end_leaves (tr : STree) : list SNode :=
    filter ended (Tree.get_leaf_nodes tr).

  (** [while node.parent_key is not None: node.data.end_flag = True;
      node = self.tree.get_node(node.parent_key)]. *)
Fixpoint label_up (fuel : nat) (tr : STree) (node : SNode) : result STree :=
    match Tree.parent_key node with
    | None => Ok tr
    | Some p =>
        match fuel with
        | O => Raise OutOfFuel
        | S fuel' =>
            let tr := map (Tree.modify_data (Tree.key node) set_end_flag) tr in
            parent <- or_raise KeyError (Tree.get_node tr p) ;;
            label_up fuel' tr parent
        end
    end.

Definition scen_prob_of (n : SNode) : result Q :=
    d <- or_raise TypeError (data (Tree.data n)) ;; Ok (SCEN_PROB d).

  (** [while queue] of the construction of [data_tree]: the end-flagged
      children of [cur] are added with their normalized probability. *)
Fixpoint normalize_bfs (fuel : nat) (tr : STree) (queue : list SNode)
           (data_tree : DTree) : result DTree :=
    match queue with
    | [] => Ok data_tree
    | cur_node :: queue =>
        match fuel with
        | O => Raise OutOfFuel
        | S fuel' =>
            dn <- or_raise KeyError (Tree.get_node data_tree (Tree.key cur_node)) ;;
            let parent_prob := prob (Tree.data dn) in
            children <- mapM (fun k => or_raise KeyError (Tree.get_node tr k))
                             (Tree.children_keys cur_node) ;;
            let children := filter ended children in
            probs <- mapM scen_prob_of children ;;
            let total_prob := Qsum probs in
            data_tree <-
              foldM (fun dt child_node =>
                       p <- scen_prob_of child_node ;;
                       Tree.add_node dt (Tree.key child_node) (Some (Tree.key cur_node))
                                     (mkOut (fmul (fdiv p total_prob) parent_prob) None))
                    children data_tree ;;
            normalize_bfs fuel' tr (queue ++ children) data_tree
        end
    end.

  (** [x[:, obs_len : obs_len + duration]]. *)
Definition segment_of {A : Type} (duration : nat) (x : list (list A)) : list (list A) :=
    map (fun row => firstn duration (skipn obs_len row)) x.

Definition attach (d : PredData) (o : OutData) : OutData :=
    match segment o with
    | Some _ => o
    | None =>
        let duration := (END_T d - CUR_T d)%nat in
        mkOut (prob o)
              (Some (segment_of duration (TRAJS_POS_HIST d),
                     segment_of duration (TRAJS_COV_HIST d),
                     TGT_PTS d))
    end.

  (** [while node.parent_key is not None] of the loop that adds the
      trajectories, covariances and goal points. *)
Fixpoint attach_up (fuel : nat) (tr : STree) (data_tree : DTree) (node : SNode)
    : result DTree :=
    match Tree.parent_key node with
    | None => Ok data_tree
    | Some p =>
        match fuel with
        | O => Raise OutOfFuel
        | S fuel' =>
            d <- or_raise TypeError (data (Tree.data node)) ;;
            _ <- or_raise KeyError (Tree.get_node data_tree (Tree.key node)) ;;
            let data_tree := map (Tree.modify_data (Tree.key node) (attach d)) data_tree in
            parent <- or_raise KeyError (Tree.get_node tr p) ;;
            attach_up fuel' tr data_tree parent
        end
    end.

  (** [while queue] of the separation of [data_tree] into the scenario
      trees. *)
Fixpoint copy_bfs (fuel : nat) (data_tree : DTree) (queue : list DNode)
           (scenario_tree : DTree) : result DTree :=
    match queue with
    | [] => Ok scenario_tree
    | cur_node :: queue =>
        match fuel with
        | O => Raise OutOfFuel
        | S fuel' =>
            children <- mapM (fun k => or_raise KeyError (Tree.get_node data_tree k))
                             (Tree.children_keys cur_node) ;;
            scenario_tree <-
              foldM (fun st child_node =>
                       Tree.add_node st (Tree.key child_node) (Some (Tree.key cur_node))
                                     (Tree.data child_node))
                    children scenario_tree ;;
            copy_bfs fuel' data_tree (queue ++ children) scenario_tree
        end
    end.

  (** The end flags after the loop "label the branch that actually
      finished". *)
Definition label_finished (fuel : nat) (tr : STree) : result STree :=
    foldM (label_up fuel) (end_leaves tr) tr.

  (** The loop "construct the data_tree recursively and add normalized
      probability". *)
Definition build_data_tree (fuel : nat) (tr : STree) (root_node : SNode)
             (data_tree : DTree) : result DTree :=
    foldM (fun dt k =>
             node <- or_raise KeyError (Tree.get_node tr k) ;;
             if negb (ended node) then Ok dt
             else
               dt <- Tree.add_node dt (Tree.key node) (Some (Tree.key root_node))
                                   (mkOut (Fin 1) None) ;;
               normalize_bfs fuel tr [node] dt)
          (Tree.children_keys root_node) data_tree.

  (** The loop "separate the data_tree into trajectory trees from the
      root". *)
Definition separate (fuel : nat) (data_tree : DTree) : result (list DTree) :=
    droot <- or_raise TypeError (Tree.get_root data_tree) ;;
    mapM (fun k =>
            node <- or_raise KeyError (Tree.get_node data_tree k) ;;
            st <- Tree.add_node Tree.empty (Tree.key node) None (Tree.data node) ;;
            copy_bfs fuel data_tree [node] st)
         (Tree.children_keys droot).

  (** [get_scenario_tree()]: the exported trees and [self.tree] after
      the call (its end flags are propagated to the ancestors). *)
Definition get_scenario_tree (fuel : nat) (tr : STree) : result (list DTree * STree) :=
    root_node <- or_raise TypeError (Tree.get_root tr) ;;
    data_tree <- Tree.add_node Tree.empty (Tree.key root_node) None (mkOut (Fin 1) None) ;;
    tr <- label_finished fuel tr ;;
    data_tree <- build_data_tree fuel tr root_node data_tree ;;
    data_tree <- foldM (attach_up fuel tr) (end_leaves tr) data_tree ;;
    scenario_trees <- separate fuel data_tree ;;
    Ok (scenario_trees, tr).

End Extraction.

Section BranchAime.
  Context {B : Backend} {U : Utils}.
  Variables obs_len pred_len : nat.
  Variable cfg : Config.
  Variable target_lane : option (list vec2).
  Variable target_lane_info : list (list Q).
  Variable network : nat -> list Obs.t -> list NetOut.

Definition no_end_node : string := "No end node found in the scenario tree.".

  (** The statements of [branch_aime] after the loop. *)
Definition finish (fuel : nat) (g : Gen) : result (list (Tree.t OutData) * Gen) :=
    if negb (0 <? List.length (get_end_set (tree g)))%nat
    then Raise (AssertionError no_end_node)
    else
      '(trees, tr) <- get_scenario_tree obs_len fuel (tree g) ;;
      Ok (trees, mkGen tr (lane_graph g) (branch_depth g)).

  (** The statements of [branch_aime] up to the loop: the generator and
      the first branch set. *)
Definition start (g : Gen) (lcl_smp : LocalSample) (agent_obs : AgentObs)
    : result (list (Tree.Node ScenarioData.t) * Gen) :=
    '(data, lg) <- process_data pred_len cfg target_lane target_lane_info
                                lcl_smp agent_obs ;;
    let g := mkGen (tree g) (Some lg) (branch_depth g) in
    g <- init_scenario_tree obs_len pred_len cfg target_lane target_lane_info network
                            g data ;;
    Ok (get_branch_set g).

  (** [branch_aime(lcl_smp, agent_obs)] on the generator [g]: the
      scenario trees and the generator after the call.  [rounds] bounds
      the iterations of the main loop and [fuel] those of the loops of
      the extraction. *)
Definition branch_aime (rounds fuel : nat) (g : Gen) (lcl_smp : LocalSample)
             (agent_obs : AgentObs) : result (list (Tree.t OutData) * Gen) :=
    '(branch_nodes, g) <- start g lcl_smp agent_obs ;;
    g <- aime_loop obs_len pred_len cfg target_lane target_lane_info network
                   rounds g branch_nodes ;;
    finish fuel g.

End BranchAime.

(* ================================================================== *)
(** ** Concrete collaborators

    Instances of the parameters on which the model can be run: a numeric
    backend over the rationals and helpers that follow the description
    of planners/mind/utils.py in the generator's comments. *)

Module Concrete.

(** Square root to six decimal places, exact on the squares of
    rationals. *)
Definition q_sqrt (q : Q) : Q :=
  Qred (Qmake (Z.sqrt (Qnum q * Zpos (Qden q) * 10 ^ 12)) (Qden q * 1000000)).

Definition q_pi : Q := 355 # 113.

(** Sine after Bhaskara, on [0, pi], extended by symmetry and period. *)
Definition q_sin_half (x : Q) : Q :=
  16 * x * (q_pi - x) / (5 * q_pi * q_pi - 4 * x * (q_pi - x)).

Definition q_reduce (x : Q) : Q :=
  x - inject_Z (Qfloor ((x + q_pi) / (2 * q_pi))) * (2 * q_pi).

Definition q_sin (x : Q) : Q :=
  let r := q_reduce x in
  Qred (if Qltb r 0 then - q_sin_half (- r) else q_sin_half r).

Definition q_cos (x : Q) : Q := q_sin (x + q_pi / 2).

(** The angle of the direction (x, y), linear in each octant and exact at
    the multiples of pi/4. *)
Definition q_atan2_upper (y x : Q) : Q :=
  if Qeq_bool (Qabs x + y) 0 then 0
  else if Qltb x 0 then q_pi / 2 + (q_pi / 2) * (- x / (y - x))
  else (q_pi / 2) * (y / (x + y)).

Definition q_atan2 (y x : Q) : Q :=
  Qred (if Qltb y 0 then - q_atan2_upper (- y) x else q_atan2_upper y x).

#[export] Instance backend : Backend := {|
  b_sqrt := q_sqrt;
  b_sin := q_sin;
  b_cos := q_cos;
  b_atan2 := q_atan2;
  b_pi := q_pi
|}.

(** The raw observation of the agents: positions, headings and
    velocities, one list per agent. *)
Definition RawObs : Type := list (list vec2) * list (list Q) * list (list vec2).

Definition min_list (l : list Q) (d : Q) : Q :=
  fold_left (fun m x => if Qltb x m then x else m) l d.

#[export] Instance utils : Utils := {|
  LaneGraph := unit;
  Rpe := unit;
  CovParam := Q;
  MapData := unit;
  AgentObs := RawObs;
  get_origin_rotation := fun traj_pos traj_ang =>
    let theta := last traj_ang 0 in
    (last traj_pos (0, 0),
     ((q_cos theta, - q_sin theta), (q_sin theta, q_cos theta)),
     theta);
  get_new_lane_graph := fun lg _ _ => lg;
  update_lane_graph_from_argo := fun _ _ _ => tt;
  lane_ctrs := fun _ => [];
  lane_vecs := fun _ => [];
  get_rpe := fun _ _ => tt;
  get_angle := fun v => q_atan2 (snd v) (fst v);
  get_max_covariance := fun c => c;
  get_distance_to_polyline := fun lane p =>
    min_list (map (fun q => norm (vsub q p)) lane) 1000;
  get_agent_trajectories := fun o =>
    let '(pos, ang, vel) := o in
    (pos, ang, vel, map (fun _ => [1]) pos, map (map (fun _ => 1)) ang,
     map (fun _ => "agent"%string) pos, map (fun _ => "focal"%string) pos)
|}.

End Concrete.

(* ================================================================== *)
(** ** The branch time in the words of the specification *)



(* ================================================================== *)
(** ** Example data *)

Module Examples.

Import Concrete.

Definition meta1 : TrajMeta := mkMeta [[1]] ["ego"%string] ["focal"%string].

(** One agent, an observation window of one step and six samples of
    history.  The covariance of the second predicted step is twice that
    of the observation boundary; the third is ten times the boundary. *)
Definition slow_growth : PredData :=
  mkPred 1 0 4 "root" "0_0_0" meta1
         [[(0, 0); (1, 0); (2, 0); (3, 0); (4, 0); (5, 0)]]
         [[1; 1; 2; 10; 10; 10]]
         [[0; 0; 0; 0; 0; 0]]
         [[(1, 0); (1, 0); (1, 0); (1, 0); (1, 0); (1, 0)]]
         [].

(** As [slow_growth], but the covariance of the third predicted step is
    ten times that of the second. *)
Definition fast_growth : PredData :=
  mkPred 1 0 4 "root" "0_0_0" meta1
         [[(0, 0); (1, 0); (2, 0); (3, 0); (4, 0); (5, 0)]]
         [[1; 1; 1; 10; 10; 10]]
         [[0; 0; 0; 0; 0; 0]]
         [[(1, 0); (1, 0); (1, 0); (1, 0); (1, 0); (1, 0)]]
         [].

(** Twenty points one metre apart along the x axis, with one attribute
    per point. *)
Definition straight_lane : list vec2 :=
  map (fun i => (inject_Z (Z.of_nat i), 0)) (seq 0 20).

Definition straight_lane_info : list (list Q) :=
  map (fun _ => [1]) (seq 0 20).

(** Fifty points one metre apart along the x axis. *)
Definition lane50 : list vec2 :=
  map (fun i => (inject_Z (Z.of_nat i), 0)) (seq 0 50).

Definition lane50_info : list (list Q) :=
  map (fun _ => [1]) (seq 0 50).

(** A target lane of three points. *)
Definition short_lane : list vec2 := [(0, 0); (1, 0); (2, 0)].

Definition short_lane_info : list (list Q) := [[1]; [1]; [1]].

Definition identity : mat2 := ((1, 0), (0, 1)).





(** [max_depth = 3], a lane deviation threshold of 10 m and a lookahead
    of 3 s. *)
Definition cfg3 : Config := mkConfig 3 10 3.

Definition leaf_of (sd : ScenarioData.t) : Tree.Node ScenarioData.t :=
  Tree.mkNode "0_0_0" (Some "root"%string) [] 1 sd.

End Examples.

(* ================================================================== *)
(** ** A scene on which the generator can be run *)

Module Scene.

Import Concrete.

(** Two agents observed over two steps: the ego drives along the x axis
    and reaches the origin; another vehicle drives in parallel, five
    metres ahead and two metres to the left. *)
Definition agent_obs : RawObs :=
  ([[(-1, 0); (0, 0)]; [(4, 2); (5, 2)]],
   [[0; 0]; [0; 0]],
   [[(1, 0); (1, 0)]; [(1, 0); (1, 0)]]).

Definition lcl_smp : LocalSample := mkSample 1 tt.

Definition obs_len : nat := 2.
Definition pred_len : nat := 6.

(** In its own frame each agent advances one metre per step; the other
    vehicle drifts to the left in mode 0 and to the right in mode 1. *)
Definition ahead (drift : Q) (cov : list Q) : list (vec2 * Q) :=
  map (fun x => let t := inject_Z (Z.of_nat (fst x)) in
                ((t + 1, drift * (t + 1)), snd x))
      (combine (seq 0 pred_len) cov).

Definition steady : list Q := [1; 1; 1; 1; 1; 1].
Definition early_growth : list Q := [1; 1; 10; 10; 10; 10].
Definition late_growth : list Q := [1; 1; 1; 1; 20; 20].

(** The output for one observation: two modes with the probabilities
    [p0] and [p1] and the covariances [cov0] and [cov1]. *)
Definition two_modes (p0 p1 : Q) (cov0 cov1 : list Q) : NetOut :=
  mkNetOut [[p0; p1]]
           [[ahead 0 cov0; ahead 0 cov1]; [ahead 1 cov0; ahead (-1) cov1]]
           [[map (fun _ => (1, 0)) steady; map (fun _ => (1, 0)) steady];
            [map (fun _ => (1, 0)) steady; map (fun _ => (1, 0)) steady]].

(** The answer of a network that is a function of the observation
    alone.  At the root and at the first child of the root one mode is
    likely and the other is not; everywhere else the two modes are
    equally likely.  The covariance grows early at the root, late in the
    unlikely mode of the first child, and not at all otherwise. *)
Definition uneven (o : Obs.t) : NetOut :=
  if String.eqb (Obs.SCEN_ID o) "root" then
    two_modes 0.9985 0.0015 early_growth early_growth
  else if String.eqb (Obs.SCEN_ID o) "0_0_0" then
    two_modes 0.9985 0.0015 steady late_growth
  else two_modes 0.5 0.5 steady steady.

(** Another such answer: the covariance grows early at the root and not
    at all below it. *)
Definition calm (o : Obs.t) : NetOut :=
  if String.eqb (Obs.SCEN_ID o) "root" then
    two_modes 0.6 0.4 early_growth early_growth
  else two_modes 0.75 0.25 steady steady.

Definition network (predict : Obs.t -> NetOut) (_ : nat) (batch : list Obs.t)
  : list NetOut := map predict batch.

Definition cfg : Config := Examples.cfg3.
Definition target_lane : option (list vec2) := Some Examples.straight_lane.
Definition target_lane_info : list (list Q) := Examples.straight_lane_info.

(** The generator at the entry of the loop of [branch_aime], called on a
    fresh generator. *)
Definition started (predict : Obs.t -> NetOut)
  : result (list (Tree.Node ScenarioData.t) * Gen) :=
  start obs_len pred_len cfg target_lane target_lane_info (network predict)
        (reset (U := utils)) lcl_smp agent_obs.

(** The loop of [branch_aime] with at most [rounds] iterations. *)
Definition looped (predict : Obs.t -> NetOut) (rounds : nat) : result Gen :=
  '(branch_nodes, g) <- started predict ;;
  aime_loop obs_len pred_len cfg target_lane target_lane_info (network predict)
            rounds g branch_nodes.

(** The keys, depths and flags (branch, end, terminate) of the leaves of
    a tree. *)
Definition leaf_flags (g : Gen) : list (string * nat * (bool * bool * bool)) :=
  map (fun n => (Tree.key n, Tree.depth n,
                 (branch_flag (Tree.data n), end_flag (Tree.data n),
                  terminate_flag (Tree.data n))))
      (Tree.get_leaf_nodes (tree g)).

(** The branch set and the generator after [k] iterations of the loop. *)
Fixpoint iterate (predict : Obs.t -> NetOut) (k : nat)
  : result (list (Tree.Node ScenarioData.t) * Gen) :=
  match k with
  | O => started predict
  | S k' =>
      '(branch_nodes, g) <- iterate predict k' ;;
      aime_round obs_len pred_len cfg target_lane target_lane_info (network predict)
                 g branch_nodes
  end.

(** The keys of the branch set and the flags of the leaves after [k]
    iterations. *)
Definition snapshot (predict : Obs.t -> NetOut) (k : nat)
  : result (list string * list (string * nat * (bool * bool * bool))) :=
  '(branch_nodes, g) <- iterate predict k ;;
  Ok (map (@Tree.key _) branch_nodes, leaf_flags g).

(** [branch_aime] on a fresh generator. *)
Definition run (predict : Obs.t -> NetOut) (rounds fuel : nat)
  : result (list (Tree.t OutData) * Gen) :=
  branch_aime obs_len pred_len cfg target_lane target_lane_info (network predict)
              rounds fuel (reset (U := utils)) lcl_smp agent_obs.

End Scene.

(* ================================================================== *)
(** ** The branch test of a payload *)

Section ConditionMet.
  Context {U : Utils}.
  Variable obs_len : nat.

  (** [is_condition_met(data)]: the scan of [get_branch_time] over the
      same steps; the answer is [False] at the first step the scan
      stops at, which is written to END_T of [data], and [True] when the
      scan finds none.  The second component is [data] after the call. *)
Definition is_condition_met (data : PredData) : result (bool * PredData) :=
    let trajs_cov := TRAJS_COV_HIST data in
    let cur_t := CUR_T data in
    let end_t := END_T data in
    let compare_t := (obs_len + cur_t)%nat in
    let compare_t := if (cur_t =? 0)%nat then (compare_t + 1)%nat else compare_t in
    r <- branch_scan obs_len trajs_cov compare_t (seq (cur_t + 1) (end_t - (cur_t + 1))) ;;
    match r with
    | Some t => Ok (false, set_END_T t data)
    | None => Ok (true, data)
    end.

End ConditionMet.

(* ================================================================== *)
(** ** The search loop *)

Section SearchLoop.
  Context {B : Backend} {U : Utils}.
  Variables obs_len pred_len : nat.
  Variable cfg : Config.
  Variable target_lane : option (list vec2).
  Variable target_lane_info : list (list Q).
  Variable network : nat -> list Obs.t -> list NetOut.

  (** The statements of [branch_aime] before [get_scenario_tree], on a
      generator with an empty tree: [init_scenario_tree] and the loop
      [while branch_nodes], with at most [rounds] iterations. *)
Definition search (lg0 : option LaneGraph) (bd0 : nat) (lcl_smp : LocalSample)
             (agent_obs : AgentObs) (rounds : nat) : result Gen :=
    '(branch_nodes, g) <- start obs_len pred_len cfg target_lane target_lane_info network
                                (mkGen Tree.empty lg0 bd0) lcl_smp agent_obs ;;
    aime_loop obs_len pred_len cfg target_lane target_lane_info network
              rounds g branch_nodes.

End SearchLoop.

(* ================================================================== *)
(** ** The trajectory bases of the decoder (planners/mind/networks/network.py)

    The matrices that [SceneDecoder] multiplies with the regressed
    control points.  The entries are exact rationals; the conversion to
    a tensor of single-precision floats is left out. *)

Module Decoder.





Definition of_nat (n : nat) : Q := inject_Z (Z.of_nat n).





End Decoder.

(* ================================================================== *)
(** ** Observations the example networks are run on *)

Module Solo.
  Import Concrete.

  (** One track: the scene of an ego vehicle alone. *)
Definition track_obs : RawObs :=
    ([[(-1, 0); (0, 0)]], [[0; 0]], [[(1, 0); (1, 0)]]).

  (** An answer with two modes of probabilities [p0] and [p1] whose
      trajectories end a tenth of a metre apart. *)
Definition close_modes (p0 p1 : Q) : NetOut :=
    mkNetOut [[p0; p1]]
             [[Scene.ahead 0 Scene.steady; Scene.ahead (1 # 10) Scene.steady]]
             [[map (fun _ => (1, 0)) Scene.steady; map (fun _ => (1, 0)) Scene.steady]].

  (** The root observation of [init_scenario_tree] for [obs]. *)
Definition root_of (obs : RawObs) : result Obs.t :=
    '(o, _) <- process_data Scene.pred_len Scene.cfg Scene.target_lane
                            Scene.target_lane_info Scene.lcl_smp obs ;;
    Ok (prepare_root_data Scene.pred_len o).

End Solo.

(** A tree of two nodes: the root and a leaf that carries a payload. *)
Module Sapling.
  Import Concrete.

Definition of_payload (d : PredData) : Tree.t ScenarioData.t :=
    [Tree.mkNode "root" None ["0_0_0"%string] 0 (ScenarioData.mk None None true false false);
     Examples.leaf_of (ScenarioData.new (Some d) None)].

  (** [decide_branch] on that tree, with an observation window of one
      step and a horizon of four. *)
Definition decided (d : PredData) : result (Tree.t ScenarioData.t) :=
    decide_branch 1 4 Examples.cfg3 (Some Examples.straight_lane)
                  Examples.straight_lane_info (Some tt) (of_payload d).

End Sapling.

(* ================================================================== *)
(** * Properties *)

(** ** Exceptions and numbers *)

Lemma bind_ok {A B : Type} (r : result A) (k : A -> result B) (b : B) :
  bind r k = Ok b -> exists a, r = Ok a /\ k a = Ok b.
Proof.
  destruct r as [a|e]; simpl; intro H; [exists a; auto | discriminate].
Qed.

Lemma or_raise_ok {A : Type} (e : exn) (o : option A) (a : A) :
  or_raise e o = Ok a -> o = Some a.
Proof.
  destruct o; simpl; congruence.
Qed.

(** Splits a hypothesis [H : (x <- r ;; k) = Ok b]. *)
Ltac bind_inv H :=
  let a := fresh "a" in
  let Ha := fresh "Ha" in
  apply bind_ok in H; destruct H as [a [Ha H]].

(** Splits [H] as long as it is a bind or the destructuring of a pair. *)
Ltac bind_all H :=
  repeat match type of H with
         | bind _ _ = Ok _ => bind_inv H
         | match ?x with pair _ _ => _ end = Ok _ => destruct x
         end.

Lemma Qltb_lt (x y : Q) : Qltb x y = true <-> x < y.
Proof.
  unfold Qltb. rewrite negb_true_iff.
  split; intro H.
  - apply Qnot_le_lt. intro Hle. apply Qle_bool_iff in Hle. congruence.
  - destruct (Qle_bool y x) eqn:E; [|reflexivity].
    apply Qle_bool_iff in E. exfalso. exact (Qlt_not_le _ _ H E).
Qed.

Lemma Qltb_ge (x y : Q) : Qltb x y = false <-> y <= x.
Proof.
  unfold Qltb. rewrite negb_false_iff. apply Qle_bool_iff.
Qed.

Lemma mapM_ok_map {A B : Type} (f : A -> result B) (g : A -> B) (l : list A) :
  (forall x, In x l -> f x = Ok (g x)) -> mapM f l = Ok (map g l).
Proof.
  induction l as [|x l IH]; simpl; intro H; [reflexivity|].
  rewrite (H x) by auto. simpl. rewrite IH by auto. reflexivity.
Qed.


(* ================================================================== *)
(** ** Branch time *)






Lemma branch_scan_in (obs_len : nat) (cov : list (list Q)) (cmp : nat) (ts : list nat) (t : nat) :
  branch_scan obs_len cov cmp ts = Ok (Some t) -> In t ts.
Proof.
  induction ts as [|a ts IH]; cbn [branch_scan]; intro H; [discriminate|].
  destruct (a mod 2 =? 1)%nat.
  - right. auto.
  - bind_inv H. bind_inv H.
    destruct (cov_exceeds a0 a1).
    + injection H as ->. left. reflexivity.
    + right. auto.
Qed.

(** [get_branch_time] changes nothing but END_T, and END_T only to a
    step strictly inside the window of the payload. *)
Lemma get_branch_time_frame (obs_len : nat) (d d' : PredData) (t : nat) :
  get_branch_time obs_len d = Ok (t, d') ->
  (t = END_T d /\ d' = d) \/
  ((CUR_T d < t < END_T d)%nat /\ d' = set_END_T t d).
Proof.
  unfold get_branch_time. intro H. bind_inv H.
  destruct a as [t0|].
  - injection H as <- <-. right. split; [|reflexivity].
    apply branch_scan_in in Ha. apply in_seq in Ha. lia.
  - injection H as <- <-. left. auto.
Qed.

Section ObservationFacts.
Context {B : Backend} {U : Utils}.
Variables obs_len pred_len : nat.
Variable cfg : Config.
Variable target_lane : option (list vec2).
Variable target_lane_info : list (list Q).

(** What [update_obser] returns when it returns: the payload with its
    histories truncated, and a window of the last [obs_len] samples that
    starts at the branch time and ends at the horizon. *)
Lemma update_obser_ok (lg : option LaneGraph) (d cur : PredData) (obs : Obs.t) :
  update_obser obs_len pred_len cfg target_lane target_lane_info lg d = Ok (obs, cur) ->
  cur = truncate_hist obs_len d /\
  Obs.CUR_T obs = END_T d /\
  Obs.END_T obs = pred_len /\
  Obs.TRAJS_POS_HIST obs = slice_last obs_len (TRAJS_POS_HIST cur) /\
  Obs.TRAJS_COV_HIST obs = slice_last obs_len (TRAJS_COV_HIST cur) /\
  Obs.TRAJS_ANG_HIST obs = slice_last obs_len (TRAJS_ANG_HIST cur) /\
  Obs.TRAJS_VEL_HIST obs = slice_last obs_len (TRAJS_VEL_HIST cur) /\
  Obs.SCEN_ID obs = SCEN_ID d /\
  Obs.SCEN_PROB obs = SCEN_PROB d.
Proof.
  unfold update_obser. intro H.
  bind_all H.
  injection H as <- <-. cbn.
  repeat split; reflexivity.
Qed.

End ObservationFacts.

(* ================================================================== *)
(** ** The branch decision *)

Section BranchDecision.
Context {B : Backend} {U : Utils}.
Variables obs_len pred_len : nat.
Variable cfg : Config.
Variable target_lane : option (list vec2).
Variable target_lane_info : list (list Q).
Variable lg : option LaneGraph.

(** The payload of a leaf whose branch flag was set, after the pass. *)
Definition first_touch (sd : ScenarioData.t) : ScenarioData.t :=
  ScenarioData.mk (data sd) (obs_data sd) false (end_flag sd) true.

Lemma decide_leaf_first_touch (l : Tree.Node ScenarioData.t) :
  branch_flag (Tree.data l) = true ->
  decide_leaf obs_len pred_len cfg target_lane target_lane_info lg l
  = Ok (first_touch (Tree.data l)).
Proof.
  intro H. unfold decide_leaf. rewrite H. reflexivity.
Qed.

Lemma mapM_nth {X Y : Type} (f : X -> result Y) (l : list X) (l' : list Y) :
  mapM f l = Ok l' ->
  List.length l' = List.length l /\
  forall i x, nth_error l i = Some x ->
              exists y, f x = Ok y /\ nth_error l' i = Some y.
Proof.
  revert l'. induction l as [|x l IH]; cbn [mapM]; intros l' H.
  - injection H as <-. split; [reflexivity|]. intros [|i] y Hy; discriminate.
  - bind_inv H. bind_inv H. injection H as <-.
    destruct (IH _ Ha0) as [Hlen Hnth].
    split; [simpl; congruence|].
    intros [|i] z Hz; simpl in *.
    + injection Hz as <-. exists a. auto.
    + apply Hnth. exact Hz.
Qed.

(** C5.  In a pass of [decide_branch], a leaf whose branch flag is set
    gets its branch flag cleared and its terminate flag set, and nothing
    else of it is read or changed: the outcome is the same for every
    depth, end flag, payload and configuration (first part).  In a pass
    that completes, every such leaf of the tree is found so at its place
    (second part).  The end-flag test and the depth test are reached by
    the leaves whose branch flag is clear: an ended leaf is left as it
    is, and a leaf at or beyond the maximal depth is terminated (third
    and fourth part). *)
Theorem decide_branch_first_touch :
  (forall l : Tree.Node ScenarioData.t,
      branch_flag (Tree.data l) = true ->
      decide_leaf obs_len pred_len cfg target_lane target_lane_info lg l
      = Ok (ScenarioData.mk (data (Tree.data l)) (obs_data (Tree.data l))
                            false (end_flag (Tree.data l)) true)) /\
  (forall tr tr' : Tree.t ScenarioData.t,
      decide_branch obs_len pred_len cfg target_lane target_lane_info lg tr = Ok tr' ->
      forall i l,
        nth_error tr i = Some l ->
        Tree.is_leaf l = true ->
        branch_flag (Tree.data l) = true ->
        nth_error tr' i
        = Some (Tree.mkNode (Tree.key l) (Tree.parent_key l) (Tree.children_keys l)
                            (Tree.depth l)
                            (ScenarioData.mk (data (Tree.data l)) (obs_data (Tree.data l))
                                             false (end_flag (Tree.data l)) true))) /\
  (forall l : Tree.Node ScenarioData.t,
      branch_flag (Tree.data l) = false ->
      end_flag (Tree.data l) = true ->
      decide_leaf obs_len pred_len cfg target_lane target_lane_info lg l
      = Ok (Tree.data l)) /\
  (forall l : Tree.Node ScenarioData.t,
      branch_flag (Tree.data l) = false ->
      end_flag (Tree.data l) = false ->
      (max_depth cfg <= Tree.depth l)%nat ->
      decide_leaf obs_len pred_len cfg target_lane target_lane_info lg l
      = Ok (ScenarioData.mk (data (Tree.data l)) (obs_data (Tree.data l))
                            false false true)).
Proof.
  split; [|split; [|split]].
  - intros l H. apply decide_leaf_first_touch. exact H.
  - intros tr tr' Hpass i l Hi Hleaf Hflag.
    unfold decide_branch in Hpass.
    destruct (mapM_nth _ _ Hpass) as [_ Hnth].
    destruct (Hnth i l Hi) as (n' & Hn' & Hi').
    unfold decide_node in Hn'. rewrite Hleaf in Hn'.
    rewrite (decide_leaf_first_touch l Hflag) in Hn'.
    cbn [bind] in Hn'. injection Hn' as <-. exact Hi'.
  - intros l Hb He. unfold decide_leaf. rewrite Hb, He. reflexivity.
  - intros l Hb He Hd. unfold decide_leaf. rewrite Hb, He. cbn [negb].
    apply Nat.leb_le in Hd. rewrite Hd. reflexivity.
Qed.

End BranchDecision.

Section BranchTime.
Context {B : Backend} {U : Utils}.
Variables obs_len pred_len : nat.
Variable cfg : Config.
Variable target_lane : option (list vec2).
Variable target_lane_info : list (list Q).
Variable lg : option LaneGraph.



End BranchTime.



(* ================================================================== *)
(** ** What the generator changes in a payload *)

Section PayloadFrame.
Context {B : Backend} {U : Utils}.
Variables obs_len pred_len : nat.
Variable cfg : Config.
Variable target_lane : option (list vec2).
Variable target_lane_info : list (list Q).
Variable lg : option LaneGraph.

(** C7, amended.  A payload is changed after its creation, in two
    places only.  [get_branch_time] overwrites END_T with the branch
    time when it finds a branch step, which lies strictly between CUR_T
    and the former END_T, and changes nothing else.  [update_obser] cuts
    the four history buffers after their first
    [obs_len + (END_T - CUR_T)] samples and changes nothing else.  So a
    pass of [decide_branch] over a leaf keeps the probability, CUR_T, the
    identifiers, the agent metadata and the goal points of its payload,
    never raises END_T, and keeps the histories or replaces them by a
    prefix of themselves.  The back-propagation of the end flag leaves
    the payload as it is. *)
Theorem payload_changes_after_creation :
  (forall (d d' : PredData) (t : nat),
      get_branch_time obs_len d = Ok (t, d') ->
      (t = END_T d /\ d' = d) \/
      ((CUR_T d < t < END_T d)%nat /\ d' = set_END_T t d)) /\
  (forall (d cur : PredData) (obs : Obs.t),
      update_obser obs_len pred_len cfg target_lane target_lane_info lg d = Ok (obs, cur) ->
      cur = mkPred (SCEN_PROB d) (CUR_T d) (END_T d) (PARENT_ID d) (SCEN_ID d) (TRAJS d)
                   (slice_to (obs_len + (END_T d - CUR_T d)) (TRAJS_POS_HIST d))
                   (slice_to (obs_len + (END_T d - CUR_T d)) (TRAJS_COV_HIST d))
                   (slice_to (obs_len + (END_T d - CUR_T d)) (TRAJS_ANG_HIST d))
                   (slice_to (obs_len + (END_T d - CUR_T d)) (TRAJS_VEL_HIST d))
                   (TGT_PTS d)) /\
  (forall (l : Tree.Node ScenarioData.t) (d : PredData) (sd' : ScenarioData.t),
      data (Tree.data l) = Some d ->
      decide_leaf obs_len pred_len cfg target_lane target_lane_info lg l = Ok sd' ->
      exists d',
        data sd' = Some d' /\
        SCEN_PROB d' = SCEN_PROB d /\ CUR_T d' = CUR_T d /\
        PARENT_ID d' = PARENT_ID d /\ SCEN_ID d' = SCEN_ID d /\
        TRAJS d' = TRAJS d /\ TGT_PTS d' = TGT_PTS d /\
        (END_T d' <= END_T d)%nat /\
        ((TRAJS_POS_HIST d' = TRAJS_POS_HIST d /\
          TRAJS_COV_HIST d' = TRAJS_COV_HIST d /\
          TRAJS_ANG_HIST d' = TRAJS_ANG_HIST d /\
          TRAJS_VEL_HIST d' = TRAJS_VEL_HIST d)
         \/
         (let n := (obs_len + (END_T d' - CUR_T d'))%nat in
          TRAJS_POS_HIST d' = slice_to n (TRAJS_POS_HIST d) /\
          TRAJS_COV_HIST d' = slice_to n (TRAJS_COV_HIST d) /\
          TRAJS_ANG_HIST d' = slice_to n (TRAJS_ANG_HIST d) /\
          TRAJS_VEL_HIST d' = slice_to n (TRAJS_VEL_HIST d)))) /\
  (forall sd : ScenarioData.t, data (set_end_flag sd) = data sd).
Proof.
  split; [|split; [|split]].
  - intros d d' t H. apply (get_branch_time_frame _ _ H).
  - intros d cur obs H.
    destruct (update_obser_ok _ _ _ _ _ _ _ H) as [-> _]. reflexivity.
  - intros l d sd' Hd Hdec.
    unfold decide_leaf in Hdec.
    destruct (branch_flag (Tree.data l)).
    { injection Hdec as <-. exists d. cbn [data]. rewrite Hd.
      repeat split; try reflexivity. left. repeat split. }
    destruct (end_flag (Tree.data l)); cbn [negb] in Hdec.
    2:{ destruct (max_depth cfg <=? Tree.depth l)%nat.
        - injection Hdec as <-. exists d. cbn [data]. rewrite Hd.
          repeat split; try reflexivity. left. repeat split.
        - rewrite Hd in Hdec. cbn [or_raise bind] in Hdec.
          bind_inv Hdec. destruct a as [t d1].
          assert (Hd1 : (END_T d1 <= END_T d)%nat /\ d1 = set_END_T (END_T d1) d).
          { destruct (get_branch_time_frame _ _ Ha) as [[_ ->]|[Ht ->]].
            - split; [apply le_n | destruct d; reflexivity].
            - split; [cbn; lia | reflexivity]. }
          destruct Hd1 as [Hle Hset].
          destruct (t <? pred_len)%nat.
          + bind_inv Hdec. destruct a as [obs cur]. injection Hdec as <-.
            destruct (update_obser_ok _ _ _ _ _ _ _ Ha0) as [-> _].
            exists (truncate_hist obs_len d1). cbn [data].
            rewrite Hset. cbn.
            repeat split; try reflexivity; try assumption.
            right. repeat split.
          + injection Hdec as <-. exists d1. cbn [data].
            rewrite Hset. cbn.
            repeat split; try reflexivity; try assumption.
            left. repeat split. }
    injection Hdec as <-. exists d.
    repeat split; try reflexivity; try assumption. left. repeat split.
  - intros sd. reflexivity.
Qed.

End PayloadFrame.

Lemma payload_changes_after_creation_witness :
  get_branch_time 1 Examples.fast_growth = Ok (2%nat, set_END_T 2 Examples.fast_growth) /\
  ((2%nat = END_T Examples.fast_growth /\ set_END_T 2 Examples.fast_growth = Examples.fast_growth)
   \/ ((CUR_T Examples.fast_growth < 2 < END_T Examples.fast_growth)%nat /\
       set_END_T 2 Examples.fast_growth = set_END_T 2 Examples.fast_growth)).
Proof.
  assert (H : get_branch_time 1 Examples.fast_growth
              = Ok (2%nat, set_END_T 2 Examples.fast_growth)) by reflexivity.
  split; [exact H|].
  exact (proj1 (payload_changes_after_creation
                  (B := Concrete.backend) (U := Concrete.utils)
                  1 4 Examples.cfg3 (Some Examples.straight_lane)
                  Examples.straight_lane_info (Some tt))
               Examples.fast_growth (set_END_T 2 Examples.fast_growth) 2%nat H).
Defined.

(** C7, the claim as stated fails: the branch decision changes END_T
    and the history buffers of a payload.  [fast_growth] has END_T = 4
    and six samples of history; after [get_branch_time] its END_T is 2,
    and after the pass of [decide_branch] over its leaf its covariance
    history is cut to three samples. *)
Lemma payload_mutation_counterexample :
  END_T Examples.fast_growth = 4%nat /\
  TRAJS_COV_HIST Examples.fast_growth = [[1; 1; 1; 10; 10; 10]] /\
  get_branch_time 1 Examples.fast_growth
  = Ok (2%nat, set_END_T 2 Examples.fast_growth) /\
  END_T (set_END_T 2 Examples.fast_growth) = 2%nat /\
  match decide_leaf (B := Concrete.backend) (U := Concrete.utils)
                    1 4 Examples.cfg3 (Some Examples.straight_lane)
                    Examples.straight_lane_info (Some tt)
                    (Examples.leaf_of (ScenarioData.new (Some Examples.fast_growth) None))
  with
  | Ok sd => option_map END_T (data sd) = Some 2%nat /\
             option_map TRAJS_COV_HIST (data sd) = Some [[1; 1; 1]]
  | Raise _ => False
  end.
Proof.
  split; [reflexivity|].
  split; [reflexivity|].
  split; [reflexivity|].
  split; [reflexivity|].
  vm_compute. split; reflexivity.
Qed.

Lemma decide_branch_first_touch_witness :
  decide_leaf (B := Concrete.backend) (U := Concrete.utils)
              1 4 Examples.cfg3 (Some Examples.straight_lane)
              Examples.straight_lane_info (Some tt)
              (Examples.leaf_of (ScenarioData.mk (Some Examples.fast_growth) None true false false))
  = Ok (ScenarioData.mk (Some Examples.fast_growth) None false false true).
Proof.
  exact (proj1 (decide_branch_first_touch
                  (B := Concrete.backend) (U := Concrete.utils)
                  1 4 Examples.cfg3 (Some Examples.straight_lane)
                  Examples.straight_lane_info (Some tt))
               (Examples.leaf_of (ScenarioData.mk (Some Examples.fast_growth) None true false false))
               eq_refl).
Defined.

(* ================================================================== *)
(** ** The merge step *)

Section MergeFacts.
Context {B : Backend}.

Definition differs (sel c : Candidate) : bool :=
  topo_differs (cand_topos sel) (cand_topos c).

(** Every candidate differs from each of those selected before it. *)
Inductive separated : list Candidate -> Prop :=
| separated_nil : separated []
| separated_cons (sel : Candidate) (rest : list Candidate) :
    Forall (fun c => differs sel c = true) rest ->
    separated rest ->
    separated (sel :: rest).

Lemma filter_length_le {A : Type} (f : A -> bool) (l : list A) :
  (List.length (filter f l) <= List.length l)%nat.
Proof.
  induction l as [|x l IH]; simpl; [lia|].
  destruct (f x); simpl; lia.
Qed.

Lemma filter_all {A : Type} (f : A -> bool) (l : list A) :
  Forall (fun x => f x = true) l -> filter f l = l.
Proof.
  induction 1 as [|x l Hx _ IH]; simpl; [reflexivity|].
  rewrite Hx, IH. reflexivity.
Qed.

Lemma merge_loop_any_fuel (fuel1 : nat) :
  forall (fuel2 : nat) (cands : list Candidate),
    (List.length cands <= fuel1)%nat ->
    (List.length cands <= fuel2)%nat ->
    merge_loop fuel1 cands = merge_loop fuel2 cands.
Proof.
  induction fuel1 as [|fuel1 IH]; intros [|fuel2] [|sel rest] H1 H2;
    simpl in *; try reflexivity; try lia.
  f_equal.
  pose proof (filter_length_le (fun c => topo_differs (cand_topos sel) (cand_topos c)) rest).
  apply IH; lia.
Qed.

(** The bound on the iterations of the merge loop is never reached: any
    bound from the number of candidates on gives the same selection. *)
Lemma merge_loop_fuel (fuel : nat) (cands : list Candidate) :
  (List.length cands <= fuel)%nat ->
  merge_loop fuel cands = merge cands.
Proof.
  intro H. unfold merge. apply merge_loop_any_fuel; [exact H | apply le_n].
Qed.

Lemma merge_cons (sel : Candidate) (rest : list Candidate) :
  merge (sel :: rest) = sel :: merge (filter (differs sel) rest).
Proof.
  unfold merge at 1. cbn [List.length merge_loop]. f_equal.
  apply merge_loop_fuel. apply filter_length_le.
Qed.

Lemma merge_incl (n : nat) :
  forall cands c, (List.length cands <= n)%nat -> In c (merge cands) -> In c cands.
Proof.
  induction n as [|n IH]; intros [|sel rest] c Hlen Hin.
  - exact Hin.
  - simpl in Hlen. lia.
  - exact Hin.
  - rewrite merge_cons in Hin. destruct Hin as [<-|Hin]; [left; reflexivity|].
    right.
    assert (Hf : In c (filter (differs sel) rest)).
    { apply IH; [|exact Hin].
      pose proof (filter_length_le (differs sel) rest). simpl in Hlen. lia. }
    apply filter_In in Hf. tauto.
Qed.

Lemma merge_separated (n : nat) :
  forall cands, (List.length cands <= n)%nat -> separated (merge cands).
Proof.
  induction n as [|n IH]; intros [|sel rest] Hlen.
  - apply separated_nil.
  - simpl in Hlen. lia.
  - apply separated_nil.
  - rewrite merge_cons.
    pose proof (filter_length_le (differs sel) rest) as Hf. simpl in Hlen.
    constructor.
    + apply Forall_forall. intros c Hc.
      apply (merge_incl (n := n)) in Hc; [|lia].
      apply filter_In in Hc. tauto.
    + apply IH. lia.
Qed.

Lemma merge_of_separated (cands : list Candidate) :
  separated cands -> merge cands = cands.
Proof.
  induction 1 as [|sel rest Hall _ IH]; [reflexivity|].
  rewrite merge_cons. rewrite (filter_all _ Hall). rewrite IH. reflexivity.
Qed.

(** C9.  The merge loop is idempotent: run on the candidates it has
    selected, it selects all of them again, in the same order. *)
Theorem merge_idempotent (data_candidates : list Candidate) :
  merge (merge data_candidates) = merge data_candidates.
Proof.
  apply merge_of_separated.
  apply (merge_separated (n := List.length data_candidates)).
  apply le_n.
Qed.

End MergeFacts.

(* ================================================================== *)
(** ** The window of the high-level command *)

Lemma index_in_range {A : Type} (l : list A) (i : nat) (d : A) :
  (i < List.length l)%nat -> index l (Z.of_nat i) = Ok (nth i l d).
Proof.
  intro H. unfold index.
  destruct (Z.ltb_spec (Z.of_nat i) (- Z.of_nat (List.length l))); [lia|].
  destruct (Z.ltb_spec (Z.of_nat i) 0); [lia|].
  rewrite Nat2Z.id.
  destruct (nth_error l i) as [a|] eqn:E.
  - simpl. f_equal. symmetry. apply nth_error_nth. exact E.
  - apply nth_error_None in E. lia.
Qed.

Lemma index_out_of_range {A : Type} (l : list A) (i : nat) :
  (List.length l <= i)%nat -> index l (Z.of_nat i) = Raise IndexError.
Proof.
  intro H. unfold index.
  destruct (Z.ltb_spec (Z.of_nat i) (- Z.of_nat (List.length l))); [reflexivity|].
  destruct (Z.ltb_spec (Z.of_nat i) 0); [lia|].
  rewrite Nat2Z.id.
  destruct (nth_error l i) as [a|] eqn:E; [|reflexivity].
  assert (nth_error l i <> None) by congruence.
  apply nth_error_Some in H2. lia.
Qed.

Lemma index_raises {A : Type} (l : list A) (i : Z) (e : exn) :
  index l i = Raise e -> e = IndexError.
Proof.
  unfold index.
  destruct (i <? - Z.of_nat (List.length l))%Z; [congruence|].
  destruct (i <? 0)%Z.
  - destruct (nth_error l (Z.to_nat (i + Z.of_nat (List.length l)))); simpl; congruence.
  - destruct (nth_error l (Z.to_nat i)); simpl; congruence.
Qed.

Lemma mapM_length {X Y : Type} (f : X -> result Y) (l : list X) (l' : list Y) :
  mapM f l = Ok l' -> List.length l' = List.length l.
Proof.
  intro H. apply (mapM_nth _ _ H).
Qed.

Lemma index_select_raises {A : Type} (l : list A) (idcs : list Z) (e : exn) :
  index_select l idcs = Raise e -> e = IndexError.
Proof.
  unfold index_select.
  induction idcs as [|i idcs IH]; cbn [mapM]; [discriminate|].
  destruct (index l i) as [a|e'] eqn:E; cbn [bind].
  - destruct (mapM (index l) idcs) as [ys|e'']; cbn [bind]; [discriminate|].
    intro H. injection H as <-. apply IH. reflexivity.
  - intro H. injection H as <-. apply (index_raises _ _ E).
Qed.

Lemma index_select_fails {A : Type} (l : list A) (idcs : list Z) (i : Z) :
  In i idcs -> index l i = Raise IndexError -> index_select l idcs = Raise IndexError.
Proof.
  intros Hin Hi.
  destruct (index_select l idcs) as [ys|e] eqn:E.
  - exfalso. unfold index_select in E.
    destruct (In_nth_error _ _ Hin) as [n Hn].
    destruct (mapM_nth _ _ E) as [_ Hnth].
    destruct (Hnth n i Hn) as (y & Hy & _). congruence.
  - f_equal. apply (index_select_raises _ _ E).
Qed.

Lemma arange_in (a : Z) (n i : nat) :
  (i < n)%nat -> In (a + Z.of_nat i)%Z (arange a n).
Proof.
  intro H. unfold arange. apply in_map_iff. exists i. split; [reflexivity|].
  apply in_seq. lia.
Qed.

Lemma index_select_seq {A : Type} (l : list A) (a : nat) (d : A) :
  forall n b,
    (a + b + n <= List.length l)%nat ->
    mapM (index l) (map (fun i => (Z.of_nat a + Z.of_nat i)%Z) (seq b n))
    = Ok (map (fun i => nth (a + i) l d) (seq b n)).
Proof.
  induction n as [|n IH]; intros b H; cbn [seq map mapM]; [reflexivity|].
  rewrite <- Nat2Z.inj_add.
  rewrite (index_in_range l d) by lia. cbn [bind].
  rewrite IH by lia. reflexivity.
Qed.

Lemma index_select_arange {A : Type} (l : list A) (a n : nat) (d : A) :
  (a + n <= List.length l)%nat ->
  index_select l (arange (Z.of_nat a) n)
  = Ok (map (fun i => nth (a + i) l d) (seq 0 n)).
Proof.
  intro H. unfold index_select, arange. apply index_select_seq. lia.
Qed.

Lemma argmin_from_bound (l : list Q) :
  forall i best bv, (best < i)%nat -> (argmin_from i best bv l < i + List.length l)%nat.
Proof.
  induction l as [|x l IH]; intros i best bv H; cbn [argmin_from List.length]; [lia|].
  destruct (Qltb x bv).
  - specialize (IH (S i) i x). lia.
  - specialize (IH (S i) best bv). lia.
Qed.

Lemma argmin_bound (l : list Q) (i : nat) :
  argmin l = Ok i -> (i < List.length l)%nat.
Proof.
  destruct l as [|x l]; cbn [argmin]; [discriminate|].
  intro H. injection H as <-.
  pose proof (@argmin_from_bound l 1 0 x). cbn [List.length]. lia.
Qed.

Lemma argmin_nonempty (l : list Q) :
  l <> [] -> exists i, argmin l = Ok i.
Proof.
  destruct l as [|x l]; [congruence|]. intros _. eexists. reflexivity.
Qed.

Section WalkAhead.
Context {B : Backend}.

Lemma walk_ahead_bound (lane : list vec2) :
  forall n idx travel, (idx <= walk_ahead lane n idx travel <= idx + n)%nat.
Proof.
  induction n as [|n IH]; intros idx travel; cbn [walk_ahead]; [lia|].
  destruct (Qltb 0 travel); [|lia].
  match goal with |- context [walk_ahead lane n (S idx) ?t] =>
    specialize (IH (S idx) t) end.
  lia.
Qed.

Lemma window_centre_clamped (lane : list vec2) (closest_idx : nat) (travel : Q) :
  (11 <= List.length lane)%nat ->
  (5 <= window_centre lane closest_idx travel <= Z.of_nat (List.length lane) - 6)%Z.
Proof.
  intro H. unfold window_centre. lia.
Qed.

Lemma window_centre_short (lane : list vec2) (closest_idx : nat) (travel : Q) :
  (List.length lane < 11)%nat ->
  window_centre lane closest_idx travel = 5%Z.
Proof.
  intro H. unfold window_centre. lia.
Qed.

End WalkAhead.

Lemma adjacent_length {A C : Type} (f : A -> A -> C) (l : list A) :
  List.length (adjacent f l) = (List.length l - 1)%nat.
Proof.
  unfold adjacent. rewrite length_map, length_combine.
  destruct l as [|x l]; [reflexivity|].
  rewrite removelast_firstn_len. rewrite length_firstn.
  cbn [List.length tl pred]. lia.
Qed.

Section CommandWindow.
Context {B : Backend}.
Variable cfg : Config.

Lemma get_high_level_command_long
      (lane : list vec2) (info : list (list Q)) (orig : vec2) (rot : mat2) (cur_vel : Q) :
  (11 <= List.length lane)%nat ->
  (List.length lane <= List.length info)%nat ->
  exists (c : nat) (tgt_pts : list vec2) (tgt_nodes : list (list fval))
         (tgt_anch : vec2 * fvec2),
    (5 <= c)%nat /\ (c + 6 <= List.length lane)%nat /\
    tgt_pts = map (fun i => nth (c - 5 + i) lane (0, 0)) (seq 0 11) /\
    get_high_level_command cfg (Some lane) info orig rot cur_vel
    = Ok (tgt_pts, tgt_nodes, tgt_anch) /\
    List.length tgt_pts = 11%nat /\
    List.length tgt_nodes = 10%nat.
Proof.
  intros Hlane Hinfo.
  unfold get_high_level_command. cbn [or_raise bind].
  destruct (@argmin_nonempty (map (fun p => norm (vsub p orig)) lane)) as [closest Hclosest].
  { destruct lane; [simpl in Hlane; lia | discriminate]. }
  rewrite Hclosest. cbn [bind].
  set (travel := pymax cur_vel 0.5 * tar_time_ahead cfg).
  pose proof (window_centre_clamped lane closest travel Hlane) as Hc.
  set (cz := window_centre lane closest travel) in *.
  exists (Z.to_nat cz).
  assert (Ha : (cz - 5)%Z = Z.of_nat (Z.to_nat cz - 5)) by lia.
  rewrite Ha.
  rewrite (@index_select_arange _ lane (Z.to_nat cz - 5) 11 (0, 0)) by lia.
  rewrite (@index_select_arange _ info (Z.to_nat cz - 5) 11 []) by lia.
  cbn [bind].
  rewrite length_map, length_seq. cbn [Nat.eqb negb].
  eexists. eexists. eexists.
  split; [lia|]. split; [lia|]. split; [reflexivity|].
  split; [reflexivity|].
  split; [rewrite length_map, length_seq; reflexivity|].
  unfold goal_nodes.
  rewrite length_map, !length_combine, !adjacent_length, !length_map, length_seq.
  reflexivity.
Qed.

Lemma get_high_level_command_short
      (lane : list vec2) (info : list (list Q)) (orig : vec2) (rot : mat2) (cur_vel : Q) :
  (List.length lane < 11)%nat ->
  get_high_level_command cfg (Some lane) info orig rot cur_vel = Raise IndexError.
Proof.
  intro Hlane.
  unfold get_high_level_command. cbn [or_raise bind].
  destruct lane as [|p lane'] eqn:Elane; [reflexivity|].
  rewrite <- Elane in *.
  destruct (@argmin_nonempty (map (fun p => norm (vsub p orig)) lane)) as [closest Hclosest].
  { rewrite Elane. discriminate. }
  rewrite Hclosest. cbn [bind].
  rewrite (window_centre_short lane closest _ Hlane).
  rewrite (@index_select_fails _ lane (arange (5 - 5) 11) (Z.of_nat (List.length lane))).
  - reflexivity.
  - apply (@arange_in 0 11 (List.length lane)). exact Hlane.
  - apply index_out_of_range. apply le_n.
Qed.

Lemma get_high_level_command_no_assertion
      (tl : option (list vec2)) (info : list (list Q)) (orig : vec2) (rot : mat2)
      (cur_vel : Q) (msg : string) :
  get_high_level_command cfg tl info orig rot cur_vel <> Raise (AssertionError msg).
Proof.
  unfold get_high_level_command.
  destruct tl as [lane|]; cbn [or_raise bind]; [|discriminate].
  destruct (argmin (map (fun p => norm (vsub p orig)) lane)) as [closest|e] eqn:E;
    cbn [bind].
  2:{ destruct lane; cbn in E; [injection E as <-; discriminate | discriminate]. }
  match goal with |- context [index_select lane ?idcs] =>
    destruct (index_select lane idcs) as [pts|e] eqn:Epts end; cbn [bind].
  2:{ rewrite (index_select_raises _ _ Epts). discriminate. }
  match goal with |- context [index_select info ?idcs] =>
    destruct (index_select info idcs) as [rows|e] eqn:Erows end; cbn [bind].
  2:{ rewrite (index_select_raises _ _ Erows). discriminate. }
  apply mapM_length in Epts. unfold arange in Epts.
  rewrite length_map, length_seq in Epts. rewrite Epts. cbn [Nat.eqb negb].
  discriminate.
Qed.

(** C4, amended.  With a target lane of at least 11 points (and its
    attributes, one row per point), [get_high_level_command] returns, for
    every origin, rotation and speed, exactly 11 points of the lane, the
    window of centre [c] with [5 <= c <= len - 6], and a goal feature of
    exactly 10 segments.  With a target lane of fewer than 11 points the
    extraction of the window raises an index error.  The length assertion
    that follows the extraction never fails: whatever the lane, the call
    does not end in an assertion error. *)
Theorem get_high_level_command_window :
  (forall (lane : list vec2) (info : list (list Q)) (orig : vec2) (rot : mat2) (cur_vel : Q),
      (11 <= List.length lane)%nat ->
      (List.length lane <= List.length info)%nat ->
      exists (c : nat) (tgt_pts : list vec2) (tgt_nodes : list (list fval))
             (tgt_anch : vec2 * fvec2),
        (5 <= c)%nat /\ (c + 6 <= List.length lane)%nat /\
        tgt_pts = map (fun i => nth (c - 5 + i) lane (0, 0)) (seq 0 11) /\
        get_high_level_command cfg (Some lane) info orig rot cur_vel
        = Ok (tgt_pts, tgt_nodes, tgt_anch) /\
        List.length tgt_pts = 11%nat /\
        List.length tgt_nodes = 10%nat) /\
  (forall (lane : list vec2) (info : list (list Q)) (orig : vec2) (rot : mat2) (cur_vel : Q),
      (List.length lane < 11)%nat ->
      get_high_level_command cfg (Some lane) info orig rot cur_vel = Raise IndexError) /\
  (forall (tl : option (list vec2)) (info : list (list Q)) (orig : vec2) (rot : mat2)
          (cur_vel : Q) (msg : string),
      get_high_level_command cfg tl info orig rot cur_vel <> Raise (AssertionError msg)).
Proof.
  split; [|split].
  - apply get_high_level_command_long.
  - apply get_high_level_command_short.
  - apply get_high_level_command_no_assertion.
Qed.

End CommandWindow.

Lemma get_high_level_command_window_witness :
  (11 <= List.length Examples.lane50)%nat /\
  (List.length Examples.lane50 <= List.length Examples.lane50_info)%nat /\
  exists (c : nat) (tgt_pts : list vec2) (tgt_nodes : list (list fval))
         (tgt_anch : vec2 * fvec2),
    (5 <= c)%nat /\ (c + 6 <= List.length Examples.lane50)%nat /\
    tgt_pts = map (fun i => nth (c - 5 + i) Examples.lane50 (0, 0)) (seq 0 11) /\
    get_high_level_command (B := Concrete.backend) Examples.cfg3
                           (Some Examples.lane50) Examples.lane50_info
                           (0, 0) Examples.identity 2
    = Ok (tgt_pts, tgt_nodes, tgt_anch) /\
    List.length tgt_pts = 11%nat /\
    List.length tgt_nodes = 10%nat.
Proof.
  assert (H1 : (11 <= List.length Examples.lane50)%nat) by (vm_compute; lia).
  assert (H2 : (List.length Examples.lane50 <= List.length Examples.lane50_info)%nat)
    by (vm_compute; lia).
  split; [exact H1|]. split; [exact H2|].
  exact (proj1 (get_high_level_command_window (B := Concrete.backend) Examples.cfg3)
               Examples.lane50 Examples.lane50_info (0, 0) Examples.identity 2 H1 H2).
Defined.

(** The scenario of the specification: fifty collinear points one metre
    apart, the ego at the first point at 2 m/s and a lookahead of 3 s.
    The centre of the window is the point of index 6 and the window the
    points of index 1 to 11. *)
Example get_high_level_command_lane50 :
  match get_high_level_command (B := Concrete.backend) Examples.cfg3
                               (Some Examples.lane50) Examples.lane50_info
                               (0, 0) Examples.identity 2 with
  | Ok (tgt_pts, tgt_nodes, _) =>
      tgt_pts = firstn 11 (skipn 1 Examples.lane50) /\
      List.length tgt_nodes = 10%nat
  | Raise _ => False
  end.
Proof.
  vm_compute. split; reflexivity.
Qed.

(** C4, the claim as stated fails: with a target lane of three points
    the call neither returns a window nor fails the assertion; it ends in
    the index error of the extraction of the window. *)
Lemma get_high_level_command_short_lane_counterexample :
  get_high_level_command (B := Concrete.backend) Examples.cfg3
                         (Some Examples.short_lane) Examples.short_lane_info
                         (0, 0) Examples.identity 2
  = Raise IndexError.
Proof.
  vm_compute. reflexivity.
Qed.

(* ================================================================== *)
(** ** Divisions by a norm *)

Lemma fdiv_nonzero (x n : Q) :
  Qeq_bool n 0 = false -> fdiv x n = Fin (x / n).
Proof.
  intro H. unfold fdiv. rewrite H. reflexivity.
Qed.



Lemma fsub_nan_l (x : fval) : fsub NaN x = NaN.
Proof. reflexivity. Qed.


Lemma fmul_nan_r (x : fval) : fmul x NaN = NaN.
Proof. destruct x; reflexivity. Qed.







Section NormDivision.
Context {B : Backend}.
Variable cfg : Config.











End NormDivision.

Section NormDivisionClaim.
Context {B : Backend}.
Variable cfg : Config.


End NormDivisionClaim.



(* ================================================================== *)
(** ** Scenario identifiers *)

Local Open Scope string_scope.

Fixpoint has_underscore (s : string) : bool :=
  match s with
  | EmptyString => false
  | String c s' => Ascii.eqb c "_" || has_underscore s'
  end.

Lemma string_of_uint_no_underscore (d : Decimal.uint) :
  has_underscore (NilEmpty.string_of_uint d) = false.
Proof.
  induction d; simpl; auto.
Qed.

Lemma str_of_nat_no_underscore (n : nat) : has_underscore (str_of_nat n) = false.
Proof.
  apply string_of_uint_no_underscore.
Qed.

Lemma str_of_nat_inj (n m : nat) : str_of_nat n = str_of_nat m -> n = m.
Proof.
  unfold str_of_nat. intro H.
  apply DecimalNat.Unsigned.to_uint_inj.
  assert (E : Some (Nat.to_uint n) = Some (Nat.to_uint m)).
  { rewrite <- !NilEmpty.usu. rewrite H. reflexivity. }
  congruence.
Qed.

Lemma has_underscore_app (a b : string) : has_underscore (a ++ "_" ++ b) = true.
Proof.
  induction a as [|c a IH]; simpl in *.
  - reflexivity.
  - rewrite IH. apply orb_true_r.
Qed.

(** The text before the first underscore and the text after it. *)
Lemma split_at_underscore (a1 a2 b1 b2 : string) :
  has_underscore a1 = false -> has_underscore a2 = false ->
  a1 ++ "_" ++ b1 = a2 ++ "_" ++ b2 -> a1 = a2 /\ b1 = b2.
Proof.
  revert a2. induction a1 as [|c a1 IH]; intros [|c2 a2] H1 H2 E; simpl in *.
  - injection E as E. auto.
  - injection E as Ec E. subst c2. simpl in H2. discriminate.
  - injection E as Ec E. subst c. simpl in H1. discriminate.
  - injection E as Ec E. subst c2.
    apply orb_false_elim in H1. apply orb_false_elim in H2.
    destruct (IH a2) as [-> ->]; tauto.
Qed.

(** The identifier determines the branch depth, the index in the batch
    and the mode. *)
Lemma scen_id_of_inj (d i m d' i' m' : nat) :
  scen_id_of d i m = scen_id_of d' i' m' -> d = d' /\ i = i' /\ m = m'.
Proof.
  unfold scen_id_of. intro E.
  apply split_at_underscore in E; try apply str_of_nat_no_underscore.
  destruct E as [Ed E].
  assert (E' : str_of_nat i ++ "_" ++ str_of_nat m = str_of_nat i' ++ "_" ++ str_of_nat m').
  { exact E. }
  apply split_at_underscore in E'; try apply str_of_nat_no_underscore.
  destruct E' as [Ei Em].
  auto using str_of_nat_inj.
Qed.

Lemma scen_id_of_not_root (d i m : nat) : scen_id_of d i m <> "root".
Proof.
  intro E.
  assert (H : has_underscore (scen_id_of d i m) = true) by apply has_underscore_app.
  rewrite E in H. discriminate.
Qed.

Local Close Scope string_scope.

(* ================================================================== *)
(** ** Trees *)

Section TreeFacts.
Context {A : Type}.
Implicit Types (tr : Tree.t A) (n : Tree.Node A) (k : string).

Lemma has_key_true k n : Tree.has_key k n = true <-> Tree.key n = k.
Proof. unfold Tree.has_key. apply String.eqb_eq. Qed.

Lemma has_key_false k n : Tree.has_key k n = false <-> Tree.key n <> k.
Proof. unfold Tree.has_key. apply String.eqb_neq. Qed.

Lemma get_node_some tr k n :
  Tree.get_node tr k = Some n -> In n tr /\ Tree.key n = k.
Proof.
  unfold Tree.get_node. intro H. apply find_some in H.
  rewrite has_key_true in H. exact H.
Qed.

Lemma get_node_none tr k :
  Tree.get_node tr k = None <-> ~ In k (Tree.keys tr).
Proof.
  unfold Tree.get_node, Tree.keys. split.
  - intros H Hin. apply in_map_iff in Hin. destruct Hin as (n & Hk & Hn).
    apply (find_none _ _ H) in Hn. rewrite has_key_false in Hn. contradiction.
  - intro H. destruct (find (Tree.has_key k) tr) as [n|] eqn:E; [|reflexivity].
    apply find_some in E. rewrite has_key_true in E. destruct E as [Hn Hk].
    exfalso. apply H. apply in_map_iff. exists n. auto.
Qed.

Lemma get_node_in_keys tr k :
  In k (Tree.keys tr) -> exists n, Tree.get_node tr k = Some n.
Proof.
  intro H. destruct (Tree.get_node tr k) as [n|] eqn:E; [eauto|].
  apply get_node_none in E. contradiction.
Qed.

Lemma key_add_child p c n : Tree.key (Tree.add_child p c n) = Tree.key n.
Proof. unfold Tree.add_child. destruct (Tree.has_key p n); reflexivity. Qed.

Lemma data_add_child p c n : Tree.data (Tree.add_child p c n) = Tree.data n.
Proof. unfold Tree.add_child. destruct (Tree.has_key p n); reflexivity. Qed.

Lemma keys_add_child p c tr : Tree.keys (map (Tree.add_child p c) tr) = Tree.keys tr.
Proof.
  unfold Tree.keys. rewrite map_map. apply map_ext. intro n. apply key_add_child.
Qed.

Lemma add_node_ok tr k pk (d : A) tr' :
  Tree.add_node tr k pk d = Ok tr' ->
  ~ In k (Tree.keys tr) /\
  Tree.keys tr' = Tree.keys tr ++ [k] /\
  exists tr0 dep,
    tr' = tr0 ++ [Tree.mkNode k pk [] dep d] /\
    Tree.keys tr0 = Tree.keys tr /\
    map (@Tree.data A) tr0 = map (@Tree.data A) tr.
Proof.
  unfold Tree.add_node.
  destruct (Tree.get_node tr k) eqn:Ek; [discriminate|].
  apply get_node_none in Ek.
  destruct pk as [p|].
  - destruct (Tree.get_node tr p) as [pn|]; [|discriminate].
    intro H. injection H as <-. split; [exact Ek|]. split.
    + unfold Tree.keys. rewrite map_app. fold (Tree.keys (map (Tree.add_child p k) tr)).
      rewrite keys_add_child. reflexivity.
    + exists (map (Tree.add_child p k) tr), (S (Tree.depth pn)).
      split; [reflexivity|]. split; [apply keys_add_child|].
      rewrite map_map. apply map_ext. intro n. apply data_add_child.
  - intro H. injection H as <-. split; [exact Ek|]. split.
    + unfold Tree.keys. rewrite map_app. reflexivity.
    + exists tr, 0%nat. auto.
Qed.

Lemma add_node_succeeds tr k pk (d : A) :
  ~ In k (Tree.keys tr) ->
  (forall p, pk = Some p -> In p (Tree.keys tr)) ->
  exists tr', Tree.add_node tr k pk d = Ok tr'.
Proof.
  intros Hk Hp. unfold Tree.add_node.
  apply get_node_none in Hk. rewrite Hk.
  destruct pk as [p|]; [|eauto].
  destruct (get_node_in_keys tr p (Hp p eq_refl)) as [pn ->]. eauto.
Qed.

Lemma add_node_raises tr k pk (d : A) e :
  Tree.add_node tr k pk d = Raise e ->
  e = ValueError /\
  (In k (Tree.keys tr) \/ exists p, pk = Some p /\ ~ In p (Tree.keys tr)).
Proof.
  unfold Tree.add_node.
  destruct (Tree.get_node tr k) as [n|] eqn:Ek.
  - intro H. injection H as <-. split; [reflexivity|]. left.
    apply get_node_some in Ek. destruct Ek as [Hn <-].
    apply in_map. exact Hn.
  - destruct pk as [p|]; [|discriminate].
    destruct (Tree.get_node tr p) as [pn|] eqn:Ep; [discriminate|].
    intro H. injection H as <-. split; [reflexivity|]. right.
    exists p. split; [reflexivity|]. apply get_node_none. exact Ep.
Qed.

End TreeFacts.

(* ================================================================== *)
(** ** Calls that do not end in a rejected insertion *)

(** [ValueError] is raised by [Tree.add_node] only, when the key is
    present or the parent absent. *)
Definition accepted {A : Type} (r : result A) : Prop :=
  match r with
  | Raise ValueError => False
  | _ => True
  end.

Lemma accepted_ok {A : Type} (a : A) : accepted (Ok a).
Proof. exact I. Qed.

Lemma accepted_bind {A C : Type} (r : result A) (k : A -> result C) :
  accepted r -> (forall a, r = Ok a -> accepted (k a)) -> accepted (bind r k).
Proof.
  destruct r as [a|e]; cbn [bind]; intros Hr Hk; [apply Hk; reflexivity | exact Hr].
Qed.

Lemma accepted_or_raise {A : Type} (e : exn) (o : option A) :
  e <> ValueError -> accepted (or_raise e o).
Proof.
  intro He. destruct o; [exact I|]. destruct e; try exact I. congruence.
Qed.

Lemma accepted_mapM {X Y : Type} (f : X -> result Y) (l : list X) :
  (forall x, In x l -> accepted (f x)) -> accepted (mapM f l).
Proof.
  induction l as [|x l IH]; intro H; cbn [mapM]; [exact I|].
  apply accepted_bind; [apply H; left; reflexivity|].
  intros y _. apply accepted_bind; [apply IH; intros; apply H; right; assumption|].
  intros; exact I.
Qed.

Lemma accepted_index {X : Type} (l : list X) (i : Z) : accepted (index l i).
Proof.
  destruct (index l i) as [a|e] eqn:E; [exact I|].
  rewrite (index_raises _ _ E). exact I.
Qed.

(** Closes a goal [accepted r] by following the binds of [r]. *)
Ltac accept :=
  repeat first
    [ exact I
    | apply accepted_ok
    | apply accepted_index
    | apply accepted_or_raise; discriminate
    | apply accepted_mapM; intros
    | apply accepted_bind; [|intros]
    | match goal with
      | |- accepted (match ?x with pair _ _ => _ end) => destruct x
      | |- accepted (if ?b then _ else _) => destruct b
      | |- accepted (match ?x with Some _ => _ | None => _ end) => destruct x
      | |- accepted (match ?x with nil => _ | cons _ _ => _ end) => destruct x
      end ].

Lemma accepted_column {X : Type} (i : nat) (x : list (list X)) : accepted (column i x).
Proof. unfold column. accept. Qed.

Lemma accepted_argmin (l : list Q) : accepted (argmin l).
Proof. destruct l; exact I. Qed.

Lemma accepted_index_select {X : Type} (l : list X) (idcs : list Z) :
  accepted (index_select l idcs).
Proof. unfold index_select. accept. Qed.

Section Accepted.
Context {B : Backend} {U : Utils}.
Variables obs_len pred_len : nat.
Variable cfg : Config.
Variable target_lane : option (list vec2).
Variable target_lane_info : list (list Q).

Lemma accepted_get_high_level_command (orig : vec2) (rot : mat2) (cur_vel : Q) :
  accepted (get_high_level_command cfg target_lane target_lane_info orig rot cur_vel).
Proof.
  unfold get_high_level_command.
  apply accepted_bind; [accept|intros lane _].
  apply accepted_bind; [apply accepted_argmin|intros closest _].
  apply accepted_bind; [apply accepted_index_select|intros pts _].
  apply accepted_bind; [apply accepted_index_select|intros rows _].
  accept.
Qed.

Lemma accepted_branch_scan (cov : list (list Q)) (cmp : nat) (ts : list nat) :
  accepted (branch_scan obs_len cov cmp ts).
Proof.
  induction ts as [|t ts IH]; cbn [branch_scan]; [exact I|].
  destruct (t mod 2 =? 1)%nat; [exact IH|].
  apply accepted_bind; [apply accepted_column|intros cur _].
  apply accepted_bind; [apply accepted_column|intros cmp' _].
  destruct (cov_exceeds cur cmp'); [exact I | exact IH].
Qed.

Lemma accepted_get_branch_time (d : PredData) : accepted (get_branch_time obs_len d).
Proof.
  unfold get_branch_time.
  apply accepted_bind; [apply accepted_branch_scan|intros r _].
  destruct r; exact I.
Qed.

Lemma accepted_update_obser (lg : option LaneGraph) (d : PredData) :
  accepted (update_obser obs_len pred_len cfg target_lane target_lane_info lg d).
Proof.
  unfold update_obser.
  apply accepted_bind; [accept|intros pos0 _].
  apply accepted_bind; [accept|intros ang0 _].
  destruct (get_origin_rotation pos0 ang0) as [[orig_seq rot_seq] theta_seq].
  apply accepted_bind; [accept|intros lane_graph _].
  apply accepted_bind; [accept|intros vel0 _].
  apply accepted_bind; [apply accepted_index|intros vel0_last _].
  apply accepted_bind; [apply accepted_get_high_level_command|intros tgt _].
  accept.
Qed.

Lemma accepted_decide_leaf (lg : option LaneGraph) (l : Tree.Node ScenarioData.t) :
  accepted (decide_leaf obs_len pred_len cfg target_lane target_lane_info lg l).
Proof.
  unfold decide_leaf.
  destruct (branch_flag (Tree.data l)); [exact I|].
  destruct (negb (end_flag (Tree.data l))); [|exact I].
  destruct (max_depth cfg <=? Tree.depth l)%nat; [exact I|].
  apply accepted_bind; [accept|intros d _].
  apply accepted_bind; [apply accepted_get_branch_time|intros [t d'] _].
  destruct (t <? pred_len)%nat; [|exact I].
  apply accepted_bind; [apply accepted_update_obser|intros [obs cur] _].
  exact I.
Qed.

Lemma accepted_decide_branch (lg : option LaneGraph) (tr : Tree.t ScenarioData.t) :
  accepted (decide_branch obs_len pred_len cfg target_lane target_lane_info lg tr).
Proof.
  unfold decide_branch. apply accepted_mapM. intros n _.
  unfold decide_node. destruct (Tree.is_leaf n); [|exact I].
  apply accepted_bind; [apply accepted_decide_leaf|intros; exact I].
Qed.

Lemma accepted_make_candidate (bd idx : nat) (data : Obs.t) (out : NetOut) (m : nat) :
  accepted (make_candidate obs_len pred_len cfg target_lane bd idx data out m).
Proof.
  unfold make_candidate.
  apply accepted_bind; [accept|intros row0 _].
  apply accepted_bind; [accept|intros scene_prob _].
  apply accepted_bind; [apply accepted_column|intros reg _].
  apply accepted_bind; [apply accepted_column|intros vel _].
  apply accepted_bind; [apply accepted_mapM; intros; apply accepted_index|intros last_cov _].
  match goal with |- accepted (if ?b then _ else _) => destruct b end; [exact I|].
  apply accepted_bind.
  - destruct target_lane as [lane|]; [|exact I].
    apply accepted_bind; [accept|intros ego_pos _].
    apply accepted_bind; [apply accepted_index|intros ego_mean _].
    apply accepted_bind; [accept|intros ego_covs _].
    apply accepted_bind; [apply accepted_index|intros ego_cov _].
    exact I.
  - intros off _. destruct off; [exact I|].
    match goal with |- accepted (match ?x with nil => _ | cons _ _ => _ end) =>
      destruct x end; exact I.
Qed.

Lemma accepted_prune_merge (bd : nat) (data : list Obs.t) (out : list NetOut) :
  accepted (prune_merge obs_len pred_len cfg target_lane bd data out).
Proof.
  unfold prune_merge. generalize 0%nat.
  revert out. induction data as [|d data IH]; intros out idx; cbn [prune_merge_from];
    [exact I|].
  apply accepted_bind; [accept|intros o _].
  apply accepted_bind.
  - unfold prune_merge_one.
    apply accepted_bind; [accept|intros row0 _].
    apply accepted_bind; [|intros; exact I].
    apply accepted_mapM. intros m _. apply accepted_make_candidate.
  - intros sel _. apply accepted_bind; [apply IH|intros; exact I].
Qed.

Lemma accepted_process_data (lcl_smp : LocalSample) (agent_obs : AgentObs) :
  accepted (process_data pred_len cfg target_lane target_lane_info lcl_smp agent_obs).
Proof.
  unfold process_data.
  destruct (get_agent_trajectories agent_obs) as [[[[[[pos ang] vel] ty] flags] tid] cat].
  apply accepted_bind; [accept|intros pos0 _].
  apply accepted_bind; [accept|intros ang0 _].
  destruct (get_origin_rotation pos0 ang0) as [[orig_seq rot_seq] theta_seq].
  apply accepted_bind; [apply accepted_get_high_level_command|intros tgt _].
  accept.
Qed.

End Accepted.

(* ================================================================== *)
(** ** The identifiers minted in a round *)

Lemma insert_desc_perm (probs : list Q) (i : nat) (sorted : list nat) :
  Permutation (insert_desc probs i sorted) (i :: sorted).
Proof.
  induction sorted as [|j s IH]; cbn [insert_desc]; [apply Permutation_refl|].
  destruct (Qltb (nth j probs 0) (nth i probs 0)); [apply Permutation_refl|].
  eapply perm_trans; [apply perm_skip; exact IH | apply perm_swap].
Qed.

Lemma fold_insert_desc_perm (probs : list Q) (xs acc : list nat) :
  Permutation (fold_left (fun a i => insert_desc probs i a) xs acc) (xs ++ acc).
Proof.
  revert acc. induction xs as [|x xs IH]; intro acc; cbn [fold_left app];
    [apply Permutation_refl|].
  eapply perm_trans; [apply IH|].
  eapply perm_trans; [apply Permutation_app_head; apply insert_desc_perm|].
  apply Permutation_sym. apply Permutation_middle.
Qed.

(** The sorted modes are the modes, each once. *)
Lemma argsort_desc_perm (probs : list Q) :
  Permutation (argsort_desc probs) (seq 0 (List.length probs)).
Proof.
  unfold argsort_desc.
  eapply perm_trans; [apply fold_insert_desc_perm|].
  rewrite app_nil_r. apply Permutation_refl.
Qed.

Lemma argsort_desc_nodup (probs : list Q) : NoDup (argsort_desc probs).
Proof.
  eapply Permutation_NoDup; [apply Permutation_sym; apply argsort_desc_perm|].
  apply seq_NoDup.
Qed.

Section MergeKeys.
Context {B : Backend}.

Lemma merge_in (cands : list Candidate) (c : Candidate) :
  In c (merge cands) -> In c cands.
Proof.
  apply (merge_incl (n := List.length cands)). apply le_n.
Qed.

Lemma nodup_map_filter {X Y : Type} (g : X -> Y) (f : X -> bool) (l : list X) :
  NoDup (map g l) -> NoDup (map g (filter f l)).
Proof.
  induction l as [|x l IH]; cbn [map filter]; intro H; [constructor|].
  inversion H as [|? ? Hx Hl]; subst.
  destruct (f x); cbn [map]; [|apply IH; exact Hl].
  constructor; [|apply IH; exact Hl].
  intro Hin. apply Hx. apply in_map_iff in Hin. destruct Hin as (y & Hy & Hf).
  apply filter_In in Hf. apply in_map_iff. exists y. tauto.
Qed.

Lemma merge_nodup {Y : Type} (g : Candidate -> Y) (n : nat) :
  forall cands, (List.length cands <= n)%nat ->
                NoDup (map g cands) -> NoDup (map g (merge cands)).
Proof.
  induction n as [|n IH]; intros [|sel rest] Hlen Hnd; try (constructor; fail).
  - simpl in Hlen. lia.
  - rewrite merge_cons. cbn [map].
    inversion Hnd as [|? ? Hsel Hrest]; subst.
    pose proof (filter_length_le (differs sel) rest) as Hf. simpl in Hlen.
    constructor.
    + intro Hin. apply Hsel. apply in_map_iff in Hin. destruct Hin as (c & Hc & Hm).
      apply merge_in in Hm. apply filter_In in Hm.
      apply in_map_iff. exists c. tauto.
    + apply IH; [lia|]. apply nodup_map_filter. exact Hrest.
Qed.

End MergeKeys.

Lemma keep_some_cons {X : Type} (o : option X) (l : list (option X)) :
  keep_some (o :: l) = match o with Some a => a :: keep_some l | None => keep_some l end.
Proof. destruct o; reflexivity. Qed.

Section MintedKeys.
Context {B : Backend} {U : Utils}.
Variables obs_len pred_len : nat.
Variable cfg : Config.
Variable target_lane : option (list vec2).

Lemma make_candidate_ids (bd idx : nat) (data : Obs.t) (out : NetOut) (m : nat)
      (c : Candidate) :
  make_candidate obs_len pred_len cfg target_lane bd idx data out m = Ok (Some c) ->
  SCEN_ID (cand_data c) = scen_id_of bd idx m /\
  PARENT_ID (cand_data c) = Obs.SCEN_ID data.
Proof.
  unfold make_candidate. intro H.
  bind_all H.
  match type of H with (if ?b then _ else _) = _ => destruct b end; [discriminate|].
  bind_inv H. destruct a4; [discriminate|].
  match type of H with match ?x with nil => _ | cons _ _ => _ end = _ =>
    destruct x end; [discriminate|].
  injection H as <-. cbn. auto.
Qed.

Lemma candidates_ids (bd idx : nat) (data : Obs.t) (out : NetOut) :
  forall (modes : list nat) (cs : list (option Candidate)),
    NoDup modes ->
    mapM (make_candidate obs_len pred_len cfg target_lane bd idx data out) modes = Ok cs ->
    NoDup (map (fun c => SCEN_ID (cand_data c)) (keep_some cs)) /\
    forall c, In c (keep_some cs) ->
              PARENT_ID (cand_data c) = Obs.SCEN_ID data /\
              exists m, In m modes /\ SCEN_ID (cand_data c) = scen_id_of bd idx m.
Proof.
  induction modes as [|m modes IH]; intros cs Hnd H; cbn [mapM] in H.
  - injection H as <-. split; [constructor | intros c []].
  - bind_inv H. bind_inv H. injection H as <-.
    inversion Hnd as [|? ? Hm Hmodes]; subst.
    destruct (IH _ Hmodes Ha0) as [IHnd IHin].
    rewrite keep_some_cons. destruct a as [c0|].
    + destruct (make_candidate_ids _ _ _ _ _ Ha) as [Hid Hpar].
      split.
      * cbn [map]. constructor; [|exact IHnd].
        intro Hin. apply in_map_iff in Hin. destruct Hin as (c & Hc & Hcin).
        destruct (IHin c Hcin) as (_ & m' & Hm' & Hid').
        rewrite Hid, Hid' in Hc. apply scen_id_of_inj in Hc.
        destruct Hc as (_ & _ & ->). contradiction.
      * intros c [<-|Hc].
        -- split; [exact Hpar|]. exists m. split; [left; reflexivity | exact Hid].
        -- destruct (IHin c Hc) as (Hp & m' & Hm' & Hid').
           split; [exact Hp|]. exists m'. split; [right; exact Hm' | exact Hid'].
    + split; [exact IHnd|].
      intros c Hc. destruct (IHin c Hc) as (Hp & m' & Hm' & Hid').
      split; [exact Hp|]. exists m'. split; [right; exact Hm' | exact Hid'].
Qed.

Lemma prune_merge_one_ids (bd idx : nat) (data : Obs.t) (out : NetOut)
      (sel : list PredData) :
  prune_merge_one obs_len pred_len cfg target_lane bd idx data out = Ok sel ->
  NoDup (map SCEN_ID sel) /\
  forall p, In p sel ->
            PARENT_ID p = Obs.SCEN_ID data /\
            exists m, SCEN_ID p = scen_id_of bd idx m.
Proof.
  unfold prune_merge_one. intro H. bind_inv H. bind_inv H. injection H as <-.
  destruct (candidates_ids _ _ _ _ (argsort_desc_nodup a) Ha0) as [Hnd Hin].
  split.
  - rewrite map_map.
    apply (merge_nodup (fun c => SCEN_ID (cand_data c)) (n := List.length (keep_some a0)));
      [apply le_n | exact Hnd].
  - intros p Hp. apply in_map_iff in Hp. destruct Hp as (c & <- & Hc).
    apply merge_in in Hc. destruct (Hin c Hc) as (Hpar & m & _ & Hid). eauto.
Qed.

Lemma prune_merge_from_ids (bd : nat) :
  forall (batch : list Obs.t) (out : list NetOut) (idx : nat) (preds : list PredData),
    prune_merge_from obs_len pred_len cfg target_lane bd idx batch out = Ok preds ->
    NoDup (map SCEN_ID preds) /\
    forall p, In p preds ->
              (exists o, In o batch /\ PARENT_ID p = Obs.SCEN_ID o) /\
              exists i m, (idx <= i)%nat /\ SCEN_ID p = scen_id_of bd i m.
Proof.
  induction batch as [|d batch IH]; intros out idx preds H; cbn [prune_merge_from] in H.
  - injection H as <-. split; [constructor | intros p []].
  - bind_inv H. bind_inv H. bind_inv H. injection H as <-.
    destruct (prune_merge_one_ids _ _ _ _ Ha0) as [Hnd1 Hin1].
    destruct (IH _ _ _ Ha1) as [Hnd2 Hin2].
    split.
    + rewrite map_app. apply NoDup_app; [exact Hnd1 | exact Hnd2 |].
      intros k Hk1 Hk2.
      apply in_map_iff in Hk1. destruct Hk1 as (p1 & <- & Hp1).
      apply in_map_iff in Hk2. destruct Hk2 as (p2 & E & Hp2).
      destruct (Hin1 p1 Hp1) as (_ & m1 & Hid1).
      destruct (Hin2 p2 Hp2) as (_ & i2 & m2 & Hi2 & Hid2).
      rewrite Hid1, Hid2 in E. apply scen_id_of_inj in E. lia.
    + intros p Hp. apply in_app_or in Hp. destruct Hp as [Hp|Hp].
      * destruct (Hin1 p Hp) as (Hpar & m & Hid). split.
        -- exists d. split; [left; reflexivity | exact Hpar].
        -- exists idx, m. split; [apply le_n | exact Hid].
      * destruct (Hin2 p Hp) as ((o & Ho & Hpar) & i & m & Hi & Hid). split.
        -- exists o. split; [right; exact Ho | exact Hpar].
        -- exists i, m. split; [lia | exact Hid].
Qed.

End MintedKeys.

(* ================================================================== *)
(** ** The keys of the search tree *)

Lemma mapM_forall2 {X Y : Type} (f : X -> result Y) (R : X -> Y -> Prop)
      (l : list X) (l' : list Y) :
  (forall x y, In x l -> f x = Ok y -> R x y) ->
  mapM f l = Ok l' -> Forall2 R l l'.
Proof.
  revert l'. induction l as [|x l IH]; intros l' HR H; cbn [mapM] in H.
  - injection H as <-. constructor.
  - bind_inv H. bind_inv H. injection H as <-.
    constructor; [apply HR; [left; reflexivity | exact Ha]|].
    apply IH; [|exact Ha0]. intros x' y' Hx'. apply HR. right. exact Hx'.
Qed.

Lemma mapM_preimage {X Y : Type} (f : X -> result Y) (l : list X) (l' : list Y) (y : Y) :
  mapM f l = Ok l' -> In y l' -> exists x, In x l /\ f x = Ok y.
Proof.
  revert l'. induction l as [|x l IH]; intros l' H Hy; cbn [mapM] in H.
  - injection H as <-. contradiction.
  - bind_inv H. bind_inv H. injection H as <-.
    destruct Hy as [<-|Hy].
    + exists x. split; [left; reflexivity | exact Ha].
    + destruct (IH _ Ha0 Hy) as (x' & Hx' & Hf). exists x'. split; [right|]; assumption.
Qed.

Section KeyInvariant.
Context {B : Backend} {U : Utils}.
Variables obs_len pred_len : nat.
Variable cfg : Config.
Variable target_lane : option (list vec2).
Variable target_lane_info : list (list Q).
Variable network : nat -> list Obs.t -> list NetOut.

(** The payload and the observation window of a node carry its key. *)
Definition well_keyed (n : Tree.Node ScenarioData.t) : Prop :=
  (forall d, data (Tree.data n) = Some d -> SCEN_ID d = Tree.key n) /\
  (forall o, obs_data (Tree.data n) = Some o -> Obs.SCEN_ID o = Tree.key n).

(** A key is that of the root or was minted at a branch depth below
    [bd]. *)
Definition key_form (bd : nat) (k : string) : Prop :=
  k = "root"%string \/ exists d i m, (d < bd)%nat /\ k = scen_id_of d i m.

Definition keyed (bd : nat) (tr : Tree.t ScenarioData.t) : Prop :=
  NoDup (Tree.keys tr) /\ Forall well_keyed tr /\ Forall (key_form bd) (Tree.keys tr).

Lemma key_form_mono (bd bd' : nat) (k : string) :
  (bd <= bd')%nat -> key_form bd k -> key_form bd' k.
Proof.
  intros Hle [->|(d & i & m & Hd & ->)]; [left; reflexivity|].
  right. exists d, i, m. split; [lia | reflexivity].
Qed.

Lemma well_keyed_transfer (tr0 tr : Tree.t ScenarioData.t) :
  Tree.keys tr0 = Tree.keys tr ->
  map (@Tree.data _) tr0 = map (@Tree.data _) tr ->
  Forall well_keyed tr -> Forall well_keyed tr0.
Proof.
  revert tr. induction tr0 as [|n0 tr0 IH]; intros [|n tr] Hk Hd Hall;
    try discriminate; [constructor|].
  cbn in Hk, Hd. injection Hk as Hk1 Hk2. injection Hd as Hd1 Hd2.
  inversion Hall as [|? ? Hn Htr]; subst.
  constructor; [|apply (IH tr); assumption].
  unfold well_keyed in *. rewrite Hk1, Hd1. exact Hn.
Qed.

Lemma create_nodes_fresh :
  forall (preds : list PredData) (tr : Tree.t ScenarioData.t),
    NoDup (map SCEN_ID preds) ->
    (forall p, In p preds -> ~ In (SCEN_ID p) (Tree.keys tr)) ->
    (forall p, In p preds -> In (PARENT_ID p) (Tree.keys tr)) ->
    Forall well_keyed tr ->
    exists tr',
      create_nodes tr preds = Ok tr' /\
      Tree.keys tr' = Tree.keys tr ++ map SCEN_ID preds /\
      Forall well_keyed tr'.
Proof.
  induction preds as [|p preds IH]; intros tr Hnd Hfresh Hpar Hwk.
  - exists tr. cbn. rewrite app_nil_r. auto.
  - inversion Hnd as [|? ? Hp Hpreds]; subst.
    unfold create_nodes. cbn [foldM].
    destruct (@add_node_succeeds _ tr (SCEN_ID p) (Some (PARENT_ID p))
                                 (ScenarioData.new (Some p) None)) as [tr1 Hadd].
    { apply Hfresh. left. reflexivity. }
    { intros q Hq. injection Hq as <-. apply Hpar. left. reflexivity. }
    rewrite Hadd. cbn [bind].
    destruct (add_node_ok _ _ _ _ Hadd) as (_ & Hkeys & tr0 & dep & -> & Hk0 & Hd0).
    destruct (IH (tr0 ++ [Tree.mkNode (SCEN_ID p) (Some (PARENT_ID p)) [] dep
                                      (ScenarioData.new (Some p) None)]))
      as (tr' & Hcreate & Hkeys' & Hwk').
    + exact Hpreds.
    + intros q Hq. rewrite Hkeys. intro Hin. apply in_app_or in Hin.
      destruct Hin as [Hin|[E|[]]].
      * apply (Hfresh q (or_intror Hq)). exact Hin.
      * apply Hp. rewrite E. apply in_map. exact Hq.
    + intros q Hq. rewrite Hkeys. apply in_or_app. left. apply Hpar. right. exact Hq.
    + apply Forall_app. split; [apply (well_keyed_transfer _ Hk0 Hd0 Hwk)|].
      constructor; [|constructor].
      split; cbn; intros x Hx; [injection Hx as <-; reflexivity | discriminate].
    + exists tr'. split; [exact Hcreate|]. split; [|exact Hwk'].
      rewrite Hkeys', Hkeys, <- app_assoc. reflexivity.
Qed.

Lemma decide_leaf_well_keyed (lg : option LaneGraph) (l : Tree.Node ScenarioData.t)
      (sd' : ScenarioData.t) :
  decide_leaf obs_len pred_len cfg target_lane target_lane_info lg l = Ok sd' ->
  well_keyed l ->
  well_keyed (Tree.mkNode (Tree.key l) (Tree.parent_key l) (Tree.children_keys l)
                          (Tree.depth l) sd').
Proof.
  intros Hdec [Hd Ho]. unfold decide_leaf in Hdec.
  destruct (branch_flag (Tree.data l)).
  { injection Hdec as <-. split; assumption. }
  destruct (end_flag (Tree.data l)); cbn [negb] in Hdec.
  { injection Hdec as <-. split; assumption. }
  destruct (max_depth cfg <=? Tree.depth l)%nat.
  { injection Hdec as <-. split; assumption. }
  bind_inv Hdec. apply or_raise_ok in Ha. bind_inv Hdec. destruct a0 as [t d1].
  assert (Hid : SCEN_ID d1 = Tree.key l).
  { rewrite <- (Hd a Ha).
    destruct (get_branch_time_frame _ _ Ha0) as [[_ ->]|[_ ->]]; reflexivity. }
  destruct (t <? pred_len)%nat.
  - bind_inv Hdec. destruct a0 as [obs cur]. injection Hdec as <-.
    destruct (update_obser_ok _ _ _ _ _ _ _ Ha1) as (-> & _ & _ & _ & _ & _ & _ & Hs & _).
    split; cbn; intros x Hx; injection Hx as <-; [exact Hid | congruence].
  - injection Hdec as <-.
    split; cbn; intros x Hx; [injection Hx as <-; exact Hid | apply Ho; exact Hx].
Qed.

Lemma decide_branch_keyed (lg : option LaneGraph) (tr tr' : Tree.t ScenarioData.t) :
  decide_branch obs_len pred_len cfg target_lane target_lane_info lg tr = Ok tr' ->
  Tree.keys tr' = Tree.keys tr /\ (Forall well_keyed tr -> Forall well_keyed tr').
Proof.
  unfold decide_branch. intro H.
  assert (HF : Forall2 (fun n n' => Tree.key n' = Tree.key n /\
                                    (well_keyed n -> well_keyed n')) tr tr').
  { eapply (@mapM_forall2 _ _ _ (fun n n' => Tree.key n' = Tree.key n /\
                                    (well_keyed n -> well_keyed n')) tr tr'); [|exact H].
    intros n n' _ Hn. unfold decide_node in Hn.
    destruct (Tree.is_leaf n).
    - bind_inv Hn. injection Hn as <-. split; [reflexivity|].
      intro Hw. eapply decide_leaf_well_keyed; [exact Ha | exact Hw].
    - injection Hn as <-. auto. }
  clear H. induction HF as [|n n' tr0 tr0' Hn _ IH].
  - split; [reflexivity | auto].
  - destruct Hn as [Hk Hw]. destruct IH as [IHk IHw].
    split.
    + unfold Tree.keys in *. cbn [map]. rewrite Hk, IHk. reflexivity.
    + intro Hall. inversion Hall; subst. constructor; auto.
Qed.

End KeyInvariant.

Section KeyedRun.
Context {B : Backend} {U : Utils}.
Variables obs_len pred_len : nat.
Variable cfg : Config.
Variable target_lane : option (list vec2).
Variable target_lane_info : list (list Q).
Variable network : nat -> list Obs.t -> list NetOut.

(** The branch nodes are nodes of the tree. *)
Definition branch_nodes_of (g : Gen) (bn : list (Tree.Node ScenarioData.t)) : Prop :=
  forall n, In n bn -> In n (tree g).

Lemma expand_keyed (g : Gen) (batch : list Obs.t) :
  keyed (branch_depth g) (tree g) ->
  (forall o, In o batch -> In (Obs.SCEN_ID o) (Tree.keys (tree g))) ->
  accepted (expand obs_len pred_len cfg target_lane target_lane_info network g batch) /\
  forall g',
    expand obs_len pred_len cfg target_lane target_lane_info network g batch = Ok g' ->
    keyed (S (branch_depth g)) (tree g') /\ branch_depth g' = branch_depth g.
Proof.
  intros (Hnd & Hwk & Hform) Hbatch. unfold expand.
  pose proof (accepted_prune_merge obs_len pred_len cfg target_lane (branch_depth g)
                                   batch (predict_scenes network g batch)) as Hacc.
  destruct (prune_merge obs_len pred_len cfg target_lane (branch_depth g) batch
                        (predict_scenes network g batch)) as [preds|e] eqn:Epm.
  2:{ split; [exact Hacc | discriminate]. }
  cbn [bind].
  destruct (prune_merge_from_ids _ _ _ _ _ _ _ _ Epm) as [Hnd' Hin'].
  assert (Hfresh : forall p, In p preds -> ~ In (SCEN_ID p) (Tree.keys (tree g))).
  { intros p Hp Hin. destruct (Hin' p Hp) as (_ & i & m & _ & Hid).
    rewrite Forall_forall in Hform. specialize (Hform _ Hin).
    rewrite Hid in Hform. destruct Hform as [E|(d & i' & m' & Hd & E)].
    - exact (scen_id_of_not_root _ _ _ E).
    - apply scen_id_of_inj in E. lia. }
  assert (Hpar : forall p, In p preds -> In (PARENT_ID p) (Tree.keys (tree g))).
  { intros p Hp. destruct (Hin' p Hp) as ((o & Ho & ->) & _). apply Hbatch. exact Ho. }
  destruct (@create_nodes_fresh _ preds _ Hnd' Hfresh Hpar Hwk) as (tr1 & Hcreate & Hkeys1 & Hwk1).
  rewrite Hcreate. cbn [bind].
  pose proof (accepted_decide_branch obs_len pred_len cfg target_lane target_lane_info
                                     (lane_graph g) tr1) as Hacc2.
  destruct (decide_branch obs_len pred_len cfg target_lane target_lane_info
                          (lane_graph g) tr1) as [tr2|e] eqn:Edec.
  2:{ split; [exact Hacc2 | discriminate]. }
  cbn [bind]. split; [exact I|].
  intros g' Hg'. injection Hg' as <-. cbn [tree branch_depth]. split; [|reflexivity].
  destruct (decide_branch_keyed _ _ _ _ _ _ _ Edec) as [Hkeys2 Hwk2].
  split; [|split].
  - rewrite Hkeys2, Hkeys1. apply NoDup_app; [exact Hnd | exact Hnd' |].
    intros k Hk1 Hk2. apply in_map_iff in Hk2. destruct Hk2 as (p & <- & Hp).
    exact (Hfresh p Hp Hk1).
  - apply Hwk2. exact Hwk1.
  - rewrite Hkeys2, Hkeys1. apply Forall_app. split.
    + eapply Forall_impl; [|exact Hform]. intros k. apply key_form_mono. lia.
    + apply Forall_forall. intros k Hk. apply in_map_iff in Hk.
      destruct Hk as (p & <- & Hp). destruct (Hin' p Hp) as (_ & i & m & _ & ->).
      right. exists (branch_depth g), i, m. split; [lia | reflexivity].
Qed.

Lemma get_branch_set_keyed (g : Gen) (bd : nat) :
  keyed bd (tree g) -> (bd <= S (branch_depth g))%nat ->
  keyed (branch_depth (snd (get_branch_set g))) (tree (snd (get_branch_set g))) /\
  branch_nodes_of (snd (get_branch_set g)) (fst (get_branch_set g)).
Proof.
  intros (Hnd & Hwk & Hform) Hle. cbn. split.
  - split; [exact Hnd|]. split; [exact Hwk|].
    eapply Forall_impl; [|exact Hform]. intro k. apply key_form_mono. lia.
  - intros n Hn. apply filter_In in Hn. destruct Hn as [Hn _].
    unfold Tree.get_leaf_nodes in Hn. apply filter_In in Hn. tauto.
Qed.

Lemma aime_round_keyed (g : Gen) (bn : list (Tree.Node ScenarioData.t)) :
  keyed (branch_depth g) (tree g) ->
  branch_nodes_of g bn ->
  accepted (aime_round obs_len pred_len cfg target_lane target_lane_info network g bn) /\
  forall bn' g',
    aime_round obs_len pred_len cfg target_lane target_lane_info network g bn
    = Ok (bn', g') ->
    keyed (branch_depth g') (tree g') /\ branch_nodes_of g' bn'.
Proof.
  intros Hkeyed Hbn. unfold aime_round.
  destruct (mapM (fun node => or_raise TypeError (obs_data (Tree.data node))) bn)
    as [batch|e] eqn:Ebatch.
  2:{ split; [|discriminate].
      pose proof (@accepted_mapM _ _ (fun node : Tree.Node ScenarioData.t =>
                                        or_raise TypeError (obs_data (Tree.data node))) bn)
        as Hacc.
      rewrite Ebatch in Hacc. apply Hacc. intros. apply accepted_or_raise. discriminate. }
  cbn [bind].
  assert (Hbatch : forall o, In o batch -> In (Obs.SCEN_ID o) (Tree.keys (tree g))).
  { intros o Ho.
    destruct (@mapM_preimage _ _ _ _ _ _ Ebatch Ho) as (n & Hn & Hobs).
    apply or_raise_ok in Hobs. apply Hbn in Hn.
    destruct Hkeyed as (_ & Hwk & _). rewrite Forall_forall in Hwk.
    destruct (Hwk n Hn) as [_ Hkey]. rewrite (Hkey o Hobs).
    apply in_map. exact Hn. }
  destruct (@expand_keyed g batch Hkeyed Hbatch) as [Hacc Hok].
  destruct (expand obs_len pred_len cfg target_lane target_lane_info network g batch)
    as [g1|e]; cbn [bind]; [|split; [exact Hacc | discriminate]].
  split; [exact I|].
  intros bn' g' H. injection H as <- <-.
  destruct (Hok g1 eq_refl) as [Hk1 Hbd1].
  apply (@get_branch_set_keyed g1 _ Hk1). lia.
Qed.

Lemma aime_loop_keyed (fuel : nat) :
  forall (g : Gen) (bn : list (Tree.Node ScenarioData.t)),
    keyed (branch_depth g) (tree g) ->
    branch_nodes_of g bn ->
    accepted (aime_loop obs_len pred_len cfg target_lane target_lane_info network
                        fuel g bn) /\
    forall g',
      aime_loop obs_len pred_len cfg target_lane target_lane_info network fuel g bn
      = Ok g' ->
      keyed (branch_depth g') (tree g').
Proof.
  induction fuel as [|fuel IH]; intros g bn Hkeyed Hbn; destruct bn as [|n bn];
    cbn [aime_loop].
  - split; [exact I|]. intros g' H. injection H as <-. exact Hkeyed.
  - split; [exact I | discriminate].
  - split; [exact I|]. intros g' H. injection H as <-. exact Hkeyed.
  - destruct (@aime_round_keyed g (n :: bn) Hkeyed Hbn) as [Hacc Hok].
    destruct (aime_round obs_len pred_len cfg target_lane target_lane_info network
                         g (n :: bn)) as [[bn1 g1]|e]; cbn [bind].
    + destruct (Hok bn1 g1 eq_refl) as [Hk1 Hbn1]. apply IH; assumption.
    + split; [exact Hacc | discriminate].
Qed.

Lemma start_keyed (lg0 : option LaneGraph) (bd0 : nat) (lcl_smp : LocalSample)
      (agent_obs : AgentObs) :
  accepted (start obs_len pred_len cfg target_lane target_lane_info network
                  (mkGen Tree.empty lg0 bd0) lcl_smp agent_obs) /\
  forall bn g,
    start obs_len pred_len cfg target_lane target_lane_info network
          (mkGen Tree.empty lg0 bd0) lcl_smp agent_obs = Ok (bn, g) ->
    keyed (branch_depth g) (tree g) /\ branch_nodes_of g bn.
Proof.
  unfold start.
  pose proof (accepted_process_data pred_len cfg target_lane target_lane_info
                                    lcl_smp agent_obs) as Hacc.
  destruct (process_data pred_len cfg target_lane target_lane_info lcl_smp agent_obs)
    as [[root lg]|e]; cbn [bind]; [|split; [exact Hacc | discriminate]].
  unfold init_scenario_tree. cbn [tree lane_graph branch_depth Tree.add_node
                                  Tree.get_node Tree.empty find app bind].
  match goal with
  | |- context [expand _ _ _ _ _ _ ?g0 ?batch] =>
      destruct (@expand_keyed g0 batch) as [Hacc' Hok]
  end.
  { cbn [tree branch_depth]. split; [|split].
    - repeat constructor. intros [].
    - constructor; [|constructor]. split; cbn; intros x Hx;
        [discriminate | injection Hx as <-; reflexivity].
    - constructor; [left; reflexivity | constructor]. }
  { intros o [<-|[]]. cbn. left. reflexivity. }
  match goal with
  | |- context [expand _ _ _ _ _ _ ?g0 ?batch] =>
      destruct (expand obs_len pred_len cfg target_lane target_lane_info network g0 batch)
        as [g1|e']
  end; cbn [bind]; [|split; [exact Hacc' | discriminate]].
  split; [exact I|].
  intros bn g H. injection H as <- <-.
  destruct (Hok g1 eq_refl) as [Hk1 Hbd1].
  apply (@get_branch_set_keyed g1 _ Hk1). lia.
Qed.

(** C10.  In a run of the generator on an empty tree, whatever the
    network answers, no insertion into the search tree is rejected: the
    run does not end in the error of [Tree.add_node] for a present key or
    an absent parent.  When the loop has ended, the keys of the tree are
    pairwise distinct, and each is "root" or the identifier of a branch
    depth below the current one, a batch index and a mode.  Equal
    identifiers have equal branch depths, batch indices and modes, and
    no identifier is "root". *)
Theorem scenario_keys_unique
        (lg0 : option LaneGraph) (bd0 : nat) (lcl_smp : LocalSample)
        (agent_obs : AgentObs) (rounds : nat) :
  let run :=
    '(branch_nodes, g) <- start obs_len pred_len cfg target_lane target_lane_info network
                                (mkGen Tree.empty lg0 bd0) lcl_smp agent_obs ;;
    aime_loop obs_len pred_len cfg target_lane target_lane_info network
              rounds g branch_nodes in
  run <> Raise ValueError /\
  (forall g, run = Ok g ->
             NoDup (Tree.keys (tree g)) /\
             Forall (key_form (branch_depth g)) (Tree.keys (tree g))) /\
  (forall d i m d' i' m',
      scen_id_of d i m = scen_id_of d' i' m' -> d = d' /\ i = i' /\ m = m') /\
  (forall d i m, scen_id_of d i m <> "root"%string).
Proof.
  intro run.
  assert (H : accepted run /\ forall g, run = Ok g -> keyed (branch_depth g) (tree g)).
  { unfold run.
    destruct (start_keyed lg0 bd0 lcl_smp agent_obs) as [Hacc Hok].
    destruct (start obs_len pred_len cfg target_lane target_lane_info network
                    (mkGen Tree.empty lg0 bd0) lcl_smp agent_obs) as [[bn g]|e];
      cbn [bind]; [|split; [exact Hacc | discriminate]].
    destruct (Hok bn g eq_refl) as [Hk Hbn].
    apply aime_loop_keyed; assumption. }
  destruct H as [Hacc Hok].
  split; [|split; [|split]].
  - intro E. rewrite E in Hacc. exact Hacc.
  - intros g Hg. destruct (Hok g Hg) as (Hnd & _ & Hform). auto.
  - apply scen_id_of_inj.
  - apply scen_id_of_not_root.
Qed.

End KeyedRun.

Lemma scenario_keys_unique_witness :
  exists g,
    ('(branch_nodes, g1) <- start (B := Concrete.backend) (U := Concrete.utils)
                                  Scene.obs_len Scene.pred_len Scene.cfg Scene.target_lane
                                  Scene.target_lane_info (Scene.network Scene.calm)
                                  (mkGen Tree.empty None 0) Scene.lcl_smp Scene.agent_obs ;;
     aime_loop (B := Concrete.backend) (U := Concrete.utils)
               Scene.obs_len Scene.pred_len Scene.cfg Scene.target_lane
               Scene.target_lane_info (Scene.network Scene.calm) 5 g1 branch_nodes)
    = Ok g /\
    NoDup (Tree.keys (tree g)) /\
    Forall (key_form (branch_depth g)) (Tree.keys (tree g)).
Proof.
  pose proof (scenario_keys_unique
                (B := Concrete.backend) (U := Concrete.utils)
                Scene.obs_len Scene.pred_len Scene.cfg Scene.target_lane
                Scene.target_lane_info (Scene.network Scene.calm)
                None 0 Scene.lcl_smp Scene.agent_obs 5) as H.
  cbv zeta in H. destruct H as (_ & H & _).
  match type of H with
  | forall g, ?r = Ok g -> _ =>
      assert (Hok : is_ok r = true) by (vm_compute; reflexivity);
      destruct r as [g|e]
  end.
  - exists g. split; [reflexivity|]. apply H. reflexivity.
  - discriminate Hok.
Defined.

(* ================================================================== *)
(** ** The number of rounds *)

(** The loop was stopped by the bound on its iterations. *)
Definition still_running {A : Type} (r : result A) : bool :=
  match r with
  | Raise OutOfFuel => true
  | _ => false
  end.

Lemma still_running_spec {A : Type} (r : result A) :
  still_running r = true -> r = Raise OutOfFuel.
Proof.
  destruct r as [a|[]]; simpl; congruence.
Qed.

Local Open Scope string_scope.

(** C1.  The loop of [branch_aime] is not bounded by the maximal depth.
    On the scene of [Scene] with the network [uneven] and
    [max_depth = 3], the leaf "0_0_1" (depth 1) and the leaf "1_0_1"
    (depth 2) are expanded without a surviving child.  Each is then
    marked terminated, and is made branch-ready again by the next pass of
    [decide_branch], which does not read [terminate_flag].  The branch
    set is ["1_0_1"] after the iterations 1, 3 and 5 and ["0_0_1"] after
    the iterations 2 and 4: the loop is still running after 3 and after
    40 iterations. *)
Theorem aime_loop_exceeds_max_depth :
  max_depth Scene.cfg = 3%nat /\
  Scene.looped Scene.uneven 3 = Raise OutOfFuel /\
  Scene.looped Scene.uneven 40 = Raise OutOfFuel /\
  Scene.snapshot Scene.uneven 1
  = Ok (["1_0_1"],
        [("0_0_1", 1%nat, (false, false, true));
         ("1_0_0", 2%nat, (false, true, false));
         ("1_0_1", 2%nat, (true, false, false))]) /\
  Scene.snapshot Scene.uneven 2
  = Ok (["0_0_1"],
        [("0_0_1", 1%nat, (true, false, true));
         ("1_0_0", 2%nat, (false, true, false));
         ("1_0_1", 2%nat, (false, false, true))]) /\
  Scene.snapshot Scene.uneven 3
  = Ok (["1_0_1"],
        [("0_0_1", 1%nat, (false, false, true));
         ("1_0_0", 2%nat, (false, true, false));
         ("1_0_1", 2%nat, (true, false, true))]) /\
  Scene.snapshot Scene.uneven 4
  = Ok (["0_0_1"],
        [("0_0_1", 1%nat, (true, false, true));
         ("1_0_0", 2%nat, (false, true, false));
         ("1_0_1", 2%nat, (false, false, true))]) /\
  Scene.snapshot Scene.uneven 5
  = Ok (["1_0_1"],
        [("0_0_1", 1%nat, (false, false, true));
         ("1_0_0", 2%nat, (false, true, false));
         ("1_0_1", 2%nat, (true, false, true))]).
Proof.
  split; [reflexivity|].
  split; [apply still_running_spec; vm_compute; reflexivity|].
  split; [apply still_running_spec; vm_compute; reflexivity|].
  split; [vm_compute; reflexivity|].
  split; [vm_compute; reflexivity|].
  split; [vm_compute; reflexivity|].
  split; [vm_compute; reflexivity|].
  vm_compute; reflexivity.
Qed.

Local Close Scope string_scope.

(* ================================================================== *)
(** ** Sums of probabilities *)

Definition sumQ (l : list Q) : Q := fold_right Qplus 0 l.

Lemma fold_left_Qplus (l : list Q) (a : Q) : fold_left Qplus l a == a + sumQ l.
Proof.
  revert a. induction l as [|x l IH]; intro a; simpl.
  - ring.
  - rewrite IH. ring.
Qed.

Lemma Qsum_sumQ (l : list Q) : Qsum l == sumQ l.
Proof.
  unfold Qsum. rewrite fold_left_Qplus. ring.
Qed.

Lemma sumQ_app (l1 l2 : list Q) : sumQ (l1 ++ l2) == sumQ l1 + sumQ l2.
Proof.
  induction l1 as [|x l1 IH]; simpl; [ring|]. rewrite IH. ring.
Qed.

Lemma sumQ_map_ext {X : Type} (f g : X -> Q) (l : list X) :
  (forall x, In x l -> f x == g x) -> sumQ (map f l) == sumQ (map g l).
Proof.
  induction l as [|x l IH]; intro H; simpl; [reflexivity|].
  rewrite (H x) by (left; reflexivity). rewrite IH; [reflexivity|].
  intros y Hy. apply H. right. exact Hy.
Qed.

Lemma sumQ_pos (l : list Q) :
  l <> [] -> (forall x, In x l -> 0 < x) -> 0 < sumQ l.
Proof.
  induction l as [|x l IH]; intros Hne Hpos; [congruence|].
  simpl. destruct l as [|y l].
  - simpl. assert (0 < x) by (apply Hpos; left; reflexivity).
    rewrite Qplus_0_r. assumption.
  - assert (0 < x) by (apply Hpos; left; reflexivity).
    assert (0 < sumQ (y :: l)).
    { apply IH; [discriminate|]. intros z Hz. apply Hpos. right. exact Hz. }
    apply Qlt_trans with (y := x + 0).
    + rewrite Qplus_0_r. assumption.
    + apply Qplus_lt_r. assumption.
Qed.

(** The shares [p / total * parent] of a positive total add up to
    [parent]. *)
Lemma sumQ_shares (ps : list Q) (total parent : Q) :
  total == sumQ ps -> ~ total == 0 ->
  sumQ (map (fun p => p / total * parent) ps) == parent.
Proof.
  intros Htot Hnz.
  assert (H : forall l, sumQ (map (fun p => p / total * parent) l)
                        == sumQ l / total * parent).
  { induction l as [|x l IH]; simpl.
    - field. exact Hnz.
    - rewrite IH. field. exact Hnz. }
  rewrite H. rewrite <- Htot. field. exact Hnz.
Qed.

(* ================================================================== *)
(** ** Trees grown by insertion *)

Section TreeGrowth.
Context {A : Type}.
Implicit Types (tr : Tree.t A) (n : Tree.Node A) (k p : string).

(** The node [n] after the keys [cs] are appended to the children of the
    node with key [p]. *)
Definition add_children p (cs : list string) n : Tree.Node A :=
  if Tree.has_key p n
  then Tree.mkNode (Tree.key n) (Tree.parent_key n) (Tree.children_keys n ++ cs)
                   (Tree.depth n) (Tree.data n)
  else n.

Lemma key_add_children p cs n : Tree.key (add_children p cs n) = Tree.key n.
Proof. unfold add_children. destruct (Tree.has_key p n); reflexivity. Qed.

Lemma data_add_children p cs n : Tree.data (add_children p cs n) = Tree.data n.
Proof. unfold add_children. destruct (Tree.has_key p n); reflexivity. Qed.

Lemma parent_add_children p cs n :
  Tree.parent_key (add_children p cs n) = Tree.parent_key n.
Proof. unfold add_children. destruct (Tree.has_key p n); reflexivity. Qed.

Lemma depth_add_children p cs n : Tree.depth (add_children p cs n) = Tree.depth n.
Proof. unfold add_children. destruct (Tree.has_key p n); reflexivity. Qed.

Lemma children_add_children p cs n :
  Tree.children_keys (add_children p cs n)
  = if Tree.has_key p n then Tree.children_keys n ++ cs else Tree.children_keys n.
Proof. unfold add_children. destruct (Tree.has_key p n); reflexivity. Qed.

Lemma add_children_nil p n : add_children p [] n = n.
Proof.
  unfold add_children. destruct (Tree.has_key p n); [|reflexivity].
  destruct n; cbn. rewrite app_nil_r. reflexivity.
Qed.

Lemma add_children_cons p c cs n :
  add_children p cs (Tree.add_child p c n) = add_children p (c :: cs) n.
Proof.
  unfold add_children, Tree.add_child.
  destruct (Tree.has_key p n) eqn:E.
  - unfold Tree.has_key in *. cbn. rewrite E. rewrite <- app_assoc. reflexivity.
  - rewrite E. reflexivity.
Qed.

Lemma add_children_other p cs n : Tree.key n <> p -> add_children p cs n = n.
Proof.
  intro H. unfold add_children. apply has_key_false in H. rewrite H. reflexivity.
Qed.

Lemma keys_add_children p cs tr : Tree.keys (map (add_children p cs) tr) = Tree.keys tr.
Proof.
  unfold Tree.keys. rewrite map_map. apply map_ext. intro n. apply key_add_children.
Qed.

Lemma get_node_unique tr n :
  NoDup (Tree.keys tr) -> In n tr -> Tree.get_node tr (Tree.key n) = Some n.
Proof.
  unfold Tree.get_node, Tree.keys.
  induction tr as [|m tr IH]; intros Hnd Hin; [contradiction|].
  inversion Hnd as [|? ? Hm Hnd']; subst. cbn [find].
  destruct Hin as [->|Hin].
  - assert (E : Tree.has_key (Tree.key n) n = true) by (apply has_key_true; reflexivity).
    rewrite E. reflexivity.
  - destruct (Tree.has_key (Tree.key n) m) eqn:E.
    + apply has_key_true in E. exfalso. apply Hm. rewrite E.
      apply in_map. exact Hin.
    + apply IH; assumption.
Qed.

Lemma in_keys n tr : In n tr -> In (Tree.key n) (Tree.keys tr).
Proof. intro H. unfold Tree.keys. apply in_map. exact H. Qed.

Lemma nodes_same_key tr n m :
  NoDup (Tree.keys tr) -> In n tr -> In m tr -> Tree.key n = Tree.key m -> n = m.
Proof.
  intros Hnd Hn Hm E.
  assert (H1 : Tree.get_node tr (Tree.key n) = Some n) by (apply get_node_unique; assumption).
  assert (H2 : Tree.get_node tr (Tree.key m) = Some m) by (apply get_node_unique; assumption).
  rewrite E in H1. congruence.
Qed.

Lemma add_node_child tr k p (d : A) tr' :
  Tree.add_node tr k (Some p) d = Ok tr' ->
  exists pn, Tree.get_node tr p = Some pn /\ ~ In k (Tree.keys tr) /\
             tr' = map (Tree.add_child p k) tr
                   ++ [Tree.mkNode k (Some p) [] (S (Tree.depth pn)) d].
Proof.
  unfold Tree.add_node.
  destruct (Tree.get_node tr k) eqn:Ek; [discriminate|].
  apply get_node_none in Ek.
  destruct (Tree.get_node tr p) as [pn|]; [|discriminate].
  intro H. injection H as <-. exists pn. auto.
Qed.

Lemma get_node_map_add_child tr p c k :
  Tree.get_node (map (Tree.add_child p c) tr) k
  = option_map (Tree.add_child p c) (Tree.get_node tr k).
Proof.
  unfold Tree.get_node. induction tr as [|m tr IH]; [reflexivity|].
  cbn [map find]. unfold Tree.has_key at 1. rewrite key_add_child.
  fold (Tree.has_key k m). destruct (Tree.has_key k m); [reflexivity|exact IH].
Qed.

Lemma get_node_app_old tr (l : Tree.t A) k :
  In k (Tree.keys tr) -> Tree.get_node (tr ++ l) k = Tree.get_node tr k.
Proof.
  unfold Tree.get_node, Tree.keys. induction tr as [|m tr IH]; intro H; [contradiction|].
  cbn [app find]. destruct (Tree.has_key k m) eqn:E; [reflexivity|].
  apply IH. destruct H as [H|H]; [|exact H].
  apply has_key_false in E. contradiction.
Qed.

Definition child_depth tr p : nat :=
  match Tree.get_node tr p with
  | Some pn => S (Tree.depth pn)
  | None => 0%nat
  end.

(** The insertion of the nodes [xs] under the same parent [p]. *)
Lemma add_nodes_ok {X : Type} (kf : X -> string) (df : X -> A) p (xs : list X) tr tr' :
  foldM (fun t x => Tree.add_node t (kf x) (Some p) (df x)) xs tr = Ok tr' ->
  NoDup (map kf xs) /\
  (forall x, In x xs -> ~ In (kf x) (Tree.keys tr)) /\
  (xs <> [] -> In p (Tree.keys tr)) /\
  tr' = map (add_children p (map kf xs)) tr
        ++ map (fun x => Tree.mkNode (kf x) (Some p) [] (child_depth tr p) (df x)) xs.
Proof.
  revert tr. induction xs as [|x xs IH]; intros tr H; cbn [foldM] in H.
  - injection H as <-. split; [constructor|]. split; [intros ? []|].
    split; [congruence|].
    cbn. rewrite app_nil_r. rewrite <- (map_id tr) at 1. apply map_ext.
    intro n. symmetry. apply add_children_nil.
  - bind_inv H. apply add_node_child in Ha. destruct Ha as (pn & Hp & Hk & ->).
    apply IH in H. destruct H as (Hnd & Hfresh & _ & ->).
    assert (Hpk : In p (Tree.keys tr)).
    { apply get_node_some in Hp. destruct Hp as [Hp <-]. apply in_keys. exact Hp. }
    assert (Hkeys : Tree.keys (map (Tree.add_child p (kf x)) tr
                               ++ [Tree.mkNode (kf x) (Some p) [] (S (Tree.depth pn)) (df x)])
                    = Tree.keys tr ++ [kf x]).
    { unfold Tree.keys. rewrite map_app. fold (Tree.keys (map (Tree.add_child p (kf x)) tr)).
      rewrite keys_add_child. reflexivity. }
    split; [|split; [|split]].
    + cbn [map]. constructor; [|exact Hnd].
      intro Hin. apply in_map_iff in Hin. destruct Hin as (y & Hy & Hiny).
      apply (Hfresh y Hiny). rewrite Hkeys, Hy. apply in_or_app. right. left. reflexivity.
    + intros y [<-|Hy]; [exact Hk|]. intro Hin. apply (Hfresh y Hy).
      rewrite Hkeys. apply in_or_app. left. exact Hin.
    + intros _. exact Hpk.
    + assert (Hd : child_depth (map (Tree.add_child p (kf x)) tr
                               ++ [Tree.mkNode (kf x) (Some p) [] (S (Tree.depth pn)) (df x)]) p
                   = child_depth tr p).
      { unfold child_depth. rewrite get_node_app_old.
        - rewrite get_node_map_add_child, Hp. cbn.
          unfold Tree.add_child. destruct (Tree.has_key p pn); reflexivity.
        - fold (Tree.keys (map (Tree.add_child p (kf x)) tr)). rewrite keys_add_child. exact Hpk. }
      rewrite Hd. rewrite map_app, map_map. cbn [map].
      rewrite <- app_assoc. f_equal.
      * apply map_ext. intro n. apply add_children_cons.
      * cbn [app]. f_equal.
        -- rewrite add_children_other.
           ++ f_equal. unfold child_depth. rewrite Hp. reflexivity.
           ++ cbn. intro E. apply Hk. rewrite E. exact Hpk.
Qed.


(** The same nodes with other payloads. *)
Definition relabelled {C : Type} (tr : Tree.t A) (tr' : Tree.t C) : Prop :=
  Forall2 (fun (n : Tree.Node A) (n' : Tree.Node C) =>
                       Tree.key n' = Tree.key n /\
                       Tree.parent_key n' = Tree.parent_key n /\
                       Tree.children_keys n' = Tree.children_keys n /\
                       Tree.depth n' = Tree.depth n) tr tr'.

(** The sum of [f] over the children of every node. *)
Definition child_sum (f : string -> Q) tr : Q :=
  sumQ (map (fun n => sumQ (map f (Tree.children_keys n))) tr).

(** The structure of a tree grown from its root by [Tree.add_node]: the
    keys are distinct, the root comes first and is the only node without
    a parent, parents and children name each other, and every key but
    that of the root is listed once as a child. *)
Record wf tr : Prop := {
  wf_nodup : NoDup (Tree.keys tr);
  wf_root : exists r rest,
      tr = r :: rest /\ Tree.parent_key r = None /\ Tree.depth r = 0%nat /\
      forall n, In n rest -> Tree.parent_key n <> None;
  wf_child : forall n c,
      In n tr -> In c (Tree.children_keys n) ->
      exists cn, In cn tr /\ Tree.key cn = c /\
                 Tree.parent_key cn = Some (Tree.key n) /\
                 Tree.depth cn = S (Tree.depth n);
  wf_parent : forall n p,
      In n tr -> Tree.parent_key n = Some p ->
      exists pn, In pn tr /\ Tree.key pn = p /\ In (Tree.key n) (Tree.children_keys pn);
  wf_children_nodup : forall n, In n tr -> NoDup (Tree.children_keys n);
  wf_sums : forall f : string -> Q,
      match tr with
      | [] => True
      | r :: _ => sumQ (map f (Tree.keys tr)) == child_sum f tr + f (Tree.key r)
      end
}.

End TreeGrowth.

Section TreeWf.
Context {A : Type}.
Implicit Types (tr : Tree.t A) (n : Tree.Node A) (k p : string).

Lemma wf_single k (d : A) : wf [Tree.mkNode k None [] 0 d].
Proof.
  constructor.
  - cbn. constructor; [intros []|constructor].
  - exists (Tree.mkNode k None [] 0 d), []. repeat split. intros ? [].
  - intros n c [<-|[]] [].
  - intros n p [<-|[]]. discriminate.
  - intros n [<-|[]]. constructor.
  - intro f. unfold child_sum. cbn. ring.
Qed.

Lemma child_sum_app (f : string -> Q) tr1 tr2 :
  child_sum f (tr1 ++ tr2) == child_sum f tr1 + child_sum f tr2.
Proof. unfold child_sum. rewrite map_app. apply sumQ_app. Qed.

Lemma child_sum_add_child (f : string -> Q) p c tr :
  NoDup (Tree.keys tr) -> In p (Tree.keys tr) ->
  child_sum f (map (Tree.add_child p c) tr) == child_sum f tr + f c.
Proof.
  unfold child_sum, Tree.keys.
  induction tr as [|n tr IH]; intros Hnd Hin; [contradiction|].
  inversion Hnd as [|? ? Hn Hnd']; subst. cbn [map sumQ fold_right].
  destruct (String.eqb (Tree.key n) p) eqn:E.
  - assert (Hrest : map (Tree.add_child p c) tr = tr).
    { rewrite <- (map_id tr) at 2. apply map_ext_in. intros m Hm.
      unfold Tree.add_child. destruct (Tree.has_key p m) eqn:Em; [|reflexivity].
      apply has_key_true in Em. apply String.eqb_eq in E. exfalso. apply Hn.
      rewrite E, <- Em. apply in_map. exact Hm. }
    rewrite Hrest. unfold Tree.add_child, Tree.has_key. rewrite E. cbn.
    rewrite map_app, sumQ_app. cbn. ring.
  - unfold Tree.add_child at 1, Tree.has_key. rewrite E.
    destruct Hin as [Hin|Hin].
    + apply String.eqb_neq in E. contradiction.
    + fold (sumQ (map (fun n0 : Tree.Node A => sumQ (map f (Tree.children_keys n0)))
                      (map (Tree.add_child p c) tr))).
      rewrite (IH Hnd' Hin).
      fold (sumQ (map (fun n0 : Tree.Node A => sumQ (map f (Tree.children_keys n0))) tr)).
      ring.
Qed.


Lemma children_add_child p c n :
  Tree.children_keys (Tree.add_child p c n)
  = if Tree.has_key p n then Tree.children_keys n ++ [c] else Tree.children_keys n.
Proof. unfold Tree.add_child. destruct (Tree.has_key p n); reflexivity. Qed.

Lemma parent_add_child p c n :
  Tree.parent_key (Tree.add_child p c n) = Tree.parent_key n.
Proof. unfold Tree.add_child. destruct (Tree.has_key p n); reflexivity. Qed.

Lemma depth_add_child p c n : Tree.depth (Tree.add_child p c n) = Tree.depth n.
Proof. unfold Tree.add_child. destruct (Tree.has_key p n); reflexivity. Qed.

Lemma wf_children_in tr n c :
  wf tr -> In n tr -> In c (Tree.children_keys n) -> In c (Tree.keys tr).
Proof.
  intros Hwf Hn Hc. destruct (wf_child Hwf n c Hn Hc) as (cn & Hcn & <- & _).
  apply in_keys. exact Hcn.
Qed.

Lemma wf_add_node tr k p (d : A) tr' :
  wf tr -> Tree.add_node tr k (Some p) d = Ok tr' -> wf tr'.
Proof.
  intros Hwf Hadd. apply add_node_child in Hadd.
  destruct Hadd as (pn & Hp & Hk & ->).
  apply get_node_some in Hp. destruct Hp as [Hpn Hpk].
  pose proof (wf_nodup Hwf) as Hnd.
  assert (Hkeys : Tree.keys (map (Tree.add_child p k) tr
                             ++ [Tree.mkNode k (Some p) [] (S (Tree.depth pn)) d])
                  = Tree.keys tr ++ [k]).
  { unfold Tree.keys. rewrite map_app. fold (Tree.keys (map (Tree.add_child p k) tr)).
    rewrite keys_add_child. reflexivity. }
  assert (Hold : forall n, In n tr ->
                           In (Tree.add_child p k n)
                              (map (Tree.add_child p k) tr
                               ++ [Tree.mkNode k (Some p) [] (S (Tree.depth pn)) d])).
  { intros n Hn. apply in_or_app. left. apply in_map. exact Hn. }
  constructor.
  - rewrite Hkeys. apply NoDup_app; [exact Hnd | repeat constructor; intros [] |].
    intros x Hx [<-|[]]. contradiction.
  - destruct (wf_root Hwf) as (r & rest & -> & Hr & Hd & Hrest).
    exists (Tree.add_child p k r),
           (map (Tree.add_child p k) rest
            ++ [Tree.mkNode k (Some p) [] (S (Tree.depth pn)) d]).
    split; [reflexivity|]. rewrite parent_add_child, depth_add_child.
    split; [exact Hr|]. split; [exact Hd|].
    intros n Hn. apply in_app_or in Hn. destruct Hn as [Hn|[<-|[]]]; [|discriminate].
    apply in_map_iff in Hn. destruct Hn as (n0 & <- & Hn0).
    rewrite parent_add_child. apply Hrest. exact Hn0.
  - intros n c Hn Hc. apply in_app_or in Hn. destruct Hn as [Hn|[<-|[]]]; [|destruct Hc].
    apply in_map_iff in Hn. destruct Hn as (n0 & <- & Hn0).
    rewrite children_add_child in Hc. rewrite key_add_child, depth_add_child.
    assert (Hcase : In c (Tree.children_keys n0) \/ (Tree.key n0 = p /\ c = k)).
    { destruct (Tree.has_key p n0) eqn:E; [|left; exact Hc].
      apply in_app_or in Hc. destruct Hc as [Hc|[<-|[]]]; [left; exact Hc|].
      right. split; [apply has_key_true; exact E | reflexivity]. }
    destruct Hcase as [Hc0|[Hn0p ->]].
    + destruct (wf_child Hwf n0 c Hn0 Hc0) as (cn & Hcn & Hck & Hcp & Hcd).
      exists (Tree.add_child p k cn). split; [apply Hold; exact Hcn|].
      rewrite key_add_child, parent_add_child, depth_add_child. auto.
    + exists (Tree.mkNode k (Some p) [] (S (Tree.depth pn)) d).
      split; [apply in_or_app; right; left; reflexivity|]. cbn.
      assert (n0 = pn) by (apply (nodes_same_key tr); congruence || assumption).
      subst n0. rewrite Hpk. auto.
  - intros n q Hn Hq. apply in_app_or in Hn. destruct Hn as [Hn|[<-|[]]].
    + apply in_map_iff in Hn. destruct Hn as (n0 & <- & Hn0).
      rewrite parent_add_child in Hq. rewrite key_add_child.
      destruct (wf_parent Hwf n0 Hn0 Hq) as (qn & Hqn & Hqk & Hqc).
      exists (Tree.add_child p k qn). split; [apply Hold; exact Hqn|].
      rewrite key_add_child. split; [exact Hqk|].
      rewrite children_add_child. destruct (Tree.has_key p qn); [|exact Hqc].
      apply in_or_app. left. exact Hqc.
    + cbn in Hq. injection Hq as <-. cbn.
      exists (Tree.add_child p k pn). split; [apply Hold; exact Hpn|].
      rewrite key_add_child. split; [exact Hpk|].
      rewrite children_add_child.
      assert (E : Tree.has_key p pn = true) by (apply has_key_true; exact Hpk).
      rewrite E. apply in_or_app. right. left. reflexivity.
  - intros n Hn. apply in_app_or in Hn. destruct Hn as [Hn|[<-|[]]]; [|constructor].
    apply in_map_iff in Hn. destruct Hn as (n0 & <- & Hn0).
    rewrite children_add_child. pose proof (wf_children_nodup Hwf n0 Hn0) as Hc.
    destruct (Tree.has_key p n0); [|exact Hc].
    apply NoDup_app; [exact Hc | repeat constructor; intros [] |].
    intros x Hx [<-|[]]. apply Hk. eapply wf_children_in; eassumption.
  - intro f. pose proof (wf_sums Hwf f) as Hs.
    destruct tr as [|r rest]; [destruct Hpn|].
    cbn [map app]. rewrite key_add_child.
    change (Tree.add_child p k r
              :: map (Tree.add_child p k) rest
                 ++ [Tree.mkNode k (Some p) [] (S (Tree.depth pn)) d])
      with (map (Tree.add_child p k) (r :: rest)
                ++ [Tree.mkNode k (Some p) [] (S (Tree.depth pn)) d]).
    rewrite Hkeys, map_app, sumQ_app, child_sum_app, child_sum_add_child.
    + rewrite Hs. unfold child_sum at 2. cbn. ring.
    + exact Hnd.
    + rewrite <- Hpk. apply in_keys. exact Hpn.
Qed.

Lemma relabelled_keys {C : Type} tr (tr' : Tree.t C) :
  relabelled tr tr' -> Tree.keys tr' = Tree.keys tr.
Proof.
  unfold Tree.keys. induction 1 as [|n n' tr tr' (Hk & _) _ IH]; [reflexivity|].
  cbn. rewrite Hk, IH. reflexivity.
Qed.

Lemma relabelled_child_sum {C : Type} (f : string -> Q) tr (tr' : Tree.t C) :
  relabelled tr tr' -> child_sum f tr' = child_sum f tr.
Proof.
  unfold child_sum. induction 1 as [|n n' tr tr' (_ & _ & Hc & _) _ IH]; [reflexivity|].
  cbn [map sumQ fold_right]. rewrite Hc. f_equal. exact IH.
Qed.

Lemma relabelled_in_r {C : Type} tr (tr' : Tree.t C) (n' : Tree.Node C) :
  relabelled tr tr' -> In n' tr' ->
  exists n, In n tr /\ Tree.key n' = Tree.key n /\
            Tree.parent_key n' = Tree.parent_key n /\
            Tree.children_keys n' = Tree.children_keys n /\
            Tree.depth n' = Tree.depth n.
Proof.
  induction 1 as [|n m tr tr' Hn _ IH]; intros Hin; [destruct Hin|].
  destruct Hin as [<-|Hin].
  - exists n. split; [left; reflexivity | exact Hn].
  - destruct (IH Hin) as (n0 & Hn0 & H0). exists n0. split; [right; exact Hn0 | exact H0].
Qed.

Lemma relabelled_in_l {C : Type} tr (tr' : Tree.t C) n :
  relabelled tr tr' -> In n tr ->
  exists n' : Tree.Node C, In n' tr' /\ Tree.key n' = Tree.key n /\
             Tree.parent_key n' = Tree.parent_key n /\
             Tree.children_keys n' = Tree.children_keys n /\
             Tree.depth n' = Tree.depth n.
Proof.
  induction 1 as [|n0 m tr tr' Hn _ IH]; intros Hin; [destruct Hin|].
  destruct Hin as [<-|Hin].
  - exists m. split; [left; reflexivity | exact Hn].
  - destruct (IH Hin) as (n' & Hn' & H0). exists n'. split; [right; exact Hn' | exact H0].
Qed.

End TreeWf.

Lemma wf_relabelled {A C : Type} (tr : Tree.t A) (tr' : Tree.t C) :
  wf tr -> relabelled tr tr' -> wf tr'.
Proof.
  intros Hwf Hrel. constructor.
  - rewrite (@relabelled_keys _ _ _ _ Hrel). apply (wf_nodup Hwf).
  - destruct (wf_root Hwf) as (r & rest & -> & Hr & Hd & Hrest).
    inversion Hrel as [|? r' ? rest' (Hk & Hp & Hc & Hdep) Hrel']; subst.
    exists r', rest'. split; [reflexivity|]. rewrite Hp, Hdep.
    split; [exact Hr|]. split; [exact Hd|].
    intros n' Hn'. destruct (@relabelled_in_r _ _ _ _ _ Hrel' Hn') as (n & Hn & _ & Hpn & _).
    rewrite Hpn. apply Hrest. exact Hn.
  - intros n' c Hn' Hc.
    destruct (@relabelled_in_r _ _ _ _ _ Hrel Hn') as (n & Hn & Hk & _ & Hcs & Hd).
    rewrite Hcs in Hc. destruct (wf_child Hwf n c Hn Hc) as (cn & Hcn & Hck & Hcp & Hcd).
    destruct (@relabelled_in_l _ _ _ _ _ Hrel Hcn) as (cn' & Hcn' & Hk' & Hp' & _ & Hd').
    exists cn'. split; [exact Hcn'|]. rewrite Hk', Hp', Hd', Hk, Hd. auto.
  - intros n' p Hn' Hp.
    destruct (@relabelled_in_r _ _ _ _ _ Hrel Hn') as (n & Hn & Hk & Hpn & _).
    rewrite Hpn in Hp. destruct (wf_parent Hwf n Hn Hp) as (pn & Hpn' & Hpk & Hpc).
    destruct (@relabelled_in_l _ _ _ _ _ Hrel Hpn') as (pn' & Hin' & Hk' & _ & Hc' & _).
    exists pn'. split; [exact Hin'|]. rewrite Hk', Hc', Hk. auto.
  - intros n' Hn'. destruct (@relabelled_in_r _ _ _ _ _ Hrel Hn') as (n & Hn & _ & _ & Hcs & _).
    rewrite Hcs. apply (wf_children_nodup Hwf). exact Hn.
  - intro f. pose proof (wf_sums Hwf f) as Hs.
    inversion Hrel as [|r r' rest rest' (Hk & _) Hrel']; subst; [exact I|].
    rewrite (@relabelled_keys _ _ _ _ Hrel), (@relabelled_child_sum _ _ f _ _ Hrel), Hk. exact Hs.
Qed.

(* ================================================================== *)
(** ** Probabilities of the exported trees *)

(** The probability of a node, when it is a number. *)
Definition qof (o : OutData) : Q :=
  match prob o with Fin q => q | _ => 0 end.

Definition prob_at (dt : Tree.t OutData) (k : string) : Q :=
  match Tree.get_node dt k with
  | Some n => qof (Tree.data n)
  | None => 0
  end.

Definition leaf_probs (st : Tree.t OutData) : list fval :=
  map (fun n => prob (Tree.data n)) (Tree.get_leaf_nodes st).

(** Every probability is a number, and that of a node with children is
    the sum of those of its children. *)
Definition balanced (st : Tree.t OutData) : Prop :=
  (forall n, In n st -> exists q, prob (Tree.data n) = Fin q) /\
  (forall n, In n st -> Tree.children_keys n <> [] ->
             sumQ (map (prob_at st) (Tree.children_keys n)) == qof (Tree.data n)).

Lemma prob_at_in (dt : Tree.t OutData) (n : Tree.Node OutData) :
  NoDup (Tree.keys dt) -> In n dt -> prob_at dt (Tree.key n) = qof (Tree.data n).
Proof.
  intros Hnd Hn. unfold prob_at. rewrite (@get_node_unique _ dt n Hnd Hn). reflexivity.
Qed.

Lemma sumQ_cons (x : Q) (l : list Q) : sumQ (x :: l) = x + sumQ l.
Proof. reflexivity. Qed.

Lemma sumQ_leaves (g cs : Tree.Node OutData -> Q) (l : list (Tree.Node OutData)) :
  (forall n, In n l -> cs n == if Tree.is_leaf n then 0 else g n) ->
  sumQ (map cs l) + sumQ (map g (filter (@Tree.is_leaf _) l)) == sumQ (map g l).
Proof.
  induction l as [|n l IH]; intro H; cbn [map filter]; [cbn; ring|].
  assert (Hl : forall m, In m l -> cs m == if Tree.is_leaf m then 0 else g m).
  { intros m Hm. apply H. right. exact Hm. }
  specialize (IH Hl). pose proof (H n (or_introl eq_refl)) as Hn.
  destruct (Tree.is_leaf n); cbn [map]; rewrite !sumQ_cons, Hn, <- IH; ring.
Qed.

(** In a balanced tree the probabilities of the leaves add up to that of
    the root. *)
Lemma balanced_leaf_sum (st : Tree.t OutData) (r : Tree.Node OutData)
      (rest : list (Tree.Node OutData)) :
  wf st -> balanced st -> st = r :: rest ->
  sumQ (map (fun n => qof (Tree.data n)) (Tree.get_leaf_nodes st)) == qof (Tree.data r).
Proof.
  intros Hwf [Hfin Hbal] ->.
  pose proof (wf_sums Hwf (prob_at (r :: rest))) as Hs. cbv beta iota in Hs.
  pose proof (wf_nodup Hwf) as Hnd.
  set (st := r :: rest) in *.
  assert (HT : sumQ (map (prob_at st) (Tree.keys st))
               = sumQ (map (fun n => qof (Tree.data n)) st)).
  { unfold Tree.keys. rewrite map_map. f_equal. apply map_ext_in.
    intros n Hn. apply prob_at_in; assumption. }
  rewrite HT in Hs.
  assert (Hr : prob_at st (Tree.key r) = qof (Tree.data r)).
  { apply prob_at_in; [exact Hnd | left; reflexivity]. }
  rewrite Hr in Hs.
  pose proof (@sumQ_leaves (fun n => qof (Tree.data n))
                           (fun n => sumQ (map (prob_at st) (Tree.children_keys n))) st) as Hl.
  unfold child_sum in Hs. unfold Tree.get_leaf_nodes.
  assert (Hcs : forall n, In n st ->
                  sumQ (map (prob_at st) (Tree.children_keys n))
                  == if Tree.is_leaf n then 0 else qof (Tree.data n)).
  { intros n Hn. unfold Tree.is_leaf.
    destruct (Tree.children_keys n) as [|c cs] eqn:E; [reflexivity|].
    rewrite <- E. apply Hbal; [exact Hn|]. rewrite E. discriminate. }
  specialize (Hl Hcs). rewrite Hs in Hl.
  set (x := sumQ (map (fun n => qof (Tree.data n)) (filter (@Tree.is_leaf _) st))) in *.
  set (y := sumQ (map (fun n : Tree.Node OutData =>
                         sumQ (map (prob_at st) (Tree.children_keys n))) st)) in *.
  apply (Qplus_inj_l _ _ y). rewrite Hl. ring.
Qed.

Lemma foldM_ext_in {X S : Type} (f g : S -> X -> result S) (l : list X) (s : S) :
  (forall s x, In x l -> f s x = g s x) -> foldM f l s = foldM g l s.
Proof.
  revert s. induction l as [|x l IH]; intros s H; cbn [foldM]; [reflexivity|].
  rewrite (H s x) by (left; reflexivity).
  destruct (g s x) as [s'|e]; cbn [bind]; [|reflexivity].
  apply IH. intros s0 y Hy. apply H. right. exact Hy.
Qed.

Lemma mapM_total {X Y : Type} (f : X -> result Y) (dflt : Y) (l : list X) (l' : list Y) :
  mapM f l = Ok l' ->
  l' = map (fun x => match f x with Ok y => y | Raise _ => dflt end) l /\
  forall x, In x l -> exists y, f x = Ok y.
Proof.
  revert l'. induction l as [|x l IH]; intros l' H; cbn [mapM] in H.
  - injection H as <-. split; [reflexivity | intros ? []].
  - bind_inv H. bind_inv H. injection H as <-.
    destruct (IH _ Ha0) as [-> Hall]. split.
    + cbn [map]. rewrite Ha. reflexivity.
    + intros y [<-|Hy]; [eauto | apply Hall; exact Hy].
Qed.

Lemma wf_add_nodes {A X : Type} (kf : X -> string) (df : X -> A) (p : string)
      (xs : list X) :
  forall tr tr',
    wf tr ->
    foldM (fun t x => Tree.add_node t (kf x) (Some p) (df x)) xs tr = Ok tr' ->
    wf tr'.
Proof.
  induction xs as [|x xs IH]; intros tr tr' Hwf H; cbn [foldM] in H.
  - injection H as <-. exact Hwf.
  - bind_inv H. apply (IH a tr'); [|exact H].
    eapply wf_add_node; [exact Hwf | exact Ha].
Qed.

Section Normalization.
Context {U : Utils}.
Variable rk : string.

(** The invariant of the construction of [data_tree], whose root has
    key [rk]: below the children of the root, the probability of a node
    with children is the sum of those of its children, and the children
    of the root have probability 1. *)
Definition good (dt : Tree.t OutData) : Prop :=
  wf dt /\
  (exists r rest, dt = r :: rest /\ Tree.key r = rk) /\
  (forall n, In n dt -> exists q, prob (Tree.data n) = Fin q) /\
  (forall n, In n dt -> Tree.key n <> rk -> Tree.children_keys n <> [] ->
             sumQ (map (prob_at dt) (Tree.children_keys n)) == qof (Tree.data n)) /\
  (forall n, In n dt -> Tree.parent_key n = Some rk -> prob (Tree.data n) = Fin 1).

(** The nodes waiting in the queue are in [data_tree] without children
    yet. *)
Definition queued {A : Type} (dt : Tree.t OutData) (queue : list (Tree.Node A)) : Prop :=
  NoDup (map (@Tree.key A) queue) /\
  forall q, In q queue ->
            Tree.key q <> rk /\
            exists dn, In dn dt /\ Tree.key dn = Tree.key q /\ Tree.children_keys dn = [].

Lemma good_root_key (dt : Tree.t OutData) : good dt -> In rk (Tree.keys dt).
Proof.
  intros (_ & (r & rest & -> & <-) & _). left. reflexivity.
Qed.

Lemma good_add_children {X : Type} (kf : X -> string) (w : X -> Q) (p : string)
      (pn : Tree.Node OutData) (xs : list X) (dt dt' : Tree.t OutData) :
  good dt -> In pn dt -> Tree.key pn = p ->
  (p <> rk -> Tree.children_keys pn = [] /\
              (xs <> [] -> sumQ (map w xs) == qof (Tree.data pn))) ->
  (p = rk -> forall x, In x xs -> w x = 1) ->
  foldM (fun t x => Tree.add_node t (kf x) (Some p) (mkOut (Fin (w x)) None)) xs dt = Ok dt' ->
  good dt' /\
  NoDup (map kf xs) /\
  (forall x, In x xs -> ~ In (kf x) (Tree.keys dt)) /\
  (forall n, In n dt -> Tree.key n <> p ->
             exists n', In n' dt' /\ Tree.key n' = Tree.key n /\
                        Tree.children_keys n' = Tree.children_keys n) /\
  (forall x, In x xs ->
             exists n', In n' dt' /\ Tree.key n' = kf x /\ Tree.children_keys n' = []).
Proof.
  intros (Hwf & Hhd & Hfin & Hbal & Htop) Hpn Hpk Hinner Houter Hfold.
  pose proof (wf_add_nodes _ _ _ _ Hwf Hfold) as Hwf'.
  apply add_nodes_ok in Hfold. destruct Hfold as (Hnd & Hfresh & _ & Hdt').
  set (ks := map kf xs) in *.
  set (new := fun x => Tree.mkNode (kf x) (Some p) [] (child_depth dt p)
                                   (mkOut (Fin (w x)) None)) in *.
  assert (Hold : forall n, In n dt -> In (add_children p ks n) dt').
  { intros n Hn. rewrite Hdt'. apply in_or_app. left. apply in_map. exact Hn. }
  assert (Hnew : forall x, In x xs -> In (new x) dt').
  { intros x Hx. rewrite Hdt'. apply in_or_app. right. apply in_map. exact Hx. }
  assert (Hmem : forall n', In n' dt' ->
                   (exists n, In n dt /\ n' = add_children p ks n) \/
                   (exists x, In x xs /\ n' = new x)).
  { intros n' Hn'. rewrite Hdt' in Hn'. apply in_app_or in Hn'.
    destruct Hn' as [Hn'|Hn']; apply in_map_iff in Hn';
      destruct Hn' as (y & <- & Hy); [left | right]; eauto. }
  pose proof (wf_nodup Hwf) as Hnd0. pose proof (wf_nodup Hwf') as Hnd'.
  assert (Pold : forall n, In n dt -> prob_at dt' (Tree.key n) = qof (Tree.data n)).
  { intros n Hn. rewrite <- (key_add_children p ks n), <- (data_add_children p ks n).
    apply prob_at_in; [exact Hnd' | apply Hold; exact Hn]. }
  assert (Pnew : forall x, In x xs -> prob_at dt' (kf x) = w x).
  { intros x Hx. apply (@prob_at_in dt' (new x) Hnd' (Hnew x Hx)). }
  assert (Psame : forall c, In c (Tree.keys dt) -> prob_at dt' c = prob_at dt c).
  { intros c Hc. apply in_map_iff in Hc. destruct Hc as (m & <- & Hm).
    rewrite (Pold m Hm). symmetry. apply prob_at_in; assumption. }
  split; [|split; [exact Hnd|split; [exact Hfresh|split]]].
  - split; [exact Hwf'|]. split; [|split; [|split]].
    + destruct Hhd as (r & rest & -> & Hr). rewrite Hdt'. cbn [map app].
      eexists _, _. split; [reflexivity|]. rewrite key_add_children. exact Hr.
    + intros n' Hn'. destruct (Hmem n' Hn') as [(n & Hn & ->)|(x & Hx & ->)].
      * rewrite data_add_children. apply Hfin. exact Hn.
      * cbn. eauto.
    + intros n' Hn' Hkey Hch. destruct (Hmem n' Hn') as [(n & Hn & ->)|(x & Hx & ->)].
      2:{ cbn in Hch. congruence. }
      rewrite key_add_children in Hkey. rewrite data_add_children.
      rewrite children_add_children in *.
      destruct (Tree.has_key p n) eqn:E.
      * apply has_key_true in E.
        assert (n = pn) by (apply (@nodes_same_key _ dt); congruence).
        subst n. destruct Hinner as [Hleaf Hsum]; [congruence|].
        rewrite Hleaf in *. cbn [app] in *.
        unfold ks. rewrite map_map.
        rewrite (@sumQ_map_ext _ (fun x => prob_at dt' (kf x)) w xs).
        -- apply Hsum. intros ->. apply Hch. reflexivity.
        -- intros x Hx. rewrite (Pnew x Hx). reflexivity.
      * rewrite <- (Hbal n Hn Hkey Hch). apply sumQ_map_ext.
        intros c Hc. rewrite Psame; [reflexivity|].
        eapply wf_children_in; eassumption.
    + intros n' Hn' Hpar. destruct (Hmem n' Hn') as [(n & Hn & ->)|(x & Hx & ->)].
      * rewrite parent_add_children in Hpar. rewrite data_add_children.
        apply Htop; assumption.
      * cbn in Hpar. injection Hpar as Hpar. cbn. rewrite (Houter Hpar x Hx). reflexivity.
  - intros n Hn Hkey. exists (add_children p ks n).
    split; [apply Hold; exact Hn|]. rewrite key_add_children.
    split; [reflexivity|]. rewrite add_children_other; [reflexivity | exact Hkey].
  - intros x Hx. exists (new x). split; [apply Hnew; exact Hx|]. auto.
Qed.


Variable tr : Tree.t ScenarioData.t.

(** The joint probabilities of the scenarios are positive. *)
Definition positive : Prop :=
  forall n d, In n tr -> data (Tree.data n) = Some d -> 0 < SCEN_PROB d.

Hypothesis Hpos : positive.

Lemma scen_prob_of_pos (c : Tree.Node ScenarioData.t) (p : Q) :
  In c tr -> scen_prob_of c = Ok p -> 0 < p.
Proof.
  intros Hc H. unfold scen_prob_of in H. bind_inv H. apply or_raise_ok in Ha.
  injection H as <-. exact (Hpos c Hc Ha).
Qed.

Lemma queued_keys {A : Type} (dt : Tree.t OutData) (queue : list (Tree.Node A))
      (q : Tree.Node A) :
  queued dt queue -> In q queue -> In (Tree.key q) (Tree.keys dt).
Proof.
  intros [_ H] Hq. destruct (H q Hq) as (_ & dn & Hdn & <- & _).
  apply in_keys. exact Hdn.
Qed.

Lemma normalize_bfs_good (fuel : nat) :
  forall (queue : list (Tree.Node ScenarioData.t)) (dt dt' : Tree.t OutData),
    good dt -> queued dt queue ->
    normalize_bfs fuel tr queue dt = Ok dt' -> good dt'.
Proof.
  induction fuel as [|fuel IH]; intros queue dt dt' Hgood Hq H;
    destruct queue as [|cur rest]; cbn [normalize_bfs] in H;
    try discriminate; try (injection H as <-; exact Hgood).
  bind_inv H. rename a into dn. apply or_raise_ok in Ha.
  bind_inv H. rename a into children.
  bind_inv H. rename a into probs. bind_inv H. rename a into dt1.
  set (kids := filter (@ended U) children) in *.
  apply get_node_some in Ha. destruct Ha as [Hdn Hdnk].
  destruct Hq as [Hqnd Hqall].
  destruct (Hqall cur (or_introl eq_refl)) as (Hcur & dn0 & Hdn0 & Hdn0k & Hdn0c).
  pose proof Hgood as (Hwf & _ & Hfin & _).
  assert (dn0 = dn) by (apply (@nodes_same_key _ dt); [apply (wf_nodup Hwf)| | |]; congruence).
  subst dn0. destruct (Hfin dn Hdn) as [qp Hqp].
  assert (Hkids : forall c, In c kids -> In c tr).
  { intros c Hc. apply filter_In in Hc. destruct Hc as [Hc _].
    destruct (@mapM_preimage _ _ _ _ _ _ Ha0 Hc) as (k & _ & Hk).
    apply or_raise_ok in Hk. apply get_node_some in Hk. tauto. }
  set (sp := fun c => match scen_prob_of c with Ok p => p | Raise _ => 0 end).
  destruct (mapM_total _ 0 _ Ha1) as [Hprobs Hall]. fold sp in Hprobs.
  assert (Hsp : forall c, In c kids -> scen_prob_of c = Ok (sp c) /\ 0 < sp c).
  { intros c Hc. destruct (Hall c Hc) as [y Hy]. unfold sp. rewrite Hy.
    split; [reflexivity|]. eapply scen_prob_of_pos; [apply Hkids; exact Hc | exact Hy]. }
  set (total := Qsum probs) in *.
  assert (Htotal : total == sumQ (map sp kids)).
  { unfold total. rewrite Hprobs. apply Qsum_sumQ. }
  assert (Hnz : kids <> [] -> ~ total == 0).
  { intros Hne Hz. rewrite Htotal in Hz.
    assert (0 < sumQ (map sp kids)).
    { apply sumQ_pos.
      - destruct kids; [congruence | discriminate].
      - intros x Hx. apply in_map_iff in Hx. destruct Hx as (c & <- & Hc).
        apply Hsp. exact Hc. }
    rewrite Hz in H0. exact (Qlt_irrefl _ H0). }
  set (w := fun c => sp c / total * qp).
  rewrite (@foldM_ext_in _ _ _
             (fun t c => Tree.add_node t (Tree.key c) (Some (Tree.key cur))
                                       (mkOut (Fin (w c)) None))) in Ha2.
  2:{ intros t c Hc. destruct (Hsp c Hc) as [-> _]. cbn [bind].
      rewrite Hqp. rewrite fdiv_nonzero.
      - reflexivity.
      - destruct (Qeq_bool total 0) eqn:E; [|reflexivity].
        apply Qeq_bool_iff in E. exfalso. apply Hnz; [|exact E].
        intro Hk. rewrite Hk in Hc. destruct Hc. }
  destruct (@good_add_children _ (@Tree.key _) w (Tree.key cur) dn kids dt dt1)
    as (Hgood1 & Hnd & Hfresh & Hsame & Hnew); try assumption.
  { intros _. split; [exact Hdn0c|].
    intro Hne. unfold qof. rewrite Hqp. unfold w.
    rewrite <- (map_map sp (fun p => p / total * qp)).
    apply sumQ_shares; [exact Htotal | apply Hnz; exact Hne]. }
  { intro E. contradiction. }
  apply (IH (rest ++ kids) dt1 dt'); [exact Hgood1 | | exact H].
  inversion Hqnd as [|? ? Hcur_rest Hrest_nd]; subst.
  split.
  - rewrite map_app. apply NoDup_app; [exact Hrest_nd | exact Hnd |].
    intros k Hk1 Hk2. apply in_map_iff in Hk1. destruct Hk1 as (q & <- & Hq).
    apply in_map_iff in Hk2. destruct Hk2 as (c & Hck & Hc).
    apply (Hfresh c Hc). rewrite Hck.
    destruct (Hqall q (or_intror Hq)) as (_ & dq & Hdq & <- & _). apply in_keys. exact Hdq.
  - intros q Hq. apply in_app_or in Hq. destruct Hq as [Hq|Hq].
    + destruct (Hqall q (or_intror Hq)) as (Hqrk & dq & Hdq & Hdqk & Hdqc).
      split; [exact Hqrk|].
      destruct (Hsame dq Hdq) as (n' & Hn' & Hn'k & Hn'c).
      { rewrite Hdqk. intro E. apply Hcur_rest. rewrite <- E. apply in_map. exact Hq. }
      exists n'. split; [exact Hn'|]. split; congruence.
    + split.
      * intro E. apply (Hfresh q Hq). rewrite E. apply good_root_key. exact Hgood.
      * apply Hnew. exact Hq.
Qed.


Variable fuel : nat.
Variable root_node : Tree.Node ScenarioData.t.
Hypothesis Hroot : Tree.key root_node = rk.

Lemma build_data_tree_good_from (ks : list string) :
  forall dt dt' : Tree.t OutData,
    good dt ->
    foldM (fun dt k =>
             node <- or_raise KeyError (Tree.get_node tr k) ;;
             if negb (ended node) then Ok dt
             else
               dt <- Tree.add_node dt (Tree.key node) (Some (Tree.key root_node))
                                   (mkOut (Fin 1) None) ;;
               normalize_bfs fuel tr [node] dt)
          ks dt = Ok dt' ->
    good dt'.
Proof.
  induction ks as [|k ks IH]; intros dt dt' Hgood H; cbn [foldM] in H.
  - injection H as <-. exact Hgood.
  - bind_inv H. rename a into dt2. apply (IH dt2 dt'); [|exact H].
    clear H IH. bind_inv Ha. rename a into node.
    destruct (negb (ended node)); [injection Ha as <-; exact Hgood|].
    bind_inv Ha. rename a into dt1. rewrite Hroot in Ha1.
    destruct Hgood as (Hwf & (r & rest & Hdt & Hr) & Hrest).
    assert (Hgood : good dt) by (split; [exact Hwf | split; [eauto | exact Hrest]]).
    destruct (@good_add_children _ (fun _ : unit => Tree.key node) (fun _ => 1) rk r
                                 [tt] dt dt1)
      as (Hgood1 & _ & Hfresh & _ & Hnew); try assumption.
    { rewrite Hdt. left. reflexivity. }
    { intro E. congruence. }
    { reflexivity. }
    { cbn [foldM]. rewrite Ha1. reflexivity. }
    apply (@normalize_bfs_good fuel [node] dt1 dt2 Hgood1); [|exact Ha].
    split; [repeat constructor; intros []|].
    intros q [<-|[]]. split.
    + intro E. apply (Hfresh tt (or_introl eq_refl)). rewrite E.
      apply good_root_key. exact Hgood.
    + apply (Hnew tt). left. reflexivity.
Qed.

End Normalization.

Lemma get_node_map {A C : Type} (g : Tree.Node A -> Tree.Node C) (tr : Tree.t A)
      (k : string) :
  (forall n, Tree.key (g n) = Tree.key n) ->
  Tree.get_node (map g tr) k = option_map g (Tree.get_node tr k).
Proof.
  intro Hg. unfold Tree.get_node. induction tr as [|m tr IH]; [reflexivity|].
  cbn [map find]. unfold Tree.has_key at 1. rewrite Hg.
  fold (Tree.has_key k m). destruct (Tree.has_key k m); [reflexivity | exact IH].
Qed.

Lemma relabelled_map {A C : Type} (g : Tree.Node A -> Tree.Node C) (tr : Tree.t A) :
  (forall n, Tree.key (g n) = Tree.key n /\
             Tree.parent_key (g n) = Tree.parent_key n /\
             Tree.children_keys (g n) = Tree.children_keys n /\
             Tree.depth (g n) = Tree.depth n) ->
  relabelled tr (map g tr).
Proof.
  intro Hg. unfold relabelled. induction tr as [|n tr IH]; cbn [map]; constructor.
  - apply Hg.
  - exact IH.
Qed.

Lemma modify_data_shape {A : Type} (k : string) (f : A -> A) (n : Tree.Node A) :
  Tree.key (Tree.modify_data k f n) = Tree.key n /\
  Tree.parent_key (Tree.modify_data k f n) = Tree.parent_key n /\
  Tree.children_keys (Tree.modify_data k f n) = Tree.children_keys n /\
  Tree.depth (Tree.modify_data k f n) = Tree.depth n.
Proof.
  unfold Tree.modify_data. destruct (Tree.has_key k n); cbn; auto.
Qed.

Lemma modify_data_data {A : Type} (k : string) (f : A -> A) (n : Tree.Node A) :
  Tree.data (Tree.modify_data k f n) = Tree.data n \/
  Tree.data (Tree.modify_data k f n) = f (Tree.data n).
Proof.
  unfold Tree.modify_data. destruct (Tree.has_key k n); cbn; auto.
Qed.

Section Attachment.
Context {U : Utils}.
Variable obs_len : nat.
Variable rk : string.

Lemma prob_attach (d : PredData) (o : OutData) : prob (attach obs_len d o) = prob o.
Proof. unfold attach. destruct (segment o); reflexivity. Qed.

Lemma good_modify (k : string) (f : OutData -> OutData) (dt : Tree.t OutData) :
  (forall o, prob (f o) = prob o) ->
  good rk dt -> good rk (map (Tree.modify_data k f) dt).
Proof.
  intros Hf (Hwf & (r & rest & -> & Hr) & Hfin & Hbal & Htop).
  set (dt := r :: rest) in *.
  assert (Hprob : forall n, prob (Tree.data (Tree.modify_data k f n)) = prob (Tree.data n)).
  { intro n. destruct (modify_data_data k f n) as [->| ->]; [reflexivity | apply Hf]. }
  assert (Hat : forall c, prob_at (map (Tree.modify_data k f) dt) c = prob_at dt c).
  { intro c. unfold prob_at. rewrite get_node_map by (intro n; apply modify_data_shape).
    destruct (Tree.get_node dt c) as [n|]; [|reflexivity].
    cbn. unfold qof. rewrite Hprob. reflexivity. }
  split; [|split; [|split; [|split]]].
  - eapply wf_relabelled; [exact Hwf|]. apply relabelled_map. intro n. apply modify_data_shape.
  - unfold dt. cbn [map]. eexists _, _. split; [reflexivity|].
    rewrite <- Hr. apply modify_data_shape.
  - intros n' Hn'. apply in_map_iff in Hn'. destruct Hn' as (n & <- & Hn).
    rewrite Hprob. apply Hfin. exact Hn.
  - intros n' Hn' Hkey Hch. apply in_map_iff in Hn'. destruct Hn' as (n & <- & Hn).
    destruct (modify_data_shape k f n) as (Hk & _ & Hc & _).
    rewrite Hk in Hkey. rewrite Hc in *. unfold qof. rewrite Hprob.
    rewrite <- (Hbal n Hn Hkey Hch). apply sumQ_map_ext. intros c _. rewrite Hat. reflexivity.
  - intros n' Hn' Hpar. apply in_map_iff in Hn'. destruct Hn' as (n & <- & Hn).
    destruct (modify_data_shape k f n) as (_ & Hp & _). rewrite Hp in Hpar.
    rewrite Hprob. apply Htop; assumption.
Qed.

Lemma attach_up_good (tr : Tree.t ScenarioData.t) (fuel : nat) :
  forall (dt : Tree.t OutData) (node : Tree.Node ScenarioData.t) (dt' : Tree.t OutData),
    good rk dt -> attach_up obs_len fuel tr dt node = Ok dt' -> good rk dt'.
Proof.
  induction fuel as [|fuel IH]; intros dt node dt' Hgood H; cbn [attach_up] in H;
    destruct (Tree.parent_key node) as [p|];
    try discriminate; try (injection H as <-; exact Hgood).
  bind_inv H. bind_inv H. bind_inv H.
  apply (IH _ _ _ (good_modify (Tree.key node) _ (prob_attach a) Hgood) H).
Qed.

Lemma attach_all_good (tr : Tree.t ScenarioData.t) (fuel : nat)
      (nodes : list (Tree.Node ScenarioData.t)) :
  forall dt dt' : Tree.t OutData,
    good rk dt -> foldM (attach_up obs_len fuel tr) nodes dt = Ok dt' -> good rk dt'.
Proof.
  induction nodes as [|n nodes IH]; intros dt dt' Hgood H; cbn [foldM] in H.
  - injection H as <-. exact Hgood.
  - bind_inv H. apply (IH a dt'); [|exact H]. eapply attach_up_good; eassumption.
Qed.

End Attachment.

Section Labelling.
Context {U : Utils}.

Lemma label_up_positive (fuel : nat) :
  forall (tr : Tree.t ScenarioData.t) (node : Tree.Node ScenarioData.t)
         (tr' : Tree.t ScenarioData.t),
    positive tr -> label_up fuel tr node = Ok tr' -> positive tr'.
Proof.
  induction fuel as [|fuel IH]; intros tr node tr' Hpos H; cbn [label_up] in H;
    destruct (Tree.parent_key node) as [p|];
    try discriminate; try (injection H as <-; exact Hpos).
  bind_inv H. refine (IH _ _ _ _ H). clear H Ha a.
  intros n d Hn Hd. apply in_map_iff in Hn. destruct Hn as (n0 & <- & Hn0).
  apply (Hpos n0 d Hn0). rewrite <- Hd.
  destruct (modify_data_data (Tree.key node) set_end_flag n0) as [->| ->]; reflexivity.
Qed.

Lemma label_finished_positive (fuel : nat) (tr tr' : Tree.t ScenarioData.t) :
  positive tr -> label_finished fuel tr = Ok tr' -> positive tr'.
Proof.
  unfold label_finished. generalize (end_leaves tr) as nodes. intro nodes.
  revert tr. induction nodes as [|n nodes IH]; intros tr Hpos H; cbn [foldM] in H.
  - injection H as <-. exact Hpos.
  - bind_inv H. apply (IH a); [|exact H]. eapply label_up_positive; eassumption.
Qed.

End Labelling.

Lemma lookup_all {A : Type} (t : Tree.t A) (ks : list string) (ns : list (Tree.Node A)) :
  mapM (fun k => or_raise KeyError (Tree.get_node t k)) ks = Ok ns ->
  map (@Tree.key A) ns = ks /\ forall n, In n ns -> In n t.
Proof.
  revert ns. induction ks as [|k ks IH]; intros ns H; cbn [mapM] in H.
  - injection H as <-. split; [reflexivity | intros ? []].
  - bind_inv H. bind_inv H. injection H as <-.
    apply or_raise_ok in Ha. apply get_node_some in Ha. destruct Ha as [Hin Hk].
    destruct (IH _ Ha0) as [Hks Hall]. split.
    + cbn [map]. rewrite Hk, Hks. reflexivity.
    + intros n [<-|Hn]; [exact Hin | apply Hall; exact Hn].
Qed.

Lemma get_root_first {A : Type} (tr : Tree.t A) (r : Tree.Node A) (rest : list (Tree.Node A)) :
  wf tr -> tr = r :: rest -> Tree.get_root tr = Some r.
Proof.
  intros Hwf ->. destruct (wf_root Hwf) as (r0 & rest0 & E & Hr & _).
  injection E as <- <-. unfold Tree.get_root. cbn [find]. unfold Tree.is_root.
  rewrite Hr. reflexivity.
Qed.

Lemma wf_child_not_root {A : Type} (tr : Tree.t A) (r n : Tree.Node A)
      (rest : list (Tree.Node A)) (c : string) :
  wf tr -> tr = r :: rest -> In n tr -> In c (Tree.children_keys n) -> c <> Tree.key r.
Proof.
  intros Hwf E Hn Hc Heq.
  destruct (wf_child Hwf n c Hn Hc) as (cn & Hcn & Hck & Hcp & _).
  destruct (wf_root Hwf) as (r0 & rest0 & E0 & Hr & _).
  rewrite E in E0. injection E0 as <- <-.
  assert (cn = r).
  { apply (@nodes_same_key _ tr); [apply (wf_nodup Hwf) | exact Hcn | | congruence].
    rewrite E. left. reflexivity. }
  subst cn. congruence.
Qed.

Section Separation.
Variable rk : string.
Variable dt : Tree.t OutData.
Hypothesis Hgood : good rk dt.

(** The invariant of the copy of a subtree of [data_tree] into a
    scenario tree. *)
Definition copied (st : Tree.t OutData) (queue : list (Tree.Node OutData)) : Prop :=
  wf st /\
  (exists r rest, st = r :: rest /\ prob (Tree.data r) = Fin 1) /\
  (forall n, In n st ->
             Tree.key n <> rk /\
             exists dn, In dn dt /\ Tree.key dn = Tree.key n /\
                        Tree.data dn = Tree.data n /\
                        (forall p, Tree.parent_key n = Some p ->
                                   Tree.parent_key dn = Some p /\
                                   In p (Tree.keys st)) /\
                        ((In (Tree.key n) (map (@Tree.key _) queue) /\
                          Tree.children_keys n = []) \/
                         Tree.children_keys n = Tree.children_keys dn)) /\
  NoDup (map (@Tree.key _) queue) /\
  (forall q, In q queue -> In q dt /\ In (Tree.key q) (Tree.keys st)).

Lemma copy_bfs_copied (fuel : nat) :
  forall (queue : list (Tree.Node OutData)) (st st' : Tree.t OutData),
    copied st queue -> copy_bfs fuel dt queue st = Ok st' -> copied st' [].
Proof.
  induction fuel as [|fuel IH]; intros queue st st' Hcop H;
    destruct queue as [|cur rest]; cbn [copy_bfs] in H;
    try discriminate; try (injection H as <-; exact Hcop).
  bind_inv H. rename a into children. bind_inv H. rename a into st1.
  apply (IH (rest ++ children) st1 st'); [|exact H]. clear H IH.
  destruct Hcop as (Hwf & (r & rs & Hst & Hr) & Hnodes & Hqnd & Hq).
  pose proof Hgood as (Hwfd & (rd & rsd & Hdt & Hrd) & _).
  destruct (lookup_all _ _ Ha) as [Hks Hch].
  pose proof (wf_add_nodes _ _ _ _ Hwf Ha0) as Hwf1.
  apply add_nodes_ok in Ha0. destruct Ha0 as (Hnd & Hfresh & _ & Hst1).
  rewrite Hks in *. set (ks := Tree.children_keys cur) in *.
  set (new := fun x : Tree.Node OutData =>
                Tree.mkNode (Tree.key x) (Some (Tree.key cur)) []
                            (child_depth st (Tree.key cur)) (Tree.data x)) in *.
  destruct (Hq cur (or_introl eq_refl)) as [Hcur Hcurk].
  inversion Hqnd as [|? ? Hcur_rest Hrest_nd]; subst x l.
  assert (Hold : forall n, In n st -> In (add_children (Tree.key cur) ks n) st1).
  { intros n Hn. rewrite Hst1. apply in_or_app. left. apply in_map. exact Hn. }
  assert (Hnew : forall x, In x children -> In (new x) st1).
  { intros x Hx. rewrite Hst1. apply in_or_app. right. apply in_map. exact Hx. }
  assert (Hkeys1 : forall k, In k (Tree.keys st) -> In k (Tree.keys st1)).
  { intros k Hk. apply in_map_iff in Hk. destruct Hk as (m & <- & Hm).
    rewrite <- (key_add_children (Tree.key cur) ks m). apply in_keys. apply Hold. exact Hm. }
  split; [exact Hwf1|]. split; [|split; [|split]].
  - rewrite Hst1, Hst. cbn [map app]. eexists _, _. split; [reflexivity|].
    rewrite data_add_children. exact Hr.
  - intros n' Hn'. rewrite Hst1 in Hn'. apply in_app_or in Hn'.
    destruct Hn' as [Hn'|Hn']; apply in_map_iff in Hn'; destruct Hn' as (n & <- & Hn).
    + destruct (Hnodes n Hn) as (Hnk & dn & Hdn & Hdnk & Hdnd & Hdnp & Hcase).
      rewrite key_add_children, data_add_children, children_add_children.
      split; [exact Hnk|]. exists dn. split; [exact Hdn|]. split; [exact Hdnk|].
      split; [exact Hdnd|]. split.
      { intros p Hp. rewrite parent_add_children in Hp.
        destruct (Hdnp p Hp) as [H1 H2]. split; [exact H1 | apply Hkeys1; exact H2]. }
      destruct (Tree.has_key (Tree.key cur) n) eqn:E.
      * apply has_key_true in E. right.
        assert (dn = cur).
        { apply (@nodes_same_key _ dt); [apply (wf_nodup Hwfd) | | |]; congruence. }
        subst dn. destruct Hcase as [[_ ->]|Hsame]; [reflexivity|].
        fold ks in Hsame. rewrite Hsame.
        destruct children as [|x xs].
        -- cbn in Hks. fold ks. rewrite <- Hks. reflexivity.
        -- exfalso. apply (Hfresh x (or_introl eq_refl)).
           apply (@wf_children_in _ st n (Tree.key x) Hwf Hn).
           rewrite Hsame, <- Hks. left. reflexivity.
      * apply has_key_false in E.
        destruct Hcase as [[Hin Hnil]|Hsame]; [left | right; exact Hsame].
        split; [|exact Hnil]. rewrite map_app. apply in_or_app. left.
        destruct Hin as [Hin|Hin]; [congruence | exact Hin].
    + cbn. pose proof (Hch n Hn) as Hndt.
      assert (Hnk : In (Tree.key n) ks) by (rewrite <- Hks; apply in_map; exact Hn).
      split.
      * rewrite <- Hrd.
        exact (@wf_child_not_root _ dt rd cur rsd (Tree.key n) Hwfd Hdt Hcur Hnk).
      * exists n. split; [exact Hndt|]. split; [reflexivity|]. split; [reflexivity|].
        split.
        { intros p Hp. injection Hp as <-.
          destruct (wf_child Hwfd cur (Tree.key n) Hcur Hnk) as (cn & Hcn & Hcnk & Hcnp & _).
          assert (cn = n).
          { apply (@nodes_same_key _ dt); [apply (wf_nodup Hwfd) | | |]; assumption. }
          subst cn. split; [exact Hcnp | apply Hkeys1; exact Hcurk]. }
        left. split; [|reflexivity].
        rewrite map_app. apply in_or_app. right. apply in_map. exact Hn.
  - rewrite map_app. apply NoDup_app; [exact Hrest_nd | rewrite Hks; exact Hnd |].
    intros k Hk1 Hk2. apply in_map_iff in Hk1. destruct Hk1 as (q & <- & Hq1).
    apply in_map_iff in Hk2. destruct Hk2 as (c & Hck & Hc).
    apply (Hfresh c Hc). rewrite Hck. apply (Hq q). right. exact Hq1.
  - intros q Hq1. apply in_app_or in Hq1. destruct Hq1 as [Hq1|Hq1].
    + destruct (Hq q (or_intror Hq1)) as [Hqd Hqk]. split; [exact Hqd|].
      apply in_map_iff in Hqk. destruct Hqk as (n & Hnk & Hn).
      rewrite <- Hnk, <- (key_add_children (Tree.key cur) ks n).
      apply in_keys. apply Hold. exact Hn.
    + split; [apply Hch; exact Hq1|].
      change (Tree.key q) with (Tree.key (new q)). apply in_keys. apply Hnew. exact Hq1.
Qed.

Lemma copied_balanced (st : Tree.t OutData) : copied st [] -> balanced st.
Proof.
  intros (Hwf & _ & Hnodes & _).
  pose proof Hgood as (Hwfd & _ & Hfin & Hbal & _).
  assert (Hat : forall c, In c (Tree.keys st) -> prob_at st c = prob_at dt c).
  { intros c Hc. apply in_map_iff in Hc. destruct Hc as (m & <- & Hm).
    destruct (Hnodes m Hm) as (_ & dm & Hdm & Hdmk & Hdmd & _ & _).
    rewrite (@prob_at_in st m (wf_nodup Hwf) Hm), <- Hdmk, <- Hdmd.
    symmetry. apply prob_at_in; [apply (wf_nodup Hwfd) | exact Hdm]. }
  split.
  - intros n Hn. destruct (Hnodes n Hn) as (_ & dn & Hdn & _ & <- & _).
    apply Hfin. exact Hdn.
  - intros n Hn Hch. destruct (Hnodes n Hn) as (Hnk & dn & Hdn & Hdnk & Hdnd & _ & Hcase).
    destruct Hcase as [[[] _]|Hsame].
    rewrite <- Hdnd. rewrite Hsame in Hch. rewrite <- Hdnk in Hnk.
    rewrite <- (Hbal dn Hdn Hnk Hch), Hsame. apply sumQ_map_ext.
    intros c Hc. rewrite Hat; [reflexivity|].
    apply (@wf_children_in _ st n c Hwf Hn). rewrite Hsame. exact Hc.
Qed.

Lemma separate_copied (fuel : nat) (trees : list (Tree.t OutData)) :
  separate fuel dt = Ok trees -> forall st, In st trees -> copied st [].
Proof.
  unfold separate. intros H st Hst. bind_inv H. rename a into droot.
  apply or_raise_ok in Ha.
  pose proof Hgood as (Hwfd & (rd & rsd & Hdt & Hrd) & _ & _ & Htop).
  rewrite (get_root_first Hwfd Hdt) in Ha. injection Ha as <-.
  destruct (@mapM_preimage _ _ _ _ _ _ H Hst) as (k & Hk & Hcopy). clear H.
  bind_inv Hcopy. rename a into node. apply or_raise_ok in Ha.
  apply get_node_some in Ha. destruct Ha as [Hnode Hnk].
  bind_inv Hcopy. rename a into st0.
  cbn in Ha. injection Ha as <-.
  assert (Hrdin : In rd dt) by (rewrite Hdt; left; reflexivity).
  destruct (wf_child Hwfd rd k Hrdin Hk) as (cn & Hcn & Hck & Hcp & _).
  assert (cn = node).
  { apply (@nodes_same_key _ dt); [apply (wf_nodup Hwfd) | | |]; congruence. }
  subst cn.
  assert (Hcop : copied [Tree.mkNode (Tree.key node) None [] 0 (Tree.data node)] [node]).
  { split; [apply wf_single|]. split; [|split; [|split]].
    - eexists _, _. split; [reflexivity|]. cbn. apply Htop; [exact Hnode|]. congruence.
    - intros n [<-|[]]. cbn. split.
      + rewrite Hnk, <- Hrd.
        exact (@wf_child_not_root _ dt rd rd rsd k Hwfd Hdt Hrdin Hk).
      + exists node. split; [exact Hnode|]. split; [reflexivity|]. split; [reflexivity|].
        split; [intros p Hp; discriminate|]. left. split; [left|]; reflexivity.
    - repeat constructor. intros [].
    - intros q [<-|[]]. split; [exact Hnode | left; reflexivity]. }
  exact (copy_bfs_copied _ Hcop Hcopy).
Qed.

Lemma separate_balanced (fuel : nat) (trees : list (Tree.t OutData)) :
  separate fuel dt = Ok trees ->
  forall st, In st trees ->
             wf st /\ balanced st /\
             exists r rest, st = r :: rest /\ prob (Tree.data r) = Fin 1.
Proof.
  intros H st Hst. pose proof (separate_copied _ H st Hst) as Hfinal.
  split; [apply Hfinal|]. split; [apply copied_balanced; exact Hfinal|].
  apply Hfinal.
Qed.

End Separation.


(* ================================================================== *)
(** ** The normalized probability of a node *)

Section Shares.
Context {U : Utils}.
Variable tr : Tree.t ScenarioData.t.
Variable rk : string.

(** The probability [x] is the share of the scenario with key [k] among
    the end-flagged children of the node with key [p] of the search
    tree, times [parent_prob]: "SCEN_PROB / total_prob * parent_prob". *)
Definition share_of (k p : string) (parent_prob x : fval) : Prop :=
  exists parent children probs sn d,
    In parent tr /\ Tree.key parent = p /\
    mapM (fun c => or_raise KeyError (Tree.get_node tr c)) (Tree.children_keys parent)
    = Ok children /\
    mapM scen_prob_of (filter ended children) = Ok probs /\
    In sn (filter ended children) /\ Tree.key sn = k /\
    data (Tree.data sn) = Some d /\
    x = fmul (fdiv (SCEN_PROB d) (Qsum probs)) parent_prob.

(** Below the children of the root, the probability of every node of
    [dt] is its share of the probability of its parent. *)
Definition shared (dt : Tree.t OutData) : Prop :=
  forall n p, In n dt -> Tree.parent_key n = Some p -> p <> rk ->
              exists pn, In pn dt /\ Tree.key pn = p /\
                         share_of (Tree.key n) p (prob (Tree.data pn)) (prob (Tree.data n)).

Lemma shared_add_children {X : Type} (kf : X -> string) (df : X -> OutData) (p : string)
      (xs : list X) (dt dt' : Tree.t OutData) :
  shared dt ->
  (p <> rk -> forall x, In x xs ->
              exists pn, In pn dt /\ Tree.key pn = p /\
                         share_of (kf x) p (prob (Tree.data pn)) (prob (df x))) ->
  foldM (fun t x => Tree.add_node t (kf x) (Some p) (df x)) xs dt = Ok dt' ->
  shared dt'.
Proof.
  intros Hsh Hnew Hfold. apply add_nodes_ok in Hfold.
  destruct Hfold as (_ & _ & _ & ->).
  assert (Hold : forall pn q, In pn dt -> Tree.key pn = q ->
                   exists pn', In pn' (map (add_children p (map kf xs)) dt
                                       ++ map (fun x => Tree.mkNode (kf x) (Some p) []
                                                          (child_depth dt p) (df x)) xs) /\
                               Tree.key pn' = q /\ Tree.data pn' = Tree.data pn).
  { intros pn q Hpn Hq. exists (add_children p (map kf xs) pn).
    split; [apply in_or_app; left; apply in_map; exact Hpn|].
    rewrite key_add_children, data_add_children. auto. }
  intros n q Hn Hq Hqrk. apply in_app_or in Hn. destruct Hn as [Hn|Hn];
    apply in_map_iff in Hn; destruct Hn as (y & <- & Hy).
  - rewrite parent_add_children in Hq. rewrite key_add_children, data_add_children.
    destruct (Hsh y q Hy Hq Hqrk) as (pn & Hpn & Hpk & Hshare).
    destruct (Hold pn q Hpn Hpk) as (pn' & Hpn' & Hpk' & Hpd').
    exists pn'. rewrite Hpd'. auto.
  - cbn in Hq. injection Hq as <-. cbn.
    destruct (Hnew Hqrk y Hy) as (pn & Hpn & Hpk & Hshare).
    destruct (Hold pn p Hpn Hpk) as (pn' & Hpn' & Hpk' & Hpd').
    exists pn'. rewrite Hpd'. auto.
Qed.

Lemma normalize_bfs_shared (fuel : nat) :
  forall (queue : list (Tree.Node ScenarioData.t)) (dt dt' : Tree.t OutData),
    shared dt -> (forall q, In q queue -> In q tr) ->
    normalize_bfs fuel tr queue dt = Ok dt' -> shared dt'.
Proof.
  induction fuel as [|fuel IH]; intros queue dt dt' Hsh Hq H;
    destruct queue as [|cur rest]; cbn [normalize_bfs] in H;
    try discriminate; try (injection H as <-; exact Hsh).
  bind_inv H. rename a into dn. apply or_raise_ok in Ha.
  bind_inv H. rename a into children.
  bind_inv H. rename a into probs. bind_inv H. rename a into dt1.
  apply get_node_some in Ha. destruct Ha as [Hdn Hdnk].
  set (kids := filter (@ended U) children) in *.
  set (sp := fun c => match scen_prob_of c with Ok p => p | Raise _ => 0 end).
  destruct (mapM_total _ 0 _ Ha1) as [_ Hall].
  set (df := fun c : Tree.Node ScenarioData.t =>
               mkOut (fmul (fdiv (sp c) (Qsum probs)) (prob (Tree.data dn))) None).
  rewrite (@foldM_ext_in _ _ _
             (fun t c => Tree.add_node t (Tree.key c) (Some (Tree.key cur)) (df c))) in Ha2.
  2:{ intros t c Hc. destruct (Hall c Hc) as [y Hy]. unfold df, sp. rewrite Hy. reflexivity. }
  apply (IH (rest ++ kids) dt1 dt'); [| |exact H].
  - eapply shared_add_children; [exact Hsh | | exact Ha2].
    intros _ c Hc. exists dn. split; [exact Hdn|]. split; [exact Hdnk|].
    destruct (Hall c Hc) as [y Hy]. pose proof Hy as Hy'.
    unfold scen_prob_of in Hy'. bind_inv Hy'. apply or_raise_ok in Ha. injection Hy' as <-.
    exists cur, children, probs, c, a.
    split; [apply Hq; left; reflexivity|]. split; [reflexivity|].
    split; [exact Ha0|]. split; [exact Ha1|]. split; [exact Hc|].
    split; [reflexivity|]. split; [exact Ha|].
    unfold df, sp. cbn. rewrite Hy. reflexivity.
  - intros q Hq1. apply in_app_or in Hq1. destruct Hq1 as [Hq1|Hq1].
    + apply Hq. right. exact Hq1.
    + apply filter_In in Hq1. destruct Hq1 as [Hq1 _].
      destruct (@mapM_preimage _ _ _ _ _ _ Ha0 Hq1) as (k & _ & Hk).
      apply or_raise_ok in Hk. apply get_node_some in Hk. tauto.
Qed.

Lemma build_data_tree_shared (fuel : nat) (root_node : Tree.Node ScenarioData.t)
      (dt dt' : Tree.t OutData) :
  Tree.key root_node = rk -> shared dt ->
  build_data_tree fuel tr root_node dt = Ok dt' -> shared dt'.
Proof.
  intros Hroot. unfold build_data_tree. generalize (Tree.children_keys root_node) as ks.
  intro ks. revert dt. induction ks as [|k ks IH]; intros dt Hsh H; cbn [foldM] in H.
  - injection H as <-. exact Hsh.
  - bind_inv H. rename a into dt2. apply (IH dt2); [|exact H]. clear H IH.
    bind_inv Ha. rename a into node. apply or_raise_ok in Ha0.
    apply get_node_some in Ha0. destruct Ha0 as [Hnode _].
    destruct (negb (ended node)); [injection Ha as <-; exact Hsh|].
    bind_inv Ha. rename a into dt1.
    apply (@normalize_bfs_shared fuel [node] dt1 dt2); [| |exact Ha].
    + apply (@shared_add_children unit (fun _ => Tree.key node)
                                  (fun _ => mkOut (Fin 1) None)
                                  (Tree.key root_node) [tt] dt dt1 Hsh).
      * intro Hne. congruence.
      * cbn [foldM]. rewrite Ha0. reflexivity.
    + intros q [<-|[]]. exact Hnode.
Qed.

Lemma shared_modify (k : string) (f : OutData -> OutData) (dt : Tree.t OutData) :
  (forall o, prob (f o) = prob o) ->
  shared dt -> shared (map (Tree.modify_data k f) dt).
Proof.
  intros Hf Hsh.
  assert (Hprob : forall n, prob (Tree.data (Tree.modify_data k f n)) = prob (Tree.data n)).
  { intro n. destruct (modify_data_data k f n) as [->| ->]; [reflexivity | apply Hf]. }
  intros n' p Hn' Hp Hprk. apply in_map_iff in Hn'. destruct Hn' as (n & <- & Hn).
  destruct (modify_data_shape k f n) as (Hk & Hpk & _).
  rewrite Hpk in Hp. destruct (Hsh n p Hn Hp Hprk) as (pn & Hpn & Hpnk & Hshare).
  exists (Tree.modify_data k f pn). split; [apply in_map; exact Hpn|].
  destruct (modify_data_shape k f pn) as (Hk' & _).
  split; [congruence|]. rewrite !Hprob, Hk. exact Hshare.
Qed.

Lemma attach_up_shared (obs_len fuel : nat) :
  forall (dt : Tree.t OutData) (node : Tree.Node ScenarioData.t) (dt' : Tree.t OutData),
    shared dt -> attach_up obs_len fuel tr dt node = Ok dt' -> shared dt'.
Proof.
  induction fuel as [|fuel IH]; intros dt node dt' Hsh H; cbn [attach_up] in H;
    destruct (Tree.parent_key node) as [p|];
    try discriminate; try (injection H as <-; exact Hsh).
  bind_inv H. bind_inv H. bind_inv H.
  apply (IH _ _ _ (shared_modify (Tree.key node) _ (prob_attach obs_len a) Hsh) H).
Qed.

Lemma attach_all_shared (obs_len fuel : nat) (nodes : list (Tree.Node ScenarioData.t)) :
  forall dt dt' : Tree.t OutData,
    shared dt -> foldM (attach_up obs_len fuel tr) nodes dt = Ok dt' -> shared dt'.
Proof.
  induction nodes as [|n nodes IH]; intros dt dt' Hsh H; cbn [foldM] in H.
  - injection H as <-. exact Hsh.
  - bind_inv H. apply (IH a dt'); [|exact H]. eapply attach_up_shared; eassumption.
Qed.

End Shares.

Section ExtractionShares.
Context {U : Utils}.
Variable obs_len : nat.

Lemma copied_shared (tr : Tree.t ScenarioData.t) (rk : string) (dt st : Tree.t OutData) :
  good rk dt -> shared tr rk dt -> copied rk dt st [] ->
  forall n p, In n st -> Tree.parent_key n = Some p ->
              exists pn, In pn st /\ Tree.key pn = p /\
                         share_of tr (Tree.key n) p (prob (Tree.data pn)) (prob (Tree.data n)).
Proof.
  intros (Hwfd & _) Hsh (_ & _ & Hnodes & _) n p Hn Hp.
  destruct (Hnodes n Hn) as (_ & dn & Hdn & Hdnk & Hdnd & Hdnp & _).
  destruct (Hdnp p Hp) as [Hdp Hpin].
  apply in_map_iff in Hpin. destruct Hpin as (pn & Hpnk & Hpn).
  destruct (Hnodes pn Hpn) as (Hpnrk & dpn & Hdpn & Hdpnk & Hdpnd & _).
  destruct (Hsh dn p Hdn Hdp) as (pn_d & Hpn_d & Hpn_dk & Hshare); [congruence|].
  assert (pn_d = dpn).
  { apply (@nodes_same_key _ dt); [apply (wf_nodup Hwfd) | | |]; congruence. }
  subst pn_d. exists pn. split; [exact Hpn|]. split; [exact Hpnk|].
  rewrite <- Hdnk, <- Hdnd, <- Hdpnd. exact Hshare.
Qed.

Lemma get_scenario_tree_spec (fuel : nat) (tr tr' : Tree.t ScenarioData.t)
      (trees : list (Tree.t OutData)) :
  positive tr ->
  get_scenario_tree obs_len fuel tr = Ok (trees, tr') ->
  forall st, In st trees ->
             wf st /\ balanced st /\
             (exists r rest, st = r :: rest /\ prob (Tree.data r) = Fin 1) /\
             (forall n p, In n st -> Tree.parent_key n = Some p ->
                          exists pn, In pn st /\ Tree.key pn = p /\
                                     share_of tr' (Tree.key n) p (prob (Tree.data pn))
                                              (prob (Tree.data n))).
Proof.
  intros Hpos H. unfold get_scenario_tree in H.
  bind_inv H. rename a into root_node. bind_inv H. rename a into dt0.
  bind_inv H. rename a into tr1. bind_inv H. rename a into dt1.
  bind_inv H. rename a into dt2. bind_inv H. rename a into sts.
  injection H as <- <-.
  cbn in Ha0. injection Ha0 as <-.
  set (rk := Tree.key root_node) in *.
  assert (Hgood0 : good rk [Tree.mkNode rk None [] 0 (mkOut (Fin 1) None)]).
  { split; [apply wf_single|]. split; [eexists _, _; split; reflexivity|].
    split; [|split].
    - intros n [<-|[]]. cbn. eauto.
    - intros n [<-|[]] Hk. cbn in Hk. congruence.
    - intros n [<-|[]] Hp. discriminate. }
  assert (Hsh0 : shared tr1 rk [Tree.mkNode rk None [] 0 (mkOut (Fin 1) None)]).
  { intros n p [<-|[]] Hp. discriminate. }
  pose proof (label_finished_positive _ Hpos Ha1) as Hpos1.
  assert (Hgood1 : good rk dt1).
  { eapply (@build_data_tree_good_from _ rk tr1 Hpos1 fuel root_node eq_refl);
      [exact Hgood0 | exact Ha2]. }
  assert (Hsh1 : shared tr1 rk dt1).
  { eapply build_data_tree_shared; [reflexivity | exact Hsh0 | exact Ha2]. }
  assert (Hgood2 : good rk dt2).
  { eapply attach_all_good; [exact Hgood1 | exact Ha3]. }
  assert (Hsh2 : shared tr1 rk dt2).
  { eapply attach_all_shared; [exact Hsh1 | exact Ha3]. }
  intros st Hst.
  pose proof (separate_copied Hgood2 _ Ha4 st Hst) as Hcop.
  split; [apply Hcop|]. split; [apply (copied_balanced Hgood2 Hcop)|].
  split; [apply Hcop|]. apply (copied_shared Hgood2 Hsh2 Hcop).
Qed.

End ExtractionShares.

(* ================================================================== *)
(** ** The extraction returns *)

Lemma add_nodes_succeed {A X : Type} (kf : X -> string) (df : X -> A) (p : string)
      (xs : list X) :
  forall tr : Tree.t A,
    NoDup (map kf xs) ->
    (forall x, In x xs -> ~ In (kf x) (Tree.keys tr)) ->
    In p (Tree.keys tr) ->
    exists tr',
      foldM (fun t x => Tree.add_node t (kf x) (Some p) (df x)) xs tr = Ok tr' /\
      Tree.keys tr' = Tree.keys tr ++ map kf xs.
Proof.
  induction xs as [|x xs IH]; intros tr Hnd Hfresh Hp; cbn [foldM map].
  - exists tr. rewrite app_nil_r. auto.
  - inversion Hnd as [|? ? Hx Hnd']; subst.
    destruct (@add_node_succeeds _ tr (kf x) (Some p) (df x)) as [tr1 Hadd].
    { apply Hfresh. left. reflexivity. }
    { intros q Hq. injection Hq as <-. exact Hp. }
    rewrite Hadd. cbn [bind].
    destruct (add_node_ok _ _ _ _ Hadd) as (_ & Hkeys & _).
    destruct (IH tr1) as (tr' & Hfold & Hkeys').
    + exact Hnd'.
    + intros y Hy Hin. rewrite Hkeys in Hin. apply in_app_or in Hin.
      destruct Hin as [Hin|[E|[]]].
      * apply (Hfresh y (or_intror Hy)). exact Hin.
      * apply Hx. rewrite E. apply in_map. exact Hy.
    + rewrite Hkeys. apply in_or_app. left. exact Hp.
    + exists tr'. split; [exact Hfold|]. rewrite Hkeys', Hkeys, <- app_assoc. reflexivity.
Qed.

Section Bfs.
Context {A C : Type}.
Variable src : Tree.t A.
Hypothesis Hsrc : wf src.

(** The invariant of a breadth-first copy of nodes of [src] into [tgt]:
    the nodes of the queue are in [tgt], their children are not, and
    the parent of a node of [tgt] is in [tgt] unless it is the root of
    [src]. *)
Definition binv (tgt : Tree.t C) (queue : list (Tree.Node A)) : Prop :=
  wf tgt /\
  incl (Tree.keys tgt) (Tree.keys src) /\
  NoDup (map (@Tree.key A) queue) /\
  (forall q, In q queue -> In q src /\ In (Tree.key q) (Tree.keys tgt)) /\
  (forall q c, In q queue -> In c (Tree.children_keys q) -> ~ In c (Tree.keys tgt)) /\
  (forall n p, In n src -> In (Tree.key n) (Tree.keys tgt) ->
               Tree.parent_key n = Some p ->
               In p (Tree.keys tgt) \/
               exists m, In m src /\ Tree.key m = p /\ Tree.parent_key m = None).

Lemma child_parent {n c : Tree.Node A} :
  In n src -> In c src -> In (Tree.key c) (Tree.children_keys n) ->
  Tree.parent_key c = Some (Tree.key n) /\ Tree.depth c = S (Tree.depth n).
Proof.
  intros Hn Hc Hin. destruct (wf_child Hsrc n (Tree.key c) Hn Hin) as (cn & Hcn & Hk & Hp & Hd).
  assert (cn = c) by (apply (@nodes_same_key _ src); [apply (wf_nodup Hsrc)|..]; assumption).
  subst cn. auto.
Qed.

Lemma child_lookup {n : Tree.Node A} {c : string} :
  In n src -> In c (Tree.children_keys n) ->
  exists cn, In cn src /\ Tree.key cn = c /\ Tree.get_node src c = Some cn /\
             Tree.parent_key cn = Some (Tree.key n) /\ Tree.depth cn = S (Tree.depth n).
Proof.
  intros Hn Hc. destruct (wf_child Hsrc n c Hn Hc) as (cn & Hcn & Hk & Hp & Hd).
  exists cn. repeat split; try assumption. rewrite <- Hk.
  apply get_node_unique; [apply (wf_nodup Hsrc) | exact Hcn].
Qed.

Lemma binv_tail (tgt : Tree.t C) (cur : Tree.Node A) (rest : list (Tree.Node A)) :
  binv tgt (cur :: rest) ->
  binv tgt rest /\ In cur src /\ In (Tree.key cur) (Tree.keys tgt) /\
  ~ In (Tree.key cur) (map (@Tree.key A) rest) /\
  forall c, In c (Tree.children_keys cur) -> ~ In c (Tree.keys tgt).
Proof.
  intros (Hwf & Hk & Hqnd & Hq & Hf & Hg).
  destruct (Hq cur (or_introl eq_refl)) as [Hcur Hcurk].
  inversion Hqnd as [|? ? Hcur_rest Hrest_nd]; subst.
  split; [|split; [exact Hcur | split; [exact Hcurk | split; [exact Hcur_rest|]]]].
  - split; [exact Hwf|]. split; [exact Hk|]. split; [exact Hrest_nd|].
    split; [|split; [|exact Hg]].
    + intros q Hq1. apply Hq. right. exact Hq1.
    + intros q c Hq1. apply Hf. right. exact Hq1.
  - intros c Hc. apply (Hf cur); [left; reflexivity | exact Hc].
Qed.

(** The children [kids] of [cur] are inserted below it and join the
    queue. *)
Lemma bfs_step (tgt : Tree.t C) (cur : Tree.Node A) (rest kids : list (Tree.Node A))
      (df : Tree.Node A -> C) :
  binv tgt rest ->
  In cur src -> In (Tree.key cur) (Tree.keys tgt) ->
  ~ In (Tree.key cur) (map (@Tree.key A) rest) ->
  NoDup (map (@Tree.key A) kids) ->
  (forall c, In c kids -> In c src /\ In (Tree.key c) (Tree.children_keys cur) /\
                          ~ In (Tree.key c) (Tree.keys tgt)) ->
  exists tgt',
    foldM (fun t c => Tree.add_node t (Tree.key c) (Some (Tree.key cur)) (df c)) kids tgt
    = Ok tgt' /\
    Tree.keys tgt' = Tree.keys tgt ++ map (@Tree.key A) kids /\
    binv tgt' (rest ++ kids).
Proof.
  intros (Hwf & Hk & Hrest_nd & Hq & Hf & Hg) Hcur Hcurk Hcur_rest Hnd Hkids.
  assert (Hfresh : forall c, In c kids -> ~ In (Tree.key c) (Tree.keys tgt)).
  { intros c Hc. apply Hkids. exact Hc. }
  destruct (@add_nodes_succeed _ _ (@Tree.key A) df (Tree.key cur) kids tgt Hnd Hfresh Hcurk)
    as (tgt' & Hfold & Hkeys).
  exists tgt'. split; [exact Hfold|]. split; [exact Hkeys|].
  pose proof (wf_add_nodes _ _ _ _ Hwf Hfold) as Hwf'.
  assert (Hkidp : forall c, In c kids -> Tree.parent_key c = Some (Tree.key cur)).
  { intros c Hc. destruct (Hkids c Hc) as (Hcs & Hcc & _). apply (child_parent Hcur Hcs Hcc). }
  split; [exact Hwf'|]. split; [|split; [|split; [|split]]].
  - rewrite Hkeys. intros k Hin. apply in_app_or in Hin. destruct Hin as [Hin|Hin].
    + apply Hk. exact Hin.
    + apply in_map_iff in Hin. destruct Hin as (c & <- & Hc). apply in_keys. apply Hkids. exact Hc.
  - rewrite map_app. apply NoDup_app; [exact Hrest_nd | exact Hnd |].
    intros k Hk1 Hk2. apply in_map_iff in Hk1. destruct Hk1 as (q & <- & Hq1).
    apply in_map_iff in Hk2. destruct Hk2 as (c & Hck & Hc).
    apply (Hfresh c Hc). rewrite Hck. apply (Hq q). exact Hq1.
  - intros q Hq1. rewrite Hkeys. apply in_app_or in Hq1. destruct Hq1 as [Hq1|Hq1].
    + destruct (Hq q Hq1) as [Hqs Hqk]. split; [exact Hqs|].
      apply in_or_app. left. exact Hqk.
    + split; [apply Hkids; exact Hq1|]. apply in_or_app. right. apply in_map. exact Hq1.
  - intros q c Hq1 Hc Hin. rewrite Hkeys in Hin.
    assert (Hqs : In q src).
    { apply in_app_or in Hq1. destruct Hq1 as [Hq1|Hq1];
        [apply (Hq q); exact Hq1 | apply Hkids; exact Hq1]. }
    destruct (child_lookup Hqs Hc) as (cn & Hcn & Hcnk & _ & Hcnp & _).
    apply in_app_or in Hin. apply in_app_or in Hq1.
    destruct Hin as [Hin|Hin].
    + destruct Hq1 as [Hq1|Hq1].
      * apply (Hf q c); [exact Hq1 | exact Hc | exact Hin].
      * rewrite <- Hcnk in Hin.
        destruct (Hg cn (Tree.key q) Hcn Hin Hcnp) as [Hp|(m & Hm & Hmk & Hmp)].
        -- apply (Hfresh q Hq1). exact Hp.
        -- assert (m = q) by (apply (@nodes_same_key _ src);
                              [apply (wf_nodup Hsrc)|..]; assumption).
           subst m. rewrite (Hkidp q Hq1) in Hmp. discriminate.
    + apply in_map_iff in Hin. destruct Hin as (kid & Hkk & Hkid).
      assert (kid = cn).
      { apply (@nodes_same_key _ src); [apply (wf_nodup Hsrc)| apply Hkids; exact Hkid
                                        | exact Hcn | congruence]. }
      subst kid. rewrite (Hkidp cn Hkid) in Hcnp. injection Hcnp as Hqc.
      destruct Hq1 as [Hq1|Hq1].
      * apply Hcur_rest. rewrite Hqc. apply in_map. exact Hq1.
      * apply (Hfresh q Hq1). rewrite <- Hqc. exact Hcurk.
  - intros n p Hn Hin Hp. rewrite Hkeys in Hin. apply in_app_or in Hin.
    destruct Hin as [Hin|Hin].
    + destruct (Hg n p Hn Hin Hp) as [H|H]; [left | right; exact H].
      rewrite Hkeys. apply in_or_app. left. exact H.
    + left. apply in_map_iff in Hin. destruct Hin as (kid & Hkk & Hkid).
      assert (kid = n).
      { apply (@nodes_same_key _ src); [apply (wf_nodup Hsrc)| apply Hkids; exact Hkid
                                        | exact Hn | exact Hkk]. }
      subst kid. rewrite (Hkidp n Hkid) in Hp. injection Hp as <-.
      rewrite Hkeys. apply in_or_app. left. exact Hcurk.
Qed.

End Bfs.

Section LabelTotal.
Context {U : Utils}.
Implicit Types (tr : Tree.t ScenarioData.t) (n : Tree.Node ScenarioData.t).

(** Every node but the root carries a prediction. *)
Definition payload tr : Prop :=
  forall n, In n tr -> Tree.parent_key n <> None -> data (Tree.data n) <> None.

(** [n'] is [n] with its end flag possibly set; the flag is set on
    nodes with children only. *)
Definition raised_node n n' : Prop :=
  Tree.key n' = Tree.key n /\
  Tree.parent_key n' = Tree.parent_key n /\
  Tree.children_keys n' = Tree.children_keys n /\
  Tree.depth n' = Tree.depth n /\
  data (Tree.data n') = data (Tree.data n) /\
  (ended n = true -> ended n' = true) /\
  (ended n' = true -> ended n = true \/ Tree.children_keys n <> []).

Definition raised tr tr' : Prop := Forall2 raised_node tr tr'.

(** The node with key [k] and its ancestors below the root have their
    end flag set. *)
Inductive up_ended tr : string -> Prop :=
| ue_top k n :
    In n tr -> Tree.key n = k -> Tree.parent_key n = None -> up_ended tr k
| ue_step k n p :
    In n tr -> Tree.key n = k -> Tree.parent_key n = Some p ->
    ended n = true -> up_ended tr p -> up_ended tr k.

Definition height tr : nat := list_max (map (@Tree.depth _) tr).

Lemma depth_le_height tr n : In n tr -> (Tree.depth n <= height tr)%nat.
Proof.
  intro Hn. unfold height.
  assert (H : Forall (fun d => (d <= list_max (map (@Tree.depth _) tr))%nat)
                     (map (@Tree.depth _) tr)).
  { apply list_max_le. apply Nat.le_refl. }
  rewrite Forall_forall in H. apply H. apply in_map. exact Hn.
Qed.

Lemma raised_node_refl n : raised_node n n.
Proof. unfold raised_node. repeat split; auto. Qed.

Lemma raised_node_trans n1 n2 n3 :
  raised_node n1 n2 -> raised_node n2 n3 -> raised_node n1 n3.
Proof.
  intros (Hk & Hp & Hc & Hd & Hdata & Hup & Hdown) (Hk' & Hp' & Hc' & Hd' & Hdata' & Hup' & Hdown').
  unfold raised_node. repeat split; try congruence.
  - intro H. apply Hup'. apply Hup. exact H.
  - intro H. destruct (Hdown' H) as [H2|H2]; [apply Hdown; exact H2 | right; congruence].
Qed.

Lemma raised_refl tr : raised tr tr.
Proof. induction tr; constructor; [apply raised_node_refl | assumption]. Qed.

Lemma raised_trans {tr1 tr2 tr3} : raised tr1 tr2 -> raised tr2 tr3 -> raised tr1 tr3.
Proof.
  intro H. revert tr3. induction H as [|n1 n2 tr1 tr2 Hn _ IH]; intros tr3 H';
    inversion H'; subst; constructor.
  - eapply raised_node_trans; eassumption.
  - apply IH. assumption.
Qed.

Lemma raised_relabelled {tr tr'} : raised tr tr' -> relabelled tr tr'.
Proof.
  unfold raised, relabelled. intro H. eapply Forall2_impl; [|exact H].
  intros n n' (Hk & Hp & Hc & Hd & _). auto.
Qed.

Lemma raised_in_l {tr tr' n} :
  raised tr tr' -> In n tr -> exists n', In n' tr' /\ raised_node n n'.
Proof.
  induction 1 as [|n0 m tr tr' Hn _ IH]; intros Hin; [destruct Hin|].
  destruct Hin as [<-|Hin].
  - exists m. split; [left; reflexivity | exact Hn].
  - destruct (IH Hin) as (n' & Hn' & H0). exists n'. split; [right; exact Hn' | exact H0].
Qed.

Lemma raised_in_r {tr tr' n'} :
  raised tr tr' -> In n' tr' -> exists n, In n tr /\ raised_node n n'.
Proof.
  induction 1 as [|n0 m tr tr' Hn _ IH]; intros Hin; [destruct Hin|].
  destruct Hin as [<-|Hin].
  - exists n0. split; [left; reflexivity | exact Hn].
  - destruct (IH Hin) as (n & Hn' & H0). exists n. split; [right; exact Hn' | exact H0].
Qed.

Lemma raised_map (g : Tree.Node ScenarioData.t -> Tree.Node ScenarioData.t) tr :
  (forall n, In n tr -> raised_node n (g n)) -> raised tr (map g tr).
Proof.
  induction tr as [|n tr IH]; intro H; cbn [map]; constructor.
  - apply H. left. reflexivity.
  - apply IH. intros m Hm. apply H. right. exact Hm.
Qed.

Lemma raised_payload {tr tr'} : raised tr tr' -> payload tr -> payload tr'.
Proof.
  intros Hr Hp n' Hn' Hpar. destruct (raised_in_r Hr Hn') as (n & Hn & _ & Hpk & _ & _ & Hd & _).
  rewrite Hd. apply Hp; [exact Hn | congruence].
Qed.

Lemma up_ended_raised {tr tr' k} : raised tr tr' -> up_ended tr k -> up_ended tr' k.
Proof.
  intros Hr H. induction H as [k n Hn Hk Hp|k n p Hn Hk Hp He _ IH];
    destruct (raised_in_l Hr Hn) as (n' & Hn' & Hk' & Hp' & _ & _ & _ & Hup & _).
  - apply ue_top with (n := n'); congruence.
  - apply ue_step with (n := n') (p := p); try congruence. apply Hup. exact He.
Qed.

Lemma label_up_total (fuel : nat) :
  forall tr node,
    wf tr ->
    (exists n0, In n0 tr /\ Tree.key n0 = Tree.key node /\
                Tree.parent_key n0 = Tree.parent_key node /\
                (Tree.depth n0 <= fuel)%nat /\
                (ended n0 = true \/ Tree.children_keys n0 <> [])) ->
    exists tr', label_up fuel tr node = Ok tr' /\ raised tr tr' /\
                up_ended tr' (Tree.key node).
Proof.
  induction fuel as [|fuel IH]; intros tr node Hwf (n0 & Hn0 & Hk0 & Hp0 & Hd0 & He0);
    cbn [label_up]; destruct (Tree.parent_key node) as [p|] eqn:Hp.
  - exfalso. destruct (wf_parent Hwf n0 Hn0 Hp0) as (pn & Hpn & Hpk & Hpc).
    destruct (child_parent Hwf Hpn Hn0 Hpc) as [_ Hd]. lia.
  - exists tr. split; [reflexivity|]. split; [apply raised_refl|].
    apply ue_top with (n := n0); assumption.
  - destruct (wf_parent Hwf n0 Hn0 Hp0) as (pn & Hpn & Hpk & Hpc).
    destruct (child_parent Hwf Hpn Hn0 Hpc) as [_ Hd].
    set (tr1 := map (Tree.modify_data (Tree.key node) set_end_flag) tr).
    assert (Hr1 : raised tr tr1).
    { apply raised_map. intros n Hn. unfold Tree.modify_data.
      destruct (Tree.has_key (Tree.key node) n) eqn:E; [|apply raised_node_refl].
      apply has_key_true in E.
      assert (n = n0) by (apply (@nodes_same_key _ tr);
                          [apply (wf_nodup Hwf)|..]; congruence).
      subst n. unfold raised_node, ended. cbn. repeat split; auto. }
    pose proof (wf_relabelled Hwf (raised_relabelled Hr1)) as Hwf1.
    destruct (raised_in_l Hr1 Hpn) as (pn1 & Hpn1 & Hpk1 & _ & Hpc1 & Hpd1 & _).
    assert (Hget : Tree.get_node tr1 p = Some pn1).
    { rewrite <- Hpk, <- Hpk1. apply get_node_unique; [apply (wf_nodup Hwf1) | exact Hpn1]. }
    rewrite Hget. cbn [or_raise bind].
    destruct (IH tr1 pn1 Hwf1) as (tr' & Hlabel & Hr' & Hup).
    { exists pn1. repeat split; try assumption; try reflexivity; [lia|].
      right. rewrite Hpc1. intro E. rewrite E in Hpc. destruct Hpc. }
    exists tr'. split; [exact Hlabel|].
    pose proof (raised_trans Hr1 Hr') as Hr. split; [exact Hr|].
    destruct (raised_in_l Hr1 Hn0) as (n1 & Hn1 & Hn1r).
    assert (He1 : ended n1 = true).
    { assert (n1 = Tree.modify_data (Tree.key node) set_end_flag n0).
      { apply (@nodes_same_key _ tr1); [apply (wf_nodup Hwf1) | exact Hn1 | |].
        - apply in_map. exact Hn0.
        - destruct Hn1r as (-> & _). symmetry. apply modify_data_shape. }
      subst n1. unfold Tree.modify_data.
      assert (E : Tree.has_key (Tree.key node) n0 = true) by (apply has_key_true; exact Hk0).
      rewrite E. reflexivity. }
    destruct (raised_in_l Hr' Hn1) as (n' & Hn' & Hk' & Hp' & _ & _ & _ & Hup' & _).
    destruct Hn1r as (Hk1 & Hp1 & _).
    apply ue_step with (n := n') (p := p); try congruence.
    apply Hup'. exact He1.
  - exists tr. split; [reflexivity|]. split; [apply raised_refl|].
    apply ue_top with (n := n0); assumption.
Qed.


Lemma label_all_total (fuel : nat) (nodes : list (Tree.Node ScenarioData.t)) :
  forall tr,
    wf tr ->
    (forall l, In l nodes ->
               exists n0, In n0 tr /\ Tree.key n0 = Tree.key l /\
                          Tree.parent_key n0 = Tree.parent_key l /\
                          (Tree.depth n0 <= fuel)%nat /\ ended n0 = true) ->
    exists tr', foldM (label_up fuel) nodes tr = Ok tr' /\ raised tr tr' /\
                forall l, In l nodes -> up_ended tr' (Tree.key l).
Proof.
  induction nodes as [|l nodes IH]; intros tr Hwf Hall; cbn [foldM].
  - exists tr. split; [reflexivity|]. split; [apply raised_refl | intros ? []].
  - destruct (@label_up_total fuel tr l Hwf) as (tr1 & Hlabel & Hr1 & Hup1).
    { destruct (Hall l (or_introl eq_refl)) as (n0 & Hn0 & Hk & Hp & Hd & He).
      exists n0. repeat split; auto. }
    rewrite Hlabel. cbn [bind].
    pose proof (wf_relabelled Hwf (raised_relabelled Hr1)) as Hwf1.
    destruct (IH tr1 Hwf1) as (tr' & Hfold & Hr' & Hup').
    { intros m Hm. destruct (Hall m (or_intror Hm)) as (n0 & Hn0 & Hk & Hp & Hd & He).
      destruct (raised_in_l Hr1 Hn0) as (n1 & Hn1 & Hk1 & Hp1 & _ & Hd1 & _ & He1 & _).
      exists n1. split; [exact Hn1|]. split; [congruence|]. split; [congruence|].
      split; [lia | apply He1; exact He]. }
    exists tr'. split; [exact Hfold|]. split; [exact (raised_trans Hr1 Hr')|].
    intros m [<-|Hm]; [exact (up_ended_raised Hr' Hup1) | apply Hup'; exact Hm].
Qed.

Lemma label_finished_total (fuel : nat) tr :
  wf tr -> (height tr <= fuel)%nat ->
  exists tr', label_finished fuel tr = Ok tr' /\ raised tr tr' /\
              forall l, In l (end_leaves tr') -> up_ended tr' (Tree.key l).
Proof.
  intros Hwf Hfuel. unfold label_finished.
  destruct (@label_all_total fuel (end_leaves tr) tr Hwf) as (tr' & Hfold & Hr & Hup).
  { intros l Hl. unfold end_leaves in Hl. apply filter_In in Hl. destruct Hl as [Hl He].
    unfold Tree.get_leaf_nodes in Hl. apply filter_In in Hl. destruct Hl as [Hl _].
    exists l. repeat split; auto. pose proof (depth_le_height tr l Hl). lia. }
  exists tr'. split; [exact Hfold|]. split; [exact Hr|].
  intros l' Hl'. unfold end_leaves in Hl'. apply filter_In in Hl'. destruct Hl' as [Hl' He'].
  unfold Tree.get_leaf_nodes in Hl'. apply filter_In in Hl'. destruct Hl' as [Hl' Hleaf'].
  destruct (raised_in_r Hr Hl') as (n & Hn & Hk & _ & Hc & _ & _ & _ & Hdown).
  unfold Tree.is_leaf in Hleaf'.
  destruct (Tree.children_keys l') eqn:Ec; [|discriminate].
  rewrite Hk. apply Hup. unfold end_leaves, Tree.get_leaf_nodes.
  apply filter_In. split.
  - apply filter_In. split; [exact Hn|]. unfold Tree.is_leaf. rewrite <- Hc. reflexivity.
  - destruct (Hdown He') as [H|H]; [exact H | congruence].
Qed.

End LabelTotal.

Lemma NoDup_map_filter {X Y : Type} (f : X -> Y) (P : X -> bool) (l : list X) :
  NoDup (map f l) -> NoDup (map f (filter P l)).
Proof.
  induction l as [|x l IH]; intro H; cbn [filter map]; [constructor|].
  cbn [map] in H. inversion H as [|? ? Hx Hl]; subst.
  destruct (P x); [|apply IH; exact Hl].
  cbn [map]. constructor; [|apply IH; exact Hl].
  intro Hin. apply Hx. apply in_map_iff in Hin. destruct Hin as (y & Hy & Hin).
  apply in_map_iff. exists y. split; [exact Hy|]. apply filter_In in Hin. tauto.
Qed.

Lemma lookup_all_total {A : Type} (t : Tree.t A) (ks : list string) :
  (forall k, In k ks -> In k (Tree.keys t)) ->
  exists ns, mapM (fun k => or_raise KeyError (Tree.get_node t k)) ks = Ok ns.
Proof.
  induction ks as [|k ks IH]; intro H; cbn [mapM]; [eauto|].
  destruct (get_node_in_keys t k (H k (or_introl eq_refl))) as [n ->]. cbn [or_raise bind].
  destruct IH as [ns ->]; [intros; apply H; right; assumption|]. cbn [bind]. eauto.
Qed.

Lemma keys_length {A : Type} (t : Tree.t A) : List.length (Tree.keys t) = List.length t.
Proof. unfold Tree.keys. apply length_map. Qed.

Lemma binv_length {A C : Type} (src : Tree.t A) (tgt : Tree.t C) (queue : list (Tree.Node A)) :
  binv src tgt queue -> (List.length tgt <= List.length src)%nat.
Proof.
  intros (Hwf & Hincl & _). rewrite <- (keys_length tgt), <- (keys_length src).
  apply NoDup_incl_length; [apply (wf_nodup Hwf) | exact Hincl].
Qed.

Section NormalizeTotal.
Context {U : Utils}.
Variable tr : Tree.t ScenarioData.t.
Hypothesis Hwf : wf tr.
Hypothesis Hpay : payload tr.
Variable root : Tree.Node ScenarioData.t.
Hypothesis Hroot : In root tr.
Hypothesis Hroot_par : Tree.parent_key root = None.

Let rk : string := Tree.key root.

(** The invariant of the loop that fills [data_tree]: the end-flagged
    children of the nodes that left the queue are in [data_tree]. *)
Definition ninv (dt : Tree.t OutData) (queue : list (Tree.Node ScenarioData.t)) : Prop :=
  binv tr dt queue /\
  In rk (Tree.keys dt) /\
  (forall q, In q queue -> Tree.key q <> rk) /\
  (forall n c, In n tr -> In c tr -> In (Tree.key n) (Tree.keys dt) ->
               Tree.key n <> rk -> ~ In (Tree.key n) (map (@Tree.key _) queue) ->
               In (Tree.key c) (Tree.children_keys n) -> ended c = true ->
               In (Tree.key c) (Tree.keys dt)).

(** A key added below a node of the queue is not that of a child of the
    root. *)
Definition below (dt dt' : Tree.t OutData) : Prop :=
  incl (Tree.keys dt) (Tree.keys dt') /\
  forall k, In k (Tree.keys dt') ->
            In k (Tree.keys dt) \/
            exists n p, In n tr /\ Tree.key n = k /\ Tree.parent_key n = Some p /\ p <> rk.

Lemma normalize_total (fuel : nat) :
  forall (queue : list (Tree.Node ScenarioData.t)) (dt : Tree.t OutData),
    ninv dt queue ->
    (List.length tr + List.length queue <= fuel + List.length dt)%nat ->
    exists dt', normalize_bfs fuel tr queue dt = Ok dt' /\ ninv dt' [] /\ below dt dt'.
Proof.
  induction fuel as [|fuel IH]; intros queue dt Hinv Hfuel;
    destruct queue as [|cur rest]; cbn [normalize_bfs].
  - exists dt. split; [reflexivity|]. split; [exact Hinv|]. split; [apply incl_refl | auto].
  - exfalso. destruct Hinv as (Hb & _). apply binv_length in Hb. cbn in Hfuel. lia.
  - exists dt. split; [reflexivity|]. split; [exact Hinv|]. split; [apply incl_refl | auto].
  - destruct Hinv as (Hb & Hrk & Hqrk & Hdone).
    pose proof Hb as (Hwfd & Hincl & Hqnd & Hq & Hf & Hg).
    destruct (Hq cur (or_introl eq_refl)) as [Hcur Hcurk].
    destruct (get_node_in_keys dt _ Hcurk) as [dn Hdn]. rewrite Hdn. cbn [or_raise bind].
    destruct (@lookup_all_total _ tr (Tree.children_keys cur)) as [children Hchildren].
    { intros k Hk. eapply wf_children_in; eassumption. }
    rewrite Hchildren. cbn [bind].
    destruct (lookup_all _ _ Hchildren) as [Hks Hch].
    set (kids := filter (@ended U) children).
    destruct (binv_tail Hb) as (Hbrest & _ & _ & Hcur_rest & Hcurf).
    assert (Hkids : forall c, In c kids -> In c tr /\ In (Tree.key c) (Tree.children_keys cur)).
    { intros c Hc. apply filter_In in Hc. destruct Hc as [Hc _].
      split; [apply Hch; exact Hc|]. rewrite <- Hks. apply in_map. exact Hc. }
    set (sp := fun c => match scen_prob_of c with Ok p => p | Raise _ => 0 end).
    assert (Hsp : forall c, In c kids -> scen_prob_of c = Ok (sp c)).
    { intros c Hc. destruct (Hkids c Hc) as [Hct Hcc].
      destruct (child_parent Hwf Hcur Hct Hcc) as [Hp _].
      assert (Hd : data (Tree.data c) <> None) by (apply Hpay; [exact Hct | congruence]).
      unfold sp, scen_prob_of. destruct (data (Tree.data c)); [reflexivity | congruence]. }
    rewrite (mapM_ok_map scen_prob_of sp kids Hsp). cbn [bind].
    set (df := fun c : Tree.Node ScenarioData.t =>
                 mkOut (fmul (fdiv (sp c) (Qsum (map sp kids))) (prob (Tree.data dn))) None).
    rewrite (@foldM_ext_in _ _ _
               (fun t c => Tree.add_node t (Tree.key c) (Some (Tree.key cur)) (df c))).
    2:{ intros t c Hc. rewrite (Hsp c Hc). reflexivity. }
    assert (Hknd : NoDup (map (@Tree.key _) kids)).
    { apply NoDup_map_filter. rewrite Hks. apply (wf_children_nodup Hwf). exact Hcur. }
    destruct (@bfs_step _ _ tr Hwf dt cur rest kids df Hbrest Hcur Hcurk Hcur_rest Hknd)
      as (dt1 & Hfold & Hkeys & Hb1).
    { intros c Hc. destruct (Hkids c Hc) as [Hct Hcc].
      split; [exact Hct|]. split; [exact Hcc|]. apply Hcurf. exact Hcc. }
    rewrite Hfold. cbn [bind].
    destruct (IH (rest ++ kids) dt1) as (dt' & Hnorm & Hinv' & Hincl' & Hbelow').
    + split; [exact Hb1|]. split; [|split].
      * rewrite Hkeys. apply in_or_app. left. exact Hrk.
      * intros q Hq1. apply in_app_or in Hq1. destruct Hq1 as [Hq1|Hq1].
        -- apply Hqrk. right. exact Hq1.
        -- intro E. destruct (Hkids q Hq1) as [Hqt Hqc].
           destruct (child_parent Hwf Hcur Hqt Hqc) as [Hp _].
           assert (q = root) by (apply (@nodes_same_key _ tr);
                                 [apply (wf_nodup Hwf)|..]; assumption).
           subst q. congruence.
      * intros n c Hn Hc Hin Hnrk Hnq Hcc He. rewrite Hkeys in *.
        rewrite map_app in Hnq.
        apply in_app_or in Hin. destruct Hin as [Hin|Hin].
        2:{ exfalso. apply Hnq. apply in_or_app. right. exact Hin. }
        destruct (string_dec (Tree.key n) (Tree.key cur)) as [E|E].
        -- assert (n = cur) by (apply (@nodes_same_key _ tr);
                                [apply (wf_nodup Hwf)|..]; assumption).
           subst n. apply in_or_app. right. apply in_map. apply filter_In.
           split; [|exact He].
           rewrite <- Hks in Hcc. apply in_map_iff in Hcc. destruct Hcc as (c' & Hk' & Hc').
           assert (c' = c) by (apply (@nodes_same_key _ tr);
                               [apply (wf_nodup Hwf) | apply Hch; exact Hc' | exact Hc
                                | exact Hk']).
           subst c'. exact Hc'.
        -- apply in_or_app. left. apply (Hdone n c); try assumption.
           intros [H|H]; [congruence|]. apply Hnq. apply in_or_app. left. exact H.
    + rewrite length_app. rewrite <- (keys_length dt1), Hkeys, length_app, length_map,
        keys_length. cbn [List.length] in Hfuel. lia.
    + exists dt'. split; [exact Hnorm|]. split; [exact Hinv'|]. split.
      * intros k Hk. apply Hincl'. rewrite Hkeys. apply in_or_app. left. exact Hk.
      * intros k Hk. destruct (Hbelow' k Hk) as [Hin|Hin]; [|right; exact Hin].
        rewrite Hkeys in Hin. apply in_app_or in Hin. destruct Hin as [Hin|Hin]; [left; exact Hin|].
        right. apply in_map_iff in Hin. destruct Hin as (c & Hck & Hc).
        destruct (Hkids c Hc) as [Hct Hcc].
        destruct (child_parent Hwf Hcur Hct Hcc) as [Hp _].
        exists c, (Tree.key cur). repeat split; try assumption.
        apply Hqrk. left. reflexivity.
Qed.


Lemma root_unique (n : Tree.Node ScenarioData.t) :
  In n tr -> Tree.parent_key n = None -> n = root.
Proof.
  intros Hn Hp. destruct (wf_root Hwf) as (r & rest & E & _ & _ & Hrest).
  assert (H : forall m, In m tr -> Tree.parent_key m = None -> m = r).
  { intros m Hm Hmp. rewrite E in Hm. destruct Hm as [<-|Hm]; [reflexivity|].
    exfalso. exact (Hrest m Hm Hmp). }
  rewrite (H n Hn Hp), (H root Hroot Hroot_par). reflexivity.
Qed.

Lemma not_root_key (n : Tree.Node ScenarioData.t) (p : string) :
  In n tr -> Tree.parent_key n = Some p -> Tree.key n <> rk.
Proof.
  intros Hn Hp E.
  assert (n = root) by (apply (@nodes_same_key _ tr); [apply (wf_nodup Hwf)|..]; assumption).
  subst n. congruence.
Qed.

Lemma build_data_tree_total_from (fuel : nat) (ks : list string) :
  (List.length tr <= fuel)%nat ->
  forall dt : Tree.t OutData,
    ninv dt [] -> NoDup ks ->
    (forall t, In t ks -> In t (Tree.children_keys root) /\ ~ In t (Tree.keys dt)) ->
    (forall c, In c tr -> In (Tree.key c) (Tree.children_keys root) ->
               ~ In (Tree.key c) ks -> ended c = true -> In (Tree.key c) (Tree.keys dt)) ->
    exists dt',
      foldM (fun dt k =>
               node <- or_raise KeyError (Tree.get_node tr k) ;;
               if negb (ended node) then Ok dt
               else
                 dt <- Tree.add_node dt (Tree.key node) (Some (Tree.key root))
                                     (mkOut (Fin 1) None) ;;
                 normalize_bfs fuel tr [node] dt)
            ks dt = Ok dt' /\
      ninv dt' [] /\
      (forall c, In c tr -> In (Tree.key c) (Tree.children_keys root) ->
                 ended c = true -> In (Tree.key c) (Tree.keys dt')).
Proof.
  intro Hfuel. induction ks as [|t ks IH]; intros dt Hinv Hnd Hks Htops; cbn [foldM].
  - exists dt. split; [reflexivity|]. split; [exact Hinv|].
    intros c Hc Hcc He. apply Htops; auto.
  - inversion Hnd as [|? ? Ht Hnd']; subst.
    destruct (Hks t (or_introl eq_refl)) as [Htc Htf].
    destruct (child_lookup Hwf Hroot Htc) as (cn & Hcn & Hcnk & Hget & Hcnp & _).
    rewrite Hget. cbn [or_raise bind].
    destruct (ended cn) eqn:He; cbn [negb].
    2:{ cbn [bind]. apply IH; [exact Hinv | exact Hnd' | |].
        - intros t' Ht'. apply Hks. right. exact Ht'.
        - intros c Hc Hcc Hnk Hce. apply Htops; try assumption.
          intros [E|H]; [|contradiction].
          assert (c = cn) by (apply (@nodes_same_key _ tr);
                              [apply (wf_nodup Hwf)|..]; congruence).
          subst c. congruence. }
    destruct Hinv as (Hb & Hrk & _ & Hdone).
    destruct (@bfs_step _ _ tr Hwf dt root [] [cn] (fun _ => mkOut (Fin 1) None) Hb Hroot Hrk)
      as (dt0 & Hadd & Hkeys0 & Hb0).
    { intros []. }
    { repeat constructor. intros []. }
    { intros c [<-|[]]. rewrite Hcnk. auto. }
    cbn [foldM] in Hadd.
    destruct (Tree.add_node dt (Tree.key cn) (Some (Tree.key root)) (mkOut (Fin 1) None))
      as [dt0'|e] eqn:Eadd; cbn [bind] in Hadd; [|discriminate].
    injection Hadd as ->. cbn [bind app map] in *.
    destruct (@normalize_total fuel [cn] dt0) as (dt2 & Hnorm & Hinv2 & Hincl2 & Hbelow2).
    { split; [exact Hb0|]. split; [|split].
      - rewrite Hkeys0. apply in_or_app. left. exact Hrk.
      - intros q [<-|[]]. eapply not_root_key; eassumption.
      - intros n c Hn Hc Hin Hnrk Hnq Hcc Hce. rewrite Hkeys0 in *.
        apply in_app_or in Hin. destruct Hin as [Hin|[E|[]]].
        + apply in_or_app. left. apply (Hdone n c); try assumption. intros [].
        + exfalso. apply Hnq. left. exact E. }
    { rewrite <- (keys_length dt0), Hkeys0, length_app. cbn [List.length]. lia. }
    rewrite Hnorm.
    destruct (IH dt2 Hinv2 Hnd') as (dt' & Hfold & Hinv' & Htops').
    + intros t' Ht'. destruct (Hks t' (or_intror Ht')) as [Ht'c Ht'f].
      split; [exact Ht'c|]. intro Hin.
      destruct (Hbelow2 t' Hin) as [Hin0|(n & p & Hn & Hnk & Hnp & Hprk)].
      * rewrite Hkeys0 in Hin0. apply in_app_or in Hin0.
        destruct Hin0 as [Hin0|[E|[]]]; [contradiction|].
        apply Ht. rewrite <- Hcnk, E. exact Ht'.
      * destruct (child_lookup Hwf Hroot Ht'c) as (cn' & Hcn' & Hcn'k & _ & Hcn'p & _).
        assert (n = cn') by (apply (@nodes_same_key _ tr);
                             [apply (wf_nodup Hwf)|..]; congruence).
        subst n. rewrite Hcn'p in Hnp. injection Hnp as <-. apply Hprk. reflexivity.
    + intros c Hc Hcc Hnk Hce. apply Hincl2. rewrite Hkeys0.
      destruct (string_dec (Tree.key c) t) as [E|E].
      * apply in_or_app. right. left. congruence.
      * apply in_or_app. left. apply Htops; try assumption.
        intros [H|H]; [congruence | contradiction].
    + exists dt'. auto.
Qed.

Lemma build_data_tree_total (fuel : nat) :
  (List.length tr <= fuel)%nat ->
  exists dt',
    build_data_tree fuel tr root [Tree.mkNode rk None [] 0 (mkOut (Fin 1) None)] = Ok dt' /\
    ninv dt' [] /\
    (forall c, In c tr -> In (Tree.key c) (Tree.children_keys root) ->
               ended c = true -> In (Tree.key c) (Tree.keys dt')).
Proof.
  intro Hfuel. unfold build_data_tree.
  apply build_data_tree_total_from; [exact Hfuel | | | |].
  - split; [|split; [|split]].
    + split; [apply wf_single|]. split; [|split; [constructor|split; [|split]]].
      * intros k [<-|[]]. exact (in_keys root tr Hroot).
      * intros q [].
      * intros q c [].
      * intros n p Hn [E|[]] Hp. exfalso. cbn in E.
        symmetry in E. exact (not_root_key n Hn Hp E).
    + left. reflexivity.
    + intros q [].
    + intros n c Hn Hc [E|[]] Hnrk. cbn in E. congruence.
  - apply (wf_children_nodup Hwf). exact Hroot.
  - intros t Ht. split; [exact Ht|]. intros [E|[]]. cbn in E.
    destruct (child_lookup Hwf Hroot Ht) as (cn & Hcn & Hcnk & _ & Hcnp & _).
    apply (not_root_key cn Hcn Hcnp). congruence.
  - intros c Hc Hcc Hnk. contradiction.
Qed.

(** The nodes whose ancestors are all end-flagged are in [data_tree]. *)
Lemma up_ended_in_data_tree (dt : Tree.t OutData) :
  ninv dt [] ->
  (forall c, In c tr -> In (Tree.key c) (Tree.children_keys root) ->
             ended c = true -> In (Tree.key c) (Tree.keys dt)) ->
  forall k, up_ended tr k ->
            forall n, In n tr -> Tree.key n = k -> Tree.parent_key n <> None ->
                      In k (Tree.keys dt).
Proof.
  intros (_ & _ & _ & Hdone) Htops k Hup.
  induction Hup as [k n0 Hn0 Hk0 Hp0|k n0 p Hn0 Hk0 Hp0 He0 Hup IH]; intros n Hn Hk Hp.
  - assert (n = n0) by (apply (@nodes_same_key _ tr); [apply (wf_nodup Hwf)|..]; congruence).
    subst n0. contradiction.
  - assert (n = n0) by (apply (@nodes_same_key _ tr); [apply (wf_nodup Hwf)|..]; congruence).
    subst n0. clear Hp.
    destruct (wf_parent Hwf n Hn Hp0) as (pn & Hpn & Hpk & Hpc).
    rewrite <- Hk.
    destruct (Tree.parent_key pn) as [q|] eqn:Hpp.
    + apply (Hdone pn n); try assumption.
      * rewrite Hpk. apply (IH pn Hpn Hpk). congruence.
      * eapply not_root_key; eassumption.
      * intros [].
    + rewrite (root_unique pn Hpn Hpp) in Hpc. apply Htops; assumption.
Qed.

End NormalizeTotal.

Lemma relabelled_refl {A : Type} (tr : Tree.t A) : relabelled tr tr.
Proof. unfold relabelled. induction tr; constructor; auto. Qed.

Lemma relabelled_trans {A C D : Type} (t1 : Tree.t A) (t2 : Tree.t C) (t3 : Tree.t D) :
  relabelled t1 t2 -> relabelled t2 t3 -> relabelled t1 t3.
Proof.
  unfold relabelled. intro H. revert t3.
  induction H as [|n1 n2 t1 t2 Hn _ IH]; intros t3 H'; inversion H'; subst; constructor.
  - destruct Hn as (? & ? & ? & ?). destruct H1 as (? & ? & ? & ?).
    repeat split; congruence.
  - apply IH. assumption.
Qed.

Lemma relabelled_length {A C : Type} (t1 : Tree.t A) (t2 : Tree.t C) :
  relabelled t1 t2 -> List.length t2 = List.length t1.
Proof. intro H. symmetry. eapply Forall2_length. exact H. Qed.

Section AttachTotal.
Context {U : Utils}.
Variable obs_len : nat.
Variable tr : Tree.t ScenarioData.t.
Hypothesis Hwf : wf tr.
Hypothesis Hpay : payload tr.

Definition holds_ended (dt : Tree.t OutData) : Prop :=
  forall k, up_ended tr k ->
            forall n, In n tr -> Tree.key n = k -> Tree.parent_key n <> None ->
                      In k (Tree.keys dt).

Lemma attach_up_total (fuel : nat) :
  forall (dt : Tree.t OutData) (node : Tree.Node ScenarioData.t),
    holds_ended dt -> In node tr -> up_ended tr (Tree.key node) ->
    (Tree.depth node <= fuel)%nat ->
    exists dt', attach_up obs_len fuel tr dt node = Ok dt' /\ relabelled dt dt'.
Proof.
  induction fuel as [|fuel IH]; intros dt node Hdt Hnode Hup Hd; cbn [attach_up];
    destruct (Tree.parent_key node) as [p|] eqn:Hp;
    try (exists dt; split; [reflexivity | apply relabelled_refl]).
  - exfalso. destruct (wf_parent Hwf node Hnode Hp) as (pn & Hpn & Hpk & Hpc).
    destruct (child_parent Hwf Hpn Hnode Hpc) as [_ Hdep]. lia.
  - destruct (wf_parent Hwf node Hnode Hp) as (pn & Hpn & Hpk & Hpc).
    destruct (child_parent Hwf Hpn Hnode Hpc) as [_ Hdep].
    assert (Hd0 : data (Tree.data node) <> None) by (apply Hpay; [exact Hnode | congruence]).
    destruct (data (Tree.data node)) as [d|] eqn:Ed; [|congruence]. cbn [or_raise bind].
    assert (Hin : In (Tree.key node) (Tree.keys dt)).
    { apply (Hdt _ Hup node Hnode eq_refl). congruence. }
    destruct (get_node_in_keys dt _ Hin) as [dn ->]. cbn [or_raise bind].
    assert (Hget : Tree.get_node tr p = Some pn).
    { rewrite <- Hpk. apply get_node_unique; [apply (wf_nodup Hwf) | exact Hpn]. }
    rewrite Hget. cbn [or_raise bind].
    set (dt1 := map (Tree.modify_data (Tree.key node) (attach obs_len d)) dt).
    assert (Hrel : relabelled dt dt1).
    { apply relabelled_map. intro n. apply modify_data_shape. }
    destruct (IH dt1 pn) as (dt' & Hatt & Hrel').
    + intros k Hk n Hn Hnk Hnp. unfold dt1, Tree.keys. rewrite map_map.
      rewrite (map_ext _ (@Tree.key _)) by (intro m; apply modify_data_shape).
      apply (Hdt k Hk n Hn Hnk Hnp).
    + exact Hpn.
    + rewrite Hpk. inversion Hup as [k n Hn Hk Hnp|k n p' Hn Hk Hnp He Hup']; subst;
        assert (n = node) by (apply (@nodes_same_key _ tr);
                              [apply (wf_nodup Hwf)|..]; assumption); subst n.
      * congruence.
      * rewrite Hp in Hnp. injection Hnp as <-. exact Hup'.
    + lia.
    + exists dt'. split; [exact Hatt|]. eapply relabelled_trans; eassumption.
Qed.

Lemma attach_all_total (fuel : nat) (nodes : list (Tree.Node ScenarioData.t)) :
  forall dt : Tree.t OutData,
    holds_ended dt ->
    (forall l, In l nodes -> In l tr /\ up_ended tr (Tree.key l) /\
                             (Tree.depth l <= fuel)%nat) ->
    exists dt', foldM (attach_up obs_len fuel tr) nodes dt = Ok dt' /\ relabelled dt dt'.
Proof.
  induction nodes as [|l nodes IH]; intros dt Hdt Hall; cbn [foldM].
  - exists dt. split; [reflexivity | apply relabelled_refl].
  - destruct (Hall l (or_introl eq_refl)) as (Hl & Hup & Hd).
    destruct (@attach_up_total fuel dt l Hdt Hl Hup Hd) as (dt1 & Hatt & Hrel1).
    rewrite Hatt. cbn [bind].
    destruct (IH dt1) as (dt' & Hfold & Hrel').
    + intros k Hk n Hn Hnk Hnp. rewrite (@relabelled_keys _ _ _ _ Hrel1).
      apply (Hdt k Hk n Hn Hnk Hnp).
    + intros m Hm. apply Hall. right. exact Hm.
    + exists dt'. split; [exact Hfold|]. eapply relabelled_trans; eassumption.
Qed.

End AttachTotal.

Lemma mapM_succeeds {X Y : Type} (f : X -> result Y) (l : list X) :
  (forall x, In x l -> exists y, f x = Ok y) -> exists l', mapM f l = Ok l'.
Proof.
  induction l as [|x l IH]; intro H; cbn [mapM]; [eauto|].
  destruct (H x (or_introl eq_refl)) as [y ->]. cbn [bind].
  destruct IH as [l' ->]; [intros; apply H; right; assumption|]. cbn [bind]. eauto.
Qed.

Section CopyTotal.
Variable dt : Tree.t OutData.
Hypothesis Hwf : wf dt.

Lemma copy_total (fuel : nat) :
  forall (queue : list (Tree.Node OutData)) (st : Tree.t OutData),
    binv dt st queue ->
    (List.length dt + List.length queue <= fuel + List.length st)%nat ->
    exists st', copy_bfs fuel dt queue st = Ok st'.
Proof.
  induction fuel as [|fuel IH]; intros queue st Hb Hfuel;
    destruct queue as [|cur rest]; cbn [copy_bfs]; try (eexists; reflexivity).
  - exfalso. apply binv_length in Hb. cbn in Hfuel. lia.
  - destruct (binv_tail Hb) as (Hbrest & Hcur & Hcurk & Hcur_rest & Hcurf).
    destruct (@lookup_all_total _ dt (Tree.children_keys cur)) as [children Hchildren].
    { intros k Hk. eapply wf_children_in; eassumption. }
    rewrite Hchildren. cbn [bind].
    destruct (lookup_all _ _ Hchildren) as [Hks Hch].
    destruct (@bfs_step _ _ dt Hwf st cur rest children (@Tree.data _)
                        Hbrest Hcur Hcurk Hcur_rest)
      as (st1 & Hfold & Hkeys & Hb1).
    { rewrite Hks. apply (wf_children_nodup Hwf). exact Hcur. }
    { intros c Hc.
      assert (Hcc : In (Tree.key c) (Tree.children_keys cur))
        by (rewrite <- Hks; apply in_map; exact Hc).
      split; [apply Hch; exact Hc|]. split; [exact Hcc | apply Hcurf; exact Hcc]. }
    rewrite Hfold. cbn [bind]. apply IH; [exact Hb1|].
    rewrite length_app. rewrite <- (keys_length st1), Hkeys, length_app, length_map,
      keys_length. cbn [List.length] in Hfuel. unfold DNode, DTree in *. lia.
Qed.

Lemma separate_total (fuel : nat) :
  (List.length dt <= fuel)%nat -> exists trees, separate fuel dt = Ok trees.
Proof.
  intro Hfuel. unfold separate.
  destruct (wf_root Hwf) as (r & rest & E & Hr & _).
  rewrite (get_root_first Hwf E). cbn [or_raise bind].
  assert (Hrin : In r dt) by (rewrite E; left; reflexivity).
  apply mapM_succeeds. intros k Hk.
  destruct (child_lookup Hwf Hrin Hk) as (node & Hnode & Hnk & Hget & Hnp & _).
  rewrite Hget. cbn [or_raise bind Tree.add_node Tree.get_node Tree.empty find app].
  apply copy_total; [|cbn [List.length]; lia].
  split; [apply wf_single|]. split; [|split; [|split; [|split]]].
  - intros x [<-|[]]. exact (in_keys node dt Hnode).
  - repeat constructor. intros [].
  - intros q [<-|[]]. split; [exact Hnode | left; reflexivity].
  - intros q c [<-|[]] Hc [E'|[]]. cbn in E'.
    destruct (child_lookup Hwf Hnode Hc) as (cn & Hcn & Hcnk & _ & Hcnp & _).
    assert (cn = node) by (apply (@nodes_same_key _ dt); [apply (wf_nodup Hwf)|..]; congruence).
    subst cn. rewrite Hnp in Hcnp. injection Hcnp as Hkk.
    assert (node = r) by (apply (@nodes_same_key _ dt); [apply (wf_nodup Hwf)|..]; congruence).
    subst node. congruence.
  - intros n p Hn [E'|[]] Hp. cbn in E'. right.
    assert (n = node) by (apply (@nodes_same_key _ dt); [apply (wf_nodup Hwf)|..]; congruence).
    subst n. exists r. split; [exact Hrin|]. split; [congruence | exact Hr].
Qed.

End CopyTotal.

Section ExtractionTotal.
Context {U : Utils}.
Variable obs_len : nat.

(** The iterations that the loops of the extraction need at most. *)
Definition enough_fuel (tr : Tree.t ScenarioData.t) : nat :=
  Nat.max (List.length tr) (height tr).

Lemma get_scenario_tree_total (fuel : nat) (tr : Tree.t ScenarioData.t) :
  wf tr -> payload tr -> (enough_fuel tr <= fuel)%nat ->
  exists trees tr', get_scenario_tree obs_len fuel tr = Ok (trees, tr') /\ raised tr tr'.
Proof.
  intros Hwf Hpay Hfuel. unfold enough_fuel in Hfuel. unfold get_scenario_tree.
  destruct (wf_root Hwf) as (r & rest & E & Hr & _).
  rewrite (get_root_first Hwf E). cbn [or_raise bind Tree.add_node Tree.get_node Tree.empty find app].
  destruct (@label_finished_total _ fuel tr Hwf) as (tr1 & Hlabel & Hraised & Hup); [lia|].
  rewrite Hlabel. cbn [bind].
  pose proof (wf_relabelled Hwf (raised_relabelled Hraised)) as Hwf1.
  pose proof (raised_payload Hraised Hpay) as Hpay1.
  assert (Hrin : In r tr) by (rewrite E; left; reflexivity).
  destruct (raised_in_l Hraised Hrin) as (r1 & Hr1 & Hk1 & Hp1 & Hc1 & _).
  assert (Hlen1 : List.length tr1 = List.length tr).
  { apply relabelled_length. apply raised_relabelled. exact Hraised. }
  assert (Hbuild : build_data_tree fuel tr1 r
                                   [Tree.mkNode (Tree.key r) None [] 0 (mkOut (Fin 1) None)]
                   = build_data_tree fuel tr1 r1
                                     [Tree.mkNode (Tree.key r1) None [] 0 (mkOut (Fin 1) None)]).
  { unfold build_data_tree. rewrite Hk1, Hc1. reflexivity. }
  rewrite Hbuild.
  destruct (@build_data_tree_total _ tr1 Hwf1 Hpay1 r1 Hr1) with (fuel := fuel)
    as (dt1 & Hdt1 & Hinv1 & Htops1); [congruence | lia |].
  rewrite Hdt1. cbn [bind].
  pose proof (@up_ended_in_data_tree _ tr1 Hwf1 r1 Hr1 (eq_trans Hp1 Hr) dt1 Hinv1 Htops1)
    as Hheld.
  destruct (@attach_all_total _ obs_len tr1 Hwf1 Hpay1 fuel (end_leaves tr1) dt1 Hheld)
    as (dt2 & Hatt & Hrel2).
  { intros l Hl. split; [|split; [apply Hup; exact Hl|]].
    - unfold end_leaves, Tree.get_leaf_nodes in Hl.
      apply filter_In in Hl. destruct Hl as [Hl _]. apply filter_In in Hl. tauto.
    - unfold end_leaves, Tree.get_leaf_nodes in Hl.
      apply filter_In in Hl. destruct Hl as [Hl _]. apply filter_In in Hl. destruct Hl as [Hl _].
      destruct (raised_in_r Hraised Hl) as (n & Hn & _ & _ & _ & Hd & _).
      pose proof (depth_le_height tr n Hn). lia. }
  rewrite Hatt. cbn [bind].
  destruct Hinv1 as (Hb1 & _).
  pose proof (binv_length Hb1) as Hlen_dt1.
  pose proof Hb1 as (Hwfd1 & _).
  pose proof (wf_relabelled Hwfd1 Hrel2) as Hwfd2.
  destruct (@separate_total dt2 Hwfd2 fuel) as [trees Hsep].
  { rewrite (relabelled_length Hrel2). lia. }
  rewrite Hsep. cbn [bind]. exists trees, tr1. split; [reflexivity | exact Hraised].
Qed.

End ExtractionTotal.

(* ================================================================== *)
(** ** Calls that do not end in a failed assertion *)

(** [AssertionError] is raised by the [assert] statements only. *)
Definition unasserted {A : Type} (r : result A) : Prop :=
  match r with
  | Raise (AssertionError _) => False
  | _ => True
  end.

Lemma unasserted_ok {A : Type} (a : A) : unasserted (Ok a).
Proof. exact I. Qed.

Lemma unasserted_bind {A C : Type} (r : result A) (k : A -> result C) :
  unasserted r -> (forall a, r = Ok a -> unasserted (k a)) -> unasserted (bind r k).
Proof.
  destruct r as [a|e]; cbn [bind]; intros Hr Hk; [apply Hk; reflexivity | exact Hr].
Qed.

Lemma unasserted_or_raise {A : Type} (e : exn) (o : option A) :
  (forall msg, e <> AssertionError msg) -> unasserted (or_raise e o).
Proof.
  intro He. destruct o; [exact I|]. destruct e; try exact I. exact (He msg eq_refl).
Qed.

Lemma unasserted_mapM {X Y : Type} (f : X -> result Y) (l : list X) :
  (forall x, In x l -> unasserted (f x)) -> unasserted (mapM f l).
Proof.
  induction l as [|x l IH]; intro H; cbn [mapM]; [exact I|].
  apply unasserted_bind; [apply H; left; reflexivity|].
  intros y _. apply unasserted_bind; [apply IH; intros; apply H; right; assumption|].
  intros; exact I.
Qed.

Lemma unasserted_index {X : Type} (l : list X) (i : Z) : unasserted (index l i).
Proof.
  destruct (index l i) as [a|e] eqn:E; [exact I|].
  rewrite (index_raises _ _ E). exact I.
Qed.

(** Closes a goal [unasserted r] by following the binds of [r]. *)
Ltac unassert :=
  repeat first
    [ exact I
    | apply unasserted_ok
    | apply unasserted_index
    | apply unasserted_or_raise; intro; discriminate
    | apply unasserted_mapM; intros
    | apply unasserted_bind; [|intros]
    | match goal with
      | |- unasserted (match ?x with pair _ _ => _ end) => destruct x
      | |- unasserted (if ?b then _ else _) => destruct b
      | |- unasserted (match ?x with Some _ => _ | None => _ end) => destruct x
      | |- unasserted (match ?x with nil => _ | cons _ _ => _ end) => destruct x
      end ].

Lemma unasserted_column {X : Type} (i : nat) (x : list (list X)) : unasserted (column i x).
Proof. unfold column. unassert. Qed.

Lemma unasserted_argmin (l : list Q) : unasserted (argmin l).
Proof. destruct l; exact I. Qed.

Lemma unasserted_index_select {X : Type} (l : list X) (idcs : list Z) :
  unasserted (index_select l idcs).
Proof. unfold index_select. unassert. Qed.

Section Unasserted.
Context {B : Backend} {U : Utils}.
Variables obs_len pred_len : nat.
Variable cfg : Config.
Variable target_lane : option (list vec2).
Variable target_lane_info : list (list Q).

Lemma unasserted_get_high_level_command (orig : vec2) (rot : mat2) (cur_vel : Q) :
  unasserted (get_high_level_command cfg target_lane target_lane_info orig rot cur_vel).
Proof.
  destruct (get_high_level_command cfg target_lane target_lane_info orig rot cur_vel)
    as [x|e] eqn:E; [exact I|].
  destruct e; try exact I. exfalso.
  eapply get_high_level_command_no_assertion. exact E.
Qed.

Lemma unasserted_branch_scan (cov : list (list Q)) (cmp : nat) (ts : list nat) :
  unasserted (branch_scan obs_len cov cmp ts).
Proof.
  induction ts as [|t ts IH]; cbn [branch_scan]; [exact I|].
  destruct (t mod 2 =? 1)%nat; [exact IH|].
  apply unasserted_bind; [apply unasserted_column|intros cur _].
  apply unasserted_bind; [apply unasserted_column|intros cmp' _].
  destruct (cov_exceeds cur cmp'); [exact I | exact IH].
Qed.

Lemma unasserted_get_branch_time (d : PredData) : unasserted (get_branch_time obs_len d).
Proof.
  unfold get_branch_time.
  apply unasserted_bind; [apply unasserted_branch_scan|intros r _].
  destruct r; exact I.
Qed.

Lemma unasserted_update_obser (lg : option LaneGraph) (d : PredData) :
  unasserted (update_obser obs_len pred_len cfg target_lane target_lane_info lg d).
Proof.
  unfold update_obser.
  apply unasserted_bind; [unassert|intros pos0 _].
  apply unasserted_bind; [unassert|intros ang0 _].
  destruct (get_origin_rotation pos0 ang0) as [[orig_seq rot_seq] theta_seq].
  apply unasserted_bind; [unassert|intros lane_graph _].
  apply unasserted_bind; [unassert|intros vel0 _].
  apply unasserted_bind; [apply unasserted_index|intros vel0_last _].
  apply unasserted_bind; [apply unasserted_get_high_level_command|intros tgt _].
  unassert.
Qed.

Lemma unasserted_decide_leaf (lg : option LaneGraph) (l : Tree.Node ScenarioData.t) :
  unasserted (decide_leaf obs_len pred_len cfg target_lane target_lane_info lg l).
Proof.
  unfold decide_leaf.
  destruct (branch_flag (Tree.data l)); [exact I|].
  destruct (negb (end_flag (Tree.data l))); [|exact I].
  destruct (max_depth cfg <=? Tree.depth l)%nat; [exact I|].
  apply unasserted_bind; [unassert|intros d _].
  apply unasserted_bind; [apply unasserted_get_branch_time|intros [t d'] _].
  destruct (t <? pred_len)%nat; [|exact I].
  apply unasserted_bind; [apply unasserted_update_obser|intros [obs cur] _].
  exact I.
Qed.

Lemma unasserted_decide_branch (lg : option LaneGraph) (tr : Tree.t ScenarioData.t) :
  unasserted (decide_branch obs_len pred_len cfg target_lane target_lane_info lg tr).
Proof.
  unfold decide_branch. apply unasserted_mapM. intros n _.
  unfold decide_node. destruct (Tree.is_leaf n); [|exact I].
  apply unasserted_bind; [apply unasserted_decide_leaf|intros; exact I].
Qed.

Lemma unasserted_make_candidate (bd idx : nat) (data : Obs.t) (out : NetOut) (m : nat) :
  unasserted (make_candidate obs_len pred_len cfg target_lane bd idx data out m).
Proof.
  unfold make_candidate.
  apply unasserted_bind; [unassert|intros row0 _].
  apply unasserted_bind; [unassert|intros scene_prob _].
  apply unasserted_bind; [apply unasserted_column|intros reg _].
  apply unasserted_bind; [apply unasserted_column|intros vel _].
  apply unasserted_bind; [apply unasserted_mapM; intros; apply unasserted_index|intros last_cov _].
  match goal with |- unasserted (if ?b then _ else _) => destruct b end; [exact I|].
  apply unasserted_bind.
  - destruct target_lane as [lane|]; [|exact I].
    apply unasserted_bind; [unassert|intros ego_pos _].
    apply unasserted_bind; [apply unasserted_index|intros ego_mean _].
    apply unasserted_bind; [unassert|intros ego_covs _].
    apply unasserted_bind; [apply unasserted_index|intros ego_cov _].
    exact I.
  - intros off _. destruct off; [exact I|].
    match goal with |- unasserted (match ?x with nil => _ | cons _ _ => _ end) =>
      destruct x end; exact I.
Qed.

Lemma unasserted_prune_merge (bd : nat) (data : list Obs.t) (out : list NetOut) :
  unasserted (prune_merge obs_len pred_len cfg target_lane bd data out).
Proof.
  unfold prune_merge. generalize 0%nat.
  revert out. induction data as [|d data IH]; intros out idx; cbn [prune_merge_from];
    [exact I|].
  apply unasserted_bind; [unassert|intros o _].
  apply unasserted_bind.
  - unfold prune_merge_one.
    apply unasserted_bind; [unassert|intros row0 _].
    apply unasserted_bind; [|intros; exact I].
    apply unasserted_mapM. intros m _. apply unasserted_make_candidate.
  - intros sel _. apply unasserted_bind; [apply IH|intros; exact I].
Qed.

Lemma unasserted_process_data (lcl_smp : LocalSample) (agent_obs : AgentObs) :
  unasserted (process_data pred_len cfg target_lane target_lane_info lcl_smp agent_obs).
Proof.
  unfold process_data.
  destruct (get_agent_trajectories agent_obs) as [[[[[[pos ang] vel] ty] flags] tid] cat].
  apply unasserted_bind; [unassert|intros pos0 _].
  apply unasserted_bind; [unassert|intros ang0 _].
  destruct (get_origin_rotation pos0 ang0) as [[orig_seq rot_seq] theta_seq].
  apply unasserted_bind; [apply unasserted_get_high_level_command|intros tgt _].
  unassert.
Qed.

End Unasserted.

Lemma unasserted_foldM {X S : Type} (f : S -> X -> result S) (l : list X) (s : S) :
  (forall s x, In x l -> unasserted (f s x)) -> unasserted (foldM f l s).
Proof.
  revert s. induction l as [|x l IH]; intros s H; cbn [foldM]; [exact I|].
  apply unasserted_bind; [apply H; left; reflexivity|].
  intros s' _. apply IH. intros s0 y Hy. apply H. right. exact Hy.
Qed.

Lemma unasserted_add_node {A : Type} (tr : Tree.t A) (k : string) (pk : option string)
      (d : A) :
  unasserted (Tree.add_node tr k pk d).
Proof.
  destruct (Tree.add_node tr k pk d) as [tr'|e] eqn:E; [exact I|].
  destruct (add_node_raises _ _ _ _ E) as [-> _]. exact I.
Qed.

Section UnassertedRun.
Context {B : Backend} {U : Utils}.
Variables obs_len pred_len : nat.
Variable cfg : Config.
Variable target_lane : option (list vec2).
Variable target_lane_info : list (list Q).
Variable network : nat -> list Obs.t -> list NetOut.

Lemma unasserted_expand (g : Gen) (batch : list Obs.t) :
  unasserted (expand obs_len pred_len cfg target_lane target_lane_info network g batch).
Proof.
  unfold expand.
  apply unasserted_bind; [apply unasserted_prune_merge|intros preds _].
  apply unasserted_bind.
  - unfold create_nodes. apply unasserted_foldM. intros. apply unasserted_add_node.
  - intros tr1 _. apply unasserted_bind; [apply unasserted_decide_branch|intros; exact I].
Qed.

Lemma unasserted_aime_loop (fuel : nat) :
  forall (g : Gen) (bn : list (Tree.Node ScenarioData.t)),
    unasserted (aime_loop obs_len pred_len cfg target_lane target_lane_info network
                          fuel g bn).
Proof.
  induction fuel as [|fuel IH]; intros g bn; destruct bn as [|n bn]; cbn [aime_loop];
    try exact I.
  apply unasserted_bind.
  - unfold aime_round. apply unasserted_bind.
    + apply unasserted_mapM. intros. apply unasserted_or_raise. intro. discriminate.
    + intros batch _. apply unasserted_bind; [apply unasserted_expand|intros; exact I].
  - intros [bn1 g1] _. apply IH.
Qed.

Lemma unasserted_start (g : Gen) (lcl_smp : LocalSample) (agent_obs : AgentObs) :
  unasserted (start obs_len pred_len cfg target_lane target_lane_info network
                    g lcl_smp agent_obs).
Proof.
  unfold start.
  apply unasserted_bind; [apply unasserted_process_data|intros [data lg] _].
  apply unasserted_bind; [|intros; exact I].
  unfold init_scenario_tree.
  apply unasserted_bind; [apply unasserted_add_node|intros tr _].
  apply unasserted_expand.
Qed.

Lemma unasserted_label_up (fuel : nat) :
  forall (tr : Tree.t ScenarioData.t) (node : Tree.Node ScenarioData.t),
    unasserted (label_up fuel tr node).
Proof.
  induction fuel as [|fuel IH]; intros tr node; cbn [label_up];
    destruct (Tree.parent_key node); try exact I.
  apply unasserted_bind; [unassert|intros parent _]. apply IH.
Qed.

Lemma unasserted_normalize_bfs (fuel : nat) :
  forall (tr : Tree.t ScenarioData.t) (queue : list (Tree.Node ScenarioData.t))
         (dt : Tree.t OutData),
    unasserted (normalize_bfs fuel tr queue dt).
Proof.
  induction fuel as [|fuel IH]; intros tr queue dt; destruct queue as [|cur rest];
    cbn [normalize_bfs]; try exact I.
  apply unasserted_bind; [unassert|intros dn _].
  apply unasserted_bind; [unassert|intros children _].
  apply unasserted_bind; [unfold scen_prob_of; unassert|intros probs _].
  apply unasserted_bind; [|intros dt1 _; apply IH].
  apply unasserted_foldM. intros s c _.
  apply unasserted_bind; [unfold scen_prob_of; unassert|intros p _].
  apply unasserted_add_node.
Qed.

Lemma unasserted_attach_up (fuel : nat) :
  forall (tr : Tree.t ScenarioData.t) (dt : Tree.t OutData)
         (node : Tree.Node ScenarioData.t),
    unasserted (attach_up obs_len fuel tr dt node).
Proof.
  induction fuel as [|fuel IH]; intros tr dt node; cbn [attach_up];
    destruct (Tree.parent_key node); try exact I.
  apply unasserted_bind; [unassert|intros d _].
  apply unasserted_bind; [unassert|intros dn _].
  apply unasserted_bind; [unassert|intros parent _]. apply IH.
Qed.

Lemma unasserted_copy_bfs (fuel : nat) :
  forall (dt : Tree.t OutData) (queue : list (Tree.Node OutData)) (st : Tree.t OutData),
    unasserted (copy_bfs fuel dt queue st).
Proof.
  induction fuel as [|fuel IH]; intros dt queue st; destruct queue as [|cur rest];
    cbn [copy_bfs]; try exact I.
  apply unasserted_bind; [unassert|intros children _].
  apply unasserted_bind; [|intros st1 _; apply IH].
  apply unasserted_foldM. intros. apply unasserted_add_node.
Qed.

Lemma unasserted_get_scenario_tree (fuel : nat) (tr : Tree.t ScenarioData.t) :
  unasserted (get_scenario_tree obs_len fuel tr).
Proof.
  unfold get_scenario_tree.
  apply unasserted_bind; [unassert|intros root_node _].
  apply unasserted_bind; [apply unasserted_add_node|intros dt0 _].
  apply unasserted_bind.
  { unfold label_finished. apply unasserted_foldM. intros. apply unasserted_label_up. }
  intros tr1 _. apply unasserted_bind.
  { unfold build_data_tree. apply unasserted_foldM. intros dt k _.
    apply unasserted_bind; [unassert|intros node _].
    destruct (negb (ended node)); [exact I|].
    apply unasserted_bind; [apply unasserted_add_node|intros dt1 _].
    apply unasserted_normalize_bfs. }
  intros dt1 _. apply unasserted_bind.
  { apply unasserted_foldM. intros. apply unasserted_attach_up. }
  intros dt2 _. apply unasserted_bind; [|intros; exact I].
  unfold separate. apply unasserted_bind; [unassert|intros droot _].
  apply unasserted_mapM. intros k _.
  apply unasserted_bind; [unassert|intros node _].
  apply unasserted_bind; [apply unasserted_add_node|intros st _].
  apply unasserted_copy_bfs.
Qed.

End UnassertedRun.

(* ================================================================== *)
(** ** The search tree of a run *)

Section SoundRun.
Context {B : Backend} {U : Utils}.
Variables obs_len pred_len : nat.
Variable cfg : Config.
Variable target_lane : option (list vec2).
Variable target_lane_info : list (list Q).
Variable network : nat -> list Obs.t -> list NetOut.

(** The search tree is grown from its root, and every node but the root
    carries a prediction. *)
Definition sound (tr : Tree.t ScenarioData.t) : Prop := wf tr /\ payload tr.

Lemma create_nodes_sound (preds : list PredData) :
  forall tr tr' : Tree.t ScenarioData.t,
    create_nodes tr preds = Ok tr' -> sound tr -> sound tr'.
Proof.
  unfold create_nodes.
  induction preds as [|p preds IH]; intros tr tr' H Hs; cbn [foldM] in H.
  - injection H as <-. exact Hs.
  - bind_inv H. apply (IH a tr' H). clear H IH. destruct Hs as [Hwf Hpay].
    split; [eapply wf_add_node; eassumption|].
    apply add_node_child in Ha. destruct Ha as (pn & _ & _ & ->).
    intros n Hn Hp. apply in_app_or in Hn. destruct Hn as [Hn|[<-|[]]].
    + apply in_map_iff in Hn. destruct Hn as (n0 & <- & Hn0).
      rewrite data_add_child. apply Hpay; [exact Hn0|].
      rewrite parent_add_child in Hp. exact Hp.
    + cbn. discriminate.
Qed.

Lemma decide_branch_sound (lg : option LaneGraph) (tr tr' : Tree.t ScenarioData.t) :
  decide_branch obs_len pred_len cfg target_lane target_lane_info lg tr = Ok tr' ->
  sound tr -> sound tr'.
Proof.
  unfold decide_branch. intros H [Hwf Hpay].
  assert (HF : Forall2 (fun n n' =>
                          (Tree.key n' = Tree.key n /\
                           Tree.parent_key n' = Tree.parent_key n /\
                           Tree.children_keys n' = Tree.children_keys n /\
                           Tree.depth n' = Tree.depth n) /\
                          (data (Tree.data n) <> None -> data (Tree.data n') <> None))
                       tr tr').
  { eapply mapM_forall2; [|exact H].
    intros n n' _ Hn. unfold decide_node in Hn.
    destruct (Tree.is_leaf n); [|injection Hn as <-; auto].
    bind_inv Hn. injection Hn as <-. cbn. split; [auto|].
    unfold decide_leaf in Ha.
    destruct (branch_flag (Tree.data n)); [injection Ha as <-; auto|].
    destruct (negb (end_flag (Tree.data n))); [|injection Ha as <-; auto].
    destruct (max_depth cfg <=? Tree.depth n)%nat; [injection Ha as <-; auto|].
    bind_inv Ha. bind_inv Ha. destruct a1 as [t d1].
    destruct (t <? pred_len)%nat.
    - bind_inv Ha. destruct a1 as [obs cur]. injection Ha as <-. cbn. discriminate.
    - injection Ha as <-. cbn. discriminate. }
  split.
  - apply (wf_relabelled Hwf). unfold relabelled.
    eapply Forall2_impl; [|exact HF]. intros n n' [Hs _]. exact Hs.
  - intros n' Hn' Hp.
    assert (Hex : exists n, In n tr /\ Tree.parent_key n' = Tree.parent_key n /\
                            (data (Tree.data n) <> None -> data (Tree.data n') <> None)).
    { clear -HF Hn'. induction HF as [|n m tr tr' Hn _ IH]; [destruct Hn'|].
      destruct Hn' as [<-|Hn'].
      - exists n. split; [left; reflexivity|]. destruct Hn as ((_ & Hpk & _) & Hd). auto.
      - destruct (IH Hn') as (n0 & Hn0 & H0). exists n0. split; [right; exact Hn0 | exact H0]. }
    destruct Hex as (n & Hn & Hpk & Hd). apply Hd. apply Hpay; [exact Hn | congruence].
Qed.

Lemma expand_sound (g g' : Gen) (batch : list Obs.t) :
  expand obs_len pred_len cfg target_lane target_lane_info network g batch = Ok g' ->
  sound (tree g) -> sound (tree g').
Proof.
  unfold expand. intros H Hs. bind_inv H. bind_inv H. bind_inv H. injection H as <-.
  cbn [tree]. eapply decide_branch_sound; [exact Ha1|].
  eapply create_nodes_sound; eassumption.
Qed.

Lemma aime_loop_sound (fuel : nat) :
  forall (g g' : Gen) (bn : list (Tree.Node ScenarioData.t)),
    aime_loop obs_len pred_len cfg target_lane target_lane_info network fuel g bn = Ok g' ->
    sound (tree g) -> sound (tree g').
Proof.
  induction fuel as [|fuel IH]; intros g g' bn H Hs; destruct bn as [|n bn];
    cbn [aime_loop] in H; try discriminate; try (injection H as <-; exact Hs).
  bind_inv H. destruct a as [bn1 g1]. apply (IH g1 g' bn1 H). clear H.
  unfold aime_round in Ha. bind_inv Ha. bind_inv Ha. injection Ha as _ <-.
  cbn [tree get_branch_set snd]. eapply expand_sound; eassumption.
Qed.

Lemma start_sound (lg0 : option LaneGraph) (bd0 : nat) (lcl_smp : LocalSample)
      (agent_obs : AgentObs) (bn : list (Tree.Node ScenarioData.t)) (g : Gen) :
  start obs_len pred_len cfg target_lane target_lane_info network
        (mkGen Tree.empty lg0 bd0) lcl_smp agent_obs = Ok (bn, g) ->
  sound (tree g).
Proof.
  unfold start. intro H. bind_inv H. destruct a as [root lg]. bind_inv H.
  injection H as _ <-. cbn [tree get_branch_set snd].
  unfold init_scenario_tree in Ha0.
  cbn [tree lane_graph branch_depth Tree.add_node Tree.get_node Tree.empty find app bind]
    in Ha0.
  eapply expand_sound; [exact Ha0|]. cbn [tree]. split; [apply wf_single|].
  intros n [<-|[]] Hp. cbn in Hp. congruence.
Qed.

End SoundRun.

(* ================================================================== *)
(** ** The exported probabilities *)

Definition positiveb {U : Utils} (tr : Tree.t ScenarioData.t) : bool :=
  forallb (fun n => match data (Tree.data n) with
                    | Some d => Qltb 0 (SCEN_PROB d)
                    | None => true
                    end) tr.

Lemma positiveb_spec {U : Utils} (tr : Tree.t ScenarioData.t) :
  positiveb tr = true -> positive tr.
Proof.
  unfold positiveb. intros H n d Hn Hd. rewrite forallb_forall in H.
  specialize (H n Hn). rewrite Hd in H. apply Qltb_lt. exact H.
Qed.

Section ExportedProbabilities.
Context {U : Utils}.
Variable obs_len : nat.

(** C2.  When the joint probabilities of the scenarios are positive,
    every scenario tree that [get_scenario_tree] returns has a root of
    probability 1, its probabilities are numbers, those of its leaves
    add up to 1, the probability of a node with children is the sum of
    those of its children, and the probability of a node below the root
    is its joint probability divided by the sum of the joint
    probabilities of the end-flagged children of its parent in the
    search tree, times the probability of its parent. *)
Theorem scenario_tree_probabilities
        (fuel : nat) (tr tr' : Tree.t ScenarioData.t) (trees : list (Tree.t OutData)) :
  positive tr ->
  get_scenario_tree obs_len fuel tr = Ok (trees, tr') ->
  forall st, In st trees ->
    (exists r, Tree.get_root st = Some r /\ prob (Tree.data r) = Fin 1) /\
    (exists qs, leaf_probs st = map Fin qs /\ Qsum qs == 1) /\
    balanced st /\
    (forall n p, In n st -> Tree.parent_key n = Some p ->
                 exists pn, In pn st /\ Tree.key pn = p /\
                            share_of tr' (Tree.key n) p (prob (Tree.data pn))
                                     (prob (Tree.data n))).
Proof.
  intros Hpos H st Hst.
  destruct (get_scenario_tree_spec _ _ Hpos H st Hst)
    as (Hwf & Hbal & (r & rest & E & Hr) & Hshares).
  split; [|split; [|split; [exact Hbal | exact Hshares]]].
  - exists r. split; [apply (get_root_first Hwf E) | exact Hr].
  - exists (map (fun n => qof (Tree.data n)) (Tree.get_leaf_nodes st)). split.
    + unfold leaf_probs. rewrite map_map. apply map_ext_in. intros n Hn.
      unfold Tree.get_leaf_nodes in Hn. apply filter_In in Hn. destruct Hn as [Hn _].
      destruct Hbal as [Hfin _]. destruct (Hfin n Hn) as [q Hq].
      unfold qof. rewrite Hq. reflexivity.
    + rewrite Qsum_sumQ, (balanced_leaf_sum Hwf Hbal E). unfold qof. rewrite Hr. reflexivity.
Qed.

End ExportedProbabilities.

(* ================================================================== *)
(** ** The assertion of [branch_aime] *)

Section FinalAssertion.
Context {B : Backend} {U : Utils}.
Variables obs_len pred_len : nat.
Variable cfg : Config.
Variable target_lane : option (list vec2).
Variable target_lane_info : list (list Q).
Variable network : nat -> list Obs.t -> list NetOut.

Lemma finish_assertion (fuel : nat) (g : Gen) (msg : string) :
  finish obs_len fuel g = Raise (AssertionError msg)
  <-> get_end_set (tree g) = [] /\ msg = no_end_node.
Proof.
  unfold finish. destruct (get_end_set (tree g)) as [|n l]; cbn.
  - split; [intro H; injection H as <-; auto | intros [_ ->]; reflexivity].
  - split; [|intros [H _]; discriminate].
    intro H. exfalso.
    pose proof (unasserted_get_scenario_tree obs_len fuel (tree g)) as Hun.
    destruct (get_scenario_tree obs_len fuel (tree g)) as [[trees tr']|e];
      cbn [bind] in H; [discriminate|].
    injection H as ->. exact Hun.
Qed.

(** C3.  A call of [branch_aime] on a fresh generator is the loop
    followed by the final statements; the statements up to the end of
    the loop raise no assertion error.  When the loop has ended, the
    call fails with an assertion error exactly when the end set is
    empty, with the message of the final [assert]; when the end set is
    not empty and the loops of the extraction are given enough
    iterations, the call returns the scenario trees of
    [get_scenario_tree] and the generator with the labelled tree. *)
Theorem branch_aime_assertion
        (lg0 : option LaneGraph) (bd0 : nat) (lcl_smp : LocalSample)
        (agent_obs : AgentObs) (rounds : nat) :
  let g0 := mkGen Tree.empty lg0 bd0 in
  let run :=
    '(branch_nodes, g) <- start obs_len pred_len cfg target_lane target_lane_info network
                                g0 lcl_smp agent_obs ;;
    aime_loop obs_len pred_len cfg target_lane target_lane_info network
              rounds g branch_nodes in
  (forall fuel,
      branch_aime obs_len pred_len cfg target_lane target_lane_info network
                  rounds fuel g0 lcl_smp agent_obs
      = (g <- run ;; finish obs_len fuel g)) /\
  (forall msg, run <> Raise (AssertionError msg)) /\
  (forall g, run = Ok g ->
     (forall fuel msg,
         finish obs_len fuel g = Raise (AssertionError msg)
         <-> get_end_set (tree g) = [] /\ msg = no_end_node) /\
     (get_end_set (tree g) <> [] ->
      forall fuel, (enough_fuel (tree g) <= fuel)%nat ->
        exists trees tr',
          get_scenario_tree obs_len fuel (tree g) = Ok (trees, tr') /\
          finish obs_len fuel g
          = Ok (trees, mkGen tr' (lane_graph g) (branch_depth g)))).
Proof.
  intros g0 run. split; [|split].
  - intro fuel. unfold branch_aime, run.
    destruct (start obs_len pred_len cfg target_lane target_lane_info network
                    g0 lcl_smp agent_obs) as [[bn g]|e]; reflexivity.
  - intros msg E.
    assert (Hun : unasserted run).
    { unfold run. apply unasserted_bind; [apply unasserted_start|].
      intros [bn g] _. apply unasserted_aime_loop. }
    rewrite E in Hun. exact Hun.
  - intros g Hg. split; [intros fuel msg; apply finish_assertion|].
    intros Hend fuel Hfuel.
    assert (Hsound : sound (tree g)).
    { unfold run in Hg. bind_inv Hg. destruct a as [bn g1].
      eapply aime_loop_sound; [exact Hg|]. eapply start_sound. exact Ha. }
    destruct Hsound as [Hwf Hpay].
    destruct (get_scenario_tree_total obs_len Hwf Hpay Hfuel) as (trees & tr' & Hget & _).
    exists trees, tr'. split; [exact Hget|].
    unfold finish. rewrite Hget.
    destruct (get_end_set (tree g)); [congruence | reflexivity].
Qed.

End FinalAssertion.

(** The answer [Scene.calm]: the loop ends with four end-flagged
    leaves, and the extraction returns two scenario trees. *)
Lemma scenario_tree_probabilities_witness :
  exists g trees tr',
    Scene.looped Scene.calm 5 = Ok g /\
    positive (tree g) /\
    get_scenario_tree (U := Concrete.utils) Scene.obs_len 20 (tree g) = Ok (trees, tr') /\
    List.length trees = 2%nat /\
    Forall (fun st => exists qs, leaf_probs st = map Fin qs /\ Qsum qs == 1) trees.
Proof.
  assert (Hrun : match Scene.looped Scene.calm 5 with
                 | Ok g =>
                     positiveb (tree g)
                     && match get_scenario_tree (U := Concrete.utils)
                                                Scene.obs_len 20 (tree g) with
                        | Ok (trees, _) => (List.length trees =? 2)%nat
                        | Raise _ => false
                        end
                 | Raise _ => false
                 end = true) by (vm_compute; reflexivity).
  destruct (Scene.looped Scene.calm 5) as [g|e]; [|discriminate Hrun].
  apply andb_prop in Hrun. destruct Hrun as [Hpos Hget].
  apply positiveb_spec in Hpos.
  destruct (get_scenario_tree (U := Concrete.utils) Scene.obs_len 20 (tree g))
    as [[trees tr']|e] eqn:E; [|discriminate Hget].
  exists g, trees, tr'. split; [reflexivity|]. split; [exact Hpos|].
  split; [exact E|]. split; [apply Nat.eqb_eq; exact Hget|].
  apply Forall_forall. intros st Hst.
  apply (scenario_tree_probabilities Scene.obs_len 20 Hpos E st Hst).
Defined.

(** The probabilities of the leaves of the two scenario trees of that
    run. *)
Example calm_leaf_probs :
  match Scene.run Scene.calm 5 20 with
  | Ok (trees, _) =>
      map (fun st => map (fun n => Qred (qof (Tree.data n))) (Tree.get_leaf_nodes st)) trees
  | Raise _ => []
  end = [[3 # 4; 1 # 4]; [3 # 4; 1 # 4]].
Proof. vm_compute. reflexivity. Qed.

(** The message of an assertion error. *)
Definition assertion_message {A : Type} (r : result A) : option string :=
  match r with
  | Raise (AssertionError msg) => Some msg
  | _ => None
  end.

(** With [max_depth = 1] the children of the root are not expanded: the
    loop is not entered, no leaf is end-flagged and the call fails. *)
Example branch_aime_no_end_node :
  assertion_message
    (branch_aime (B := Concrete.backend) (U := Concrete.utils) Scene.obs_len Scene.pred_len (mkConfig 1 10 3)
                 Scene.target_lane Scene.target_lane_info (Scene.network Scene.calm)
                 5 20 (reset (U := Concrete.utils)) Scene.lcl_smp Scene.agent_obs)
  = Some no_end_node.
Proof. vm_compute. reflexivity. Qed.

(** With [max_depth = 3] the same call returns. *)
Example branch_aime_returns : is_ok (Scene.run Scene.calm 5 20) = true.
Proof. vm_compute. reflexivity. Qed.

(** The answer [Scene.calm]: the loop ends with a non-empty end set, and
    with twenty iterations for the loops of the extraction the final
    statements return two scenario trees. *)
Lemma branch_aime_assertion_witness :
  exists g trees tr',
    ('(branch_nodes, g1) <- start (B := Concrete.backend) (U := Concrete.utils)
                                  Scene.obs_len Scene.pred_len Scene.cfg Scene.target_lane
                                  Scene.target_lane_info (Scene.network Scene.calm)
                                  (mkGen Tree.empty None 0) Scene.lcl_smp Scene.agent_obs ;;
     aime_loop (B := Concrete.backend) (U := Concrete.utils)
               Scene.obs_len Scene.pred_len Scene.cfg Scene.target_lane
               Scene.target_lane_info (Scene.network Scene.calm) 5 g1 branch_nodes)
    = Ok g /\
    List.length (get_end_set (tree g)) = 4%nat /\
    finish Scene.obs_len 20 g = Ok (trees, mkGen tr' (lane_graph g) (branch_depth g)).
Proof.
  pose proof (branch_aime_assertion
                (B := Concrete.backend) (U := Concrete.utils)
                Scene.obs_len Scene.pred_len Scene.cfg Scene.target_lane
                Scene.target_lane_info (Scene.network Scene.calm)
                None 0 Scene.lcl_smp Scene.agent_obs 5) as H.
  cbv zeta in H. destruct H as (_ & _ & H).
  match type of H with
  | forall g, ?r = Ok g -> _ =>
      assert (Hrun : match r with
                     | Ok g => (List.length (get_end_set (tree g)) =? 4)%nat
                               && (enough_fuel (tree g) <=? 20)%nat
                     | Raise _ => false
                     end = true) by (vm_compute; reflexivity);
      destruct r as [g|e]; [|discriminate Hrun]
  end.
  apply andb_prop in Hrun. destruct Hrun as [Hend Hfuel].
  apply Nat.eqb_eq in Hend. apply Nat.leb_le in Hfuel.
  destruct (H g eq_refl) as [_ Hret].
  destruct (Hret (fun E => ltac:(rewrite E in Hend; discriminate Hend)) 20%nat Hfuel)
    as (trees & tr' & _ & Hfin).
  exists g, trees, tr'. split; [reflexivity|]. split; [exact Hend | exact Hfin].
Defined.

(* ================================================================== *)
(** ** The flags after a branch decision *)

Section BranchFlags.
Context {B : Backend} {U : Utils}.
Variables obs_len pred_len : nat.
Variable cfg : Config.
Variable target_lane : option (list vec2).
Variable target_lane_info : list (list Q).

Lemma decide_leaf_exclusive (lg : option LaneGraph) (l : Tree.Node ScenarioData.t)
      (sd' : ScenarioData.t) :
  decide_leaf obs_len pred_len cfg target_lane target_lane_info lg l = Ok sd' ->
  branch_flag sd' && end_flag sd' = false.
Proof.
  unfold decide_leaf. intro H.
  destruct (branch_flag (Tree.data l)) eqn:Eb; [injection H as <-; reflexivity|].
  destruct (end_flag (Tree.data l)) eqn:Ee; cbn [negb] in H.
  { injection H as E. subst sd'. rewrite Eb. reflexivity. }
  destruct (max_depth cfg <=? Tree.depth l)%nat.
  { injection H as <-. reflexivity. }
  bind_inv H. bind_inv H. destruct a0 as [t d1].
  destruct (t <? pred_len)%nat.
  - bind_inv H. destruct a0 as [obs cur]. injection H as <-. reflexivity.
  - injection H as <-. reflexivity.
Qed.

Lemma decide_node_shape (lg : option LaneGraph) (n n' : Tree.Node ScenarioData.t) :
  decide_node obs_len pred_len cfg target_lane target_lane_info lg n = Ok n' ->
  Tree.key n' = Tree.key n /\ Tree.parent_key n' = Tree.parent_key n /\
  Tree.children_keys n' = Tree.children_keys n /\ Tree.depth n' = Tree.depth n /\
  (Tree.is_leaf n = false -> n' = n) /\
  (Tree.is_leaf n = true ->
   decide_leaf obs_len pred_len cfg target_lane target_lane_info lg n = Ok (Tree.data n')).
Proof.
  unfold decide_node. destruct (Tree.is_leaf n) eqn:E.
  - intro H. bind_inv H. injection H as <-. cbn. repeat split; auto. discriminate.
  - intro H. injection H as <-. repeat split; auto. discriminate.
Qed.

(** X1.  After a pass of [decide_branch] no leaf has both its branch flag and
    its end flag set: a leaf is in the branch set or in the end set, not
    in both. *)
Theorem decide_branch_flags_exclusive
        (lg : option LaneGraph) (tr tr' : Tree.t ScenarioData.t) :
  decide_branch obs_len pred_len cfg target_lane target_lane_info lg tr = Ok tr' ->
  (forall n, In n tr' -> Tree.is_leaf n = true ->
             branch_flag (Tree.data n) && end_flag (Tree.data n) = false) /\
  (forall (bd : nat) (n : Tree.Node ScenarioData.t),
      In n (fst (get_branch_set (mkGen tr' lg bd))) -> ~ In n (get_end_set tr')).
Proof.
  intro H.
  assert (Hex : forall n, In n tr' -> Tree.is_leaf n = true ->
                          branch_flag (Tree.data n) && end_flag (Tree.data n) = false).
  { intros n' Hn' Hleaf. unfold decide_branch in H.
    destruct (@mapM_preimage _ _ _ _ _ _ H Hn') as (n & Hn & Hdec).
    destruct (decide_node_shape _ _ Hdec) as (_ & _ & Hc & _ & _ & Hl).
    eapply decide_leaf_exclusive. apply Hl.
    unfold Tree.is_leaf in *. rewrite <- Hc. exact Hleaf. }
  split; [exact Hex|].
  intros bd n Hb He. cbn [get_branch_set fst tree] in Hb.
  apply filter_In in Hb. destruct Hb as [Hleaf Hb].
  unfold Tree.get_leaf_nodes in Hleaf. apply filter_In in Hleaf. destruct Hleaf as [Hn Hleaf].
  unfold get_end_set in He. apply filter_In in He. destruct He as [_ He].
  specialize (Hex n Hn Hleaf). unfold is_branch_node in Hb.
  rewrite Hb, He in Hex. discriminate.
Qed.

(** X2.  A pass of [decide_branch] keeps the nodes in their order with their
    keys, parents, children and depths, so the leaves stay the same
    nodes, and does not change a node that has children. *)
Theorem decide_branch_changes_leaves_only
        (lg : option LaneGraph) (tr tr' : Tree.t ScenarioData.t) :
  decide_branch obs_len pred_len cfg target_lane target_lane_info lg tr = Ok tr' ->
  List.length tr' = List.length tr /\
  map (@Tree.key _) (Tree.get_leaf_nodes tr') = map (@Tree.key _) (Tree.get_leaf_nodes tr) /\
  forall i n,
    nth_error tr i = Some n ->
    exists n',
      nth_error tr' i = Some n' /\
      Tree.key n' = Tree.key n /\ Tree.parent_key n' = Tree.parent_key n /\
      Tree.children_keys n' = Tree.children_keys n /\ Tree.depth n' = Tree.depth n /\
      (Tree.is_leaf n = false -> n' = n).
Proof.
  intro H. unfold decide_branch in H. split; [|split].
  - eapply mapM_length. exact H.
  - assert (HF : Forall2 (fun n n' => Tree.key n' = Tree.key n /\
                                      Tree.is_leaf n' = Tree.is_leaf n) tr tr').
    { eapply mapM_forall2; [|exact H]. intros n n' _ Hdec.
      destruct (decide_node_shape _ _ Hdec) as (Hk & _ & Hc & _).
      split; [exact Hk|]. unfold Tree.is_leaf. rewrite Hc. reflexivity. }
    unfold Tree.get_leaf_nodes. clear H.
    induction HF as [|n n' l l' [Hk Hl] _ IH]; [reflexivity|].
    cbn [filter]. rewrite Hl. destruct (Tree.is_leaf n); cbn [map]; rewrite ?Hk, IH; reflexivity.
  - intros i n Hi. destruct (proj2 (mapM_nth _ _ H) _ _ Hi) as (n' & Hdec & Hi').
    destruct (decide_node_shape _ _ Hdec) as (Hk & Hp & Hc & Hd & Hinner & _).
    exists n'. repeat split; auto.
Qed.

End BranchFlags.

(* ================================================================== *)
(** ** What [prune_merge] returns *)

Section PruneFacts.
Context {B : Backend} {U : Utils}.
Variables obs_len pred_len : nat.
Variable cfg : Config.
Variable target_lane : option (list vec2).

(** The rows of a tensor have at most [n] entries. *)
Definition clipped {A : Type} (n : nat) (x : list (list A)) : Prop :=
  Forall (fun row => (List.length row <= n)%nat) x.

Lemma clipped_cat {A : Type} (n : nat) (hist pred : list (list A)) :
  clipped n (map (fun x => firstn n (fst x ++ snd x)) (combine hist pred)).
Proof.
  unfold clipped. apply Forall_forall. intros row Hrow.
  apply in_map_iff in Hrow. destruct Hrow as (x & <- & _).
  rewrite length_firstn. apply Nat.le_min_l.
Qed.

(** The ego's last position and covariance in the histories of [p] are
    within the lane threshold of [lane]. *)
Definition near_lane (lane : list vec2) (p : PredData) : Prop :=
  exists ego_pos ego_mean ego_covs ego_cov,
    nth_error (TRAJS_POS_HIST p) ego_idx = Some ego_pos /\
    index ego_pos (-1) = Ok ego_mean /\
    nth_error (TRAJS_COV_HIST p) ego_idx = Some ego_covs /\
    index ego_covs (-1) = Ok ego_cov /\
    get_distance_to_polyline lane ego_mean - ego_cov <= tar_dist_thres cfg.

(** The payload [p] is the prediction of mode [m] for the observation
    [o], with the mode probability [q]. *)
Definition predicted_from (o : Obs.t) (q : Q) (p : PredData) : Prop :=
  SCEN_PROB p = q * Obs.SCEN_PROB o /\
  PARENT_ID p = Obs.SCEN_ID o /\
  CUR_T p = Obs.CUR_T o /\
  END_T p = Obs.END_T o /\
  TGT_PTS p = Obs.TGT_PTS o /\
  TRAJS p = mkMeta (Obs.TRAJS_TYPE (Obs.TRAJS o)) (Obs.TRAJS_TID (Obs.TRAJS o))
                   (Obs.TRAJS_CAT (Obs.TRAJS o)).

Lemma make_candidate_kept (bd idx : nat) (o : Obs.t) (out : NetOut) (m : nat)
      (c : Candidate) :
  make_candidate obs_len pred_len cfg target_lane bd idx o out m = Ok (Some c) ->
  (exists row0, nth_error (res_cls out) 0 = Some row0 /\
                nth_error row0 m = Some (cand_prob c)) /\
  predicted_from o (cand_prob c) (cand_data c) /\
  SCEN_ID (cand_data c) = scen_id_of bd idx m /\
  1 # 1000 <= SCEN_PROB (cand_data c) /\
  (forall lane, target_lane = Some lane -> near_lane lane (cand_data c)) /\
  clipped (obs_len + pred_len) (TRAJS_POS_HIST (cand_data c)) /\
  clipped (obs_len + pred_len) (TRAJS_COV_HIST (cand_data c)) /\
  clipped (obs_len + pred_len) (TRAJS_ANG_HIST (cand_data c)) /\
  clipped (obs_len + pred_len) (TRAJS_VEL_HIST (cand_data c)) /\
  (S (List.length (cand_topos c)) <= List.length (Obs.TRAJS_CTRS (Obs.TRAJS o)))%nat.
Proof.
  unfold make_candidate. intro H.
  bind_inv H. rename a into row0. apply or_raise_ok in Ha.
  bind_inv H. rename a into scene_prob. apply or_raise_ok in Ha0.
  bind_inv H. rename a into reg. bind_inv H. rename a into vel.
  bind_inv H. rename a into last_cov.
  match type of H with (if Qltb ?x ?y then _ else _) = _ =>
    destruct (Qltb x y) eqn:Eprob end; [discriminate|].
  bind_inv H. rename a into off_lane. destruct off_lane; [discriminate|].
  match type of H with match ?x with nil => _ | cons _ _ => _ end = _ =>
    destruct x as [|ego others] eqn:Epos end; [discriminate|].
  injection H as <-. cbn [cand_data cand_prob cand_topos] in *.
  cbn [SCEN_PROB PARENT_ID CUR_T END_T TGT_PTS TRAJS SCEN_ID
       TRAJS_POS_HIST TRAJS_COV_HIST TRAJS_ANG_HIST TRAJS_VEL_HIST] in *.
  split; [exists row0; auto|].
  split; [repeat split|].
  split; [reflexivity|].
  split; [apply Qltb_ge in Eprob; exact Eprob|].
  split.
  { intros lane Hlane. rewrite Hlane in Ha4.
    bind_inv Ha4. apply or_raise_ok in Ha5. bind_inv Ha4.
    bind_inv Ha4. apply or_raise_ok in Ha7. bind_inv Ha4.
    injection Ha4 as Hoff. apply Qltb_ge in Hoff.
    exists a, a0, a1, a2. auto. }
  split; [apply clipped_cat|]. split; [apply clipped_cat|].
  split; [apply clipped_cat|]. split; [apply clipped_cat|].
  apply (f_equal (@List.length _)) in Epos. cbn [List.length] in Epos.
  rewrite length_map, length_map in Epos. unfold zip3 in Epos.
  rewrite length_combine in Epos. rewrite length_map. lia.
Qed.


Lemma keep_some_in {X : Type} (l : list (option X)) (x : X) :
  In x (keep_some l) <-> In (Some x) l.
Proof.
  induction l as [|o l IH]; [tauto|]. rewrite keep_some_cons.
  destruct o as [y|]; cbn [In]; rewrite IH; split.
  - intros [->|H]; auto.
  - intros [E|H]; [injection E as ->; auto | auto].
  - auto.
  - intros [E|H]; [discriminate | exact H].
Qed.

(** Every prediction that [prune_merge_one] selects is the payload of a
    candidate that [make_candidate] kept. *)
Lemma prune_merge_one_kept (bd idx : nat) (o : Obs.t) (out : NetOut)
      (sel : list PredData) (p : PredData) :
  prune_merge_one obs_len pred_len cfg target_lane bd idx o out = Ok sel ->
  In p sel ->
  exists c m,
    make_candidate obs_len pred_len cfg target_lane bd idx o out m = Ok (Some c) /\
    cand_data c = p.
Proof.
  unfold prune_merge_one. intros H Hp. bind_inv H. bind_inv H. injection H as <-.
  apply in_map_iff in Hp. destruct Hp as (c & Hc & Hin).
  apply merge_in in Hin. apply keep_some_in in Hin.
  destruct (@mapM_preimage _ _ _ _ _ _ Ha0 Hin) as (m & _ & Hm).
  exists c, m. auto.
Qed.

Lemma prune_merge_from_kept (bd : nat) :
  forall (batch : list Obs.t) (out : list NetOut) (idx : nat) (preds : list PredData)
         (p : PredData),
    prune_merge_from obs_len pred_len cfg target_lane bd idx batch out = Ok preds ->
    In p preds ->
    exists j o net c m,
      nth_error batch j = Some o /\ nth_error out j = Some net /\
      make_candidate obs_len pred_len cfg target_lane bd (idx + j) o net m = Ok (Some c) /\
      cand_data c = p.
Proof.
  induction batch as [|d batch IH]; intros out idx preds p H Hp;
    cbn [prune_merge_from] in H.
  - injection H as <-. destruct Hp.
  - bind_inv H. bind_inv H. bind_inv H. injection H as <-.
    apply or_raise_ok in Ha. apply in_app_or in Hp. destruct Hp as [Hp|Hp].
    + destruct (@prune_merge_one_kept bd idx d a a0 p Ha0 Hp) as (c & m & Hc & Hcp).
      exists 0%nat, d, a, c, m. rewrite Nat.add_0_r. auto.
    + destruct (IH (tl out) (S idx) a1 p Ha1 Hp) as (j & o & net & c & m & Hj & Hnet & Hc & Hcp).
      exists (S j), o, net, c, m. split; [exact Hj|]. split.
      * destruct out; [destruct j; discriminate | exact Hnet].
      * rewrite Nat.add_succ_r. auto.
Qed.

(** X3.  [prune_merge] returns no scenario whose joint probability is below
    0.001, none whose ego ends farther from the target lane than the
    threshold allows (when a target lane is set), and no history of more
    than [obs_len + pred_len] samples. *)
Theorem prune_merge_thresholds (bd : nat) (batch : list Obs.t) (out : list NetOut)
        (preds : list PredData) :
  prune_merge obs_len pred_len cfg target_lane bd batch out = Ok preds ->
  forall p, In p preds ->
    1 # 1000 <= SCEN_PROB p /\
    (forall lane, target_lane = Some lane -> near_lane lane p) /\
    clipped (obs_len + pred_len) (TRAJS_POS_HIST p) /\
    clipped (obs_len + pred_len) (TRAJS_COV_HIST p) /\
    clipped (obs_len + pred_len) (TRAJS_ANG_HIST p) /\
    clipped (obs_len + pred_len) (TRAJS_VEL_HIST p).
Proof.
  unfold prune_merge. intros H p Hp.
  destruct (@prune_merge_from_kept bd batch out 0%nat preds p H Hp) as (j & o & net & c & m & _ & _ & Hc & <-).
  destruct (@make_candidate_kept bd _ o net m c Hc) as (_ & _ & _ & Hprob & Hlane & H1 & H2 & H3 & H4 & _).
  auto 10.
Qed.

(** X4.  Every scenario that [prune_merge] returns comes from one element of
    the batch and one mode of its prediction: its identifier is made of
    the branch depth, the index of the element and the mode, its parent
    is the scenario of the element, its joint probability the
    probability of the mode times that of the element, and its window,
    goal points and agent metadata are those of the element. *)
Theorem prune_merge_provenance (bd : nat) (batch : list Obs.t) (out : list NetOut)
        (preds : list PredData) :
  prune_merge obs_len pred_len cfg target_lane bd batch out = Ok preds ->
  forall p, In p preds ->
    exists j o net row0 m q,
      nth_error batch j = Some o /\ nth_error out j = Some net /\
      nth_error (res_cls net) 0 = Some row0 /\ nth_error row0 m = Some q /\
      SCEN_ID p = scen_id_of bd j m /\
      predicted_from o q p.
Proof.
  unfold prune_merge. intros H p Hp.
  destruct (@prune_merge_from_kept bd batch out 0%nat preds p H Hp) as (j & o & net & c & m & Hj & Hnet & Hc & <-).
  destruct (@make_candidate_kept bd _ o net m c Hc) as ((row0 & Hrow0 & Hq) & Hfrom & Hid & _).
  exists j, o, net, row0, m, (cand_prob c). auto 10.
Qed.

End PruneFacts.

(* ================================================================== *)
(** ** The scenarios that the merge step selects *)

Section MergeSelection.
Context {B : Backend}.

Lemma merge_covers (n : nat) :
  forall cands c,
    (List.length cands <= n)%nat -> In c cands ->
    In c (merge cands) \/ exists sel, In sel (merge cands) /\ differs sel c = false.
Proof.
  induction n as [|n IH]; intros [|sel rest] c Hlen Hin;
    try (destruct Hin; fail); try (cbn in Hlen; lia).
  destruct Hin as [<-|Hin].
  - left. rewrite merge_cons. left. reflexivity.
  - rewrite merge_cons. destruct (differs sel c) eqn:E.
    + destruct (IH (filter (differs sel) rest) c) as [H|(s & Hs & Hd)].
      * pose proof (filter_length_le (differs sel) rest). cbn in Hlen. lia.
      * apply filter_In. auto.
      * left. right. exact H.
      * right. exists s. split; [right; exact Hs | exact Hd].
    + right. exists sel. split; [left; reflexivity | exact E].
Qed.

(** X5.  The merge step keeps the first candidate, selects candidates only,
    each selected candidate differs in topology from every candidate
    selected before it, and each candidate that is not selected is
    similar to a selected one. *)
Theorem merge_selects_representatives (cands : list Candidate) :
  separated (merge cands) /\
  (forall c, In c (merge cands) -> In c cands) /\
  (forall c, In c cands ->
             In c (merge cands) \/
             exists sel, In sel (merge cands) /\ differs sel c = false) /\
  (forall c rest, cands = c :: rest -> exists rest', merge cands = c :: rest').
Proof.
  split; [apply (merge_separated (n := List.length cands)); apply le_n|].
  split; [apply merge_in|]. split.
  - intros c Hc. apply (merge_covers (n := List.length cands)); [apply le_n | exact Hc].
  - intros c rest ->. rewrite merge_cons. eauto.
Qed.

Lemma merge_without_topos (cands : list Candidate) :
  (forall c, In c cands -> cand_topos c = []) ->
  (List.length (merge cands) <= 1)%nat.
Proof.
  intro H. destruct cands as [|sel rest]; [cbn; lia|].
  rewrite merge_cons.
  assert (E : filter (differs sel) rest = []).
  { induction rest as [|x rest IH]; [reflexivity|]. cbn [filter].
    assert (Hx : differs sel x = false).
    { unfold differs. rewrite (H sel (or_introl eq_refl)). reflexivity. }
    rewrite Hx. apply IH. intros c [<-|Hc]; apply H; [left; reflexivity | right; right; exact Hc]. }
  rewrite E. cbn. lia.
Qed.

Lemma FOP_filter {X : Type} (R : X -> X -> Prop) (f : X -> bool) (l : list X) :
  ForallOrdPairs R l -> ForallOrdPairs R (filter f l).
Proof.
  induction 1 as [|a l Ha _ IH]; cbn [filter]; [constructor|].
  destruct (f a); [|exact IH]. constructor; [|exact IH].
  apply Forall_forall. intros x Hx. apply filter_In in Hx.
  rewrite Forall_forall in Ha. apply Ha. tauto.
Qed.

Lemma merge_ordered (R : Candidate -> Candidate -> Prop) (n : nat) :
  forall cands, (List.length cands <= n)%nat ->
                ForallOrdPairs R cands -> ForallOrdPairs R (merge cands).
Proof.
  induction n as [|n IH]; intros [|sel rest] Hlen H;
    try (cbn in Hlen; lia); try (cbn; constructor; fail).
  rewrite merge_cons. inversion H as [|? ? Hsel Hrest]; subst. constructor.
  - apply Forall_forall. intros x Hx. apply merge_in in Hx. apply filter_In in Hx.
    rewrite Forall_forall in Hsel. apply Hsel. tauto.
  - apply IH.
    + pose proof (filter_length_le (differs sel) rest). cbn in Hlen. lia.
    + apply FOP_filter. exact Hrest.
Qed.

End MergeSelection.

(* ================================================================== *)
(** ** The order of the selected scenarios *)

(** Every index comes before the indices of smaller or equal
    probability only. *)
Definition by_probability (probs : list Q) (idcs : list nat) : Prop :=
  ForallOrdPairs (fun i j => nth j probs 0 <= nth i probs 0) idcs.

Lemma insert_desc_sorted (probs : list Q) (i : nat) (sorted : list nat) :
  by_probability probs sorted -> by_probability probs (insert_desc probs i sorted).
Proof.
  unfold by_probability. induction 1 as [|j s Hj Hs IH]; cbn [insert_desc].
  - constructor; constructor.
  - destruct (Qltb (nth j probs 0) (nth i probs 0)) eqn:E.
    + apply Qltb_lt in E. constructor; [|constructor; assumption].
      constructor; [apply Qlt_le_weak; exact E|].
      eapply Forall_impl; [|exact Hj]. intros k Hk. cbv beta in Hk.
      apply Qle_trans with (y := nth j probs 0); [exact Hk | apply Qlt_le_weak; exact E].
    + apply Qltb_ge in E. constructor; [|exact IH].
      apply Forall_forall. intros k Hk.
      apply (Permutation_in _ (insert_desc_perm probs i s)) in Hk.
      destruct Hk as [<-|Hk]; [exact E|].
      rewrite Forall_forall in Hj. apply Hj. exact Hk.
Qed.

Lemma argsort_desc_sorted (probs : list Q) : by_probability probs (argsort_desc probs).
Proof.
  unfold argsort_desc.
  assert (H : forall xs acc, by_probability probs acc ->
                by_probability probs (fold_left (fun a i => insert_desc probs i a) xs acc)).
  { induction xs as [|x xs IH]; intros acc Hacc; cbn [fold_left]; [exact Hacc|].
    apply IH. apply insert_desc_sorted. exact Hacc. }
  apply H. constructor.
Qed.

Lemma FOP_map {X Y : Type} (R : Y -> Y -> Prop) (f : X -> Y) (l : list X) :
  ForallOrdPairs (fun a b => R (f a) (f b)) l -> ForallOrdPairs R (map f l).
Proof.
  induction 1 as [|a l Ha _ IH]; cbn [map]; constructor; [|exact IH].
  apply Forall_forall. intros y Hy. apply in_map_iff in Hy. destruct Hy as (x & <- & Hx).
  rewrite Forall_forall in Ha. apply Ha. exact Hx.
Qed.

Section SelectionOrder.
Context {B : Backend} {U : Utils}.
Variables obs_len pred_len : nat.
Variable cfg : Config.
Variable target_lane : option (list vec2).

Lemma candidates_sorted (bd idx : nat) (o : Obs.t) (out : NetOut) (row0 : list Q) :
  nth_error (res_cls out) 0 = Some row0 ->
  forall (modes : list nat) (cs : list (option Candidate)),
    by_probability row0 modes ->
    mapM (make_candidate obs_len pred_len cfg target_lane bd idx o out) modes = Ok cs ->
    ForallOrdPairs (fun c c' => cand_prob c' <= cand_prob c) (keep_some cs) /\
    forall c, In c (keep_some cs) -> exists m, In m modes /\ cand_prob c = nth m row0 0.
Proof.
  intro Hrow. induction modes as [|m modes IH]; intros cs Hs H; cbn [mapM] in H.
  - injection H as <-. split; [constructor | intros c []].
  - bind_inv H. bind_inv H. injection H as <-.
    inversion Hs as [|? ? Hm Hmodes]; subst.
    destruct (IH _ Hmodes Ha0) as [IHs IHin]. rewrite keep_some_cons.
    destruct a as [c0|].
    + destruct (@make_candidate_kept _ _ obs_len pred_len cfg target_lane bd idx o out m c0 Ha)
        as ((r & Hr & Hq) & _).
      rewrite Hrow in Hr. injection Hr as <-.
      assert (Hc0 : cand_prob c0 = nth m row0 0).
      { symmetry. apply nth_error_nth. exact Hq. }
      split.
      * constructor; [|exact IHs]. apply Forall_forall. intros c Hc.
        destruct (IHin c Hc) as (m' & Hm' & ->). rewrite Hc0.
        rewrite Forall_forall in Hm. apply Hm. exact Hm'.
      * intros c [<-|Hc]; [exists m; split; [left; reflexivity | exact Hc0]|].
        destruct (IHin c Hc) as (m' & Hm' & E). exists m'. split; [right; exact Hm' | exact E].
    + split; [exact IHs|]. intros c Hc.
      destruct (IHin c Hc) as (m' & Hm' & E). exists m'. split; [right; exact Hm' | exact E].
Qed.

(** X6.  For one element of the batch, [prune_merge] returns the selected
    scenarios by non-increasing probability of their mode: the joint
    probability of each is the probability of its mode times that of the
    element, and the probabilities of the modes do not increase along
    the list. *)
Theorem prune_merge_one_by_probability (bd idx : nat) (o : Obs.t) (out : NetOut)
        (sel : list PredData) :
  prune_merge_one obs_len pred_len cfg target_lane bd idx o out = Ok sel ->
  exists qs,
    Forall2 (fun p q => SCEN_PROB p = q * Obs.SCEN_PROB o) sel qs /\
    ForallOrdPairs (fun q q' => q' <= q) qs.
Proof.
  unfold prune_merge_one. intro H. bind_inv H. rename a into row0.
  apply or_raise_ok in Ha. bind_inv H. rename a into cs. injection H as <-.
  destruct (candidates_sorted bd idx o out Ha (argsort_desc_sorted row0) Ha0) as [Hs _].
  exists (map cand_prob (merge (keep_some cs))). split.
  - assert (Hall : forall c, In c (merge (keep_some cs)) ->
                             SCEN_PROB (cand_data c) = cand_prob c * Obs.SCEN_PROB o).
    { intros c Hc. apply merge_in in Hc. apply keep_some_in in Hc.
      destruct (@mapM_preimage _ _ _ _ _ _ Ha0 Hc) as (m & _ & Hm).
      destruct (@make_candidate_kept _ _ obs_len pred_len cfg target_lane bd idx o out m c Hm)
        as (_ & (Hp & _) & _).
      exact Hp. }
    induction (merge (keep_some cs)) as [|c l IH]; cbn [map]; constructor.
    + apply Hall. left. reflexivity.
    + apply IH. intros c' Hc'. apply Hall. right. exact Hc'.
  - apply FOP_map. apply (merge_ordered (n := List.length (keep_some cs))); [apply le_n | exact Hs].
Qed.

Lemma prune_merge_from_single_agent (bd : nat) :
  forall (batch : list Obs.t) (out : list NetOut) (idx : nat) (preds : list PredData),
    (forall o, In o batch -> (List.length (Obs.TRAJS_CTRS (Obs.TRAJS o)) <= 1)%nat) ->
    prune_merge_from obs_len pred_len cfg target_lane bd idx batch out = Ok preds ->
    (List.length preds <= List.length batch)%nat.
Proof.
  induction batch as [|d batch IH]; intros out idx preds Hone H; cbn [prune_merge_from] in H.
  - injection H as <-. cbn. lia.
  - bind_inv H. bind_inv H. bind_inv H. injection H as <-.
    rewrite length_app. cbn [List.length].
    assert (H1 : (List.length a0 <= 1)%nat).
    { unfold prune_merge_one in Ha0. bind_inv Ha0. bind_inv Ha0. injection Ha0 as <-.
      rewrite length_map. apply merge_without_topos. intros c Hc.
      apply keep_some_in in Hc.
      destruct (@mapM_preimage _ _ _ _ _ _ Ha3 Hc) as (m & _ & Hm).
      destruct (@make_candidate_kept _ _ obs_len pred_len cfg target_lane bd idx d a m c Hm)
        as (_ & _ & _ & _ & _ & _ & _ & _ & _ & Hlen).
      specialize (Hone d (or_introl eq_refl)).
      destruct (cand_topos c); [reflexivity | cbn [List.length] in Hlen; lia]. }
    assert (H2 : (List.length a1 <= List.length batch)%nat).
    { apply (IH (tl out) (S idx) a1); [|exact Ha1].
      intros o Ho. apply Hone. right. exact Ho. }
    lia.
Qed.

(** X7.  When the scene has at most one agent, [prune_merge] returns at most
    one scenario for each element of the batch: there is no other agent
    whose bearing could tell two modes apart, and all the modes that
    survive the pruning are merged into the first. *)
Theorem prune_merge_single_agent (bd : nat) (batch : list Obs.t) (out : list NetOut)
        (preds : list PredData) :
  (forall o, In o batch -> (List.length (Obs.TRAJS_CTRS (Obs.TRAJS o)) <= 1)%nat) ->
  prune_merge obs_len pred_len cfg target_lane bd batch out = Ok preds ->
  (List.length preds <= List.length batch)%nat.
Proof.
  unfold prune_merge. apply prune_merge_from_single_agent.
Qed.

End SelectionOrder.

(* ================================================================== *)
(** ** The branch test and the branch time *)

Section ConditionMetFacts.
  Context {U : Utils}.
  Variable obs_len : nat.

(** X8.  [is_condition_met] and [get_branch_time] agree: on every
    payload, [is_condition_met] answers True exactly when
    [get_branch_time] returns the END_T of the payload (no branch
    step); the two leave the same payload behind and raise the same
    exceptions. *)
Theorem is_condition_met_branch_time (data : PredData) :
  is_condition_met obs_len data =
  ('(t, data') <- get_branch_time obs_len data ;;
   Ok ((t =? END_T data)%nat, data')).
Proof.
  unfold is_condition_met, get_branch_time.
  destruct (branch_scan obs_len (TRAJS_COV_HIST data) _ _) as [[t|]|e] eqn:E; cbn.
  - apply branch_scan_in in E. apply in_seq in E.
    replace (t =? END_T data)%nat with false; [reflexivity|].
    symmetry. apply Nat.eqb_neq. lia.
  - rewrite Nat.eqb_refl. reflexivity.
  - reflexivity.
Qed.

End ConditionMetFacts.

(* ================================================================== *)
(** ** A generator without a target lane *)

Section NoTargetLane.
  Context {B : Backend} {U : Utils}.
  Variables (obs_len pred_len : nat) (cfg : Config).
  Variable target_lane_info : list (list Q).
  Variable network : nat -> list Obs.t -> list NetOut.

(** The exceptions of a call made without a target lane. *)
Definition lane_error (e : exn) : Prop := e = IndexError \/ e = TypeError.

Lemma raises_bind {A C : Type} (P : exn -> Prop) (r : result A) (k : A -> result C) :
  (forall e, r = Raise e -> P e) ->
  (forall a, r = Ok a -> exists e, k a = Raise e /\ P e) ->
  exists e, bind r k = Raise e /\ P e.
Proof.
  intros Hr Hk. destruct r as [a|e]; cbn.
  - apply Hk. reflexivity.
  - exists e. split; [reflexivity|]. apply Hr. reflexivity.
Qed.

Lemma or_raise_index {A : Type} (o : option A) (e : exn) :
  or_raise IndexError o = Raise e -> lane_error e.
Proof. destruct o; cbn; intro H; [discriminate|]. injection H as <-. left. reflexivity. Qed.

Lemma index_lane_error {A : Type} (l : list A) (i : Z) (e : exn) :
  index l i = Raise e -> lane_error e.
Proof.
  unfold index.
  destruct (_ <? _)%Z; [intro H; injection H as <-; left; reflexivity|].
  destruct (_ <? _)%Z; apply or_raise_index.
Qed.

(** X9.  Before [set_target_lane] (the target lane is None)
    [branch_aime] returns no scenario trees: it raises IndexError when
    the observation has no track and TypeError otherwise, whatever the
    network, the configuration and the state of the generator; and
    [update_obser] raises one of the two on every payload. *)
Theorem branch_aime_without_target_lane
    (rounds fuel : nat) (g : Gen) (lcl_smp : LocalSample) (agent_obs : AgentObs) :
  (exists e,
      branch_aime obs_len pred_len cfg None target_lane_info network
                  rounds fuel g lcl_smp agent_obs = Raise e /\
      (e = TypeError \/
       e = IndexError /\
       (nth_error (fst (fst (fst (fst (fst (fst (get_agent_trajectories agent_obs))))))) 0 = None \/
        nth_error (snd (fst (fst (fst (fst (fst (get_agent_trajectories agent_obs))))))) 0 = None))) /\
  (forall lg d, exists e,
      update_obser obs_len pred_len cfg None target_lane_info lg d = Raise e /\
      (e = IndexError \/ e = TypeError)).
Proof.
  split.
  - unfold branch_aime, start, process_data.
    destruct (get_agent_trajectories agent_obs) as [[[[[[pos ang] vel] ty] fl] tid] cat].
    cbn [fst snd].
    destruct (nth_error pos 0) as [p0|]; [|exists IndexError; cbn; auto].
    destruct (nth_error ang 0) as [a0|]; [|exists IndexError; cbn; auto].
    exists TypeError. split; [|auto].
    cbn [or_raise bind]. destruct (get_origin_rotation p0 a0) as [[o r] th].
    reflexivity.
  - intros lg d. unfold update_obser.
    apply raises_bind; [apply or_raise_index|intros p0 _].
    apply raises_bind; [apply or_raise_index|intros a0 _].
    destruct (get_origin_rotation p0 a0) as [[o r] th].
    apply raises_bind; [intros e H; destruct lg; [discriminate|injection H as <-; right; reflexivity]|intros lg' _].
    apply raises_bind; [apply or_raise_index|intros v0 _].
    apply raises_bind; [apply index_lane_error|intros vl _].
    apply raises_bind; [|intros a H; discriminate H].
    intros e H. injection H as <-. right. reflexivity.
Qed.

End NoTargetLane.

(* ================================================================== *)
(** ** The time windows and the depths of the search tree *)

Lemma Forall2_in_l {X Y : Type} {R : X -> Y -> Prop} {l : list X} {l' : list Y} {x : X} :
  Forall2 R l l' -> In x l -> exists y, In y l' /\ R x y.
Proof.
  induction 1 as [|a b l l' Hab _ IH]; intros Hx; [destruct Hx|].
  destruct Hx as [<-|Hx].
  - exists b. split; [left; reflexivity | exact Hab].
  - destruct (IH Hx) as (y & Hy & Hr). exists y. split; [right; exact Hy | exact Hr].
Qed.

Lemma Forall2_in_r {X Y : Type} {R : X -> Y -> Prop} {l : list X} {l' : list Y} {y : Y} :
  Forall2 R l l' -> In y l' -> exists x, In x l /\ R x y.
Proof.
  induction 1 as [|a b l l' Hab _ IH]; intros Hy; [destruct Hy|].
  destruct Hy as [<-|Hy].
  - exists a. split; [left; reflexivity | exact Hab].
  - destruct (IH Hy) as (x & Hx & Hr). exists x. split; [right; exact Hx | exact Hr].
Qed.

Section Timeline.
Context {B : Backend} {U : Utils}.
Variables obs_len pred_len : nat.
Variable cfg : Config.
Variable target_lane : option (list vec2).
Variable target_lane_info : list (list Q).
Variable network : nat -> list Obs.t -> list NetOut.

Implicit Types (tr : Tree.t ScenarioData.t) (n pn : Tree.Node ScenarioData.t)
         (p d : PredData) (o : Obs.t).

(** The window and the flags of a node: the payload spans
    [CUR_T, END_T] inside the horizon and names the parent of the node;
    the window of an end node reaches the horizon and that of a branch
    node stops before it; the probability of the payload has passed the
    threshold of [prune_merge]; a node without payload has no end flag; the observation of a node starts where its
    payload ends; a branch node is the root or lies above the depth
    limit; only branch nodes have children. *)
Definition timed_node n : Prop :=
  let sd := Tree.data n in
  (forall d, data sd = Some d ->
             (CUR_T d <= END_T d <= pred_len)%nat /\
             Tree.parent_key n = Some (PARENT_ID d) /\
             (end_flag sd = true -> END_T d = pred_len) /\
             (branch_flag sd = true -> (END_T d < pred_len)%nat) /\
             1 # 1000 <= SCEN_PROB d) /\
  (forall o, obs_data sd = Some o ->
             Obs.END_T o = pred_len /\
             Obs.CUR_T o = match data sd with Some d => END_T d | None => 0%nat end) /\
  (branch_flag sd = true ->
   Tree.depth n = 0%nat \/ (Tree.depth n < max_depth cfg)%nat) /\
  (Tree.depth n <= Nat.max 1 (max_depth cfg))%nat /\
  branch_flag sd && end_flag sd = false /\
  (Tree.is_leaf n = false -> branch_flag sd = true) /\
  (data sd = None -> end_flag sd = false).

(** The payload of [n] starts at the observation of its parent. *)
Definition linked tr n : Prop :=
  forall d, data (Tree.data n) = Some d ->
            exists pn o, In pn tr /\ Tree.key pn = PARENT_ID d /\
                         Tree.is_leaf pn = false /\
                         obs_data (Tree.data pn) = Some o /\ CUR_T d = Obs.CUR_T o.

(** The first node is the root, without payload. *)
Definition rooted tr : Prop :=
  exists r rest, tr = r :: rest /\ Tree.key r = "root"%string /\
                 data (Tree.data r) = None.

Definition timed tr : Prop :=
  Forall timed_node tr /\ (forall n, In n tr -> linked tr n) /\ rooted tr.

(** The parent named by the prediction [p] is a branch node of [tr]
    whose observation [p] continues. *)
Definition hosts tr p : Prop :=
  1 # 1000 <= SCEN_PROB p /\
  In (PARENT_ID p) (Tree.keys tr) /\
  forall n, In n tr -> Tree.key n = PARENT_ID p ->
            branch_flag (Tree.data n) = true /\
            exists o, obs_data (Tree.data n) = Some o /\
                      CUR_T p = Obs.CUR_T o /\ END_T p = Obs.END_T o.

Lemma is_leaf_add_child (P k : string) n :
  Tree.is_leaf n = false -> Tree.is_leaf (Tree.add_child P k n) = false.
Proof.
  unfold Tree.add_child, Tree.is_leaf. destruct (Tree.has_key P n); cbn; [|auto].
  destruct (Tree.children_keys n); [discriminate | reflexivity].
Qed.

Lemma is_leaf_add_child_parent (k : string) n :
  Tree.is_leaf (Tree.add_child (Tree.key n) k n) = false.
Proof.
  unfold Tree.add_child, Tree.is_leaf, Tree.has_key. rewrite String.eqb_refl. cbn.
  destruct (Tree.children_keys n); reflexivity.
Qed.

Lemma timed_node_add_child (P k : string) n :
  timed_node n ->
  (Tree.key n = P -> branch_flag (Tree.data n) = true) ->
  timed_node (Tree.add_child P k n).
Proof.
  intros (H1 & H2 & H3 & H4 & H5 & H6 & H7) Hb. unfold timed_node.
  rewrite data_add_child, parent_add_child, depth_add_child.
  repeat (split; [assumption|]). split; [|exact H7].
  intro Hleaf. unfold Tree.add_child in Hleaf.
  destruct (Tree.has_key P n) eqn:E; [|auto].
  apply Hb. apply has_key_true. exact E.
Qed.

Lemma add_node_timed tr p tr1 :
  timed tr -> hosts tr p ->
  Tree.add_node tr (SCEN_ID p) (Some (PARENT_ID p)) (ScenarioData.new (Some p) None) = Ok tr1 ->
  timed tr1 /\ forall p', hosts tr p' -> hosts tr1 p'.
Proof.
  intros (Hnodes & Hlink & Hroot) (Hprob & Hin & Hhost) Hadd.
  apply add_node_child in Hadd. destruct Hadd as (pn & Hpn & Hfresh & ->).
  apply get_node_some in Hpn. destruct Hpn as [Hpn Hkey].
  destruct (Hhost pn Hpn Hkey) as (Hbranch & o & Hobs & Hcur & Hend).
  rewrite Forall_forall in Hnodes.
  split; [split; [|split]|].
  - apply Forall_forall. intros n Hn. apply in_app_or in Hn. destruct Hn as [Hn|[<-|[]]].
    + apply in_map_iff in Hn. destruct Hn as (n0 & <- & Hn0).
      apply timed_node_add_child; [apply Hnodes; exact Hn0|].
      intro E. apply (Hhost n0 Hn0 E).
    + destruct (Hnodes pn Hpn) as (H1 & H2 & H3 & H4 & H5 & H6 & _).
      destruct (H2 o Hobs) as [Ho1 Ho2].
      assert (Hdep : (S (Tree.depth pn) <= Nat.max 1 (max_depth cfg))%nat)
        by (destruct (H3 Hbranch); lia).
      unfold timed_node. cbn.
      split; [|split; [|split; [|split; [|split; [|split]]]]]; try discriminate.
      * intros d Hd. injection Hd as <-.
        split; [|split; [reflexivity | split; [discriminate | split; [discriminate | exact Hprob]]]].
        rewrite Hcur, Hend, Ho1, Ho2.
        destruct (data (Tree.data pn)) as [dp|] eqn:Edp; [|lia].
        destruct (H1 dp eq_refl) as (Hw & _). lia.
      * exact Hdep.
      * reflexivity.
  - intros n Hn d Hd. apply in_app_or in Hn. destruct Hn as [Hn|[<-|[]]].
    + apply in_map_iff in Hn. destruct Hn as (n0 & <- & Hn0).
      rewrite data_add_child in Hd.
      destruct (Hlink n0 Hn0 d Hd) as (pn0 & o0 & Hpn0 & Hk0 & Hl0 & Ho0 & Hc0).
      exists (Tree.add_child (PARENT_ID p) (SCEN_ID p) pn0), o0.
      split; [apply in_or_app; left; apply in_map; exact Hpn0|].
      rewrite key_add_child, data_add_child.
      split; [exact Hk0|]. split; [apply is_leaf_add_child; exact Hl0|]. auto.
    + cbn in Hd. injection Hd as <-.
      exists (Tree.add_child (PARENT_ID p) (SCEN_ID p) pn), o.
      split; [apply in_or_app; left; apply in_map; exact Hpn|].
      rewrite key_add_child, data_add_child.
      split; [exact Hkey|]. split; [|auto].
      rewrite <- Hkey. apply is_leaf_add_child_parent.
  - destruct Hroot as (r & rest & -> & Hr1 & Hr2).
    exists (Tree.add_child (PARENT_ID p) (SCEN_ID p) r). eexists.
    split; [cbn [map app]; reflexivity|].
    rewrite key_add_child, data_add_child. auto.
  - intros p' (Hprob' & Hin' & Hhost'). split; [exact Hprob'|]. split.
    + unfold Tree.keys. rewrite map_app. apply in_or_app. left.
      fold (Tree.keys (map (Tree.add_child (PARENT_ID p) (SCEN_ID p)) tr)).
      rewrite keys_add_child. exact Hin'.
    + intros n Hn Hk. apply in_app_or in Hn. destruct Hn as [Hn|[<-|[]]].
      * apply in_map_iff in Hn. destruct Hn as (n0 & <- & Hn0).
        rewrite key_add_child in Hk. rewrite data_add_child. apply Hhost'; assumption.
      * cbn in Hk. rewrite Hk in Hfresh. contradiction.
Qed.

Lemma create_nodes_timed (preds : list PredData) :
  forall tr tr',
    timed tr -> (forall p, In p preds -> hosts tr p) ->
    create_nodes tr preds = Ok tr' -> timed tr'.
Proof.
  unfold create_nodes.
  induction preds as [|p preds IH]; intros tr tr' Ht Hh H; cbn [foldM] in H.
  - injection H as <-. exact Ht.
  - bind_inv H.
    destruct (@add_node_timed tr p a Ht (Hh p (or_introl eq_refl)) Ha) as [Ht1 Hh1].
    apply (IH a tr' Ht1); [|exact H].
    intros p' Hp'. apply Hh1. apply Hh. right. exact Hp'.
Qed.

(** What a branch decision does to the window of a leaf. *)
Lemma decide_leaf_timed (lg : option LaneGraph) n (sd' : ScenarioData.t) :
  timed_node n -> Tree.is_leaf n = true ->
  decide_leaf obs_len pred_len cfg target_lane target_lane_info lg n = Ok sd' ->
  timed_node (Tree.mkNode (Tree.key n) (Tree.parent_key n) (Tree.children_keys n)
                          (Tree.depth n) sd') /\
  (forall d', data sd' = Some d' ->
              exists d, data (Tree.data n) = Some d /\
                        CUR_T d' = CUR_T d /\ PARENT_ID d' = PARENT_ID d).
Proof.
  intros (H1 & H2 & H3 & H4 & H5 & H6 & H7) Hleaf H.
  assert (Hl : forall (sd : ScenarioData.t) (P : Prop),
             Tree.is_leaf (Tree.mkNode (Tree.key n) (Tree.parent_key n)
                                       (Tree.children_keys n) (Tree.depth n) sd) = false ->
             P).
  { intros sd P. unfold Tree.is_leaf in *. cbn. rewrite Hleaf. discriminate. }
  unfold decide_leaf in H.
  destruct (branch_flag (Tree.data n)) eqn:Eb.
  { injection H as <-. split; [|cbn; eauto].
    unfold timed_node. cbn.
    split; [|split; [exact H2|split; [discriminate|split; [exact H4|split; [reflexivity|split; [exact (Hl _ _)|exact H7]]]]]].
    intros d Hd. destruct (H1 d Hd) as (Ha & Hb & Hc & _ & Hq).
    repeat split; try tauto; discriminate. }
  destruct (end_flag (Tree.data n)) eqn:Ee; cbn [negb] in H.
  { injection H as E. subst sd'. split; [|eauto].
    unfold timed_node. cbn. rewrite Eb, Ee.
    split; [|split; [exact H2|split; [discriminate|split; [exact H4|split; [reflexivity|split; [exact (Hl _ _)|exact H7]]]]]].
    intros d Hd. destruct (H1 d Hd) as (Ha & Hb & Hc & _ & Hq).
    repeat split; try tauto; discriminate. }
  destruct (max_depth cfg <=? Tree.depth n)%nat eqn:Emax.
  { injection H as <-. split; [|cbn; eauto].
    unfold timed_node. cbn.
    split; [|split; [exact H2|split; [discriminate|split; [exact H4|split; [reflexivity|split; [exact (Hl _ _)|exact H7]]]]]].
    intros d Hd. destruct (H1 d Hd) as (Ha & Hb & Hc & _ & Hq).
    repeat split; try tauto; discriminate. }
  bind_inv H. rename a into d. apply or_raise_ok in Ha.
  bind_inv H. destruct a as [t d1].
  destruct (H1 d Ha) as (Hw & Hp & _ & _ & Hq).
  apply get_branch_time_frame in Ha0.
  assert (Hq1 : SCEN_PROB d1 = SCEN_PROB d).
  { destruct Ha0 as [[_ ->]|[_ ->]]; reflexivity. }
  assert (Hd1 : CUR_T d1 = CUR_T d /\ PARENT_ID d1 = PARENT_ID d /\
                (CUR_T d1 <= END_T d1 <= pred_len)%nat /\
                ((t < pred_len)%nat -> END_T d1 = t) /\
                (~ (t < pred_len)%nat -> d1 = d /\ END_T d = pred_len)).
  { destruct Ha0 as [[-> ->]|[Hr ->]]; cbn.
    - repeat split; try tauto; lia.
    - repeat split; try lia. }
  destruct Hd1 as (Hc1 & Hp1 & Hw1 & Hlt & Hge).
  destruct (t <? pred_len)%nat eqn:Et.
  - apply Nat.ltb_lt in Et. specialize (Hlt Et).
    bind_inv H. destruct a as [obs cur]. injection H as <-.
    apply update_obser_ok in Ha1.
    destruct Ha1 as (-> & Ho1 & Ho2 & _).
    split.
    + unfold timed_node. cbn.
      split; [|split; [|split; [|split; [exact H4|split; [reflexivity|split; [exact (Hl _ _)|discriminate]]]]]].
      * intros d' Hd'. injection Hd' as <-. cbn.
        split; [exact Hw1|]. split; [rewrite Hp1; exact Hp|]. split; [discriminate|].
        split; [intros _; lia|]. rewrite Hq1. exact Hq.
      * intros o Ho. injection Ho as <-. split; [exact Ho2 | exact Ho1].
      * intros _. right. apply Nat.leb_gt in Emax. exact Emax.
    + cbn. intros d' Hd'. injection Hd' as <-. exists d. cbn. auto.
  - apply Nat.ltb_ge in Et.
    destruct Hge as [-> Hend]; [lia|].
    injection H as <-. split.
    + unfold timed_node. cbn. rewrite Ha in H2.
      split; [|split; [exact H2|split; [discriminate|split; [exact H4|split; [reflexivity|split; [exact (Hl _ _)|discriminate]]]]]].
      intros d' Hd'. injection Hd' as <-.
      split; [exact Hw|]. split; [exact Hp|]. split; [auto|]. split; [discriminate | exact Hq].
    + cbn. intros d' Hd'. injection Hd' as <-. exists d. auto.
Qed.

Lemma decide_branch_timed (lg : option LaneGraph) tr tr' :
  timed tr ->
  decide_branch obs_len pred_len cfg target_lane target_lane_info lg tr = Ok tr' ->
  timed tr'.
Proof.
  intros (Hnodes & Hlink & Hroot) H. unfold decide_branch in H.
  rewrite Forall_forall in Hnodes.
  assert (HF : Forall2 (fun n n' =>
                          Tree.key n' = Tree.key n /\
                          (Tree.is_leaf n = false -> n' = n) /\
                          timed_node n' /\
                          (forall d', data (Tree.data n') = Some d' ->
                                      exists d, data (Tree.data n) = Some d /\
                                                CUR_T d' = CUR_T d /\
                                                PARENT_ID d' = PARENT_ID d))
                       tr tr').
  { eapply mapM_forall2; [|exact H].
    intros n n' Hn Hdec. specialize (Hnodes n Hn).
    destruct (decide_node_shape _ _ _ _ _ _ _ Hdec) as (Hk & _ & _ & _ & Hinner & Hl).
    destruct (Tree.is_leaf n) eqn:Eleaf.
    - unfold decide_node in Hdec. rewrite Eleaf in Hdec. bind_inv Hdec.
      injection Hdec as <-. cbn [Tree.data Tree.key].
      destruct (@decide_leaf_timed lg n a Hnodes Eleaf Ha) as [Ht Hd].
      split; [reflexivity|]. split; [discriminate|]. split; [exact Ht | exact Hd].
    - rewrite (Hinner eq_refl). split; [reflexivity|]. split; [auto|].
      split; [exact Hnodes|]. eauto. }
  split; [|split].
  - apply Forall_forall. intros n' Hn'.
    destruct (Forall2_in_r HF Hn') as (n & _ & _ & _ & Ht & _). exact Ht.
  - intros n' Hn' d' Hd'.
    destruct (Forall2_in_r HF Hn') as (n & Hn & _ & _ & _ & Hd).
    destruct (Hd d' Hd') as (d & Hdn & Hc & Hp).
    destruct (Hlink n Hn d Hdn) as (pn & o & Hpn & Hk & Hl & Ho & Hco).
    destruct (Forall2_in_l HF Hpn) as (pn' & Hpn' & _ & Hsame & _).
    rewrite (Hsame Hl) in Hpn'.
    exists pn, o. rewrite Hp, Hc. auto.
  - destruct Hroot as (r & rest & -> & Hr1 & Hr2).
    inversion HF as [|? r' ? rest' Hr _]; subst.
    exists r', rest'. split; [reflexivity|].
    destruct Hr as (Hk & _ & _ & Hd). split; [congruence|].
    destruct (data (Tree.data r')) as [d'|] eqn:E; [|reflexivity].
    destruct (Hd d' eq_refl) as (d & Hdd & _). congruence.
Qed.

(** The observations of a batch are those of branch nodes of the
    tree. *)
Definition observed tr (batch : list Obs.t) : Prop :=
  forall o, In o batch ->
            exists n, In n tr /\ obs_data (Tree.data n) = Some o /\
                      branch_flag (Tree.data n) = true.

Lemma expand_timed (g g' : Gen) (batch : list Obs.t) :
  keyed (branch_depth g) (tree g) ->
  timed (tree g) -> observed (tree g) batch ->
  expand obs_len pred_len cfg target_lane target_lane_info network g batch = Ok g' ->
  timed (tree g').
Proof.
  intros (Hnd & Hwk & _) Ht Hobs H. unfold expand in H.
  bind_inv H. rename a into preds. bind_inv H. bind_inv H. injection H as <-.
  cbn [tree]. eapply decide_branch_timed; [|exact Ha1].
  eapply create_nodes_timed; [exact Ht| |exact Ha0].
  intros p Hp. unfold prune_merge in Ha.
  destruct (prune_merge_from_kept _ _ _ _ _ _ _ _ _ Ha Hp)
    as (j & o & net & c & m & Hj & _ & Hc & <-).
  apply make_candidate_kept in Hc.
  destruct Hc as (_ & (_ & Hpar & Hcur & Hend & _) & _ & Hprob & _).
  apply nth_error_In in Hj. destruct (Hobs o Hj) as (bn & Hbn & Hbo & Hbf).
  rewrite Forall_forall in Hwk. destruct (Hwk bn Hbn) as [_ Hkey].
  specialize (Hkey o Hbo).
  split; [exact Hprob|]. split.
  - rewrite Hpar, Hkey. apply in_map. exact Hbn.
  - intros n Hn Hk.
    assert (n = bn) as ->.
    { apply (@nodes_same_key _ _ _ _ Hnd Hn Hbn). congruence. }
    split; [exact Hbf|]. exists o. auto.
Qed.

(** The branch nodes are branch-flagged nodes of the tree. *)
Definition flagged (g : Gen) (bn : list (Tree.Node ScenarioData.t)) : Prop :=
  forall n, In n bn -> In n (tree g) /\ branch_flag (Tree.data n) = true.

Lemma get_branch_set_flagged (g : Gen) :
  flagged (snd (get_branch_set g)) (fst (get_branch_set g)).
Proof.
  intros n Hn. cbn in *. apply filter_In in Hn. destruct Hn as [Hn Hb].
  unfold Tree.get_leaf_nodes in Hn. apply filter_In in Hn. tauto.
Qed.

Lemma aime_round_timed (g g' : Gen) (bn bn' : list (Tree.Node ScenarioData.t)) :
  keyed (branch_depth g) (tree g) -> timed (tree g) -> flagged g bn ->
  aime_round obs_len pred_len cfg target_lane target_lane_info network g bn = Ok (bn', g') ->
  timed (tree g') /\ flagged g' bn'.
Proof.
  intros Hk Ht Hf H. unfold aime_round in H.
  bind_inv H. rename a into batch. bind_inv H. injection H as <- <-.
  split; [|apply get_branch_set_flagged].
  cbn [get_branch_set snd tree].
  eapply expand_timed; [exact Hk | exact Ht | | exact Ha0].
  intros o Ho. destruct (@mapM_preimage _ _ _ _ _ _ Ha Ho) as (n & Hn & Hobs).
  apply or_raise_ok in Hobs. destruct (Hf n Hn) as [Hin Hb]. exists n. auto.
Qed.

Lemma flagged_branch_nodes (g : Gen) (bn : list (Tree.Node ScenarioData.t)) :
  flagged g bn -> branch_nodes_of g bn.
Proof. intros H n Hn. apply H. exact Hn. Qed.

Lemma aime_loop_timed (fuel : nat) :
  forall (g g' : Gen) (bn : list (Tree.Node ScenarioData.t)),
    keyed (branch_depth g) (tree g) -> timed (tree g) -> flagged g bn ->
    aime_loop obs_len pred_len cfg target_lane target_lane_info network fuel g bn = Ok g' ->
    timed (tree g').
Proof.
  induction fuel as [|fuel IH]; intros g g' bn Hk Ht Hf H; destruct bn as [|n bn];
    cbn [aime_loop] in H; try discriminate; try (injection H as <-; exact Ht).
  bind_inv H. destruct a as [bn1 g1].
  destruct (aime_round_timed Hk Ht Hf Ha) as [Ht1 Hf1].
  destruct (@aime_round_keyed _ _ obs_len pred_len cfg target_lane target_lane_info network
                              g (n :: bn) Hk (flagged_branch_nodes Hf)) as [_ Hok].
  destruct (Hok bn1 g1 Ha) as [Hk1 _].
  exact (IH g1 g' bn1 Hk1 Ht1 Hf1 H).
Qed.

Lemma start_timed (lg0 : option LaneGraph) (bd0 : nat) (lcl_smp : LocalSample)
      (agent_obs : AgentObs) (bn : list (Tree.Node ScenarioData.t)) (g : Gen) :
  start obs_len pred_len cfg target_lane target_lane_info network
        (mkGen Tree.empty lg0 bd0) lcl_smp agent_obs = Ok (bn, g) ->
  timed (tree g) /\ flagged g bn.
Proof.
  unfold start. intro H. bind_inv H. destruct a as [root lg]. bind_inv H.
  injection H as <- <-. split; [|apply get_branch_set_flagged].
  cbn [tree get_branch_set snd].
  unfold init_scenario_tree in Ha0.
  cbn [tree lane_graph branch_depth Tree.add_node Tree.get_node Tree.empty find app bind]
    in Ha0.
  eapply expand_timed; [| | |exact Ha0]; cbn [tree branch_depth].
  - split; [|split].
    + repeat constructor. intros [].
    + constructor; [|constructor]. split; cbn; intros x Hx;
        [discriminate | injection Hx as <-; reflexivity].
    + constructor; [left; reflexivity | constructor].
  - split; [|split].
    + constructor; [|constructor]. unfold timed_node. cbn.
      split; [discriminate|].
      split; [|split; [auto|split; [lia|split; [reflexivity|split; [discriminate|reflexivity]]]]].
      intros o Ho. injection Ho as <-. split; reflexivity.
    + intros n [<-|[]] d Hd. discriminate Hd.
    + eexists. eexists. split; [reflexivity|]. split; reflexivity.
  - intros o [<-|[]]. eexists. split; [left; reflexivity|]. split; reflexivity.
Qed.

Lemma run_timed (lg0 : option LaneGraph) (bd0 : nat) (lcl_smp : LocalSample)
      (agent_obs : AgentObs) (rounds : nat) (g : Gen) :
  search obs_len pred_len cfg target_lane target_lane_info network
         lg0 bd0 lcl_smp agent_obs rounds = Ok g ->
  timed (tree g) /\ keyed (branch_depth g) (tree g) /\ sound (tree g).
Proof.
  intro H. unfold search in H. bind_inv H. destruct a as [bn g0].
  destruct (start_timed _ _ _ _ Ha) as [Ht Hf].
  destruct (@start_keyed _ _ obs_len pred_len cfg target_lane target_lane_info network
                         lg0 bd0 lcl_smp agent_obs) as [_ Hok].
  destruct (Hok bn g0 Ha) as [Hk _].
  split; [exact (aime_loop_timed _ Hk Ht Hf H)|]. split.
  - destruct (@aime_loop_keyed _ _ obs_len pred_len cfg target_lane target_lane_info network
                               rounds g0 bn Hk (flagged_branch_nodes Hf)) as [_ Hok'].
    apply Hok'. exact H.
  - eapply aime_loop_sound; [exact H|]. eapply start_sound. exact Ha.
Qed.

(** X10.  When the loop of [branch_aime] has ended, the search tree is a
    tree of predictions below the root: the first node is the root, with
    the key "root", no parent, depth 0 and no payload; every other node
    has a parent in the tree that lists it as a child and lies one level
    above it, and carries a payload whose SCEN_ID is the key of the node,
    whose PARENT_ID is the key of its parent and whose probability is at
    least 0.001. *)
Theorem search_tree_structure
        (lg0 : option LaneGraph) (bd0 : nat) (lcl_smp : LocalSample)
        (agent_obs : AgentObs) (rounds : nat) (g : Gen) :
  search obs_len pred_len cfg target_lane target_lane_info network
         lg0 bd0 lcl_smp agent_obs rounds = Ok g ->
  exists r rest,
    tree g = r :: rest /\
    Tree.key r = "root"%string /\ Tree.parent_key r = None /\ Tree.depth r = 0%nat /\
    data (Tree.data r) = None /\
    forall n, In n rest ->
              exists pn d,
                In pn (tree g) /\
                Tree.parent_key n = Some (Tree.key pn) /\
                In (Tree.key n) (Tree.children_keys pn) /\
                Tree.depth n = S (Tree.depth pn) /\
                data (Tree.data n) = Some d /\
                SCEN_ID d = Tree.key n /\ PARENT_ID d = Tree.key pn /\
                1 # 1000 <= SCEN_PROB d.
Proof.
  intro H. destruct (run_timed _ _ _ _ _ H) as ((Hnodes & _ & Hroot) & (Hnd & Hwk & _) & Hwf & Hpay).
  destruct (wf_root Hwf) as (r & rest & Etr & Hrp & Hrd & Hrest).
  destruct Hroot as (r' & rest' & Etr' & Hk & Hd).
  rewrite Etr in Etr'. injection Etr' as <- <-.
  exists r, rest. repeat (split; [assumption|]).
  intros n Hn.
  assert (Hin : In n (tree g)) by (rewrite Etr; right; exact Hn).
  destruct (Tree.parent_key n) as [p|] eqn:Ep; [|destruct (Hrest n Hn Ep)].
  destruct (wf_parent Hwf n Hin Ep) as (pn & Hpn & Hkp & Hc).
  destruct (wf_child Hwf pn _ Hpn Hc) as (cn & Hcn & Hkc & _ & Hdep).
  assert (cn = n) as -> by (apply (@nodes_same_key _ _ _ _ Hnd Hcn Hin); exact Hkc).
  destruct (data (Tree.data n)) as [d|] eqn:Ed.
  2:{ exfalso. apply (Hpay n Hin); [congruence | exact Ed]. }
  rewrite Forall_forall in Hnodes, Hwk.
  destruct (Hwk n Hin) as [Hid _].
  destruct (Hnodes n Hin) as (H1 & _).
  destruct (H1 d Ed) as (_ & Hpar & _ & _ & Hq).
  exists pn, d. split; [exact Hpn|]. split; [congruence|]. split; [exact Hc|].
  split; [exact Hdep|]. split; [reflexivity|]. split; [apply Hid; exact Ed|].
  split; [congruence | exact Hq].
Qed.

(** X11.  When the loop of [branch_aime] has ended, the time windows of the
    search tree are chained: the payload of a node spans
    CUR_T <= END_T <= pred_len; it starts at 0 below the root and at the
    END_T of the payload of its parent elsewhere; the window of a node
    with the end flag reaches pred_len, that of a node with the branch
    flag ends before pred_len. *)
Theorem search_tree_windows
        (lg0 : option LaneGraph) (bd0 : nat) (lcl_smp : LocalSample)
        (agent_obs : AgentObs) (rounds : nat) (g : Gen) :
  search obs_len pred_len cfg target_lane target_lane_info network
         lg0 bd0 lcl_smp agent_obs rounds = Ok g ->
  forall n d,
    In n (tree g) -> data (Tree.data n) = Some d ->
    (CUR_T d <= END_T d <= pred_len)%nat /\
    (end_flag (Tree.data n) = true -> END_T d = pred_len) /\
    (branch_flag (Tree.data n) = true -> (END_T d < pred_len)%nat) /\
    exists pn,
      In pn (tree g) /\ Tree.parent_key n = Some (Tree.key pn) /\
      CUR_T d = match data (Tree.data pn) with
                | Some dp => END_T dp
                | None => 0%nat
                end.
Proof.
  intros H n d Hn Hd.
  destruct (run_timed _ _ _ _ _ H) as ((Hnodes & Hlink & _) & _ & _).
  rewrite Forall_forall in Hnodes.
  destruct (Hnodes n Hn) as (H1 & _). destruct (H1 d Hd) as (Hw & Hpar & He & Hb & _).
  split; [exact Hw|]. split; [exact He|]. split; [exact Hb|].
  destruct (Hlink n Hn d Hd) as (pn & o & Hpn & Hk & _ & Ho & Hc).
  exists pn. split; [exact Hpn|]. split; [congruence|].
  destruct (Hnodes pn Hpn) as (_ & H2 & _). destruct (H2 o Ho) as [_ Hcur].
  congruence.
Qed.

(** X12.  When the loop of [branch_aime] has ended, no node of the search
    tree lies deeper than max(1, max_depth); no node has both the branch
    flag and the end flag; and a node with children has the branch flag,
    so a node with the end flag is a leaf. *)
Theorem search_tree_depths
        (lg0 : option LaneGraph) (bd0 : nat) (lcl_smp : LocalSample)
        (agent_obs : AgentObs) (rounds : nat) (g : Gen) :
  search obs_len pred_len cfg target_lane target_lane_info network
         lg0 bd0 lcl_smp agent_obs rounds = Ok g ->
  forall n,
    In n (tree g) ->
    (Tree.depth n <= Nat.max 1 (max_depth cfg))%nat /\
    branch_flag (Tree.data n) && end_flag (Tree.data n) = false /\
    (Tree.is_leaf n = false ->
     branch_flag (Tree.data n) = true /\
     (Tree.depth n = 0%nat \/ (Tree.depth n < max_depth cfg)%nat)) /\
    (end_flag (Tree.data n) = true -> Tree.is_leaf n = true).
Proof.
  intros H n Hn.
  destruct (run_timed _ _ _ _ _ H) as ((Hnodes & _ & _) & _ & _).
  rewrite Forall_forall in Hnodes.
  destruct (Hnodes n Hn) as (_ & _ & H3 & H4 & H5 & H6 & _).
  split; [exact H4|]. split; [exact H5|]. split.
  - intro Hl. split; [auto|]. apply H3. auto.
  - intro He. destruct (Tree.is_leaf n) eqn:El; [reflexivity|].
    rewrite (H6 eq_refl), He in H5. discriminate.
Qed.

Lemma timed_positive tr : timed tr -> positive tr.
Proof.
  intros (Hnodes & _) n d Hn Hd. rewrite Forall_forall in Hnodes.
  destruct (Hnodes n Hn) as (H1 & _). destruct (H1 d Hd) as (_ & _ & _ & _ & Hq).
  eapply Qlt_le_trans; [|exact Hq]. reflexivity.
Qed.

(** X13.  Whatever the network answers, the scenario trees that
    [branch_aime] returns on a generator with an empty tree have leaf
    probabilities that are numbers and add up to 1, a root of
    probability 1, and in every node with children the probability of
    the node is the sum of those of its children. *)
Theorem branch_aime_leaf_probabilities
        (lg0 : option LaneGraph) (bd0 : nat) (lcl_smp : LocalSample)
        (agent_obs : AgentObs) (rounds fuel : nat)
        (trees : list (Tree.t OutData)) (g' : Gen) :
  branch_aime obs_len pred_len cfg target_lane target_lane_info network
              rounds fuel (mkGen Tree.empty lg0 bd0) lcl_smp agent_obs = Ok (trees, g') ->
  forall st, In st trees ->
    (exists r, Tree.get_root st = Some r /\ prob (Tree.data r) = Fin 1) /\
    (exists qs, leaf_probs st = map Fin qs /\ Qsum qs == 1) /\
    balanced st.
Proof.
  intros H st Hst. unfold branch_aime in H.
  bind_inv H. destruct a as [bn g0]. bind_inv H. rename a into g.
  assert (Hsearch : search obs_len pred_len cfg target_lane target_lane_info network
                           lg0 bd0 lcl_smp agent_obs rounds = Ok g).
  { unfold search. rewrite Ha. exact Ha0. }
  destruct (run_timed _ _ _ _ _ Hsearch) as (Ht & _ & _).
  apply timed_positive in Ht.
  unfold finish in H.
  destruct (negb (0 <? List.length (get_end_set (tree g)))%nat); [discriminate|].
  bind_inv H. destruct a as [trees0 tr']. injection H as <- _.
  destruct (get_scenario_tree_spec _ _ Ht Ha1 st Hst)
    as (Hwf & Hbal & (r & rest & E & Hr) & _).
  split; [|split; [|exact Hbal]].
  - exists r. split; [apply (get_root_first Hwf E) | exact Hr].
  - exists (map (fun m : Tree.Node OutData => qof (Tree.data m)) (Tree.get_leaf_nodes st)).
    split.
    + unfold leaf_probs. rewrite map_map. apply map_ext_in. intros m Hn.
      unfold Tree.get_leaf_nodes in Hn. apply filter_In in Hn. destruct Hn as [Hn _].
      destruct Hbal as [Hfin _]. destruct (Hfin m Hn) as [q Hq].
      unfold qof. rewrite Hq. reflexivity.
    + rewrite Qsum_sumQ, (balanced_leaf_sum Hwf Hbal E). unfold qof. rewrite Hr. reflexivity.
Qed.

End Timeline.

(* ================================================================== *)
(** ** The end flags after the extraction *)

Section Labels.
Context {U : Utils}.

Implicit Types (tr : Tree.t ScenarioData.t) (n node : Tree.Node ScenarioData.t)
         (k p : string).

(** [n'] is [n], or [n] with its end flag set. *)
Definition labelled_node n n' : Prop :=
  n' = n \/
  n' = Tree.mkNode (Tree.key n) (Tree.parent_key n) (Tree.children_keys n) (Tree.depth n)
                   (set_end_flag (Tree.data n)).

Definition labelled tr tr' : Prop := Forall2 labelled_node tr tr'.

(** The node with key [k] has its end flag set. *)
Definition flag_at tr k : Prop :=
  exists n, In n tr /\ Tree.key n = k /\ ended n = true.

(** [k] is the key of the node with key [from] or of one of its
    ancestors, the root excluded. *)
Inductive on_path tr : string -> string -> Prop :=
| op_here n :
    In n tr -> Tree.parent_key n <> None -> on_path tr (Tree.key n) (Tree.key n)
| op_up n p k :
    In n tr -> Tree.parent_key n = Some p -> on_path tr p k -> on_path tr (Tree.key n) k.

Lemma labelled_node_shape {n n'} :
  labelled_node n n' ->
  Tree.key n' = Tree.key n /\ Tree.parent_key n' = Tree.parent_key n /\
  Tree.children_keys n' = Tree.children_keys n /\ Tree.depth n' = Tree.depth n /\
  data (Tree.data n') = data (Tree.data n) /\
  (ended n = true -> ended n' = true).
Proof.
  intros [->| ->]; cbn; repeat split; auto.
Qed.

Lemma labelled_node_refl n : labelled_node n n.
Proof. left. reflexivity. Qed.

Lemma labelled_node_trans n1 n2 n3 :
  labelled_node n1 n2 -> labelled_node n2 n3 -> labelled_node n1 n3.
Proof.
  intros [->| ->] [->| ->]; cbn; try (left; reflexivity); right; reflexivity.
Qed.

Lemma labelled_refl tr : labelled tr tr.
Proof. induction tr; constructor; [apply labelled_node_refl | assumption]. Qed.

Lemma labelled_trans {tr1 tr2 tr3} : labelled tr1 tr2 -> labelled tr2 tr3 -> labelled tr1 tr3.
Proof.
  intro H. revert tr3. induction H as [|n1 n2 tr1 tr2 Hn _ IH]; intros tr3 H';
    inversion H'; subst; constructor.
  - eapply labelled_node_trans; eassumption.
  - apply IH. assumption.
Qed.

Lemma labelled_keys {tr tr'} : labelled tr tr' -> Tree.keys tr' = Tree.keys tr.
Proof.
  induction 1 as [|n n' tr tr' Hn _ IH]; [reflexivity|]. cbn.
  destruct (labelled_node_shape Hn) as (-> & _). f_equal. exact IH.
Qed.

Lemma labelled_map_end k tr :
  labelled tr (map (Tree.modify_data k set_end_flag) tr).
Proof.
  induction tr as [|n tr IH]; constructor; [|exact IH].
  unfold Tree.modify_data. destruct (Tree.has_key k n); [right | left]; reflexivity.
Qed.

Lemma on_path_labelled {tr tr' from k} :
  labelled tr tr' -> on_path tr from k -> on_path tr' from k.
Proof.
  intros Hl H. induction H as [n Hn Hp|n p k Hn Hp _ IH].
  - destruct (Forall2_in_l Hl Hn) as (n' & Hn' & Hs).
    destruct (labelled_node_shape Hs) as (Hk & Hpk & _).
    rewrite <- Hk. apply op_here; [exact Hn' | congruence].
  - destruct (Forall2_in_l Hl Hn) as (n' & Hn' & Hs).
    destruct (labelled_node_shape Hs) as (Hk & Hpk & _).
    rewrite <- Hk. apply op_up with (p := p); [exact Hn' | congruence | exact IH].
Qed.

Lemma on_path_labelled_inv {tr tr' from k} :
  labelled tr tr' -> on_path tr' from k -> on_path tr from k.
Proof.
  intros Hl H. induction H as [n' Hn' Hp|n' p k Hn' Hp _ IH].
  - destruct (Forall2_in_r Hl Hn') as (n & Hn & Hs).
    destruct (labelled_node_shape Hs) as (Hk & Hpk & _).
    rewrite Hk. apply op_here; [exact Hn | congruence].
  - destruct (Forall2_in_r Hl Hn') as (n & Hn & Hs).
    destruct (labelled_node_shape Hs) as (Hk & Hpk & _).
    rewrite Hk. apply op_up with (p := p); [exact Hn | congruence | exact IH].
Qed.

(** The path from a node whose parent is [p]. *)
Lemma on_path_step {tr n0 p} k :
  NoDup (Tree.keys tr) -> In n0 tr -> Tree.parent_key n0 = Some p ->
  on_path tr (Tree.key n0) k <-> k = Tree.key n0 \/ on_path tr p k.
Proof.
  intros Hnd Hn0 Hp0. split.
  - intro H. inversion H as [n Hn Hp Hk1 Hk2|n q k' Hn Hq Hrest Hk1 Hk2]; subst.
    + left. reflexivity.
    + assert (n = n0) as -> by (apply (@nodes_same_key _ _ _ _ Hnd Hn Hn0); assumption).
      right. congruence.
  - intros [->|H].
    + apply op_here; [exact Hn0 | congruence].
    + apply op_up with (p := p); assumption.
Qed.

Lemma on_path_root {tr n0 k} :
  NoDup (Tree.keys tr) -> In n0 tr -> Tree.parent_key n0 = None ->
  ~ on_path tr (Tree.key n0) k.
Proof.
  intros Hnd Hn0 Hp0 H.
  inversion H as [n Hn Hp Hk1 Hk2|n q k' Hn Hq Hrest Hk1 Hk2]; subst;
    assert (n = n0) as -> by (apply (@nodes_same_key _ _ _ _ Hnd Hn Hn0); assumption);
    congruence.
Qed.

Lemma flag_at_map_end {tr n0} k :
  In n0 tr ->
  flag_at (map (Tree.modify_data (Tree.key n0) set_end_flag) tr) k
  <-> flag_at tr k \/ k = Tree.key n0.
Proof.
  intro Hn0. split.
  - intros (n' & Hn' & Hk & He). apply in_map_iff in Hn'. destruct Hn' as (n & <- & Hn).
    unfold Tree.modify_data in *. destruct (Tree.has_key (Tree.key n0) n) eqn:E.
    + right. apply has_key_true in E. cbn in Hk. congruence.
    + left. exists n. auto.
  - intros [(n & Hn & Hk & He)| ->].
    + exists (Tree.modify_data (Tree.key n0) set_end_flag n).
      split; [apply in_map; exact Hn|].
      unfold Tree.modify_data. destruct (Tree.has_key (Tree.key n0) n); cbn; auto.
    + exists (Tree.modify_data (Tree.key n0) set_end_flag n0).
      split; [apply in_map; exact Hn0|].
      unfold Tree.modify_data, Tree.has_key. rewrite String.eqb_refl. cbn. auto.
Qed.

(** The walk of [label_up] from [node]: the end flag is set on the nodes
    of the path from [node] and on no other node. *)
Lemma label_up_spec (fuel : nat) :
  forall tr node tr',
    NoDup (Tree.keys tr) ->
    (exists n0, In n0 tr /\ Tree.key n0 = Tree.key node /\
                Tree.parent_key n0 = Tree.parent_key node) ->
    label_up fuel tr node = Ok tr' ->
    labelled tr tr' /\
    forall k, flag_at tr' k <-> flag_at tr k \/ on_path tr (Tree.key node) k.
Proof.
  induction fuel as [|fuel IH]; intros tr node tr' Hnd (n0 & Hn0 & Hk0 & Hp0) H;
    cbn [label_up] in H; destruct (Tree.parent_key node) as [p|] eqn:Hp;
    try discriminate.
  - injection H as <-. split; [apply labelled_refl|].
    intro k. split; [auto|]. intros [Hf|Hpath]; [exact Hf|].
    exfalso. rewrite <- Hk0 in Hpath. exact (on_path_root Hnd Hn0 Hp0 Hpath).
  - bind_inv H. rename a into parent. apply or_raise_ok in Ha.
    apply get_node_some in Ha. destruct Ha as [Hpar Hpk].
    pose proof (labelled_map_end (Tree.key node) tr) as Hl1.
    set (tr1 := map (Tree.modify_data (Tree.key node) set_end_flag) tr) in *.
    assert (Hnd1 : NoDup (Tree.keys tr1)) by (rewrite (labelled_keys Hl1); exact Hnd).
    destruct (IH tr1 parent tr' Hnd1) as [Hl2 Hflags]; [eauto | exact H |].
    split; [eapply labelled_trans; eassumption|].
    intro k. rewrite Hflags, Hpk. unfold tr1. rewrite <- Hk0.
    rewrite (flag_at_map_end k Hn0), (on_path_step k Hnd Hn0 Hp0).
    split.
    + intros [[Hf|E]|Hpath]; auto.
      right. right. eapply on_path_labelled_inv; [|exact Hpath]. rewrite Hk0. exact Hl1.
    + intros [Hf|[E|Hpath]]; auto.
      right. eapply on_path_labelled; [|exact Hpath]. rewrite Hk0. exact Hl1.
  - injection H as <-. split; [apply labelled_refl|].
    intro k. split; [auto|]. intros [Hf|Hpath]; [exact Hf|].
    exfalso. rewrite <- Hk0 in Hpath. exact (on_path_root Hnd Hn0 Hp0 Hpath).
Qed.

Lemma label_all_spec (fuel : nat) (nodes : list (Tree.Node ScenarioData.t)) :
  forall tr tr',
    NoDup (Tree.keys tr) ->
    (forall l, In l nodes ->
               exists n0, In n0 tr /\ Tree.key n0 = Tree.key l /\
                          Tree.parent_key n0 = Tree.parent_key l) ->
    foldM (label_up fuel) nodes tr = Ok tr' ->
    labelled tr tr' /\
    forall k, flag_at tr' k
              <-> flag_at tr k \/ exists l, In l nodes /\ on_path tr (Tree.key l) k.
Proof.
  induction nodes as [|l nodes IH]; intros tr tr' Hnd Hall H; cbn [foldM] in H.
  - injection H as <-. split; [apply labelled_refl|].
    intro k. split; [auto|]. intros [Hf|(l & [] & _)]. exact Hf.
  - bind_inv H. rename a into tr1.
    destruct (@label_up_spec fuel tr l tr1 Hnd (Hall l (or_introl eq_refl)) Ha) as [Hl1 Hf1].
    assert (Hnd1 : NoDup (Tree.keys tr1)) by (rewrite (labelled_keys Hl1); exact Hnd).
    destruct (IH tr1 tr' Hnd1) as [Hl2 Hf2]; [|exact H|].
    { intros m Hm. destruct (Hall m (or_intror Hm)) as (n0 & Hn0 & Hk & Hp).
      destruct (Forall2_in_l Hl1 Hn0) as (n1 & Hn1 & Hs).
      destruct (labelled_node_shape Hs) as (Hk1 & Hp1 & _).
      exists n1. split; [exact Hn1|]. split; congruence. }
    split; [eapply labelled_trans; eassumption|].
    intro k. rewrite Hf2, Hf1. split.
    + intros [[Hf|Hpath]|(m & Hm & Hpath)]; auto.
      * right. exists l. split; [left; reflexivity | exact Hpath].
      * right. exists m. split; [right; exact Hm|].
        eapply on_path_labelled_inv; eassumption.
    + intros [Hf|(m & [<-|Hm] & Hpath)]; auto.
      right. exists m. split; [exact Hm|]. eapply on_path_labelled; eassumption.
Qed.

Lemma label_finished_spec (fuel : nat) {tr tr'} :
  NoDup (Tree.keys tr) ->
  label_finished fuel tr = Ok tr' ->
  labelled tr tr' /\
  forall k, flag_at tr' k
            <-> flag_at tr k \/ exists l, In l (end_leaves tr) /\ on_path tr (Tree.key l) k.
Proof.
  intros Hnd H. unfold label_finished in H.
  apply (@label_all_spec fuel (end_leaves tr) tr tr' Hnd); [|exact H].
  intros l Hl. unfold end_leaves in Hl. apply filter_In in Hl. destruct Hl as [Hl _].
  unfold Tree.get_leaf_nodes in Hl. apply filter_In in Hl. destruct Hl as [Hl _].
  exists l. auto.
Qed.

Variable obs_len : nat.

Lemma get_scenario_tree_labelled
      (fuel : nat) {tr tr'} {trees : list (Tree.t OutData)} :
  NoDup (Tree.keys tr) ->
  get_scenario_tree obs_len fuel tr = Ok (trees, tr') ->
  labelled tr tr' /\
  forall k, flag_at tr' k
            <-> flag_at tr k \/ exists l, In l (end_leaves tr) /\ on_path tr (Tree.key l) k.
Proof.
  intros Hnd H. unfold get_scenario_tree in H.
  bind_inv H. bind_inv H. bind_inv H. rename a1 into tr1.
  bind_inv H. bind_inv H. bind_inv H. injection H as _ <-.
  exact (label_finished_spec fuel Hnd Ha1).
Qed.

(** X14.  [get_scenario_tree] changes the search tree only by setting end
    flags: the tree it leaves has the nodes of the tree it was called
    on, in their order, each unchanged or with its end flag set.  When
    the keys are distinct, a node has the end flag afterwards exactly if
    it had it before or lies, the root excluded, on the path from an
    end-flagged leaf to the root. *)
Theorem get_scenario_tree_labels
        (fuel : nat) tr tr' (trees : list (Tree.t OutData)) :
  NoDup (Tree.keys tr) ->
  get_scenario_tree obs_len fuel tr = Ok (trees, tr') ->
  labelled tr tr' /\
  forall k, flag_at tr' k
            <-> flag_at tr k \/ exists l, In l (end_leaves tr) /\ on_path tr (Tree.key l) k.
Proof.
  intros Hnd H. exact (get_scenario_tree_labelled fuel Hnd H).
Qed.

End Labels.

(* ================================================================== *)
(** ** The nodes of the exported trees *)

Lemma foldM_preserves {X S : Type} (f : S -> X -> result S) (P : S -> Prop) (l : list X) :
  (forall s x s', In x l -> P s -> f s x = Ok s' -> P s') ->
  forall s s', P s -> foldM f l s = Ok s' -> P s'.
Proof.
  induction l as [|x l IH]; intros Hstep s s' Hs H; cbn [foldM] in H.
  - injection H as <-. exact Hs.
  - bind_inv H. apply (IH (fun s0 y s1 Hy => Hstep s0 y s1 (or_intror Hy)) a s'); [|exact H].
    apply (Hstep s x a); [left; reflexivity | exact Hs | exact Ha].
Qed.

Section Exports.
Context {U : Utils}.
Variable obs_len : nat.

(** The trajectories, covariances and goal points that
    [get_scenario_tree] attaches for the payload [d]: the samples of the
    window of [d] after the observed ones. *)
Definition seg_of (d : PredData) : list (list vec2) * list (list Q) * list vec2 :=
  let duration := (END_T d - CUR_T d)%nat in
  (segment_of obs_len duration (TRAJS_POS_HIST d),
   segment_of obs_len duration (TRAJS_COV_HIST d),
   TGT_PTS d).

Lemma attach_seg (d : PredData) (o : OutData) :
  segment (attach obs_len d o) = match segment o with
                                 | Some s => Some s
                                 | None => Some (seg_of d)
                                 end.
Proof. unfold attach. destruct (segment o) eqn:E; [exact E | reflexivity]. Qed.

Section DataTree.
Variable tr : Tree.t ScenarioData.t.
Hypothesis Hwf : wf tr.
Variable rk : string.

(** The nodes of [data_tree] below its root stand for end-flagged nodes
    of the search tree, with the same parents, and carry no segment
    yet. *)
Definition mirrored (dt : Tree.t OutData) : Prop :=
  forall dn, In dn dt ->
             segment (Tree.data dn) = None /\
             (Tree.key dn <> rk ->
              exists m, In m tr /\ Tree.key m = Tree.key dn /\ ended m = true /\
                        Tree.parent_key dn = Tree.parent_key m).

Lemma mirrored_add (dt dt1 : Tree.t OutData) (c : Tree.Node ScenarioData.t)
      (p : string) (o : OutData) :
  mirrored dt -> In c tr -> ended c = true -> Tree.parent_key c = Some p ->
  segment o = None ->
  Tree.add_node dt (Tree.key c) (Some p) o = Ok dt1 -> mirrored dt1.
Proof.
  intros Hm Hc He Hp Ho H. apply add_node_child in H.
  destruct H as (pn & _ & _ & ->).
  intros dn Hdn. apply in_app_or in Hdn. destruct Hdn as [Hdn|[<-|[]]].
  - apply in_map_iff in Hdn. destruct Hdn as (dn0 & <- & Hdn0).
    rewrite data_add_child, key_add_child, parent_add_child.
    apply Hm; assumption.
  - cbn. split; [exact Ho|]. intros _. exists c. auto.
Qed.

Lemma child_in_tree (n c : Tree.Node ScenarioData.t) :
  In n tr -> In c tr -> In (Tree.key c) (Tree.children_keys n) ->
  Tree.parent_key c = Some (Tree.key n).
Proof.
  intros Hn Hc Hin. destruct (wf_child Hwf n _ Hn Hin) as (cn & Hcn & Hk & Hp & _).
  assert (cn = c) as <- by (apply (@nodes_same_key _ tr); [apply (wf_nodup Hwf)|..]; assumption).
  exact Hp.
Qed.

Lemma normalize_bfs_mirrored (fuel : nat) :
  forall (queue : list (Tree.Node ScenarioData.t)) (dt dt' : Tree.t OutData),
    mirrored dt -> (forall q, In q queue -> In q tr) ->
    normalize_bfs fuel tr queue dt = Ok dt' -> mirrored dt'.
Proof.
  induction fuel as [|fuel IH]; intros queue dt dt' Hm Hq H;
    destruct queue as [|cur rest]; cbn [normalize_bfs] in H;
    try discriminate; try (injection H as <-; exact Hm).
  bind_inv H. bind_inv H. rename a0 into children. bind_inv H. bind_inv H.
  rename a1 into dt1.
  destruct (lookup_all _ _ Ha0) as [Hks Hch].
  apply (IH (rest ++ filter ended children) dt1 dt'); [| |exact H].
  - revert Ha2. apply foldM_preserves; [|exact Hm].
    intros s c s' Hc Hs Hstep. bind_inv Hstep.
    apply filter_In in Hc. destruct Hc as [Hc He].
    pose proof (fun Hp Ho => @mirrored_add s s' c (Tree.key cur) _ Hs (Hch c Hc) He Hp Ho Hstep)
      as Hadd.
    apply Hadd; [|reflexivity].
    apply child_in_tree; [apply Hq; left; reflexivity | exact (Hch c Hc)|].
    rewrite <- Hks. apply in_map. exact Hc.
  - intros q Hin. apply in_app_or in Hin. destruct Hin as [Hin|Hin].
    + apply Hq. right. exact Hin.
    + apply filter_In in Hin. apply Hch. apply Hin.
Qed.

Lemma build_data_tree_mirrored (fuel : nat) (root_node r : Tree.Node ScenarioData.t)
      (dt dt' : Tree.t OutData) :
  In r tr -> Tree.key r = Tree.key root_node ->
  Tree.children_keys r = Tree.children_keys root_node ->
  mirrored dt -> build_data_tree fuel tr root_node dt = Ok dt' -> mirrored dt'.
Proof.
  intros Hr Hrk Hrc Hm H. unfold build_data_tree in H.
  revert H. apply foldM_preserves; [|exact Hm].
  intros s k s' Hk Hs Hstep. bind_inv Hstep. rename a into node.
  apply or_raise_ok in Ha. apply get_node_some in Ha. destruct Ha as [Hnode Hnk].
  destruct (ended node) eqn:He; cbn [negb] in Hstep; [|injection Hstep as <-; exact Hs].
  bind_inv Hstep. rename a into s1.
  apply (@normalize_bfs_mirrored fuel [node] s1 s'); [| |exact Hstep].
  - pose proof (fun Hp Ho => @mirrored_add s s1 node (Tree.key root_node) _ Hs Hnode He Hp Ho Ha)
      as Hadd.
    apply Hadd; [|reflexivity].
    rewrite <- Hrk. apply child_in_tree; [exact Hr | exact Hnode|].
    rewrite Hnk, Hrc. exact Hk.
  - intros q [<-|[]]. exact Hnode.
Qed.

(** A segment of [data_tree] is that of the payload of the node of the
    search tree with the same key. *)
Definition segmented (dt : Tree.t OutData) : Prop :=
  forall dn, In dn dt ->
             segment (Tree.data dn) = None \/
             exists m d, In m tr /\ Tree.key m = Tree.key dn /\
                         data (Tree.data m) = Some d /\
                         segment (Tree.data dn) = Some (seg_of d).

(** [b] is [a] with a segment possibly attached. *)
Definition kept (a b : Tree.Node OutData) : Prop :=
  Tree.key b = Tree.key a /\ Tree.parent_key b = Tree.parent_key a /\
  (segment (Tree.data a) <> None -> segment (Tree.data b) <> None).

Definition grown (dt dt' : Tree.t OutData) : Prop := Forall2 kept dt dt'.

Lemma grown_refl (dt : Tree.t OutData) : grown dt dt.
Proof. induction dt; constructor; [repeat split; auto | assumption]. Qed.

Lemma grown_trans {dt1 dt2 dt3 : Tree.t OutData} :
  grown dt1 dt2 -> grown dt2 dt3 -> grown dt1 dt3.
Proof.
  intro H. revert dt3. induction H as [|a b l l' (H1 & H2 & H3) _ IH]; intros dt3 H';
    inversion H' as [|? c ? l'' (H1' & H2' & H3') Hrest]; subst; constructor.
  - split; [congruence|]. split; [congruence | auto].
  - apply IH. exact Hrest.
Qed.

Lemma grown_attach (k : string) (d : PredData) (dt : Tree.t OutData) :
  grown dt (map (Tree.modify_data k (attach obs_len d)) dt).
Proof.
  induction dt as [|a dt IH]; constructor; [|exact IH].
  unfold kept, Tree.modify_data. destruct (Tree.has_key k a); cbn; [|auto].
  split; [reflexivity|]. split; [reflexivity|]. intros _. rewrite attach_seg.
  destruct (segment (Tree.data a)); discriminate.
Qed.

Lemma attach_up_spec (fuel : nat) :
  forall (dt : Tree.t OutData) (node : Tree.Node ScenarioData.t) (dt' : Tree.t OutData),
    In node tr -> segmented dt ->
    attach_up obs_len fuel tr dt node = Ok dt' ->
    segmented dt' /\ grown dt dt' /\
    forall k, on_path tr (Tree.key node) k ->
              forall dn, In dn dt' -> Tree.key dn = k -> segment (Tree.data dn) <> None.
Proof.
  pose proof (wf_nodup Hwf) as Hnd.
  induction fuel as [|fuel IH]; intros dt node dt' Hnode Hseg H;
    cbn [attach_up] in H; destruct (Tree.parent_key node) as [p|] eqn:Hp;
    try discriminate.
  - injection H as <-. split; [exact Hseg|]. split; [apply grown_refl|].
    intros k Hpath. exfalso. exact (on_path_root Hnd Hnode Hp Hpath).
  - bind_inv H. rename a into d. apply or_raise_ok in Ha.
    bind_inv H. bind_inv H. rename a0 into parent. apply or_raise_ok in Ha1.
    apply get_node_some in Ha1. destruct Ha1 as [Hpar Hpk].
    set (dt1 := map (Tree.modify_data (Tree.key node) (attach obs_len d)) dt) in *.
    assert (Hseg1 : segmented dt1).
    { intros dn1 Hdn1. apply in_map_iff in Hdn1. destruct Hdn1 as (dn & <- & Hdn).
      unfold Tree.modify_data. destruct (Tree.has_key (Tree.key node) dn) eqn:E;
        [|apply Hseg; exact Hdn].
      cbn [Tree.data Tree.key]. rewrite attach_seg.
      destruct (Hseg dn Hdn) as [Hnone|(m & d0 & Hm & Hk & Hd & Hs)].
      - right. rewrite Hnone. exists node, d. apply has_key_true in E. auto.
      - right. rewrite Hs. exists m, d0. auto. }
    destruct (IH dt1 parent dt' Hpar Hseg1 H) as (Hseg' & Hg' & Hhold').
    split; [exact Hseg'|]. split; [exact (grown_trans (grown_attach _ _ dt) Hg')|].
    intros k Hpath dn' Hdn' Hk.
    apply (on_path_step k Hnd Hnode Hp) in Hpath. destruct Hpath as [->|Hpath].
    + destruct (Forall2_in_r Hg' Hdn') as (dn1 & Hdn1 & Hk1 & _ & Hkeep).
      apply Hkeep. apply in_map_iff in Hdn1. destruct Hdn1 as (dn & <- & Hdn).
      unfold Tree.modify_data in *. destruct (Tree.has_key (Tree.key node) dn) eqn:E.
      * cbn [Tree.data]. rewrite attach_seg. destruct (segment (Tree.data dn)); discriminate.
      * exfalso. unfold Tree.has_key in E. apply String.eqb_neq in E. apply E.
        cbn [Tree.key] in Hk1. congruence.
    + rewrite <- Hpk in Hpath. exact (Hhold' k Hpath dn' Hdn' Hk).
  - injection H as <-. split; [exact Hseg|]. split; [apply grown_refl|].
    intros k Hpath. exfalso. exact (on_path_root Hnd Hnode Hp Hpath).
Qed.

Lemma attach_all_spec (fuel : nat) (nodes : list (Tree.Node ScenarioData.t)) :
  forall dt dt' : Tree.t OutData,
    (forall l, In l nodes -> In l tr) -> segmented dt ->
    foldM (attach_up obs_len fuel tr) nodes dt = Ok dt' ->
    segmented dt' /\ grown dt dt' /\
    forall l k, In l nodes -> on_path tr (Tree.key l) k ->
                forall dn, In dn dt' -> Tree.key dn = k -> segment (Tree.data dn) <> None.
Proof.
  induction nodes as [|l nodes IH]; intros dt dt' Hin Hseg H; cbn [foldM] in H.
  - injection H as <-. split; [exact Hseg|]. split; [apply grown_refl|]. intros ? ? [].
  - bind_inv H. rename a into dt1.
    destruct (@attach_up_spec fuel dt l dt1 (Hin l (or_introl eq_refl)) Hseg Ha)
      as (Hseg1 & Hg1 & Hhold1).
    destruct (IH dt1 dt' (fun m Hm => Hin m (or_intror Hm)) Hseg1 H) as (Hseg' & Hg' & Hhold').
    split; [exact Hseg'|]. split; [exact (grown_trans Hg1 Hg')|].
    intros m k [<-|Hm] Hpath dn' Hdn' Hk.
    + destruct (Forall2_in_r Hg' Hdn') as (dn1 & Hdn1 & Hk1 & _ & Hkeep).
      apply Hkeep. apply (Hhold1 k Hpath dn1 Hdn1). congruence.
    + exact (Hhold' m k Hm Hpath dn' Hdn' Hk).
Qed.

Lemma grown_keys {dt dt' : Tree.t OutData} : grown dt dt' -> Tree.keys dt' = Tree.keys dt.
Proof.
  induction 1 as [|a b l l' (Hk & _) _ IH]; [reflexivity|]. cbn. rewrite Hk. f_equal. exact IH.
Qed.

(** A walk of [attach_up] that ends finds every node of its path in
    [data_tree]. *)
Lemma attach_up_keys (fuel : nat) :
  forall (dt : Tree.t OutData) (node : Tree.Node ScenarioData.t) (dt' : Tree.t OutData),
    In node tr ->
    attach_up obs_len fuel tr dt node = Ok dt' ->
    forall k, on_path tr (Tree.key node) k -> In k (Tree.keys dt).
Proof.
  pose proof (wf_nodup Hwf) as Hnd.
  induction fuel as [|fuel IH]; intros dt node dt' Hnode H;
    cbn [attach_up] in H; destruct (Tree.parent_key node) as [p|] eqn:Hp;
    try discriminate.
  - intros k Hpath. exfalso. exact (on_path_root Hnd Hnode Hp Hpath).
  - bind_inv H. rename a into d. bind_inv H. rename a into dn. apply or_raise_ok in Ha0.
    bind_inv H. rename a into parent. apply or_raise_ok in Ha1.
    apply get_node_some in Ha1. destruct Ha1 as [Hpar Hpk].
    apply get_node_some in Ha0. destruct Ha0 as [Hdn Hdnk].
    intros k Hpath.
    apply (on_path_step k Hnd Hnode Hp) in Hpath. destruct Hpath as [->|Hpath].
    + rewrite <- Hdnk. apply in_map. exact Hdn.
    + rewrite <- Hpk in Hpath.
      rewrite <- (grown_keys (grown_attach (Tree.key node) d dt)).
      exact (IH _ parent dt' Hpar H k Hpath).
  - intros k Hpath. exfalso. exact (on_path_root Hnd Hnode Hp Hpath).
Qed.

Lemma attach_all_keys (fuel : nat) (nodes : list (Tree.Node ScenarioData.t)) :
  forall dt dt' : Tree.t OutData,
    (forall l, In l nodes -> In l tr) -> segmented dt ->
    foldM (attach_up obs_len fuel tr) nodes dt = Ok dt' ->
    forall l k, In l nodes -> on_path tr (Tree.key l) k -> In k (Tree.keys dt).
Proof.
  induction nodes as [|l nodes IH]; intros dt dt' Hin Hseg H; cbn [foldM] in H.
  - intros ? ? [].
  - bind_inv H. rename a into dt1.
    destruct (@attach_up_spec fuel dt l dt1 (Hin l (or_introl eq_refl)) Hseg Ha)
      as (Hseg1 & Hg1 & _).
    intros m k [<-|Hm] Hpath.
    + exact (@attach_up_keys fuel dt l dt1 (Hin l (or_introl eq_refl)) Ha k Hpath).
    + rewrite <- (grown_keys Hg1).
      exact (IH dt1 dt' (fun x Hx => Hin x (or_intror Hx)) Hseg1 H m k Hm Hpath).
Qed.

Lemma on_path_target {from k : string} :
  on_path tr from k -> exists n, In n tr /\ Tree.key n = k /\ Tree.parent_key n <> None.
Proof.
  induction 1 as [n Hn Hp|n p k Hn Hp _ IH]; [exists n; auto | exact IH].
Qed.

End DataTree.

Lemma labelled_relabelled (tr tr' : Tree.t ScenarioData.t) :
  labelled tr tr' -> relabelled tr tr'.
Proof.
  unfold labelled, relabelled. intro H. eapply Forall2_impl; [|exact H].
  intros n n' Hn. destruct (labelled_node_shape Hn) as (Hk & Hp & Hc & Hd & _). auto.
Qed.

Lemma mapM_image {X Y : Type} (f : X -> result Y) (l : list X) (l' : list Y) (x : X) :
  mapM f l = Ok l' -> In x l -> exists y, In y l' /\ f x = Ok y.
Proof.
  revert l'. induction l as [|a l IH]; intros l' H Hx; [destruct Hx|].
  cbn [mapM] in H. bind_inv H. bind_inv H. injection H as <-.
  destruct Hx as [<-|Hx].
  - exists a0. split; [left; reflexivity | exact Ha].
  - destruct (IH _ Ha0 Hx) as (y & Hy & Hf). exists y. split; [right; exact Hy | exact Hf].
Qed.

Lemma copy_bfs_keys (dt : Tree.t OutData) (fuel : nat) :
  forall (queue : list (Tree.Node OutData)) (st st' : Tree.t OutData),
    copy_bfs fuel dt queue st = Ok st' -> incl (Tree.keys st) (Tree.keys st').
Proof.
  induction fuel as [|fuel IH]; intros queue st st' H;
    destruct queue as [|cur rest]; cbn [copy_bfs] in H;
    try discriminate; try (injection H as <-; apply incl_refl).
  bind_inv H. bind_inv H. rename a0 into st1.
  apply incl_tran with (m := Tree.keys st1); [|exact (IH _ _ _ H)].
  revert Ha0.
  apply (@foldM_preserves _ _ _ (fun s => incl (Tree.keys st) (Tree.keys s)));
    [|apply incl_refl].
  intros s c s' _ Hs Hstep. apply add_node_child in Hstep.
  destruct Hstep as (pn & _ & _ & ->).
  apply incl_tran with (m := Tree.keys s); [exact Hs|].
  unfold Tree.keys at 2. rewrite map_app.
  fold (Tree.keys (map (Tree.add_child (Tree.key cur) (Tree.key c)) s)).
  rewrite keys_add_child. apply incl_appl. apply incl_refl.
Qed.

(** Every node of [data_tree] below its root is copied into a scenario
    tree. *)
Lemma separate_complete (rk : string) (dt : Tree.t OutData) (fuel : nat)
      (trees : list (Tree.t OutData)) :
  good rk dt -> separate fuel dt = Ok trees ->
  forall dn, In dn dt -> Tree.key dn <> rk ->
             exists st n, In st trees /\ In n st /\ Tree.key n = Tree.key dn.
Proof.
  intros Hgood Hsep.
  pose proof Hgood as (Hwf & (r & rest & Edt & Hrk) & _).
  pose proof (wf_nodup Hwf) as Hnd.
  destruct (wf_root Hwf) as (r0 & rest0 & Edt0 & Hrp & _ & Hrest).
  rewrite Edt in Edt0. injection Edt0 as <- <-.
  assert (Hrin : In r dt) by (rewrite Edt; left; reflexivity).
  assert (Hall : forall d dn, (Tree.depth dn <= d)%nat -> In dn dt -> Tree.key dn <> rk ->
                              exists st n, In st trees /\ In n st /\ Tree.key n = Tree.key dn).
  { induction d as [|d IH]; intros dn Hd Hdn Hk.
    - exfalso. rewrite Edt in Hdn. destruct Hdn as [<-|Hdn]; [congruence|].
      destruct (Tree.parent_key dn) as [p|] eqn:Hp; [|exact (Hrest dn Hdn Hp)].
      assert (Hdn' : In dn dt) by (rewrite Edt; right; exact Hdn).
      destruct (wf_parent Hwf dn Hdn' Hp) as (pn & Hpn & _ & Hc).
      destruct (wf_child Hwf pn _ Hpn Hc) as (cn & Hcn & Hck & _ & Hdep).
      assert (cn = dn) as -> by (apply (@nodes_same_key _ dt _ _ Hnd Hcn Hdn'); exact Hck).
      lia.
    - destruct (Tree.parent_key dn) as [p|] eqn:Hp.
      2:{ exfalso. rewrite Edt in Hdn. destruct Hdn as [<-|Hdn]; [congruence|].
          exact (Hrest dn Hdn Hp). }
      destruct (wf_parent Hwf dn Hdn Hp) as (pn & Hpn & Hpk & Hc).
      destruct (wf_child Hwf pn _ Hpn Hc) as (cn & Hcn & Hck & _ & Hdep).
      assert (cn = dn) as -> by (apply (@nodes_same_key _ dt _ _ Hnd Hcn Hdn); exact Hck).
      destruct (String.eqb_spec p rk) as [Ep|Ep].
      + assert (pn = r) as ->
            by (apply (@nodes_same_key _ dt _ _ Hnd Hpn Hrin); congruence).
        unfold separate in Hsep. rewrite (get_root_first Hwf Edt) in Hsep.
        cbn [or_raise bind] in Hsep.
        destruct (@mapM_image _ _ _ _ _ _ Hsep Hc) as (st & Hst & Hf).
        bind_inv Hf. rename a into node. apply or_raise_ok in Ha.
        apply get_node_some in Ha. destruct Ha as [_ Hnk].
        bind_inv Hf. rename a into st0. cbn in Ha. injection Ha as <-.
        apply copy_bfs_keys in Hf.
        assert (Hin : In (Tree.key dn) (Tree.keys st)).
        { apply Hf. cbn. left. exact Hnk. }
        apply in_map_iff in Hin. destruct Hin as (n & Hn & Hin).
        exists st, n. auto.
      + destruct (IH pn) as (st & np & Hst & Hnp & Hnpk); [lia | exact Hpn | congruence|].
        pose proof (separate_copied Hgood _ Hsep st Hst) as (Hwfs & _ & Hnodes & _).
        destruct (Hnodes np Hnp) as (_ & dn' & Hdn' & Hk' & _ & _ & Hch).
        assert (dn' = pn) as ->
            by (apply (@nodes_same_key _ dt _ _ Hnd Hdn' Hpn); congruence).
        destruct Hch as [[[] _]|Hch].
        rewrite <- Hch in Hc.
        destruct (wf_child Hwfs np _ Hnp Hc) as (cn & Hcn' & Hck' & _).
        exists st, cn. auto. }
  intros dn Hdn Hk. exact (Hall (Tree.depth dn) dn (Nat.le_refl _) Hdn Hk).
Qed.

(** What the nodes of the scenario trees stand for. *)
Lemma get_scenario_tree_exports (fuel : nat) (tr tr' : Tree.t ScenarioData.t)
      (trees : list (Tree.t OutData)) :
  wf tr -> positive tr ->
  (forall n, In n tr -> ended n = true -> Tree.is_leaf n = true) ->
  get_scenario_tree obs_len fuel tr = Ok (trees, tr') ->
  forall st n, In st trees -> In n st ->
    exists m d, In m tr' /\ Tree.key m = Tree.key n /\ ended m = true /\
                data (Tree.data m) = Some d /\
                segment (Tree.data n) = Some (seg_of d) /\
                (forall p, Tree.parent_key n = Some p -> Tree.parent_key m = Some p).
Proof.
  intros Hwf Hpos Hleaf H st n Hst Hn.
  pose proof (wf_nodup Hwf) as Hnd.
  unfold get_scenario_tree in H.
  bind_inv H. rename a into root_node. bind_inv H. rename a into dt0.
  bind_inv H. rename a into tr1. bind_inv H. rename a into dt1.
  bind_inv H. rename a into dt2. bind_inv H. rename a into sts.
  injection H as <- <-.
  cbn in Ha0. injection Ha0 as <-.
  set (rk := Tree.key root_node) in *.
  destruct (wf_root Hwf) as (r & rest & Etr & Hrp & _ & Hrest).
  rewrite (get_root_first Hwf Etr) in Ha. cbn in Ha. injection Ha as Er.
  destruct (label_finished_spec fuel Hnd Ha1) as [Hl Hflags].
  pose proof (wf_relabelled Hwf (labelled_relabelled Hl)) as Hwf1.
  pose proof (wf_nodup Hwf1) as Hnd1.
  assert (Hrin : In r tr) by (rewrite Etr; left; reflexivity).
  destruct (Forall2_in_l Hl Hrin) as (r1 & Hr1 & Hs1).
  destruct (labelled_node_shape Hs1) as (Hk1 & _ & Hc1 & _).
  assert (Hgood0 : good rk [Tree.mkNode rk None [] 0 (mkOut (Fin 1) None)]).
  { split; [apply wf_single|]. split; [eexists _, _; split; reflexivity|].
    split; [|split].
    - intros x [<-|[]]. cbn. eauto.
    - intros x [<-|[]] Hk. cbn in Hk. congruence.
    - intros x [<-|[]] Hp. discriminate. }
  pose proof (label_finished_positive _ Hpos Ha1) as Hpos1.
  assert (Hgood1 : good rk dt1).
  { eapply (@build_data_tree_good_from _ rk tr1 Hpos1 fuel root_node eq_refl);
      [exact Hgood0 | exact Ha2]. }
  assert (Hgood2 : good rk dt2).
  { eapply attach_all_good; [exact Hgood1 | exact Ha3]. }
  assert (Hmir1 : mirrored tr1 rk dt1).
  { apply (@build_data_tree_mirrored tr1 Hwf1 rk fuel root_node r1
                                     [Tree.mkNode rk None [] 0 (mkOut (Fin 1) None)] dt1);
      [exact Hr1 | subst root_node; exact Hk1 | subst root_node; exact Hc1 | | exact Ha2].
    intros dn [<-|[]]. cbn. split; [reflexivity|]. congruence. }
  assert (Hseg1 : segmented tr1 dt1).
  { intros dn Hdn. left. apply (Hmir1 dn Hdn). }
  destruct (@attach_all_spec tr1 Hwf1 fuel (end_leaves tr1) dt1 dt2) as (Hseg2 & Hg & Hhold);
    [|exact Hseg1 | exact Ha3|].
  { intros l Hl1. unfold end_leaves in Hl1. apply filter_In in Hl1. destruct Hl1 as [Hl1 _].
    unfold Tree.get_leaf_nodes in Hl1. apply filter_In in Hl1. tauto. }
  pose proof (separate_copied Hgood2 _ Ha4 st Hst) as (_ & _ & Hnodes & _).
  destruct (Hnodes n Hn) as (Hnrk & dn2 & Hdn2 & Hk2 & Hd2 & Hp2 & _).
  destruct (Forall2_in_r Hg Hdn2) as (dn1 & Hdn1 & Hkk & Hpk & _).
  destruct (Hmir1 dn1 Hdn1) as [_ Hm]. destruct Hm as (m & Hm & Hmk & Hme & Hmp); [congruence|].
  assert (Hkm : Tree.key m = Tree.key n) by congruence.
  assert (Hpath : exists l, In l (end_leaves tr) /\ on_path tr (Tree.key l) (Tree.key m)).
  { assert (Hf : flag_at tr1 (Tree.key m)) by (exists m; auto).
    apply Hflags in Hf. destruct Hf as [(n0 & Hn0 & Hk0 & He0)|Hf]; [|exact Hf].
    exists n0. split.
    - unfold end_leaves, Tree.get_leaf_nodes. apply filter_In. split; [|exact He0].
      apply filter_In. split; [exact Hn0 | apply Hleaf; assumption].
    - rewrite <- Hk0. apply op_here; [exact Hn0|].
      intro Hnone. rewrite Etr in Hn0. destruct Hn0 as [<-|Hn0]; [|exact (Hrest n0 Hn0 Hnone)].
      apply Hnrk. subst root_node. unfold rk. congruence. }
  destruct Hpath as (l & Hlin & Hpath).
  assert (Hl0 : In l tr).
  { unfold end_leaves in Hlin. apply filter_In in Hlin. destruct Hlin as [Hlin _].
    unfold Tree.get_leaf_nodes in Hlin. apply filter_In in Hlin. tauto. }
  destruct (Forall2_in_l Hl Hl0) as (l1 & Hl1 & Hsl).
  destruct (labelled_node_shape Hsl) as (Hlk & _ & Hlc & _ & _ & Hle).
  assert (Hl1end : In l1 (end_leaves tr1)).
  { unfold end_leaves, Tree.get_leaf_nodes in *.
    apply filter_In in Hlin. destruct Hlin as [Hlin He]. apply filter_In in Hlin.
    destruct Hlin as [_ Hlf]. apply filter_In. split; [|apply Hle; exact He].
    apply filter_In. split; [exact Hl1|]. unfold Tree.is_leaf in *. rewrite Hlc. exact Hlf. }
  assert (Hsome : segment (Tree.data dn2) <> None).
  { apply (Hhold l1 (Tree.key m) Hl1end); [|exact Hdn2 | congruence].
    rewrite Hlk. exact (on_path_labelled Hl Hpath). }
  destruct (Hseg2 dn2 Hdn2) as [Hnone|(m' & d & Hm' & Hmk' & Hd' & Hs')]; [contradiction|].
  assert (m' = m) as -> by (apply (@nodes_same_key _ tr1 _ _ Hnd1 Hm' Hm); congruence).
  exists m, d. split; [exact Hm|]. split; [exact Hkm|]. split; [exact Hme|].
  split; [exact Hd'|]. split; [rewrite <- Hd2; exact Hs'|].
  intros p Hp. destruct (Hp2 p Hp) as [Hdp _]. congruence.
Qed.

(** Every end-flagged node of the labelled tree is exported. *)
Lemma get_scenario_tree_complete (fuel : nat) (tr tr' : Tree.t ScenarioData.t)
      (trees : list (Tree.t OutData)) :
  wf tr -> positive tr ->
  (forall n, In n tr -> ended n = true ->
             Tree.is_leaf n = true /\ Tree.parent_key n <> None) ->
  get_scenario_tree obs_len fuel tr = Ok (trees, tr') ->
  forall m, In m tr' -> ended m = true ->
            exists st n, In st trees /\ In n st /\ Tree.key n = Tree.key m.
Proof.
  intros Hwf Hpos Hleaf H m Hm Hme.
  pose proof (wf_nodup Hwf) as Hnd.
  unfold get_scenario_tree in H.
  bind_inv H. rename a into root_node. bind_inv H. rename a into dt0.
  bind_inv H. rename a into tr1. bind_inv H. rename a into dt1.
  bind_inv H. rename a into dt2. bind_inv H. rename a into sts.
  injection H as <- <-.
  cbn in Ha0. injection Ha0 as <-.
  set (rk := Tree.key root_node) in *.
  destruct (wf_root Hwf) as (r & rest & Etr & Hrp & _ & Hrest).
  rewrite (get_root_first Hwf Etr) in Ha. cbn in Ha. injection Ha as Er.
  destruct (label_finished_spec fuel Hnd Ha1) as [Hl Hflags].
  pose proof (wf_relabelled Hwf (labelled_relabelled Hl)) as Hwf1.
  pose proof (wf_nodup Hwf1) as Hnd1.
  assert (Hrin : In r tr) by (rewrite Etr; left; reflexivity).
  destruct (Forall2_in_l Hl Hrin) as (r1 & Hr1 & Hs1).
  destruct (labelled_node_shape Hs1) as (Hk1 & Hp1 & Hc1 & _).
  assert (Hgood0 : good rk [Tree.mkNode rk None [] 0 (mkOut (Fin 1) None)]).
  { split; [apply wf_single|]. split; [eexists _, _; split; reflexivity|].
    split; [|split].
    - intros x [<-|[]]. cbn. eauto.
    - intros x [<-|[]] Hk. cbn in Hk. congruence.
    - intros x [<-|[]] Hp. discriminate. }
  pose proof (label_finished_positive _ Hpos Ha1) as Hpos1.
  assert (Hgood1 : good rk dt1).
  { eapply (@build_data_tree_good_from _ rk tr1 Hpos1 fuel root_node eq_refl);
      [exact Hgood0 | exact Ha2]. }
  assert (Hgood2 : good rk dt2).
  { eapply attach_all_good; [exact Hgood1 | exact Ha3]. }
  assert (Hmir1 : mirrored tr1 rk dt1).
  { apply (@build_data_tree_mirrored tr1 Hwf1 rk fuel root_node r1
                                     [Tree.mkNode rk None [] 0 (mkOut (Fin 1) None)] dt1);
      [exact Hr1 | subst root_node; exact Hk1 | subst root_node; exact Hc1 | | exact Ha2].
    intros dn [<-|[]]. cbn. split; [reflexivity|]. congruence. }
  assert (Hseg1 : segmented tr1 dt1).
  { intros dn Hdn. left. apply (Hmir1 dn Hdn). }
  assert (Hends : forall l, In l (end_leaves tr1) -> In l tr1).
  { intros l Hl1. unfold end_leaves in Hl1. apply filter_In in Hl1. destruct Hl1 as [Hl1 _].
    unfold Tree.get_leaf_nodes in Hl1. apply filter_In in Hl1. tauto. }
  destruct (@attach_all_spec tr1 Hwf1 fuel (end_leaves tr1) dt1 dt2 Hends Hseg1 Ha3)
    as (_ & Hg & _).
  pose proof (@attach_all_keys tr1 Hwf1 fuel (end_leaves tr1) dt1 dt2 Hends Hseg1 Ha3)
    as Hkeys.
  assert (Hpath : exists l, In l (end_leaves tr) /\ on_path tr (Tree.key l) (Tree.key m)).
  { assert (Hf : flag_at tr1 (Tree.key m)) by (exists m; auto).
    apply Hflags in Hf. destruct Hf as [(n0 & Hn0 & Hk0 & He0)|Hf]; [|exact Hf].
    destruct (Hleaf n0 Hn0 He0) as [Hlf Hnp].
    exists n0. split.
    - unfold end_leaves, Tree.get_leaf_nodes. apply filter_In. split; [|exact He0].
      apply filter_In. split; [exact Hn0 | exact Hlf].
    - rewrite <- Hk0. apply op_here; assumption. }
  destruct Hpath as (l & Hlin & Hpath).
  assert (Hl0 : In l tr).
  { unfold end_leaves in Hlin. apply filter_In in Hlin. destruct Hlin as [Hlin _].
    unfold Tree.get_leaf_nodes in Hlin. apply filter_In in Hlin. tauto. }
  destruct (Forall2_in_l Hl Hl0) as (l1 & Hl1 & Hsl).
  destruct (labelled_node_shape Hsl) as (Hlk & _ & Hlc & _ & _ & Hle).
  assert (Hl1end : In l1 (end_leaves tr1)).
  { unfold end_leaves, Tree.get_leaf_nodes in *.
    apply filter_In in Hlin. destruct Hlin as [Hlin He]. apply filter_In in Hlin.
    destruct Hlin as [_ Hlf]. apply filter_In. split; [|apply Hle; exact He].
    apply filter_In. split; [exact Hl1|]. unfold Tree.is_leaf in *. rewrite Hlc. exact Hlf. }
  assert (Hpath1 : on_path tr1 (Tree.key l1) (Tree.key m)).
  { rewrite Hlk. exact (on_path_labelled Hl Hpath). }
  pose proof (Hkeys l1 (Tree.key m) Hl1end Hpath1) as Hin.
  rewrite <- (grown_keys Hg) in Hin.
  apply in_map_iff in Hin. destruct Hin as (dn2 & Hdk & Hdn2).
  destruct (@separate_complete rk dt2 fuel sts Hgood2 Ha4 dn2 Hdn2) as (st & n & Hst & Hn & Hnk).
  { rewrite Hdk. intro E.
    destruct (on_path_target Hpath1) as (x & Hx & Hxk & Hxp).
    assert (x = r1) as -> by (apply (@nodes_same_key _ tr1 _ _ Hnd1 Hx Hr1);
                              subst root_node; unfold rk in E; congruence).
    congruence. }
  exists st, n. split; [exact Hst|]. split; [exact Hn | congruence].
Qed.

End Exports.

(* ================================================================== *)
(** ** The scenario trees of a call *)

Section ExportedRun.
Context {B : Backend} {U : Utils}.
Variables obs_len pred_len : nat.
Variable cfg : Config.
Variable target_lane : option (list vec2).
Variable target_lane_info : list (list Q).
Variable network : nat -> list Obs.t -> list NetOut.

(** X15.  Every node of every scenario tree that [branch_aime] returns on
    a generator with an empty tree stands for a node of the search tree
    the call leaves behind, with the same key: that node has the end
    flag, its payload carries the key as SCEN_ID, and the exported node
    holds the trajectories and covariances of the payload from sample
    obs_len on, END_T - CUR_T samples long, with its goal points.  The
    parent of an exported node, when it has one, is the parent of the
    node it stands for. *)
Theorem branch_aime_exports
        (lg0 : option LaneGraph) (bd0 : nat) (lcl_smp : LocalSample)
        (agent_obs : AgentObs) (rounds fuel : nat)
        (trees : list (Tree.t OutData)) (g' : Gen) :
  branch_aime obs_len pred_len cfg target_lane target_lane_info network
              rounds fuel (mkGen Tree.empty lg0 bd0) lcl_smp agent_obs = Ok (trees, g') ->
  forall st n, In st trees -> In n st ->
    exists m d,
      In m (tree g') /\ Tree.key m = Tree.key n /\
      end_flag (Tree.data m) = true /\
      data (Tree.data m) = Some d /\ SCEN_ID d = Tree.key n /\
      (CUR_T d <= END_T d <= pred_len)%nat /\
      segment (Tree.data n)
      = Some (segment_of obs_len (END_T d - CUR_T d) (TRAJS_POS_HIST d),
              segment_of obs_len (END_T d - CUR_T d) (TRAJS_COV_HIST d),
              TGT_PTS d) /\
      (forall p, Tree.parent_key n = Some p -> Tree.parent_key m = Some p).
Proof.
  intros H st n Hst Hn. unfold branch_aime in H.
  bind_inv H. destruct a as [bn g0]. bind_inv H. rename a into g.
  assert (Hsearch : search obs_len pred_len cfg target_lane target_lane_info network
                           lg0 bd0 lcl_smp agent_obs rounds = Ok g).
  { unfold search. rewrite Ha. exact Ha0. }
  destruct (@run_timed _ _ obs_len pred_len cfg target_lane target_lane_info network
                       lg0 bd0 lcl_smp agent_obs rounds g Hsearch)
    as (Ht & (Hnd & Hwk & _) & Hwf & _).
  pose proof Ht as Hpos. apply timed_positive in Hpos.
  destruct Ht as (Hnodes & _ & _). rewrite Forall_forall in Hnodes, Hwk.
  unfold finish in H.
  destruct (negb (0 <? List.length (get_end_set (tree g)))%nat); [discriminate|].
  bind_inv H. destruct a as [trees0 tr']. injection H as <- <-. cbn [tree].
  assert (Hleaf : forall x, In x (tree g) -> ended x = true -> Tree.is_leaf x = true).
  { intros x Hx He. destruct (Hnodes x Hx) as (_ & _ & _ & _ & H5 & H6 & _).
    destruct (Tree.is_leaf x) eqn:El; [reflexivity|].
    unfold ended in He. rewrite (H6 eq_refl), He in H5. discriminate. }
  destruct (@get_scenario_tree_exports _ obs_len fuel (tree g) tr' trees0
                                       Hwf Hpos Hleaf Ha1 st n Hst Hn)
    as (m & d & Hm & Hk & He & Hd & Hs & Hp).
  destruct (get_scenario_tree_labelled obs_len fuel Hnd Ha1) as [Hl _].
  destruct (Forall2_in_r Hl Hm) as (m0 & Hm0 & Hs0).
  destruct (labelled_node_shape Hs0) as (Hk0 & _ & _ & _ & Hd0 & _).
  rewrite Hd in Hd0. symmetry in Hd0.
  destruct (Hwk m0 Hm0) as [Hid _].
  destruct (Hnodes m0 Hm0) as (H1 & _). destruct (H1 d Hd0) as (Hw & _).
  exists m, d. split; [exact Hm|]. split; [exact Hk|]. split; [exact He|].
  split; [exact Hd|]. split; [rewrite (Hid d Hd0); congruence|].
  split; [exact Hw|]. split; [exact Hs | exact Hp].
Qed.

(** X16.  [branch_aime] loses no finished scenario: on a generator with an
    empty tree, every node that has the end flag in the search tree the
    call leaves behind, so every leaf of its end set, is a node of one
    of the returned scenario trees, and at least one scenario tree is
    returned. *)
Theorem branch_aime_exports_every_end_node
        (lg0 : option LaneGraph) (bd0 : nat) (lcl_smp : LocalSample)
        (agent_obs : AgentObs) (rounds fuel : nat)
        (trees : list (Tree.t OutData)) (g' : Gen) :
  branch_aime obs_len pred_len cfg target_lane target_lane_info network
              rounds fuel (mkGen Tree.empty lg0 bd0) lcl_smp agent_obs = Ok (trees, g') ->
  trees <> [] /\
  get_end_set (tree g') <> [] /\
  forall m, In m (tree g') -> end_flag (Tree.data m) = true ->
            exists st n, In st trees /\ In n st /\ Tree.key n = Tree.key m.
Proof.
  intros H. unfold branch_aime in H.
  bind_inv H. destruct a as [bn g0]. bind_inv H. rename a into g.
  assert (Hsearch : search obs_len pred_len cfg target_lane target_lane_info network
                           lg0 bd0 lcl_smp agent_obs rounds = Ok g).
  { unfold search. rewrite Ha. exact Ha0. }
  destruct (@run_timed _ _ obs_len pred_len cfg target_lane target_lane_info network
                       lg0 bd0 lcl_smp agent_obs rounds g Hsearch)
    as (Ht & (Hnd & _) & Hwf & Hpay).
  pose proof Ht as Hpos. apply timed_positive in Hpos.
  destruct Ht as (Hnodes & _ & _). rewrite Forall_forall in Hnodes.
  unfold finish in H.
  destruct (get_end_set (tree g)) as [|l0 ls] eqn:Eend; [discriminate|].
  cbn [List.length Nat.ltb Nat.leb negb] in H.
  bind_inv H. destruct a as [trees0 tr']. injection H as <- <-. cbn [tree].
  assert (Hleaf : forall x, In x (tree g) -> ended x = true ->
                            Tree.is_leaf x = true /\ Tree.parent_key x <> None).
  { intros x Hx He. destruct (Hnodes x Hx) as (H1 & _ & _ & _ & H5 & H6 & H7). split.
    - destruct (Tree.is_leaf x) eqn:El; [reflexivity|].
      unfold ended in He. rewrite (H6 eq_refl), He in H5. discriminate.
    - destruct (data (Tree.data x)) as [d|] eqn:Ed.
      + destruct (H1 d eq_refl) as (_ & Hp & _). congruence.
      + unfold ended in He. rewrite (H7 eq_refl) in He. discriminate. }
  pose proof (@get_scenario_tree_complete _ obs_len fuel (tree g) tr' trees0
                                          Hwf Hpos Hleaf Ha1) as Hall.
  destruct (get_scenario_tree_labelled obs_len fuel Hnd Ha1) as [Hl _].
  assert (Hl0 : In l0 (get_end_set (tree g))) by (rewrite Eend; left; reflexivity).
  unfold get_end_set in Hl0. apply filter_In in Hl0. destruct Hl0 as [Hl0 He0].
  unfold Tree.get_leaf_nodes in Hl0. apply filter_In in Hl0. destruct Hl0 as [Hl0 Hlf0].
  destruct (Forall2_in_l Hl Hl0) as (l1 & Hl1 & Hsl).
  destruct (labelled_node_shape Hsl) as (_ & _ & Hlc & _ & _ & Hle).
  split; [|split; [|exact Hall]].
  - destruct (Hall l1 Hl1 (Hle He0)) as (st & _ & Hst & _).
    intro E. rewrite E in Hst. destruct Hst.
  - intro E.
    assert (Hin : In l1 (get_end_set tr')).
    { unfold get_end_set, Tree.get_leaf_nodes. apply filter_In. split; [|apply Hle; exact He0].
      apply filter_In. split; [exact Hl1|]. unfold Tree.is_leaf in *. rewrite Hlc. exact Hlf0. }
    rewrite E in Hin. destruct Hin.
Qed.

End ExportedRun.

(* ================================================================== *)
(** ** The trajectory bases of the decoder *)

Module DecoderFacts.
Import Decoder.


















Lemma sumQ_ext (l1 l2 : list Q) : Forall2 Qeq l1 l2 -> sumQ l1 == sumQ l2.
Proof.
  induction 1 as [|x y l1 l2 Hxy _ IH]; [reflexivity|]. rewrite !sumQ_cons, Hxy, IH. reflexivity.
Qed.



















End DecoderFacts.

(* ================================================================== *)
(** ** The properties on the example scenes *)

(** The pass of [decide_branch] over a leaf whose covariance grows
    slowly: the leaf joins the end set. *)
Lemma decide_branch_flags_exclusive_witness :
  exists tr',
    Sapling.decided Examples.slow_growth = Ok tr' /\
    (forall n, In n tr' -> Tree.is_leaf n = true ->
               branch_flag (Tree.data n) && end_flag (Tree.data n) = false) /\
    (forall (bd : nat) n,
        In n (fst (get_branch_set (mkGen tr' (Some tt) bd))) -> ~ In n (get_end_set tr')).
Proof.
  assert (Hrun : is_ok (Sapling.decided Examples.slow_growth) = true)
    by (vm_compute; reflexivity).
  destruct (Sapling.decided Examples.slow_growth) as [tr'|e] eqn:E; [|discriminate Hrun].
  exists tr'. split; [reflexivity|].
  exact (decide_branch_flags_exclusive _ _ _ _ _ _ _ E).
Defined.

(** The pass over a leaf whose covariance grows fast: the leaf joins the
    branch set. *)
Lemma decide_branch_changes_leaves_only_witness :
  exists tr',
    Sapling.decided Examples.fast_growth = Ok tr' /\
    List.length tr' = 2%nat /\
    map (@Tree.key _) (Tree.get_leaf_nodes tr') = ["0_0_0"%string].
Proof.
  assert (Hrun : is_ok (Sapling.decided Examples.fast_growth) = true)
    by (vm_compute; reflexivity).
  destruct (Sapling.decided Examples.fast_growth) as [tr'|e] eqn:E; [|discriminate Hrun].
  exists tr'. split; [reflexivity|].
  destruct (decide_branch_changes_leaves_only _ _ _ _ _ _ _ E) as (Hlen & Hleaves & _).
  split; [exact Hlen | exact Hleaves].
Defined.

(** The first round of the scene with two agents: both modes of the
    root pass the thresholds. *)
Lemma prune_merge_thresholds_witness :
  exists o preds,
    Solo.root_of Scene.agent_obs = Ok o /\
    prune_merge (B := Concrete.backend) (U := Concrete.utils)
                Scene.obs_len Scene.pred_len Scene.cfg Scene.target_lane
                0 [o] [Scene.calm o] = Ok preds /\
    List.length preds = 2%nat /\
    forall p, In p preds -> 1 # 1000 <= SCEN_PROB p.
Proof.
  assert (Hrun : match Solo.root_of Scene.agent_obs with
                 | Ok o =>
                     match prune_merge (B := Concrete.backend) (U := Concrete.utils)
                                       Scene.obs_len Scene.pred_len Scene.cfg
                                       Scene.target_lane 0 [o] [Scene.calm o] with
                     | Ok preds => (List.length preds =? 2)%nat
                     | Raise _ => false
                     end
                 | Raise _ => false
                 end = true) by (vm_compute; reflexivity).
  destruct (Solo.root_of Scene.agent_obs) as [o|e]; [|discriminate Hrun].
  destruct (prune_merge (B := Concrete.backend) (U := Concrete.utils)
                        Scene.obs_len Scene.pred_len Scene.cfg Scene.target_lane
                        0 [o] [Scene.calm o]) as [preds|e] eqn:E; [|discriminate Hrun].
  exists o, preds. split; [reflexivity|]. split; [exact E|].
  split; [apply Nat.eqb_eq; exact Hrun|].
  intros p Hp. exact (proj1 (prune_merge_thresholds _ _ _ _ _ _ _ E p Hp)).
Defined.

Lemma prune_merge_provenance_witness :
  exists o preds,
    Solo.root_of Scene.agent_obs = Ok o /\
    prune_merge (B := Concrete.backend) (U := Concrete.utils)
                Scene.obs_len Scene.pred_len Scene.cfg Scene.target_lane
                0 [o] [Scene.calm o] = Ok preds /\
    forall p, In p preds ->
              exists m q, SCEN_ID p = scen_id_of 0 0 m /\ predicted_from o q p.
Proof.
  assert (Hrun : match Solo.root_of Scene.agent_obs with
                 | Ok o =>
                     is_ok (prune_merge (B := Concrete.backend) (U := Concrete.utils)
                                        Scene.obs_len Scene.pred_len Scene.cfg
                                        Scene.target_lane 0 [o] [Scene.calm o])
                 | Raise _ => false
                 end = true) by (vm_compute; reflexivity).
  destruct (Solo.root_of Scene.agent_obs) as [o|e]; [|discriminate Hrun].
  destruct (prune_merge (B := Concrete.backend) (U := Concrete.utils)
                        Scene.obs_len Scene.pred_len Scene.cfg Scene.target_lane
                        0 [o] [Scene.calm o]) as [preds|e] eqn:E; [|discriminate Hrun].
  exists o, preds. split; [reflexivity|]. split; [exact E|].
  intros p Hp.
  destruct (prune_merge_provenance _ _ _ _ _ _ _ E p Hp)
    as (j & o' & net & row0 & m & q & Hj & _ & _ & _ & Hid & Hfrom).
  destruct j as [|j]; [|destruct j; discriminate Hj].
  injection Hj as <-. exists m, q. split; [exact Hid | exact Hfrom].
Defined.

Lemma prune_merge_one_by_probability_witness :
  exists o sel qs,
    Solo.root_of Scene.agent_obs = Ok o /\
    prune_merge_one (B := Concrete.backend) (U := Concrete.utils)
                    Scene.obs_len Scene.pred_len Scene.cfg Scene.target_lane
                    0 0 o (Scene.calm o) = Ok sel /\
    Forall2 (fun p q => SCEN_PROB p = q * Obs.SCEN_PROB o) sel qs /\
    ForallOrdPairs (fun q q' => q' <= q) qs.
Proof.
  assert (Hrun : match Solo.root_of Scene.agent_obs with
                 | Ok o =>
                     is_ok (prune_merge_one (B := Concrete.backend) (U := Concrete.utils)
                                            Scene.obs_len Scene.pred_len Scene.cfg
                                            Scene.target_lane 0 0 o (Scene.calm o))
                 | Raise _ => false
                 end = true) by (vm_compute; reflexivity).
  destruct (Solo.root_of Scene.agent_obs) as [o|e]; [|discriminate Hrun].
  destruct (prune_merge_one (B := Concrete.backend) (U := Concrete.utils)
                            Scene.obs_len Scene.pred_len Scene.cfg Scene.target_lane
                            0 0 o (Scene.calm o)) as [sel|e] eqn:E; [|discriminate Hrun].
  destruct (prune_merge_one_by_probability _ _ _ _ _ _ _ _ E) as (qs & Hqs & Hord).
  exists o, sel, qs. split; [reflexivity|]. split; [exact E|]. split; assumption.
Defined.

(** The scene of the ego alone: two modes that differ in nothing but
    their probabilities are merged into one scenario. *)
Lemma prune_merge_single_agent_witness :
  exists o preds,
    Solo.root_of Solo.track_obs = Ok o /\
    prune_merge (B := Concrete.backend) (U := Concrete.utils)
                Scene.obs_len Scene.pred_len Scene.cfg Scene.target_lane
                0 [o] [Solo.close_modes 0.6 0.4] = Ok preds /\
    (List.length preds <= 1)%nat.
Proof.
  assert (Hrun : match Solo.root_of Solo.track_obs with
                 | Ok o =>
                     (List.length (Obs.TRAJS_CTRS (Obs.TRAJS o)) <=? 1)%nat
                     && is_ok (prune_merge (B := Concrete.backend) (U := Concrete.utils)
                                           Scene.obs_len Scene.pred_len Scene.cfg
                                           Scene.target_lane 0 [o] [Solo.close_modes 0.6 0.4])
                 | Raise _ => false
                 end = true) by (vm_compute; reflexivity).
  destruct (Solo.root_of Solo.track_obs) as [o|e]; [|discriminate Hrun].
  apply andb_prop in Hrun. destruct Hrun as [Hone Hok]. apply Nat.leb_le in Hone.
  destruct (prune_merge (B := Concrete.backend) (U := Concrete.utils)
                        Scene.obs_len Scene.pred_len Scene.cfg Scene.target_lane
                        0 [o] [Solo.close_modes 0.6 0.4]) as [preds|e] eqn:E; [|discriminate Hok].
  exists o, preds. split; [reflexivity|]. split; [exact E|].
  refine (prune_merge_single_agent _ _ _ _ _ _ _ _ E).
  intros o' [<-|[]]. exact Hone.
Defined.

(** The search of the scene with two agents under the network
    [Scene.calm], with at most five rounds. *)
Lemma search_tree_structure_witness :
  exists g r rest,
    search (B := Concrete.backend) (U := Concrete.utils)
           Scene.obs_len Scene.pred_len Scene.cfg Scene.target_lane Scene.target_lane_info
           (Scene.network Scene.calm) None 0 Scene.lcl_smp Scene.agent_obs 5 = Ok g /\
    tree g = r :: rest /\
    Tree.key r = "root"%string /\
    forall n, In n rest ->
              exists pn d, In pn (tree g) /\ Tree.parent_key n = Some (Tree.key pn) /\
                           data (Tree.data n) = Some d /\ SCEN_ID d = Tree.key n.
Proof.
  pose proof (search_tree_structure (B := Concrete.backend) (U := Concrete.utils)
                Scene.obs_len Scene.pred_len Scene.cfg Scene.target_lane
                Scene.target_lane_info (Scene.network Scene.calm)
                None 0 Scene.lcl_smp Scene.agent_obs 5) as H.
  match type of H with
  | forall g, ?r = Ok g -> _ =>
      assert (Hok : is_ok r = true) by (vm_compute; reflexivity);
      destruct r as [g|e]; [|discriminate Hok]
  end.
  destruct (H g eq_refl) as (r & rest & Htr & Hk & _ & _ & _ & Hrest).
  exists g, r, rest. split; [reflexivity|]. split; [exact Htr|]. split; [exact Hk|].
  intros n Hn. destruct (Hrest n Hn) as (pn & d & Hpn & Hp & _ & _ & Hd & Hid & _).
  exists pn, d. auto.
Defined.

Lemma search_tree_windows_witness :
  exists g,
    search (B := Concrete.backend) (U := Concrete.utils)
           Scene.obs_len Scene.pred_len Scene.cfg Scene.target_lane Scene.target_lane_info
           (Scene.network Scene.calm) None 0 Scene.lcl_smp Scene.agent_obs 5 = Ok g /\
    forall n d, In n (tree g) -> data (Tree.data n) = Some d ->
                (CUR_T d <= END_T d <= Scene.pred_len)%nat.
Proof.
  pose proof (search_tree_windows (B := Concrete.backend) (U := Concrete.utils)
                Scene.obs_len Scene.pred_len Scene.cfg Scene.target_lane
                Scene.target_lane_info (Scene.network Scene.calm)
                None 0 Scene.lcl_smp Scene.agent_obs 5) as H.
  match type of H with
  | forall g, ?r = Ok g -> _ =>
      assert (Hok : is_ok r = true) by (vm_compute; reflexivity);
      destruct r as [g|e]; [|discriminate Hok]
  end.
  exists g. split; [reflexivity|].
  intros n d Hn Hd. exact (proj1 (H g eq_refl n d Hn Hd)).
Defined.

Lemma search_tree_depths_witness :
  exists g,
    search (B := Concrete.backend) (U := Concrete.utils)
           Scene.obs_len Scene.pred_len Scene.cfg Scene.target_lane Scene.target_lane_info
           (Scene.network Scene.calm) None 0 Scene.lcl_smp Scene.agent_obs 5 = Ok g /\
    forall n, In n (tree g) -> (Tree.depth n <= 3)%nat.
Proof.
  pose proof (search_tree_depths (B := Concrete.backend) (U := Concrete.utils)
                Scene.obs_len Scene.pred_len Scene.cfg Scene.target_lane
                Scene.target_lane_info (Scene.network Scene.calm)
                None 0 Scene.lcl_smp Scene.agent_obs 5) as H.
  match type of H with
  | forall g, ?r = Ok g -> _ =>
      assert (Hok : is_ok r = true) by (vm_compute; reflexivity);
      destruct r as [g|e]; [|discriminate Hok]
  end.
  exists g. split; [reflexivity|].
  intros n Hn. exact (proj1 (H g eq_refl n Hn)).
Defined.

(** The call of [branch_aime] on that scene. *)
Lemma branch_aime_leaf_probabilities_witness :
  exists trees g',
    branch_aime (B := Concrete.backend) (U := Concrete.utils)
                Scene.obs_len Scene.pred_len Scene.cfg Scene.target_lane
                Scene.target_lane_info (Scene.network Scene.calm)
                5 20 (mkGen Tree.empty None 0) Scene.lcl_smp Scene.agent_obs = Ok (trees, g') /\
    forall st, In st trees -> exists qs, leaf_probs st = map Fin qs /\ Qsum qs == 1.
Proof.
  pose proof (branch_aime_leaf_probabilities (B := Concrete.backend) (U := Concrete.utils)
                Scene.obs_len Scene.pred_len Scene.cfg Scene.target_lane
                Scene.target_lane_info (Scene.network Scene.calm)
                None 0 Scene.lcl_smp Scene.agent_obs 5 20) as H.
  match type of H with
  | forall trees g', ?r = _ -> _ =>
      assert (Hok : is_ok r = true) by (vm_compute; reflexivity);
      destruct r as [[trees g']|e]; [|discriminate Hok]
  end.
  exists trees, g'. split; [reflexivity|].
  intros st Hst. exact (proj1 (proj2 (H trees g' eq_refl st Hst))).
Defined.

Lemma get_scenario_tree_labels_witness :
  exists g trees tr',
    search (B := Concrete.backend) (U := Concrete.utils)
           Scene.obs_len Scene.pred_len Scene.cfg Scene.target_lane Scene.target_lane_info
           (Scene.network Scene.calm) None 0 Scene.lcl_smp Scene.agent_obs 5 = Ok g /\
    get_scenario_tree (U := Concrete.utils) Scene.obs_len 20 (tree g) = Ok (trees, tr') /\
    labelled (tree g) tr'.
Proof.
  pose proof (run_timed (B := Concrete.backend) (U := Concrete.utils)
                Scene.obs_len Scene.pred_len Scene.cfg Scene.target_lane
                Scene.target_lane_info (Scene.network Scene.calm)
                None 0 Scene.lcl_smp Scene.agent_obs 5) as H.
  match type of H with
  | forall g, ?r = Ok g -> _ =>
      assert (Hok : match r with
                    | Ok g => is_ok (get_scenario_tree (U := Concrete.utils)
                                                       Scene.obs_len 20 (tree g))
                    | Raise _ => false
                    end = true) by (vm_compute; reflexivity);
      destruct r as [g|e]; [|discriminate Hok]
  end.
  destruct (get_scenario_tree (U := Concrete.utils) Scene.obs_len 20 (tree g))
    as [[trees tr']|e] eqn:Eget; [|discriminate Hok].
  exists g, trees, tr'. split; [reflexivity|]. split; [exact Eget|].
  destruct (H g eq_refl) as (_ & (Hnd & _) & _).
  exact (proj1 (@get_scenario_tree_labels _ Scene.obs_len 20 _ _ _ Hnd Eget)).
Defined.

Lemma branch_aime_exports_witness :
  exists trees g',
    branch_aime (B := Concrete.backend) (U := Concrete.utils)
                Scene.obs_len Scene.pred_len Scene.cfg Scene.target_lane
                Scene.target_lane_info (Scene.network Scene.calm)
                5 20 (mkGen Tree.empty None 0) Scene.lcl_smp Scene.agent_obs = Ok (trees, g') /\
    forall st n, In st trees -> In n st ->
                 exists m, In m (tree g') /\ Tree.key m = Tree.key n /\
                           end_flag (Tree.data m) = true /\
                           segment (Tree.data n) <> None.
Proof.
  pose proof (branch_aime_exports (B := Concrete.backend) (U := Concrete.utils)
                Scene.obs_len Scene.pred_len Scene.cfg Scene.target_lane
                Scene.target_lane_info (Scene.network Scene.calm)
                None 0 Scene.lcl_smp Scene.agent_obs 5 20) as H.
  match type of H with
  | forall trees g', ?r = _ -> _ =>
      assert (Hok : is_ok r = true) by (vm_compute; reflexivity);
      destruct r as [[trees g']|e]; [|discriminate Hok]
  end.
  exists trees, g'. split; [reflexivity|].
  intros st n Hst Hn.
  destruct (H trees g' eq_refl st n Hst Hn) as (m & d & Hm & Hk & He & _ & _ & _ & Hs & _).
  exists m. split; [exact Hm|]. split; [exact Hk|]. split; [exact He|].
  rewrite Hs. discriminate.
Defined.

Lemma branch_aime_exports_every_end_node_witness :
  exists trees g',
    branch_aime (B := Concrete.backend) (U := Concrete.utils)
                Scene.obs_len Scene.pred_len Scene.cfg Scene.target_lane
                Scene.target_lane_info (Scene.network Scene.calm)
                5 20 (mkGen Tree.empty None 0) Scene.lcl_smp Scene.agent_obs = Ok (trees, g') /\
    trees <> [] /\
    forall m, In m (get_end_set (tree g')) ->
              exists st n, In st trees /\ In n st /\ Tree.key n = Tree.key m.
Proof.
  pose proof (branch_aime_exports_every_end_node (B := Concrete.backend) (U := Concrete.utils)
                Scene.obs_len Scene.pred_len Scene.cfg Scene.target_lane
                Scene.target_lane_info (Scene.network Scene.calm)
                None 0 Scene.lcl_smp Scene.agent_obs 5 20) as H.
  match type of H with
  | forall trees g', ?r = _ -> _ =>
      assert (Hok : is_ok r = true) by (vm_compute; reflexivity);
      destruct r as [[trees g']|e]; [|discriminate Hok]
  end.
  exists trees, g'. split; [reflexivity|].
  destruct (H trees g' eq_refl) as (Hne & _ & Hall).
  split; [exact Hne|].
  intros m Hm. unfold get_end_set in Hm. apply filter_In in Hm. destruct Hm as [Hm He].
  unfold Tree.get_leaf_nodes in Hm. apply filter_In in Hm. destruct Hm as [Hm _].
  exact (Hall m Hm He).
Defined.
